(** * kode_orch: scheduler, chat lock and safe-command policy

    A shallow embedding of these components of the orchestrator:

    - [ChatLock]      (orchestrator/chat-lock.ts), the async mutex shared by
                      user turns and the injection queue;
    - [SafeCommands]  (orchestrator/safe-commands.ts), the predicate that
                      decides whether a shell command is auto-approved;
    - [BgTaskRunner]  (orchestrator/bg-task-runner.ts), the background task
                      scheduler, together with the [bg_task_retry] tool of
                      tools/bg-task-run.ts;
    - [BgTaskTools]   (tools/bg-task-run.ts), the [bg_task_redo] tool;
    - [InjectionQueue] (orchestrator/injection-queue.ts), the queue that
                      hands the results of the tasks to the orchestrator
                      agent, one at a time, under the chat lock.

    JavaScript runs one job at a time: code between two [await]s is atomic.
    Every model below therefore takes one atomic segment of the source as one
    transition, and an [await] as the boundary between two transitions. *)

From stdpp Require Import gmap strings list fin_maps pretty sorting.
From Stdlib Require Import ZArith Lia.

Local Open Scope Z_scope.

(* ===================================================================== *)
(** * ChatLock *)
(* ===================================================================== *)

Module ChatLock.

(** A caller is one invocation of [acquire()]; the number names the
    continuation that the source keeps as the [resolve] callback. *)
Definition Caller := nat.

(** [locked] and [waiters] are the two fields of the class.  [woken] is the
    job queue of the promises resolved by [release()] whose continuation has
    not run yet (promise jobs run first-in first-out).  [acquired] logs, in
    order, the callers whose [acquire()] has set [locked = true]. *)
Record t := mk {
  locked   : bool;
  waiters  : list Caller;
  woken    : list Caller;
  acquired : list Caller;
}.

Definition init : t :=
  {| locked := false; waiters := []; woken := []; acquired := [] |}.

(** One evaluation of the loop test of [acquire()] by caller [c]:
    [while (this.locked) await new Promise(r => this.waiters.push(r));
     this.locked = true]. *)
Definition enter (c : Caller) (l : t) : t :=
  if locked l
  then {| locked := true; waiters := waiters l ++ [c];
          woken := woken l; acquired := acquired l |}
  else {| locked := true; waiters := waiters l;
          woken := woken l; acquired := acquired l ++ [c] |}.

(** [acquire()] called by [c]: the body runs synchronously up to its first
    [await]. *)
Definition acquire (c : Caller) (l : t) : t := enter c l.

(** [release()]: [this.locked = false; const next = this.waiters.shift();
    if (next) next();].  Calling [next] only resolves the promise: the
    waiter's continuation is queued, it does not run inside [release]. *)
Definition release (l : t) : t :=
  match waiters l with
  | [] => {| locked := false; waiters := []; woken := woken l;
             acquired := acquired l |}
  | next :: rest => {| locked := false; waiters := rest;
                       woken := woken l ++ [next]; acquired := acquired l |}
  end.

(** The continuation of the oldest resolved waiter runs: it is back at the
    loop test of [acquire()]. *)
Definition resume (l : t) : t :=
  match woken l with
  | [] => l
  | c :: rest =>
      enter c {| locked := locked l; waiters := waiters l;
                 woken := rest; acquired := acquired l |}
  end.

Definition isLocked (l : t) : bool := locked l.

Inductive Op := Acquire (c : Caller) | Release | Resume.

Definition step (o : Op) (l : t) : t :=
  match o with
  | Acquire c => acquire c l
  | Release => release l
  | Resume => resume l
  end.

Definition run (ops : list Op) (l : t) : t :=
  foldl (fun l o => step o l) l ops.

End ChatLock.

(* ===================================================================== *)
(** * Safe commands *)
(* ===================================================================== *)

Module SafeCommands.

(** ** Strings and values

    The policy inspects single characters, so a JavaScript string is modelled
    as what it is: a sequence of UTF-16 code units. *)
Definition jsstring := list N.

(** An ASCII literal of the source as a JavaScript string. *)
Definition js (s : string) : jsstring :=
  map Ascii.N_of_ascii (String.list_ascii_of_string s).

(** [\s] of regular expressions and the set removed by [String.prototype.trim]
    (ECMAScript WhiteSpace and LineTerminator). *)
Definition is_space (c : N) : bool :=
  ((9 <=? c) && (c <=? 13) || (c =? 32) || (c =? 160) || (c =? 5760)
   || (8192 <=? c) && (c <=? 8202) || (c =? 8232) || (c =? 8233)
   || (c =? 8239) || (c =? 8287) || (c =? 12288) || (c =? 65279))%N.

(** [\w]: [A-Za-z0-9_]. *)
Definition is_word (c : N) : bool :=
  ((48 <=? c) && (c <=? 57) || (65 <=? c) && (c <=? 90) || (c =? 95)
   || (97 <=? c) && (c <=? 122))%N.

(** Line terminators, the characters [.] does not match. *)
Definition is_line_terminator (c : N) : bool :=
  ((c =? 10) || (c =? 13) || (c =? 8232) || (c =? 8233))%N.

(** Canonicalisation of the [i] flag (no [u] flag): a code unit outside ASCII
    never canonicalises to an ASCII one, so against the ASCII characters of
    the patterns only ASCII letters fold. *)
Definition upper (c : N) : N :=
  (if (97 <=? c) && (c <=? 122) then c - 32 else c)%N.

Fixpoint trimStart (s : jsstring) : jsstring :=
  match s with
  | [] => []
  | c :: s' => if is_space c then trimStart s' else s
  end.

Definition trimEnd (s : jsstring) : jsstring := rev (trimStart (rev s)).

(** [String.prototype.trim]. *)
Definition trim (s : jsstring) : jsstring := trimEnd (trimStart s).

Fixpoint startsWith (s p : jsstring) : bool :=
  match p, s with
  | [], _ => true
  | _ :: _, [] => false
  | a :: p', b :: s' => (a =? b)%N && startsWith s' p'
  end.

(** [===] on two strings. *)
Fixpoint streq (a b : jsstring) : bool :=
  match a, b with
  | [], [] => true
  | x :: a', y :: b' => (x =? y)%N && streq a' b'
  | _, _ => false
  end.

(** The values [inputPreview : unknown] may hold.  A number is kept only as
    far as its truthiness needs (no fractions); [JOther] stands for the values
    whose [typeof] is neither ['string'] nor ['object'] (functions, symbols,
    big integers), with their truthiness. *)
#[local] Set Warnings "-register-all".
Inductive JSValue :=
| JUndefined
| JNull
| JBool (b : bool)
| JNaN
| JNumber (n : Z)
| JString (s : jsstring)
| JOther (truthy : bool)
| JObject (props : list (jsstring * JSValue))
| JArray (elems : list JSValue).

(** [!v] is false. *)
Definition truthy (v : JSValue) : bool :=
  match v with
  | JUndefined | JNull | JNaN => false
  | JBool b => b
  | JNumber n => negb (n =? 0)
  | JString s => match s with [] => false | _ => true end
  | JOther b => b
  | JObject _ | JArray _ => true
  end.

(** [preview.name] for one of the field names of [candidates]: own
    properties of a plain object; an array has none of these names. *)
Fixpoint getProp (props : list (jsstring * JSValue)) (name : jsstring) : JSValue :=
  match props with
  | [] => JUndefined
  | (k, v) :: rest => if streq k name then v else getProp rest name
  end.

Definition field (v : JSValue) (name : jsstring) : JSValue :=
  match v with
  | JObject props => getProp props name
  | _ => JUndefined
  end.

(** The values of the own enumerable properties, one per key of
    [Object.keys(preview)]. *)
Definition ownValues (v : JSValue) : list JSValue :=
  match v with
  | JObject props => map snd props
  | JArray elems => elems
  | _ => []
  end.

Definition candidateNames : list jsstring :=
  map js ["command"; "cmd"; "script"; "args"; "input"; "shell"; "exec"; "run";
          "content"; "code"; "value"]%string.

(** [for (const c of candidates) if (typeof c === 'string' && c.trim())
    return c.trim();] *)
Fixpoint firstCandidate (cs : list JSValue) : option jsstring :=
  match cs with
  | [] => None
  | JString c :: rest =>
      match trim c with
      | [] => firstCandidate rest
      | t => Some t
      end
  | _ :: rest => firstCandidate rest
  end.

Section Extract.

(** [JSON.stringify] is a built-in of the host; it is a parameter of the
    model.  [None] stands for a call that throws or returns [undefined]
    (reading [json.length] then throws inside the same [try]). *)
Variable JSON_stringify : JSValue -> option jsstring.

Definition extractCommand (inputPreview : JSValue) : option jsstring :=
  if negb (truthy inputPreview) then None
  else match inputPreview with
  | JString s => Some (trim s)
  | JObject _ | JArray _ =>
      match firstCandidate (map (field inputPreview) candidateNames) with
      | Some c => Some c
      | None =>
          match ownValues inputPreview with
          | [JString s] => Some (trim s)
          | _ =>
              match JSON_stringify inputPreview with
              | Some json =>
                  if (length json <? 500)%nat then Some json else None
              | None => None
              end
          end
      end
  | _ => None
  end.

End Extract.

(** ** Regular expressions

    The fragment of ECMAScript patterns the file uses, with the backtracking
    semantics of the language: alternatives are tried left to right, [*] is
    greedy and an iteration that consumes nothing is rejected.  The matcher
    carries the previous code unit, which [\b] and [^] look at. *)
Inductive regex :=
| Eps
| Cls (p : N -> bool)
| Seq (r1 r2 : regex)
| Alt (r1 r2 : regex)
| Star (r : regex)
| Bnd
| Bol.

Definition Chr (c : N) : regex := Cls (N.eqb c).
Definition ChrI (c : N) : regex := Cls (fun x => (upper x =? upper c)%N).
Definition Plus (r : regex) : regex := Seq r (Star r).

Fixpoint seqs (rs : list regex) : regex :=
  match rs with
  | [] => Eps
  | [r] => r
  | r :: rest => Seq r (seqs rest)
  end.

Fixpoint alts (rs : list regex) : regex :=
  match rs with
  | [] => Cls (fun _ => false)
  | [r] => r
  | r :: rest => Alt r (alts rest)
  end.

(** A literal, and a literal under the [i] flag. *)
Definition lit (s : string) : regex := seqs (map Chr (js s)).
Definition litI (s : string) : regex := seqs (map ChrI (js s)).

Definition ws : regex := Cls is_space.                       (* \s *)
Definition nws : regex := Cls (fun c => negb (is_space c)).  (* \S *)
Definition dot : regex := Cls (fun c => negb (is_line_terminator c)).
Definition notChr (c : N) : regex := Cls (fun x => negb (x =? c)%N).

Definition is_word_before (prev : option N) : bool :=
  match prev with Some c => is_word c | None => false end.
Definition is_word_after (s : jsstring) : bool :=
  match s with c :: _ => is_word c | [] => false end.

(** [matcher r prev s k]: match [r] at the head of [s] and hand what is left
    to the continuation [k]; the first success in priority order wins. *)
Fixpoint matcher {A} (r : regex) (prev : option N) (s : jsstring)
    (k : option N -> jsstring -> option A) : option A :=
  match r with
  | Eps => k prev s
  | Cls p =>
      match s with
      | c :: s' => if p c then k (Some c) s' else None
      | [] => None
      end
  | Seq r1 r2 => matcher r1 prev s (fun prev' s' => matcher r2 prev' s' k)
  | Alt r1 r2 =>
      match matcher r1 prev s k with
      | Some x => Some x
      | None => matcher r2 prev s k
      end
  | Star r1 =>
      (fix star (fuel : nat) (prev : option N) (s : jsstring) : option A :=
         match fuel with
         | O => k prev s
         | S fuel' =>
             match matcher r1 prev s (fun prev' s' =>
                     if (length s' <? length s)%nat
                     then star fuel' prev' s' else None) with
             | Some x => Some x
             | None => k prev s
             end
         end) (length s) prev s
  | Bnd =>
      if xorb (is_word_before prev) (is_word_after s) then k prev s else None
  | Bol => match prev with None => k prev s | Some _ => None end
  end.

(** The match of [r] that starts exactly here, as the text left after it. *)
Definition matchHere (r : regex) (prev : option N) (s : jsstring) : option jsstring :=
  matcher r prev s (fun _ rest => Some rest).

(** [r.test(s)]: is there a match starting at some index. *)
Fixpoint testFrom (r : regex) (prev : option N) (s : jsstring) : bool :=
  match matchHere r prev s with
  | Some _ => true
  | None =>
      match s with
      | [] => false
      | c :: s' => testFrom r (Some c) s'
      end
  end.

Definition test (r : regex) (s : jsstring) : bool := testFrom r None s.

(** [s.replace(r, '')] for a pattern without the [g] flag: the leftmost match
    is cut out. *)
Fixpoint replaceFrom (r : regex) (prev : option N) (s : jsstring) : jsstring :=
  match matchHere r prev s with
  | Some rest => rest
  | None =>
      match s with
      | [] => []
      | c :: s' => c :: replaceFrom r (Some c) s'
      end
  end.

Definition replaceEmpty (r : regex) (s : jsstring) : jsstring := replaceFrom r None s.

(** ** The two tables *)

Definition SAFE_COMMAND_PREFIXES : list jsstring := map js [
  "ls"; "cat"; "head"; "tail"; "less"; "more";
  "wc"; "file"; "stat"; "du"; "df";
  "find"; "locate"; "tree";
  "grep"; "egrep"; "fgrep"; "rg"; "ag"; "ack";
  "pwd"; "whoami"; "id"; "which"; "type"; "where";
  "echo"; "printf";
  "date"; "uptime"; "uname"; "hostname";
  "env"; "printenv";
  "free"; "top -bn1"; "ps"; "lsof";
  "nproc"; "lscpu"; "arch";
  "curl"; "wget -O -"; "wget --spider"; "wget -q";
  "ping -c"; "dig"; "nslookup"; "host";
  "node --version"; "node -v"; "node -e";
  "npm list"; "npm ls"; "npm view"; "npm info"; "npm show";
  "npm --version"; "npm -v";
  "npx --version";
  "pnpm list"; "pnpm ls"; "pnpm --version";
  "python --version"; "python3 --version"; "python -V"; "python3 -V";
  "pip list"; "pip show"; "pip3 list"; "pip3 show";
  "go version"; "rustc --version"; "cargo --version";
  "java -version"; "javac -version";
  "git status"; "git log"; "git diff"; "git show";
  "git branch"; "git tag"; "git remote";
  "git ls-files"; "git ls-tree"; "git rev-parse";
  "git describe"; "git blame"; "git shortlog";
  "git stash list"; "git config --list"; "git config --get";
  "npm run lint"; "npm run typecheck"; "npm run check";
  "npm run build"; "npm run test"; "npm test"; "npm run dev";
  "pnpm run lint"; "pnpm run build"; "pnpm run test"; "pnpm test";
  "npx tsc --noEmit"; "npx tsc";
  "tsc"; "eslint"; "prettier --check"; "jest"; "vitest"; "mocha";
  "pytest"; "go test"; "cargo test";
  "make check"; "make test"; "make lint";
  "jq"; "yq";
  "diff"; "cmp"; "md5sum"; "sha256sum"; "shasum";
  "sort"; "uniq"; "cut"; "awk"; "sed -n"; "tr";
  "basename"; "dirname"; "realpath"; "readlink"
]%string.

(** [/\bword\s/], [/\bword\b/] and [/\bfirst\s+second\b/]. *)
Definition wordThenSpace (w : string) : regex := seqs [Bnd; lit w; ws].
Definition wholeWord (w : string) : regex := seqs [Bnd; lit w; Bnd].
Definition twoWords (w1 w2 : string) : regex :=
  seqs [Bnd; lit w1; Plus ws; lit w2; Bnd].

Definition DANGEROUS_PATTERNS : list regex := [
  wordThenSpace "rm";
  wholeWord "rmdir";
  wholeWord "mkdir";
  wordThenSpace "mv";
  wordThenSpace "cp";
  wholeWord "chmod";
  wholeWord "chown";
  wholeWord "sudo";
  wordThenSpace "su";
  seqs [lit ">"; Star ws];
  wholeWord "dd";
  wholeWord "kill";
  wholeWord "pkill";
  wholeWord "shutdown";
  wholeWord "reboot";
  wholeWord "systemctl";
  wholeWord "service";
  twoWords "npm" "publish";
  twoWords "git" "push";
  twoWords "git" "reset";
  twoWords "git" "checkout";
  twoWords "git" "merge";
  twoWords "git" "rebase";
  twoWords "git" "commit";
  twoWords "git" "add";
  (* /\bcurl\s.*(-X\s*(POST|PUT|DELETE|PATCH)|-d\s)/i *)
  seqs [Bnd; litI "curl"; ws; Star dot;
        Alt (seqs [litI "-X"; Star ws;
                   alts [litI "POST"; litI "PUT"; litI "DELETE"; litI "PATCH"]])
            (seqs [litI "-d"; ws])];
  (* /\bwget\s.*-O\s+[^-]/ *)
  seqs [Bnd; lit "wget"; ws; Star dot; lit "-O"; Plus ws; notChr 45];
  (* /`[^`]+`/ *)
  seqs [Chr 96; Plus (notChr 96); Chr 96];
  (* /\$\(/ *)
  lit "$(";
  (* /\|\s*(bash|sh|zsh|exec)\b/ *)
  seqs [lit "|"; Star ws; alts [lit "bash"; lit "sh"; lit "zsh"; lit "exec"]; Bnd];
  (* /;\s*(rm|mv|cp|chmod|chown|sudo)\b/ *)
  seqs [lit ";"; Star ws;
        alts [lit "rm"; lit "mv"; lit "cp"; lit "chmod"; lit "chown"; lit "sudo"];
        Bnd]
]%string.

(** [/^\s*(env\s+\S+=\S+\s+)*/] *)
Definition ENV_PREFIX : regex :=
  seqs [Bol; Star ws;
        Star (seqs [lit "env"; Plus ws; Plus nws; lit "="; Plus nws; Plus ws])].

(** [command.replace(/^\s*(env\s+\S+=\S+\s+)*/, '').trim()] *)
Definition normalize (command : jsstring) : jsstring :=
  trim (replaceEmpty ENV_PREFIX command).

(** [normalized === prefix || normalized.startsWith(prefix + ' ') ||
     normalized.startsWith(prefix + '\t')] *)
Definition matchesPrefix (normalized prefix : jsstring) : bool :=
  streq normalized prefix
  || startsWith normalized (prefix ++ [32%N])
  || startsWith normalized (prefix ++ [9%N]).

Section Policy.

Variable JSON_stringify : JSValue -> option jsstring.

Definition isSafeCommand (inputPreview : JSValue) : bool :=
  match extractCommand JSON_stringify inputPreview with
  | None => false
  | Some [] => false
  | Some command =>
      if existsb (fun pattern => test pattern command) DANGEROUS_PATTERNS
      then false
      else existsb (matchesPrefix (normalize command)) SAFE_COMMAND_PREFIXES
  end.

End Policy.

End SafeCommands.


(* ===================================================================== *)
(** * BgTaskRunner *)
(* ===================================================================== *)

Module BgTaskRunner.

Inductive TaskPriority := high | normal | low.

Inductive TaskStatus := queued | running | completed | failed | cancelled.

#[global] Instance TaskStatus_eq_dec : EqDecision TaskStatus.
Proof. solve_decision. Defined.

#[global] Instance TaskPriority_eq_dec : EqDecision TaskPriority.
Proof. solve_decision. Defined.

(** Numbers are integers here; an absent optional field is [None]. *)
Record ResourceLimits := mkLimits {
  maxToolCalls : option Z;
  maxSteps : option Z;
  idleTimeoutMs : option Z;
}.

Record ResourceUsage := mkUsage {
  toolCalls : Z;
  steps : Z;
  totalTokens : Z;
}.

(** [BgTask] without its two wall-clock fields ([startTime],
    [lastActivityTime]), which only feed the display. *)
Record BgTask := mkTask {
  id : string;
  templateId : string;
  description : string;
  status : TaskStatus;
  result : option string;
  error : option string;
  sandboxUrl : option string;
  sandboxAlive : option bool;
  agentAlive : option bool;
  priority : TaskPriority;
  prompt : string;
  skills : list string;
  retryCount : nat;
  redoHistory : list string;
  resourceLimits : ResourceLimits;
  resourceUsage : ResourceUsage;
  cancelReason : option string;
}.

Definition set_status (v : TaskStatus) (t : BgTask) : BgTask :=
  mkTask (id t) (templateId t) (description t) v (result t) (error t) (sandboxUrl t) (sandboxAlive t) (agentAlive t) (priority t) (prompt t) (skills t) (retryCount t) (redoHistory t) (resourceLimits t) (resourceUsage t) (cancelReason t).

Definition set_result (v : option string) (t : BgTask) : BgTask :=
  mkTask (id t) (templateId t) (description t) (status t) v (error t) (sandboxUrl t) (sandboxAlive t) (agentAlive t) (priority t) (prompt t) (skills t) (retryCount t) (redoHistory t) (resourceLimits t) (resourceUsage t) (cancelReason t).

Definition set_error (v : option string) (t : BgTask) : BgTask :=
  mkTask (id t) (templateId t) (description t) (status t) (result t) v (sandboxUrl t) (sandboxAlive t) (agentAlive t) (priority t) (prompt t) (skills t) (retryCount t) (redoHistory t) (resourceLimits t) (resourceUsage t) (cancelReason t).

Definition set_sandboxUrl (v : option string) (t : BgTask) : BgTask :=
  mkTask (id t) (templateId t) (description t) (status t) (result t) (error t) v (sandboxAlive t) (agentAlive t) (priority t) (prompt t) (skills t) (retryCount t) (redoHistory t) (resourceLimits t) (resourceUsage t) (cancelReason t).

Definition set_sandboxAlive (v : option bool) (t : BgTask) : BgTask :=
  mkTask (id t) (templateId t) (description t) (status t) (result t) (error t) (sandboxUrl t) v (agentAlive t) (priority t) (prompt t) (skills t) (retryCount t) (redoHistory t) (resourceLimits t) (resourceUsage t) (cancelReason t).

Definition set_agentAlive (v : option bool) (t : BgTask) : BgTask :=
  mkTask (id t) (templateId t) (description t) (status t) (result t) (error t) (sandboxUrl t) (sandboxAlive t) v (priority t) (prompt t) (skills t) (retryCount t) (redoHistory t) (resourceLimits t) (resourceUsage t) (cancelReason t).

Definition set_resourceUsage (v : ResourceUsage) (t : BgTask) : BgTask :=
  mkTask (id t) (templateId t) (description t) (status t) (result t) (error t) (sandboxUrl t) (sandboxAlive t) (agentAlive t) (priority t) (prompt t) (skills t) (retryCount t) (redoHistory t) (resourceLimits t) v (cancelReason t).

Definition set_cancelReason (v : option string) (t : BgTask) : BgTask :=
  mkTask (id t) (templateId t) (description t) (status t) (result t) (error t) (sandboxUrl t) (sandboxAlive t) (agentAlive t) (priority t) (prompt t) (skills t) (retryCount t) (redoHistory t) (resourceLimits t) (resourceUsage t) v.

(** The numbers of the configuration, taken as integers.  The caller may
    fill them with [parseInt] of an environment variable, which is [NaN] for
    a text that is no number; such a configuration is outside this type. *)
Record BgTaskConfig := mkConfig {
  maxConcurrent : Z;
  defaultIdleTimeoutMs : Z;
  defaultMaxToolCalls : Z;
  defaultMaxSteps : Z;
}.

(** The [taskConfig?.field ?? default] of the constructor. *)
Definition resolveConfig (taskConfig : option BgTaskConfig) : BgTaskConfig :=
  match taskConfig with
  | Some c => c
  | None => mkConfig 5 120000 200 50
  end.

(** [QueuedTask]: the reference to the task object is its id (ids are unique,
    see [step]), next to the prompt. *)
Record QueuedTask := mkQueued {
  qtask : string;
  qprompt : string;
}.

Definition PRIORITY_ORDER (p : TaskPriority) : Z :=
  match p with high => 0 | normal => 1 | low => 2 end.

Inductive InjectionType :=
  task_result | task_failed | task_cancelled | chat_result | chat_failed.

(** The text of an injection is built by [InjectionQueue.buildMessage(task)]
    or [InjectionQueue.buildChatMessage(task, response, error)]; the item
    records the call and the task record as it was at the call. *)
Inductive InjectionMessage :=
| buildMessage (task : BgTask)
| buildChatMessage (task : BgTask) (response : option string) (err : option string).

Record InjectionItem := mkItem {
  message : InjectionMessage;
  metaTaskId : string;
  metaType : InjectionType;
}.

(** An async call of the runner that is suspended at an [await], with what
    its closure holds. *)
Inductive Proc :=
| PDone
  (* runInBackground: await this.sandboxFactory.create() *)
| PSandboxCreate (taskId prompt : string)
  (* runWithSandbox: await Agent.create(config, this.deps) *)
| PAgentCreate (taskId prompt : string)
  (* runWithSandbox: await subAgent.complete(currentInput), monitors subscribed *)
| PComplete (taskId currentInput : string)
  (* runWithSandbox, finally: await sandbox.dispose?.() *)
| PRunDispose (taskId : string)
  (* runWithSandbox, finally: await import('./injection-queue.js') *)
| PRunImport (taskId : string)
  (* cancel, queued branch: await import('./injection-queue.js') *)
| PCancelImport (taskId : string)
  (* runChatInBackground: await agent.complete(message), listeners subscribed *)
| PChatAsyncComplete (taskId : string) (previousStatus : TaskStatus)
  (* runChatInBackground, try: await import(...), listeners still subscribed *)
| PChatAsyncImport (taskId : string) (text : option string)
  (* runChatInBackground, catch: await import(...), listeners still subscribed *)
| PChatAsyncImportErr (taskId : string) (err : string)
  (* chat: await agent.complete(message), listeners subscribed *)
| PChatComplete (taskId : string) (previousStatus : TaskStatus)
  (* disposeSandbox: await sandbox.dispose?.() *)
| PDisposeSandbox (taskId : string).

(** The fields of the class (the two maps of keep-alive timers are left to
    the environment: [disposeSandbox] and [disposeAgent] are public and may be
    called at any time), the suspended calls, and the calls the runner has
    made to its collaborators, oldest first: [onUpdate(task)],
    [injectionQueue.enqueue(item)], [agent.interrupt({note})],
    [agent.complete(input)] and [runInBackground(task, ..)]. *)
Record Runner := mkRunner {
  tasks : gmap string BgTask;
  agents : gset string;
  sandboxes : gset string;
  idleTimers : gset string;
  pendingMessages : gmap string string;
  pendingQueue : list QueuedTask;
  injectionQueue : bool;
  procs : list Proc;
  updates : list BgTask;
  injected : list InjectionItem;
  interrupts : list (string * string);
  completeCalls : list (string * string);
  launched : list string;
}.

Definition set_tasks (v : gmap string BgTask) (s : Runner) : Runner :=
  mkRunner v (agents s) (sandboxes s) (idleTimers s) (pendingMessages s) (pendingQueue s) (injectionQueue s) (procs s) (updates s) (injected s) (interrupts s) (completeCalls s) (launched s).

Definition set_agents (v : gset string) (s : Runner) : Runner :=
  mkRunner (tasks s) v (sandboxes s) (idleTimers s) (pendingMessages s) (pendingQueue s) (injectionQueue s) (procs s) (updates s) (injected s) (interrupts s) (completeCalls s) (launched s).

Definition set_sandboxes (v : gset string) (s : Runner) : Runner :=
  mkRunner (tasks s) (agents s) v (idleTimers s) (pendingMessages s) (pendingQueue s) (injectionQueue s) (procs s) (updates s) (injected s) (interrupts s) (completeCalls s) (launched s).

Definition set_idleTimers (v : gset string) (s : Runner) : Runner :=
  mkRunner (tasks s) (agents s) (sandboxes s) v (pendingMessages s) (pendingQueue s) (injectionQueue s) (procs s) (updates s) (injected s) (interrupts s) (completeCalls s) (launched s).

Definition set_pendingMessages (v : gmap string string) (s : Runner) : Runner :=
  mkRunner (tasks s) (agents s) (sandboxes s) (idleTimers s) v (pendingQueue s) (injectionQueue s) (procs s) (updates s) (injected s) (interrupts s) (completeCalls s) (launched s).

Definition set_pendingQueue (v : list QueuedTask) (s : Runner) : Runner :=
  mkRunner (tasks s) (agents s) (sandboxes s) (idleTimers s) (pendingMessages s) v (injectionQueue s) (procs s) (updates s) (injected s) (interrupts s) (completeCalls s) (launched s).

Definition set_injectionQueue (v : bool) (s : Runner) : Runner :=
  mkRunner (tasks s) (agents s) (sandboxes s) (idleTimers s) (pendingMessages s) (pendingQueue s) v (procs s) (updates s) (injected s) (interrupts s) (completeCalls s) (launched s).

Definition set_procs (v : list Proc) (s : Runner) : Runner :=
  mkRunner (tasks s) (agents s) (sandboxes s) (idleTimers s) (pendingMessages s) (pendingQueue s) (injectionQueue s) v (updates s) (injected s) (interrupts s) (completeCalls s) (launched s).

Definition set_updates (v : list BgTask) (s : Runner) : Runner :=
  mkRunner (tasks s) (agents s) (sandboxes s) (idleTimers s) (pendingMessages s) (pendingQueue s) (injectionQueue s) (procs s) v (injected s) (interrupts s) (completeCalls s) (launched s).

Definition set_injected (v : list InjectionItem) (s : Runner) : Runner :=
  mkRunner (tasks s) (agents s) (sandboxes s) (idleTimers s) (pendingMessages s) (pendingQueue s) (injectionQueue s) (procs s) (updates s) v (interrupts s) (completeCalls s) (launched s).

Definition set_interrupts (v : list (string * string)) (s : Runner) : Runner :=
  mkRunner (tasks s) (agents s) (sandboxes s) (idleTimers s) (pendingMessages s) (pendingQueue s) (injectionQueue s) (procs s) (updates s) (injected s) v (completeCalls s) (launched s).

Definition set_completeCalls (v : list (string * string)) (s : Runner) : Runner :=
  mkRunner (tasks s) (agents s) (sandboxes s) (idleTimers s) (pendingMessages s) (pendingQueue s) (injectionQueue s) (procs s) (updates s) (injected s) (interrupts s) v (launched s).

Definition set_launched (v : list string) (s : Runner) : Runner :=
  mkRunner (tasks s) (agents s) (sandboxes s) (idleTimers s) (pendingMessages s) (pendingQueue s) (injectionQueue s) (procs s) (updates s) (injected s) (interrupts s) (completeCalls s) v.

Record StartOpts := mkOpts {
  optPriority : option TaskPriority;
  optLimits : option ResourceLimits;
  optSkills : option (list string);
  optRetryCount : option nat;
  optRedoHistory : option (list string);
}.

(** What an awaited promise settles with.  [Rejected e] carries [String(e)];
    the two [Complete] outcomes are the [status] of a [CompleteResult] with
    its [text]. *)
Inductive Outcome :=
| Resolved
| Rejected (err : string)
| CompleteOk (text : option string)
| CompletePaused (text : option string).

Inductive MonitorEvent :=
| tool_executed
| step_complete
| token_usage (totalTokens : option Z).

(** [Array.prototype.sort] is stable, so its result is the one stable
    arrangement by the comparator; insertion sort computes it. *)
Fixpoint insertBy {A} (rank : A -> Z) (x : A) (l : list A) : list A :=
  match l with
  | [] => [x]
  | y :: l' => if rank x <=? rank y then x :: y :: l' else y :: insertBy rank x l'
  end.

Fixpoint sortBy {A} (rank : A -> Z) (l : list A) : list A :=
  match l with
  | [] => []
  | x :: l' => insertBy rank x (sortBy rank l')
  end.

Definition nl : string := String (Ascii.ascii_of_nat 10) EmptyString.

(** A string or optional value in a boolean test. *)
Definition nonEmpty (o : option string) : bool :=
  match o with Some (String _ _) => true | _ => false end.

Definition nonZero (o : option Z) : bool :=
  match o with Some n => negb (n =? 0) | None => false end.

(** [${x}] for an optional number. *)
Definition showNum (o : option Z) : string :=
  match o with Some n => pretty n | None => "undefined"%string end.

Definition settled (st : TaskStatus) : bool :=
  match st with cancelled | failed => true | _ => false end.

Section Runner.

Variable cfg : BgTaskConfig.

(** [sandboxPreviewUrl text] stands for the two tests on the final text:
    [text?.match(/\[sandbox-preview\]\((https?:\/\/[^\s)]+)\)/)] and
    [!urlMatch[1].includes('localhost')]; it is the captured URL when both
    pass. *)
Variable sandboxPreviewUrl : option string -> option string.

Definition init : Runner :=
  mkRunner ∅ ∅ ∅ ∅ ∅ [] false [] [] [] [] [] [].

Definition setInjectionQueue (s : Runner) : Runner := set_injectionQueue true s.

(** An assignment to a field of the task object [taskId] refers to. *)
Definition modTask (taskId : string) (f : BgTask -> BgTask) (s : Runner) : Runner :=
  set_tasks (alter f taskId (tasks s)) s.

Definition onUpdate (taskId : string) (s : Runner) : Runner :=
  match tasks s !! taskId with
  | Some t => set_updates (updates s ++ [t]) s
  | None => s
  end.

Definition enqueue (item : InjectionItem) (s : Runner) : Runner :=
  set_injected (injected s ++ [item]) s.

Definition interrupt (taskId note : string) (s : Runner) : Runner :=
  set_interrupts (interrupts s ++ [(taskId, note)]) s.

Definition complete (taskId input : string) (s : Runner) : Runner :=
  set_completeCalls (completeCalls s ++ [(taskId, input)]) s.

Definition spawn (p : Proc) (s : Runner) : Runner :=
  set_procs (procs s ++ [p]) s.

Definition setProc (pid : nat) (p : Proc) (s : Runner) : Runner :=
  set_procs (<[pid := p]> (procs s)) s.

Definition statusOf (s : Runner) (taskId : string) : option TaskStatus :=
  status <$> tasks s !! taskId.

Definition runningCount (s : Runner) : Z :=
  Z.of_nat (size (filter (fun kv : string * BgTask => status kv.2 = running) (tasks s))).

(** [PRIORITY_ORDER[q.task.priority]]; the queue only holds references to
    tasks of the map, the default is never looked at. *)
Definition rankOf (s : Runner) (q : QueuedTask) : Z :=
  match tasks s !! qtask q with
  | Some t => PRIORITY_ORDER (priority t)
  | None => 1
  end.

(** One turn of the loop of [drainQueue]. *)
Definition dispatch (next : QueuedTask) (s : Runner) : Runner :=
  let s := modTask (qtask next) (set_status running) s in
  let s := onUpdate (qtask next) s in
  let s := set_launched (launched s ++ [qtask next]) s in
  spawn (PSandboxCreate (qtask next) (qprompt next)) s.

Fixpoint drainLoop (fuel : nat) (s : Runner) : Runner :=
  match fuel with
  | O => s
  | S fuel' =>
      match pendingQueue s with
      | [] => s
      | next :: rest =>
          if runningCount s <? maxConcurrent cfg
          then drainLoop fuel' (dispatch next (set_pendingQueue rest s))
          else s
      end
  end.

(** Every turn shifts one entry off the queue, so its length bounds the
    number of turns. *)
Definition drainQueue (s : Runner) : Runner :=
  drainLoop (length (pendingQueue s)) s.

Definition newTask (newId templateId prompt description : string)
    (opts : option StartOpts) : BgTask :=
  let limits := opts ≫= optLimits in
  {| id := newId;
     templateId := templateId;
     description := description;
     status := queued;
     result := None; error := None; sandboxUrl := None;
     sandboxAlive := None; agentAlive := None;
     priority := default normal (opts ≫= optPriority);
     prompt := prompt;
     skills := default [] (opts ≫= optSkills);
     retryCount := default 0%nat (opts ≫= optRetryCount);
     redoHistory := default [] (opts ≫= optRedoHistory);
     resourceLimits :=
       {| maxToolCalls := Some (default (defaultMaxToolCalls cfg) (limits ≫= maxToolCalls));
          maxSteps := Some (default (defaultMaxSteps cfg) (limits ≫= maxSteps));
          idleTimeoutMs := limits ≫= idleTimeoutMs |};
     resourceUsage := {| toolCalls := 0; steps := 0; totalTokens := 0 |};
     cancelReason := None |}.

(** [start]; [newId] is the value [generateId()] returns. *)
Definition start (newId templateId prompt description : string)
    (opts : option StartOpts) (s : Runner) : Runner :=
  let s := set_tasks (<[newId := newTask newId templateId prompt description opts]> (tasks s)) s in
  let s := onUpdate newId s in
  let s := set_pendingQueue (pendingQueue s ++ [mkQueued newId prompt]) s in
  let s := set_pendingQueue (sortBy (rankOf s) (pendingQueue s)) s in
  drainQueue s.

(** [resetIdleTimer]: the timer of the task is (re)armed; [clearIdleTimer]
    is the [clearTimeout] with the [delete].  [idleTimers] holds the ids whose
    timer is armed. *)
Definition resetIdleTimer (taskId : string) (s : Runner) : Runner :=
  set_idleTimers ({[taskId]} ∪ idleTimers s) s.

Definition clearIdleTimer (taskId : string) (s : Runner) : Runner :=
  set_idleTimers (idleTimers s ∖ {[taskId]}) s.

Definition hasAgent (s : Runner) (taskId : string) : bool :=
  bool_decide (taskId ∈ agents s).

Definition handleIdleTimeout (taskId : string) (s : Runner) : Runner :=
  match tasks s !! taskId with
  | Some task =>
      if bool_decide (status task = running) then
        let timeoutMs := default (defaultIdleTimeoutMs cfg) (idleTimeoutMs (resourceLimits task)) in
        let timeoutSec := (timeoutMs + 500) / 1000 in   (* Math.round(timeoutMs / 1000) *)
        let s := modTask taskId (fun t =>
                   set_error (Some ("空闲超时：" +:+ pretty timeoutSec +:+ "s 无任何输出")%string)
                     (set_status failed t)) s in
        let s := onUpdate taskId s in
        if hasAgent s taskId
        then interrupt taskId ("Idle timeout: no activity for " +:+ pretty timeoutSec +:+ "s")%string s
        else s
      else s
  | None => s
  end.

Definition handleResourceLimit (taskId limitType : string) (s : Runner) : Runner :=
  match tasks s !! taskId with
  | Some task =>
      if bool_decide (status task = running) then
        let isTool := String.eqb limitType "maxToolCalls" in
        let used := if isTool then toolCalls (resourceUsage task) else steps (resourceUsage task) in
        let limit := if isTool then maxToolCalls (resourceLimits task) else maxSteps (resourceLimits task) in
        let s := modTask taskId (fun t =>
                   set_error (Some ("资源超限：" +:+ limitType +:+ " (" +:+ pretty used
                                    +:+ "/" +:+ showNum limit +:+ ")")%string)
                     (set_status failed t)) s in
        let s := onUpdate taskId s in
        if hasAgent s taskId
        then interrupt taskId ("Resource limit exceeded: " +:+ limitType)%string s
        else s
      else s
  | None => s
  end.

Definition addToolCall (t : BgTask) : BgTask :=
  let u := resourceUsage t in
  set_resourceUsage (mkUsage (toolCalls u + 1) (steps u) (totalTokens u)) t.

Definition addStep (t : BgTask) : BgTask :=
  let u := resourceUsage t in
  set_resourceUsage (mkUsage (toolCalls u) (steps u + 1) (totalTokens u)) t.

(** [totalTokens += evt.totalTokens ?? 0], the counts taken as exact
    integers (a JavaScript number rounds above 2^53). *)
Definition addTokens (n : option Z) (t : BgTask) : BgTask :=
  let u := resourceUsage t in
  set_resourceUsage (mkUsage (toolCalls u) (steps u) (totalTokens u + default 0 n)) t.

(** [limit && used >= limit] *)
Definition reached (limit : option Z) (used : Z) : bool :=
  nonZero limit && (default 0 limit <=? used).

(** The three monitors [runWithSandbox] subscribes. *)
Definition runMonitor (taskId : string) (ev : MonitorEvent) (s : Runner) : Runner :=
  match ev with
  | tool_executed =>
      let s := resetIdleTimer taskId (modTask taskId addToolCall s) in
      match tasks s !! taskId with
      | Some task =>
          if reached (maxToolCalls (resourceLimits task)) (toolCalls (resourceUsage task))
          then handleResourceLimit taskId "maxToolCalls" s else s
      | None => s
      end
  | step_complete =>
      let s := resetIdleTimer taskId (modTask taskId addStep s) in
      match tasks s !! taskId with
      | Some task =>
          if reached (maxSteps (resourceLimits task)) (steps (resourceUsage task))
          then handleResourceLimit taskId "maxSteps" s else s
      | None => s
      end
  | token_usage n => resetIdleTimer taskId (modTask taskId (addTokens n) s)
  end.

(** The listeners [chat] and [runChatInBackground] subscribe: [token_usage]
    and [tool_executed], nothing on [step_complete]. *)
Definition chatMonitor (taskId : string) (ev : MonitorEvent) (s : Runner) : Runner :=
  match ev with
  | tool_executed => modTask taskId addToolCall s
  | step_complete => s
  | token_usage n => modTask taskId (addTokens n) s
  end.

(** What the suspended call [p] has subscribed on the agent of [taskId]. *)
Definition monitorOf (p : Proc) (taskId : string) (ev : MonitorEvent) (s : Runner) : Runner :=
  match p with
  | PComplete tid _ =>
      if String.eqb tid taskId then runMonitor taskId ev s else s
  | PChatAsyncComplete tid _ | PChatAsyncImport tid _ | PChatAsyncImportErr tid _
  | PChatComplete tid _ =>
      if String.eqb tid taskId then chatMonitor taskId ev s else s
  | _ => s
  end.

(** The agent of [taskId] emits [ev]: every subscribed listener runs, in
    subscription order. *)
Definition agentEmits (taskId : string) (ev : MonitorEvent) (s : Runner) : Runner :=
  foldl (fun s p => monitorOf p taskId ev s) s (procs s).

(** After [Agent.create]: the agent is registered, the monitors subscribed,
    the idle timer armed and the pause-loop entered. *)
Definition promptWithContext (taskId prompt : string) : string :=
  ("# 任务上下文" +:+ nl +:+ "- taskId: " +:+ taskId +:+ nl
   +:+ "- 如需调用 sandbox_preview 工具，请使用上述 taskId 作为 agentId 参数"
   +:+ nl +:+ nl +:+ prompt)%string.

Definition agentCreated (pid : nat) (taskId prompt : string) (s : Runner) : Runner :=
  let s := set_agents ({[taskId]} ∪ agents s) s in
  let s := resetIdleTimer taskId s in
  let input := promptWithContext taskId prompt in
  setProc pid (PComplete taskId input) (complete taskId input s).

(** After the pause-loop, inside [try]. *)
Definition afterLoop (taskId : string) (text : option string) (s : Runner) : Runner :=
  let s := clearIdleTimer taskId s in
  match tasks s !! taskId with
  | Some task =>
      if settled (status task) then s
      else
        let s := modTask taskId (fun t => set_result text (set_status completed t)) s in
        match sandboxPreviewUrl text with
        | Some url => modTask taskId (set_sandboxUrl (Some url)) s
        | None => s
        end
  | None => s
  end.

(** The [catch] of [runWithSandbox]. *)
Definition catchBlock (taskId err : string) (s : Runner) : Runner :=
  match tasks s !! taskId with
  | Some task =>
      if settled (status task) then s
      else modTask taskId (fun t => set_error (Some err) (set_status failed t)) s
  | None => s
  end.

Definition injectionTypeOf (st : TaskStatus) : InjectionType :=
  match st with
  | completed => task_result
  | cancelled => task_cancelled
  | _ => task_failed
  end.

(** The [finally] of [runWithSandbox] from [this.onUpdate(task)] on. *)
Definition announce (pid : nat) (taskId : string) (s : Runner) : Runner :=
  let s := onUpdate taskId s in
  if injectionQueue s
  then setProc pid (PRunImport taskId) s
  else setProc pid PDone (drainQueue s).

(** ... and after its [await import(..)]. *)
Definition inject (pid : nat) (taskId : string) (s : Runner) : Runner :=
  let s :=
    match tasks s !! taskId with
    | Some task =>
        enqueue (mkItem (buildMessage task) (id task) (injectionTypeOf (status task))) s
    | None => s
    end in
  setProc pid PDone (drainQueue s).

(** The [finally] of [runWithSandbox] up to the sandbox; [subAgent] tells
    whether [Agent.create] had returned. *)
Definition finallyBlock (pid : nat) (taskId : string) (subAgent : bool) (s : Runner) : Runner :=
  let s := clearIdleTimer taskId s in
  match tasks s !! taskId with
  | Some task =>
      let s :=
        if bool_decide (status task = completed) && subAgent
        then modTask taskId (set_agentAlive (Some true)) s
        else modTask taskId (set_agentAlive (Some false))
               (set_agents (agents s ∖ {[taskId]}) s) in
      let s := set_pendingMessages (delete taskId (pendingMessages s)) s in
      if nonEmpty (sandboxUrl task)
      then
        let s := modTask taskId (set_sandboxAlive (Some true)) s in
        let s := set_sandboxes ({[taskId]} ∪ sandboxes s) s in
        announce pid taskId s
      else setProc pid (PRunDispose taskId) s
  | None => s
  end.

(** [complete] returned [paused]. *)
Definition paused (pid : nat) (taskId : string) (text : option string) (s : Runner) : Runner :=
  match tasks s !! taskId with
  | Some task =>
      if settled (status task)
      then finallyBlock pid taskId true (afterLoop taskId text s)
      else
        match pendingMessages s !! taskId with
        | Some instruction =>
            let s := set_pendingMessages (delete taskId (pendingMessages s)) s in
            setProc pid (PComplete taskId instruction) (complete taskId instruction s)
        | None => finallyBlock pid taskId true (afterLoop taskId text s)
        end
  | None => s
  end.

(** [cancel]: the state it leaves, and the value the returned promise
    resolves to.  In the queued branch the injection follows after an
    [await]; in the running branch the value waits for
    [await agent.interrupt(..)], which has no [catch] around it: when the
    interrupt rejects, the promise rejects instead, with the assignments
    done ([cancelSettles] below). *)
Definition cancel (taskId : string) (reason : option string) (s : Runner) : bool * Runner :=
  match tasks s !! taskId with
  | None => (false, s)
  | Some task =>
      match status task with
      | queued =>
          let s := set_pendingQueue
                     (filter (fun q => qtask q ≠ taskId) (pendingQueue s)) s in
          let s := modTask taskId (fun t => set_cancelReason reason (set_status cancelled t)) s in
          let s := onUpdate taskId s in
          (true, if injectionQueue s then spawn (PCancelImport taskId) s else s)
      | running =>
          let s := modTask taskId (fun t => set_cancelReason reason (set_status cancelled t)) s in
          let s := onUpdate taskId s in
          (true,
           if hasAgent s taskId
           then interrupt taskId (default "Task cancelled by orchestrator"%string reason) s
           else s)
      | _ => (false, s)
      end
  end.

(** The queued branch of [cancel] after its [await import(..)]. *)
Definition cancelInject (pid : nat) (taskId : string) (s : Runner) : Runner :=
  let s :=
    match tasks s !! taskId with
    | Some task => enqueue (mkItem (buildMessage task) (id task) task_cancelled) s
    | None => s
    end in
  setProc pid PDone s.

(** [sendMessage]: the state it leaves, and the value the returned promise
    resolves to; [true] waits for [await agent.interrupt(..)], as in
    [cancel]. *)
Definition sendMessage (taskId instruction : string) (s : Runner) : bool * Runner :=
  match tasks s !! taskId with
  | Some task =>
      if hasAgent s taskId && bool_decide (status task = running)
      then (true,
            interrupt taskId instruction
              (set_pendingMessages (<[taskId := instruction]> (pendingMessages s)) s))
      else (false, s)
  | None => (false, s)
  end.

(** What the promise of an [async] method settles with. *)
Inductive Settlement :=
| Fulfils (b : bool)
| Rejects (err : string).

(** The promise of [cancel], with [interrupted] for what the awaited
    [agent.interrupt(..)] settles with: [None] when it resolves, [Some e]
    when it rejects with [e].  The [import] of the queued branch loads a
    module of the program and resolves, as in [settle] below. *)
Definition cancelSettles (taskId : string) (reason : option string)
    (interrupted : option string) (s : Runner) : Settlement :=
  match tasks s !! taskId with
  | None => Fulfils false
  | Some task =>
      match status task with
      | queued => Fulfils true
      | running =>
          if hasAgent s taskId
          then match interrupted with
               | None => Fulfils true
               | Some e => Rejects e
               end
          else Fulfils true
      | _ => Fulfils false
      end
  end.


(** [disposeSandbox] up to its [await], and after it. *)
Definition disposeSandbox (taskId : string) (s : Runner) : bool * Runner :=
  if bool_decide (taskId ∈ sandboxes s)
  then (true, spawn (PDisposeSandbox taskId) s)
  else (false, s).

Definition sandboxDisposed (pid : nat) (taskId : string) (s : Runner) : Runner :=
  let s := set_sandboxes (sandboxes s ∖ {[taskId]}) s in
  let s := onUpdate taskId (modTask taskId (set_sandboxAlive (Some false)) s) in
  setProc pid PDone s.

Definition disposeAgent (taskId : string) (s : Runner) : Runner :=
  if hasAgent s taskId
  then
    let s := set_agents (agents s ∖ {[taskId]}) s in
    onUpdate taskId (modTask taskId (set_agentAlive (Some false)) s)
  else s.

(** The three guards [chatAsync] and [chat] share; [None] when they pass
    (the task then exists). *)
Definition chatGuard (taskId : string) (s : Runner) : option (string * Runner) :=
  match tasks s !! taskId with
  | None => Some (("任务 " +:+ taskId +:+ " 不存在")%string, s)
  | Some task =>
      if negb (bool_decide (agentAlive task = Some true))
      then Some ("子 Agent 已销毁，无法继续对话"%string, s)
      else if negb (hasAgent s taskId)
      then Some ("子 Agent 实例不存在"%string,
                 onUpdate taskId (modTask taskId (set_agentAlive (Some false)) s))
      else None
  end.

(** The start of a chat turn, shared by [runChatInBackground] and [chat]:
    the task is marked running and [agent.complete(message)] is called. *)
Definition chatEnter (taskId message : string) (s : Runner) : Runner :=
  let s := modTask taskId (set_status running) s in
  let s := onUpdate taskId s in
  complete taskId message s.

(** [chatAsync]: the error of the result, [None] for [{ ok: true }]. *)
Definition chatAsync (taskId message : string) (s : Runner) : option string * Runner :=
  match chatGuard taskId s with
  | Some (err, s') => (Some err, s')
  | None =>
      match statusOf s taskId with
      | Some previousStatus =>
          (None, spawn (PChatAsyncComplete taskId previousStatus)
                   (chatEnter taskId message s))
      | None => (None, s)
      end
  end.

(** [chat] up to its [await agent.complete(message)]; a guard that fails is
    the (resolved) result. *)
Definition chat (taskId message : string) (s : Runner) : option string * Runner :=
  match chatGuard taskId s with
  | Some (err, s') => (Some err, s')
  | None =>
      match statusOf s taskId with
      | Some previousStatus =>
          (None, spawn (PChatComplete taskId previousStatus)
                   (chatEnter taskId message s))
      | None => (None, s)
      end
  end.

(** [runChatInBackground] after [complete] returned (with either status). *)
Definition chatAsyncDone (pid : nat) (taskId : string) (text : option string) (s : Runner) : Runner :=
  let s := modTask taskId (fun t => set_result text (set_status completed t)) s in
  let s := onUpdate taskId s in
  if injectionQueue s
  then setProc pid (PChatAsyncImport taskId text) s
  else setProc pid PDone s.

(** ... and after [complete] threw. *)
Definition chatAsyncFailed (pid : nat) (taskId : string) (previousStatus : TaskStatus)
    (err : string) (s : Runner) : Runner :=
  let s := modTask taskId (fun t => set_error (Some err) (set_status previousStatus t)) s in
  let s := onUpdate taskId s in
  if injectionQueue s
  then setProc pid (PChatAsyncImportErr taskId err) s
  else setProc pid PDone s.

Definition chatInject (pid : nat) (taskId : string) (response err : option string)
    (ty : InjectionType) (s : Runner) : Runner :=
  let s :=
    match tasks s !! taskId with
    | Some task => enqueue (mkItem (buildChatMessage task response err) (id task) ty) s
    | None => s
    end in
  setProc pid PDone s.

(** [chat] after [complete] returned, and after it threw. *)
Definition chatDone (pid : nat) (taskId : string) (text : option string) (s : Runner) : Runner :=
  let s := modTask taskId (fun t => set_result text (set_status completed t)) s in
  setProc pid PDone (onUpdate taskId s).

Definition chatFailed (pid : nat) (taskId : string) (previousStatus : TaskStatus)
    (s : Runner) : Runner :=
  let s := modTask taskId (set_status previousStatus) s in
  setProc pid PDone (onUpdate taskId s).

(** The awaited promise of the suspended call [pid] settles with [o]. *)
Definition settle (pid : nat) (o : Outcome) (s : Runner) : option Runner :=
  match procs s !! pid, o with
  | Some (PSandboxCreate taskId prompt), Resolved =>
      Some (setProc pid (PAgentCreate taskId prompt) s)
  | Some (PSandboxCreate taskId prompt), Rejected _ =>
      (* runInBackground rejects before runWithSandbox is entered *)
      Some (setProc pid PDone s)
  | Some (PAgentCreate taskId prompt), Resolved =>
      Some (agentCreated pid taskId prompt s)
  | Some (PAgentCreate taskId prompt), Rejected err =>
      Some (finallyBlock pid taskId false (catchBlock taskId err s))
  | Some (PComplete taskId _), CompleteOk text =>
      Some (finallyBlock pid taskId true (afterLoop taskId text s))
  | Some (PComplete taskId _), CompletePaused text =>
      Some (paused pid taskId text s)
  | Some (PComplete taskId _), Rejected err =>
      Some (finallyBlock pid taskId true (catchBlock taskId err s))
  | Some (PRunDispose taskId), (Resolved | Rejected _) =>
      Some (announce pid taskId s)
  | Some (PRunImport taskId), Resolved =>
      Some (inject pid taskId s)
  | Some (PCancelImport taskId), Resolved =>
      Some (cancelInject pid taskId s)
  | Some (PChatAsyncComplete taskId _), (CompleteOk text | CompletePaused text) =>
      Some (chatAsyncDone pid taskId text s)
  | Some (PChatAsyncComplete taskId previousStatus), Rejected err =>
      Some (chatAsyncFailed pid taskId previousStatus err s)
  | Some (PChatAsyncImport taskId text), Resolved =>
      Some (chatInject pid taskId text None chat_result s)
  | Some (PChatAsyncImportErr taskId err), Resolved =>
      Some (chatInject pid taskId None (Some err) chat_failed s)
  | Some (PChatComplete taskId _), (CompleteOk text | CompletePaused text) =>
      Some (chatDone pid taskId text s)
  | Some (PChatComplete taskId previousStatus), Rejected _ =>
      Some (chatFailed pid taskId previousStatus s)
  | Some (PDisposeSandbox taskId), (Resolved | Rejected _) =>
      Some (sandboxDisposed pid taskId s)
  | _, _ => None
  end.

(** ** The transition system

    One label is one job of the event loop: a call of a public method, a
    timer that fires, an event of a sub-agent, or the continuation of a
    suspended call. *)
Inductive Label :=
| SetInjectionQueue
| Start (newId templateId prompt description : string) (opts : option StartOpts)
| Cancel (taskId : string) (reason : option string)
| SendMessage (taskId instruction : string)
| DisposeSandbox (taskId : string)
| DisposeAgent (taskId : string)
| ChatAsync (taskId message : string)
| Chat (taskId message : string)
| IdleTimer (taskId : string)
| AgentEmits (taskId : string) (ev : MonitorEvent)
| Settle (pid : nat) (o : Outcome).

(** [None]: the label cannot happen in [s].  [generateId()] is
    [randomUUID()]: it never returns the id of an existing task; an idle
    timer fires only while armed, and once. *)
Definition step (l : Label) (s : Runner) : option Runner :=
  match l with
  | SetInjectionQueue => Some (setInjectionQueue s)
  | Start newId templateId prompt description opts =>
      match tasks s !! newId with
      | None => Some (start newId templateId prompt description opts s)
      | Some _ => None
      end
  | Cancel taskId reason => Some (cancel taskId reason s).2
  | SendMessage taskId instruction => Some (sendMessage taskId instruction s).2
  | DisposeSandbox taskId => Some (disposeSandbox taskId s).2
  | DisposeAgent taskId => Some (disposeAgent taskId s)
  | ChatAsync taskId message => Some (chatAsync taskId message s).2
  | Chat taskId message => Some (chat taskId message s).2
  | IdleTimer taskId =>
      if bool_decide (taskId ∈ idleTimers s)
      then Some (handleIdleTimeout taskId (clearIdleTimer taskId s))
      else None
  | AgentEmits taskId ev => Some (agentEmits taskId ev s)
  | Settle pid o => settle pid o s
  end.

Fixpoint run (ls : list Label) (s : Runner) : option Runner :=
  match ls with
  | [] => Some s
  | l :: ls' =>
      match step l s with
      | Some s' => run ls' s'
      | None => None
      end
  end.

End Runner.

(** ** bg_task_retry (tools/bg-task-run.ts) *)

Inductive RetryResult :=
| RetryError (err : string)
| RetryOk (originalTaskId newTaskId : string) (retryCount : nat) (msg : string).

Definition retryOk (r : RetryResult) : bool :=
  match r with RetryOk _ _ _ _ => true | RetryError _ => false end.

Definition showStatus (st : TaskStatus) : string :=
  match st with
  | queued => "queued" | running => "running" | completed => "completed"
  | failed => "failed" | cancelled => "cancelled"
  end.

(** The [execute] of the tool; [newId] is the id [runner.start] draws. *)
Definition bg_task_retry (cfg : BgTaskConfig) (newId : string)
    (taskId : string) (modifiedPrompt : option string) (s : Runner)
  : RetryResult * Runner :=
  match tasks s !! taskId with
  | None => (RetryError ("任务 " +:+ taskId +:+ " 不存在"), s)
  | Some task =>
      if negb (bool_decide (status task = failed))
         && negb (bool_decide (status task = cancelled))
      then (RetryError ("只能重试 failed/cancelled 任务，当前状态: " +:+ showStatus (status task)), s)
      else
        let newPrompt := default (prompt task) modifiedPrompt in
        let newDescription :=
          description task +:+ " (retry #" +:+ pretty (retryCount task + 1)%nat +:+ ")" in
        let s' := start cfg newId (templateId task) newPrompt newDescription
                    (Some {| optPriority := Some (priority task);
                             optLimits := Some (resourceLimits task);
                             optSkills := Some (skills task);
                             optRetryCount := Some (retryCount task + 1)%nat;
                             optRedoHistory := Some (redoHistory task) |}) s in
        (RetryOk taskId newId (retryCount task + 1)%nat
           ("任务已重试，新 ID: " +:+ newId), s')
  end%string.

End BgTaskRunner.

(* ===================================================================== *)
(** * InjectionQueue (orchestrator/injection-queue.ts) *)
(* ===================================================================== *)

Module InjectionQueue.

Definition InjectionItem := BgTaskRunner.InjectionItem.
Definition InjectionMessage := BgTaskRunner.InjectionMessage.
Definition InjectionType := BgTaskRunner.InjectionType.

(** The events of [agent.chatStream] the switch looks at; [call] holds the
    fields read through [event.call?.]. *)
Record ToolCall := mkCall {
  callName : option string;
  callId : option string;
  callInputPreview : option string;
  callResult : option string;
  callDurationMs : option Z;
}.

Inductive StreamEvent :=
| text_chunk (delta : string)
| tool_start_event (call : option ToolCall)
| tool_end_event (call : option ToolCall)
| done_event
| other_event.

(** What [sseManager.send] is called with. *)
Inductive SSEMessage :=
| orchestrator_start (taskId : string) (reason : InjectionType)
| orchestrator_text (delta : string)
| tool_start (name toolCallId input : option string)
| tool_end (name toolCallId result : option string) (durationMs : option Z)
| orchestrator_done (fullText : string).

(** [processNext] is either not running or suspended at one of its two
    [await]s.  At the first, [acquire()] has either returned (the lock is
    taken, the continuation of the [await] has not run yet) or is parked in
    the lock; at the second, [injectAndStream] is suspended in its
    [for await], with [fullText] so far. *)
Inductive Worker :=
| WIdle
| WAcquire (item : InjectionItem)
| WAcquired (item : InjectionItem)
| WStream (item : InjectionItem) (fullText : string).

(** The two fields of the class, the lock it shares, the suspended
    [processNext], and the calls made to the collaborators, oldest first:
    [agent.chatStream(message)], [sseManager.send(..)] and
    [logger.error(.., err)]. *)
Record t := mk {
  queue : list InjectionItem;
  processing : bool;
  chatLock : ChatLock.t;
  worker : Worker;
  chatStreamCalls : list InjectionMessage;
  sent : list SSEMessage;
  errors : list string;
}.

Definition init : t := mk [] false ChatLock.init WIdle [] [] [].

(** The caller number of the [acquire()] of [processNext] in the lock; the
    other users of the lock have other numbers. *)
Definition workerId : ChatLock.Caller := 0%nat.

Definition send (m : SSEMessage) (s : t) : t :=
  mk (queue s) (processing s) (chatLock s) (worker s) (chatStreamCalls s)
     (sent s ++ [m]) (errors s).

(** The [while] of [processNext] from its test to the first [await]:
    [acquire()] runs up to its own first [await], so it takes a free lock at
    once. *)
Definition loop (s : t) : t :=
  match queue s with
  | [] =>
      mk [] false (chatLock s) WIdle (chatStreamCalls s) (sent s) (errors s)
  | item :: rest =>
      mk rest (processing s) (ChatLock.acquire workerId (chatLock s))
         (if ChatLock.locked (chatLock s) then WAcquire item else WAcquired item)
         (chatStreamCalls s) (sent s) (errors s)
  end.

Definition processNext (s : t) : t :=
  if processing s || bool_decide (queue s = []) then s
  else loop (mk (queue s) true (chatLock s) (worker s) (chatStreamCalls s)
                (sent s) (errors s)).

Definition enqueue (item : InjectionItem) (s : t) : t :=
  processNext (mk (queue s ++ [item]) (processing s) (chatLock s) (worker s)
                  (chatStreamCalls s) (sent s) (errors s)).

(** [injectAndStream(item)] up to its [for await].  [sseManager.send] and
    the call of [chatStream] return; what the stream throws arrives through
    its iteration. *)
Definition injectAndStream (item : InjectionItem) (s : t) : t :=
  let s := send (orchestrator_start (BgTaskRunner.metaTaskId item)
                                    (BgTaskRunner.metaType item)) s in
  mk (queue s) (processing s) (chatLock s) (WStream item "")
     (chatStreamCalls s ++ [BgTaskRunner.message item]) (sent s) (errors s).

(** The body of the [for await] on one event. *)
Definition onEvent (item : InjectionItem) (fullText : string) (ev : StreamEvent)
    (s : t) : t :=
  let setText text s :=
    mk (queue s) (processing s) (chatLock s) (WStream item text)
       (chatStreamCalls s) (sent s) (errors s) in
  match ev with
  | text_chunk delta =>
      send (orchestrator_text delta) (setText (fullText +:+ delta) s)
  | tool_start_event call =>
      send (tool_start (call ≫= callName) (call ≫= callId)
                       (call ≫= callInputPreview)) s
  | tool_end_event call =>
      send (tool_end (call ≫= callName) (call ≫= callId) (call ≫= callResult)
                     (call ≫= callDurationMs)) s
  | done_event => send (orchestrator_done fullText) s
  | other_event => s
  end.

(** The [catch], the [finally] and the next turn of the loop, once
    [injectAndStream] has returned or thrown ([err] is [String(err)]). *)
Definition afterStream (err : option string) (s : t) : t :=
  let s :=
    match err with
    | Some e => mk (queue s) (processing s) (chatLock s) (worker s)
                   (chatStreamCalls s) (sent s) (errors s ++ [e])
    | None => s
    end in
  loop (mk (queue s) (processing s) (ChatLock.release (chatLock s)) (worker s)
           (chatStreamCalls s) (sent s) (errors s)).

(** The continuation of a woken [acquire()] runs: its loop tests [locked]
    again.  When it is the one of [processNext] and the lock is free, the call
    returns with the lock. *)
Definition lockResume (s : t) : t :=
  let l := chatLock s in
  let w :=
    match ChatLock.woken l, worker s with
    | c :: _, WAcquire item =>
        if Nat.eqb c workerId && negb (ChatLock.locked l)
        then WAcquired item else WAcquire item
    | _, w => w
    end in
  mk (queue s) (processing s) (ChatLock.resume l) w
     (chatStreamCalls s) (sent s) (errors s).

(** The transitions: [enqueue] is called; another user of the lock calls
    [acquire()] or [release()]; a woken [acquire()] continues; [processNext]
    continues after [acquire()]; the stream yields an event; the stream ends
    or throws. *)
Inductive Label :=
| Enqueue (item : InjectionItem)
| Acquire (c : ChatLock.Caller)
| Release
| Resume
| Continue
| Emits (ev : StreamEvent)
| StreamEnds (err : option string).

Definition setLock (l : ChatLock.t) (s : t) : t :=
  mk (queue s) (processing s) l (worker s) (chatStreamCalls s) (sent s) (errors s).

Definition step (l : Label) (s : t) : option t :=
  match l with
  | Enqueue item => Some (enqueue item s)
  | Acquire c =>
      if Nat.eqb c workerId then None
      else Some (setLock (ChatLock.acquire c (chatLock s)) s)
  | Release => Some (setLock (ChatLock.release (chatLock s)) s)
  | Resume => Some (lockResume s)
  | Continue =>
      match worker s with
      | WAcquired item => Some (injectAndStream item s)
      | _ => None
      end
  | Emits ev =>
      match worker s with
      | WStream item fullText => Some (onEvent item fullText ev s)
      | _ => None
      end
  | StreamEnds err =>
      match worker s with
      | WStream _ _ => Some (afterStream err s)
      | _ => None
      end
  end.

Fixpoint run (ls : list Label) (s : t) : option t :=
  match ls with
  | [] => Some s
  | l :: rest =>
      match step l s with
      | Some s' => run rest s'
      | None => None
      end
  end.

End InjectionQueue.

(* ===================================================================== *)
(** * bg_task_redo (tools/bg-task-run.ts) *)
(* ===================================================================== *)

Module BgTaskTools.
Import BgTaskRunner.

Inductive RedoResult :=
| RedoError (err : string)
| RedoOk (originalTaskId newTaskId : string) (redoCount : nat) (msg : string).

Definition redoOk (r : RedoResult) : bool :=
  match r with RedoOk _ _ _ _ => true | RedoError _ => false end.

Section Redo.

(** [s.slice(0, 2000)] cuts a string of the host after 2000 UTF-16 code
    units; the strings of the model are opaque texts, so the cut is a
    parameter. *)
Variable slice2000 : string -> string.

(** [task.result?.slice(0, 2000) ?? '(无结果)'] and the lines of the new
    prompt, joined with a line feed. *)
Definition redoPrompt (task : BgTask) (feedback : string) : string :=
  let previousResult := default "(无结果)" (slice2000 <$> result task) in
  String.concat nl
    [prompt task;
     "";
     "# 上一次结果被打回";
     "反馈: " +:+ feedback;
     "上次输出:";
     previousResult;
     "";
     "请根据反馈重做，确保改进上述问题。"]%string.

(** The [execute] of the tool; [newId] is the id [runner.start] draws. *)
Definition bg_task_redo (cfg : BgTaskConfig) (newId : string)
    (taskId feedback : string) (s : Runner)
  : RedoResult * Runner :=
  match tasks s !! taskId with
  | None => (RedoError ("任务 " +:+ taskId +:+ " 不存在"), s)
  | Some task =>
      if negb (bool_decide (status task = completed))
      then (RedoError ("只能打回 completed 任务，当前状态: " +:+ showStatus (status task)), s)
      else
        let newRedoHistory := (redoHistory task ++ [feedback])%list in
        let newDescription :=
          description task +:+ " (redo #" +:+ pretty (length newRedoHistory) +:+ ")" in
        let s' := start cfg newId (templateId task) (redoPrompt task feedback)
                    newDescription
                    (Some {| optPriority := Some (priority task);
                             optLimits := Some (resourceLimits task);
                             optSkills := Some (skills task);
                             optRetryCount := Some (retryCount task);
                             optRedoHistory := Some newRedoHistory |}) s in
        (RedoOk taskId newId (length newRedoHistory)
           ("任务已打回重做，新 ID: " +:+ newId), s')
  end%string.

End Redo.

End BgTaskTools.

(* ===================================================================== *)
(** * Vocabulary of the statements about BgTaskRunner *)
(* ===================================================================== *)

Module RunnerSpec.
Import BgTaskRunner.

(** ** What one step does to one task

    Every transition assigns to fields of at most one existing task, apart
    from the tasks [drainQueue] moves to running; the assignments depend on
    the task alone.  The functions below are these assignments. *)

Section Effects.

Variable cfg : BgTaskConfig.
Variable sandboxPreviewUrl : option string -> option string.

Definition limitError (limitType : string) (t : BgTask) : string :=
  let isTool := String.eqb limitType "maxToolCalls" in
  ("资源超限：" +:+ limitType +:+ " ("
   +:+ pretty (if isTool then toolCalls (resourceUsage t) else steps (resourceUsage t))
   +:+ "/"
   +:+ showNum (if isTool then maxToolCalls (resourceLimits t) else maxSteps (resourceLimits t))
   +:+ ")")%string.

Definition idleSeconds (t : BgTask) : Z :=
  (default (defaultIdleTimeoutMs cfg) (idleTimeoutMs (resourceLimits t)) + 500) / 1000.

Definition idleError (t : BgTask) : string :=
  ("空闲超时：" +:+ pretty (idleSeconds t) +:+ "s 无任何输出")%string.

(** [handleResourceLimit] and [handleIdleTimeout] on the task. *)
Definition failRunning (err : BgTask -> string) (t : BgTask) : BgTask :=
  if bool_decide (status t = running)
  then set_error (Some (err t)) (set_status failed t) else t.

Definition runMonitorT (ev : MonitorEvent) (t : BgTask) : BgTask :=
  match ev with
  | tool_executed =>
      let t := addToolCall t in
      if reached (maxToolCalls (resourceLimits t)) (toolCalls (resourceUsage t))
      then failRunning (limitError "maxToolCalls") t else t
  | step_complete =>
      let t := addStep t in
      if reached (maxSteps (resourceLimits t)) (steps (resourceUsage t))
      then failRunning (limitError "maxSteps") t else t
  | token_usage n => addTokens n t
  end.

Definition chatMonitorT (ev : MonitorEvent) (t : BgTask) : BgTask :=
  match ev with
  | tool_executed => addToolCall t
  | step_complete => t
  | token_usage n => addTokens n t
  end.

Definition monitorT (p : Proc) (taskId : string) (ev : MonitorEvent) (t : BgTask) : BgTask :=
  match p with
  | PComplete tid _ => if String.eqb tid taskId then runMonitorT ev t else t
  | PChatAsyncComplete tid _ | PChatAsyncImport tid _ | PChatAsyncImportErr tid _
  | PChatComplete tid _ => if String.eqb tid taskId then chatMonitorT ev t else t
  | _ => t
  end.

Definition afterLoopT (text : option string) (t : BgTask) : BgTask :=
  if settled (status t) then t
  else
    let t := set_result text (set_status completed t) in
    match sandboxPreviewUrl text with
    | Some url => set_sandboxUrl (Some url) t
    | None => t
    end.

Definition catchT (err : string) (t : BgTask) : BgTask :=
  if settled (status t) then t else set_error (Some err) (set_status failed t).

Definition finallyT (subAgent : bool) (t : BgTask) : BgTask :=
  let t := set_agentAlive (Some (bool_decide (status t = completed) && subAgent)) t in
  if nonEmpty (sandboxUrl t) then set_sandboxAlive (Some true) t else t.

Definition cancelT (reason : option string) (t : BgTask) : BgTask :=
  match status t with
  | queued | running => set_cancelReason reason (set_status cancelled t)
  | _ => t
  end.

Definition chatDoneT (text : option string) (t : BgTask) : BgTask :=
  set_result text (set_status completed t).

(** The tasks [drainQueue] starts, as a fold over the entries it shifts. *)
Definition dispatchAll (popped : list QueuedTask) (s : Runner) : Runner :=
  foldl (fun a q => dispatch q a) s popped.

Definition startAll (popped : list QueuedTask) (m : gmap string BgTask)
  : gmap string BgTask :=
  foldl (fun a q => alter (set_status running) (qtask q) a) m popped.

(** [chatAsync] and [chat] up to the call of [complete], given whether the
    agent is still registered. *)
Definition chatT (registered : bool) (t : BgTask) : BgTask :=
  if bool_decide (agentAlive t = Some true)
  then if registered then set_status running t else set_agentAlive (Some false) t
  else t.

Definition pausedT (refuel : bool) (text : option string) (t : BgTask) : BgTask :=
  if settled (status t) then finallyT true (afterLoopT text t)
  else if refuel then t else finallyT true (afterLoopT text t).

(** The assignments of one transition to the task it concerns. *)
Definition effect (l : Label) (s : Runner) : BgTask -> BgTask :=
  match l with
  | Cancel _ reason => cancelT reason
  | DisposeAgent taskId =>
      if hasAgent s taskId then set_agentAlive (Some false) else fun t => t
  | ChatAsync taskId _ | Chat taskId _ => chatT (hasAgent s taskId)
  | IdleTimer _ => failRunning idleError
  | AgentEmits taskId ev =>
      fun t => foldl (fun a p => monitorT p taskId ev a) t (procs s)
  | Settle pid o =>
      match procs s !! pid, o with
      | Some (PAgentCreate _ _), Rejected err =>
          fun t => finallyT false (catchT err t)
      | Some (PComplete _ _), CompleteOk text =>
          fun t => finallyT true (afterLoopT text t)
      | Some (PComplete taskId _), CompletePaused text =>
          pausedT (bool_decide (is_Some (pendingMessages s !! taskId))) text
      | Some (PComplete _ _), Rejected err =>
          fun t => finallyT true (catchT err t)
      | Some (PChatAsyncComplete _ _), (CompleteOk text | CompletePaused text) =>
          chatDoneT text
      | Some (PChatAsyncComplete _ previousStatus), Rejected err =>
          fun t => set_error (Some err) (set_status previousStatus t)
      | Some (PChatComplete _ _), (CompleteOk text | CompletePaused text) =>
          chatDoneT text
      | Some (PChatComplete _ previousStatus), Rejected _ =>
          set_status previousStatus
      | Some (PDisposeSandbox _), (Resolved | Rejected _) =>
          set_sandboxAlive (Some false)
      | _, _ => fun t => t
      end
  | _ => fun t => t
  end.

(** The task a suspended call works on. *)
Definition procTask (p : Proc) : option string :=
  match p with
  | PDone => None
  | PSandboxCreate i _ | PAgentCreate i _ | PComplete i _ | PRunDispose i
  | PRunImport i | PCancelImport i | PChatAsyncComplete i _
  | PChatAsyncImport i _ | PChatAsyncImportErr i _ | PChatComplete i _
  | PDisposeSandbox i => Some i
  end.

(** The task a transition concerns (none for [setInjectionQueue]). *)
Definition target (l : Label) (s : Runner) : option string :=
  match l with
  | SetInjectionQueue => None
  | Start newId _ _ _ _ => Some newId
  | Cancel i _ | SendMessage i _ | DisposeSandbox i | DisposeAgent i
  | ChatAsync i _ | Chat i _ | IdleTimer i | AgentEmits i _ => Some i
  | Settle pid _ => procs s !! pid ≫= procTask
  end.

Definition alterAt (f : BgTask -> BgTask) (k : option string)
    (m : gmap string BgTask) : gmap string BgTask :=
  match k with Some i => alter f i m | None => m end.

(** The task map and the queue after a transition, before [drainQueue]
    runs (if it runs at all). *)
Definition coreTasks (l : Label) (s : Runner) : gmap string BgTask :=
  match l with
  | Start newId templateId prompt description opts =>
      <[newId := newTask cfg newId templateId prompt description opts]> (tasks s)
  | _ => alterAt (effect l s) (target l s) (tasks s)
  end.

Definition rankIn (m : gmap string BgTask) (q : QueuedTask) : Z :=
  match m !! qtask q with
  | Some t => PRIORITY_ORDER (priority t)
  | None => 1
  end.

Definition coreQueue (l : Label) (s : Runner) : list QueuedTask :=
  match l with
  | Start newId _ prompt _ _ =>
      sortBy (rankIn (coreTasks l s)) (pendingQueue s ++ [mkQueued newId prompt])
  | Cancel taskId _ =>
      if bool_decide (statusOf s taskId = Some queued)
      then filter (fun q => qtask q ≠ taskId) (pendingQueue s)
      else pendingQueue s
  | _ => pendingQueue s
  end.

(** Where the [finally] of [runWithSandbox] leaves the call [p], [t] being
    the task record it finds. *)
Definition runNext (s : Runner) (i : string) (t : option BgTask) (p : Proc) : Proc :=
  match t with
  | None => p
  | Some t =>
      if nonEmpty (sandboxUrl t)
      then if injectionQueue s then PRunImport i else PDone
      else PRunDispose i
  end.

(** The suspended call [p] after its promise settled with [o]. *)
Definition settleProc (p : Proc) (o : Outcome) (s : Runner) : Proc :=
  match p, o with
  | PSandboxCreate i prompt, Resolved => PAgentCreate i prompt
  | PSandboxCreate _ _, Rejected _ => PDone
  | PAgentCreate i prompt, Resolved => PComplete i (promptWithContext i prompt)
  | PAgentCreate i _, Rejected err => runNext s i (catchT err <$> tasks s !! i) p
  | PComplete i _, CompleteOk text => runNext s i (afterLoopT text <$> tasks s !! i) p
  | PComplete i _, CompletePaused text =>
      match tasks s !! i with
      | None => p
      | Some t =>
          if settled (status t) then runNext s i (Some (afterLoopT text t)) p
          else match pendingMessages s !! i with
               | Some instruction => PComplete i instruction
               | None => runNext s i (Some (afterLoopT text t)) p
               end
      end
  | PComplete i _, Rejected err => runNext s i (catchT err <$> tasks s !! i) p
  | PRunDispose i, (Resolved | Rejected _) =>
      if injectionQueue s then PRunImport i else PDone
  | PRunImport _, Resolved => PDone
  | PCancelImport _, Resolved => PDone
  | PChatAsyncComplete i _, (CompleteOk text | CompletePaused text) =>
      if injectionQueue s then PChatAsyncImport i text else PDone
  | PChatAsyncComplete i _, Rejected err =>
      if injectionQueue s then PChatAsyncImportErr i err else PDone
  | PChatAsyncImport _ _, Resolved => PDone
  | PChatAsyncImportErr _ _, Resolved => PDone
  | PChatComplete _ _, (CompleteOk _ | CompletePaused _ | Rejected _) => PDone
  | PDisposeSandbox _, (Resolved | Rejected _) => PDone
  | _, _ => p
  end.

(** The calls a chat turn suspends: the guards of [chatAsync] and [chat]. *)
Definition chatProcs (mk : string -> TaskStatus -> Proc) (i : string) (s : Runner)
  : list Proc :=
  match tasks s !! i with
  | Some t =>
      if bool_decide (agentAlive t = Some true) && hasAgent s i
      then [mk i (status t)] else []
  | None => []
  end.

(** The suspended calls after a transition, before those [drainQueue]
    adds. *)
Definition coreProcs (l : Label) (s : Runner) : list Proc :=
  match l with
  | Cancel i _ =>
      procs s ++
      (if bool_decide (statusOf s i = Some queued) && injectionQueue s
       then [PCancelImport i] else [])
  | DisposeSandbox i =>
      procs s ++ (if bool_decide (i ∈ sandboxes s) then [PDisposeSandbox i] else [])
  | ChatAsync i _ => procs s ++ chatProcs PChatAsyncComplete i s
  | Chat i _ => procs s ++ chatProcs PChatComplete i s
  | Settle pid o =>
      match procs s !! pid with
      | Some p => <[pid := settleProc p o s]> (procs s)
      | None => procs s
      end
  | _ => procs s
  end.

Definition itemOf (build : BgTask -> InjectionMessage) (ty : BgTask -> InjectionType)
    (t : option BgTask) : list InjectionItem :=
  match t with
  | Some t => [mkItem (build t) (id t) (ty t)]
  | None => []
  end.

(** The items a transition enqueues. *)
Definition coreInjected (l : Label) (s : Runner) : list InjectionItem :=
  match l with
  | Settle pid Resolved =>
      match procs s !! pid with
      | Some (PRunImport i) =>
          itemOf buildMessage (fun t => injectionTypeOf (status t)) (tasks s !! i)
      | Some (PCancelImport i) =>
          itemOf buildMessage (fun _ => task_cancelled) (tasks s !! i)
      | Some (PChatAsyncImport i text) =>
          itemOf (fun t => buildChatMessage t text None) (fun _ => chat_result)
                 (tasks s !! i)
      | Some (PChatAsyncImportErr i err) =>
          itemOf (fun t => buildChatMessage t None (Some err)) (fun _ => chat_failed)
                 (tasks s !! i)
      | _ => []
      end
  | _ => []
  end.

(** The pending instructions after a transition: [sendMessage] stores one
    under the id of a running task with an agent; the pause-loop takes it
    out, and the [finally] of the run drops what is left. *)
Definition corePending (l : Label) (s : Runner) : gmap string string :=
  match l with
  | SendMessage i m =>
      match tasks s !! i with
      | Some t =>
          if hasAgent s i && bool_decide (status t = running)
          then <[i := m]> (pendingMessages s) else pendingMessages s
      | None => pendingMessages s
      end
  | Settle pid o =>
      match procs s !! pid, o with
      | Some (PAgentCreate i _), Rejected _
      | Some (PComplete i _), (CompleteOk _ | CompletePaused _ | Rejected _) =>
          match tasks s !! i with
          | Some _ => delete i (pendingMessages s)
          | None => pendingMessages s
          end
      | _, _ => pendingMessages s
      end
  | _ => pendingMessages s
  end.

(** The calls of [agent.complete] a transition makes. *)
Definition coreCalls (l : Label) (s : Runner) : list (string * string) :=
  match l with
  | ChatAsync i m | Chat i m =>
      match tasks s !! i with
      | Some t =>
          if bool_decide (agentAlive t = Some true) && hasAgent s i
          then [(i, m)] else []
      | None => []
      end
  | Settle pid o =>
      match procs s !! pid, o with
      | Some (PAgentCreate i prompt), Resolved => [(i, promptWithContext i prompt)]
      | Some (PComplete i _), CompletePaused _ =>
          match tasks s !! i with
          | Some t =>
              if settled (status t) then []
              else match pendingMessages s !! i with
                   | Some instruction => [(i, instruction)]
                   | None => []
                   end
          | None => []
          end
      | _, _ => []
      end
  | _ => []
  end.

Definition spawnOf (q : QueuedTask) : Proc := PSandboxCreate (qtask q) (qprompt q).

(** The number of running tasks of a task map, as [runningCount] counts. *)
Definition runningIn (m : gmap string BgTask) : Z :=
  Z.of_nat (size (filter (fun kv : string * BgTask => status kv.2 = running) m)).

(** [s'] is what [drainQueue] may leave from task map [m], queue [q], launch
    log [la] and suspended calls [cp], with [inj] enqueued so far: a prefix
    of the queue is launched, and a task is launched only while fewer than
    [maxConcurrent] are running. *)
Definition drained (m : gmap string BgTask) (q : list QueuedTask)
    (la : list string) (cp : list Proc) (inj : list InjectionItem)
    (s' : Runner) : Prop :=
  (∃ popped rest,
    q = popped ++ rest
    ∧ pendingQueue s' = rest
    ∧ launched s' = la ++ map qtask popped
    ∧ tasks s' = startAll popped m
    ∧ procs s' = cp ++ map spawnOf popped
    ∧ injected s' = inj)
  ∧ runningIn (tasks s') <= Z.max (runningIn m) (maxConcurrent cfg).

(** [s'] differs from [s] at most in the task map. *)
Definition sameRest (s s' : Runner) : Prop :=
  pendingQueue s' = pendingQueue s ∧ launched s' = launched s
  ∧ procs s' = procs s ∧ injected s' = injected s
  ∧ injectionQueue s' = injectionQueue s.

(** [s'] has the pending instructions and the calls of [complete] of [s]. *)
Definition sameLedger (s s' : Runner) : Prop :=
  pendingMessages s' = pendingMessages s ∧ completeCalls s' = completeCalls s.

(** A state the runner can be in: some sequence of transitions leads to
    it from the state the constructor leaves. *)
Definition reachable (s : Runner) : Prop :=
  ∃ ls, run cfg sandboxPreviewUrl ls init = Some s.

(** The items a transition enqueues on behalf of the suspended call [pid]:
    what a continuation of that call adds to the injection queue. *)
Definition enqueuedAt (pid : nat) (l : Label) (s s' : Runner) : list InjectionItem :=
  match l with
  | Settle pid' _ =>
      if Nat.eqb pid' pid then drop (length (injected s)) (injected s') else []
  | _ => []
  end.

(** The items the suspended call [pid] enqueues along [ls], from [s] on. *)
Fixpoint enqueuedBy (pid : nat) (ls : list Label) (s : Runner) : list InjectionItem :=
  match ls with
  | [] => []
  | l :: ls' =>
      match step cfg sandboxPreviewUrl l s with
      | Some s' => enqueuedAt pid l s s' ++ enqueuedBy pid ls' s'
      | None => []
      end
  end.

End Effects.

(** The fields of a task no assignment of the runner touches. *)
Definition static (t : BgTask)
  : string * string * string * TaskPriority * string * list string * nat
    * list string * ResourceLimits :=
  (id t, templateId t, description t, priority t, prompt t, skills t,
   retryCount t, redoHistory t, resourceLimits t).

(** The suspended calls of a chat turn that still hold [previousStatus]. *)
Definition chatPrevious (p : Proc) : option TaskStatus :=
  match p with
  | PChatAsyncComplete _ prev | PChatComplete _ prev => Some prev
  | _ => None
  end.

(** The suspended calls of [runInBackground] and [runWithSandbox]. *)
Definition runProc (p : Proc) : option string :=
  match p with
  | PSandboxCreate i _ | PAgentCreate i _ | PComplete i _ | PRunDispose i
  | PRunImport i => Some i
  | _ => None
  end.

(** The suspended calls that work on the status of their task: all but the
    finished ones and those of [disposeSandbox]. *)
Definition busyProc (p : Proc) : option string :=
  match p with
  | PDone | PDisposeSandbox _ => None
  | _ => procTask p
  end.

(** The suspended calls of [chat] and [runChatInBackground]. *)
Definition chatProc (p : Proc) : bool :=
  match p with
  | PChatAsyncComplete _ _ | PChatAsyncImport _ _ | PChatAsyncImportErr _ _
  | PChatComplete _ _ => true
  | _ => false
  end.

Definition chatLabel (l : Label) : bool :=
  match l with
  | ChatAsync _ _ | Chat _ _ => true
  | _ => false
  end.

(** The order the comparator of [start] sorts by. *)
Definition byRank {A} (rank : A -> Z) (a b : A) : Prop := rank a <= rank b.

(** ** Invariants of the reachable states *)

(** Tasks are stored under their id, with both limits filled in; a queued
    task has no live agent; a chat turn never started from a queued task. *)
Record tasksOk (s : Runner) : Prop := {
  ok_id : ∀ k t, tasks s !! k = Some t -> id t = k;
  ok_limits : ∀ k t, tasks s !! k = Some t ->
    is_Some (maxToolCalls (resourceLimits t)) ∧ is_Some (maxSteps (resourceLimits t));
  ok_queued_agent : ∀ k t, tasks s !! k = Some t -> status t = queued ->
    agentAlive t ≠ Some true;
  ok_chat_previous : ∀ p, p ∈ procs s -> chatPrevious p ≠ Some queued;
}.

(** The queue holds each queued task once, sorted by priority; a launched
    task is no longer queued and never queued again; a task with a run in
    flight is not queued. *)
Record queueOk (s : Runner) : Prop := {
  ok_nodup : NoDup (launched s ++ map qtask (pendingQueue s));
  ok_pending : ∀ q, q ∈ pendingQueue s -> statusOf s (qtask q) = Some queued;
  ok_launched : ∀ i, i ∈ launched s ->
    ∃ t, tasks s !! i = Some t ∧ status t ≠ queued;
  ok_sorted : StronglySorted (byRank (rankIn (tasks s))) (pendingQueue s);
  ok_running : ∀ p i, p ∈ procs s -> busyProc p = Some i ->
    ∃ t, tasks s !! i = Some t ∧ status t ≠ queued;
}.

(** The tool-call budget of a task with limit [m]: nothing is counted
    before the task runs, and a running task is below its limit. *)
Definition withinToolCalls (t : BgTask) (m : Z) : Prop :=
  (status t = queued -> toolCalls (resourceUsage t) = 0)
  ∧ (status t = running -> toolCalls (resourceUsage t) < m).

Definition usageOk (s : Runner) : Prop :=
  ∀ k t m, tasks s !! k = Some t ->
    maxToolCalls (resourceLimits t) = Some m -> 0 < m ->
    withinToolCalls t m.

(** The calls of [complete] on the agent of task [k]. *)
Definition callsOf (k : string) (s : Runner) : list (string * string) :=
  filter (fun c => c.1 = k) (completeCalls s).

(** The transitions that happen beside the call of [complete] the run of
    [k] is suspended in at [pid]: no further [sendMessage] to [k], no chat
    turn with [k], and the call at [pid] does not return. *)
Definition aside (k : string) (pid : nat) (l : Label) : bool :=
  match l with
  | SendMessage i _ | ChatAsync i _ | Chat i _ => negb (String.eqb i k)
  | Settle pid' _ => negb (Nat.eqb pid' pid)
  | _ => true
  end.

(** Each task has at most one run in flight, and only once launched. *)
Record procsOk (s : Runner) : Prop := {
  run_launched : ∀ pid p i, procs s !! pid = Some p -> runProc p = Some i ->
    i ∈ launched s;
  run_unique : ∀ pid1 pid2 p1 p2 i,
    procs s !! pid1 = Some p1 -> procs s !! pid2 = Some p2 ->
    runProc p1 = Some i -> runProc p2 = Some i -> pid1 = pid2;
}.

(** [x] comes before [y] in [l]. *)
Definition before {A} (x y : A) (l : list A) : Prop := [x; y] `sublist_of` l.

(** The tasks in the order of their dispatch: those dispatched so far, then
    those waiting, the head of the queue first. *)
Definition dispatchOrder (s : Runner) : list string :=
  launched s ++ map qtask (pendingQueue s).

(** The items enqueued for task [k]. *)
Definition itemsOf (k : string) (s : Runner) : list InjectionItem :=
  filter (fun it => metaTaskId it = k) (injected s).

(** The suspended calls during which listeners are subscribed to the agent
    of their task. *)
Definition listening (p : Proc) : option string :=
  match p with
  | PComplete i _ | PChatAsyncComplete i _ | PChatAsyncImport i _
  | PChatAsyncImportErr i _ | PChatComplete i _ => Some i
  | _ => None
  end.

(** Task [k] was cancelled while it waited: it is cancelled for good, out of
    the queue and never dispatched; the call of [cancel], suspended at [pid],
    is the only one at work on it, and enqueues the one item for [k] when it
    resumes. *)
Record cancelledWhileQueued (k : string) (reason : option string) (pid : nat)
    (s : Runner) : Prop := {
  cq_task : ∃ t, tasks s !! k = Some t ∧ status t = cancelled
                 ∧ cancelReason t = reason ∧ agentAlive t ≠ Some true;
  cq_queue : k ∉ map qtask (pendingQueue s);
  cq_launched : k ∉ launched s;
  cq_procs : ∀ pid' p, procs s !! pid' = Some p -> busyProc p = Some k ->
    pid' = pid ∧ p = PCancelImport k;
  cq_items :
    (procs s !! pid = Some (PCancelImport k) ∧ itemsOf k s = [])
    ∨ (procs s !! pid = Some PDone
       ∧ ∃ it, itemsOf k s = [it] ∧ metaType it = task_cancelled);
}.

(** The suspended calls past the status of their task: the [finally] of a
    run, and the [cancel] of a waiting task. *)
Definition finishing (p : Proc) : option string :=
  match p with
  | PRunDispose i | PRunImport i | PCancelImport i => Some i
  | _ => None
  end.

(** The suspended calls that enqueue an item when their import resolves. *)
Definition importing (p : Proc) : option string :=
  match p with
  | PRunImport i | PCancelImport i | PChatAsyncImport i _
  | PChatAsyncImportErr i _ => Some i
  | _ => None
  end.

(** The suspended calls that owe one item to the injection queue, with the
    task the item is for: a run once its sandbox is there, the [cancel] of a
    waiting task, and a turn of [chatAsync]. *)
Definition owing (p : Proc) : option string :=
  match p with
  | PAgentCreate i _ | PComplete i _ | PRunDispose i | PRunImport i
  | PCancelImport i
  | PChatAsyncComplete i _ | PChatAsyncImport i _ | PChatAsyncImportErr i _ => Some i
  | _ => None
  end.

(** The types of the items of a task, and those of a chat turn. *)
Definition taskType (ty : InjectionType) : bool :=
  match ty with
  | task_result | task_failed | task_cancelled => true
  | chat_result | chat_failed => false
  end.

Definition chatType (ty : InjectionType) : bool := negb (taskType ty).

(** The type of the item a call enqueues: of the chat kind for a turn of
    [chatAsync], of the task kind for a run and for [cancel]. *)
Definition kindOf (p : Proc) (ty : InjectionType) : bool :=
  if chatProc p then chatType ty else taskType ty.

Definition terminal (st : TaskStatus) : bool :=
  match st with
  | completed | failed | cancelled => true
  | queued | running => false
  end.

(** The announcements without chat turns: while a call is at work on a
    task nothing has been enqueued for it; one call at a time is at work on
    a task; a call past the status of its task finds the task finished; and
    an item enqueued for a task is the only one, the task is finished and
    the type of the item tells how. *)
Record announcedOk (s : Runner) : Prop := {
  an_busy : ∀ pid p k, procs s !! pid = Some p -> busyProc p = Some k ->
    itemsOf k s = [];
  an_unique : ∀ pid1 pid2 p1 p2 k,
    procs s !! pid1 = Some p1 -> procs s !! pid2 = Some p2 ->
    busyProc p1 = Some k -> busyProc p2 = Some k -> pid1 = pid2;
  an_final : ∀ pid p k, procs s !! pid = Some p -> finishing p = Some k ->
    ∃ t, tasks s !! k = Some t ∧ terminal (status t) = true
         ∧ (p = PCancelImport k -> status t = cancelled);
  an_item : ∀ k it, it ∈ itemsOf k s ->
    itemsOf k s = [it]
    ∧ ∃ t, tasks s !! k = Some t ∧ terminal (status t) = true
           ∧ metaType it = injectionTypeOf (status t);
}.

(** ** Sample runs *)

(** A runner for one task at a time, and final texts without preview
    marker. *)
Definition oneAtATime : BgTaskConfig := mkConfig 1 120000 200 50.
Definition noPreview : option string -> option string := fun _ => None.

(** Task [A] runs to completion (sandbox, agent, [complete], disposal of the
    sandbox, announcement). *)
Definition runToCompletion (newId : string) (pid : nat) (limits : option ResourceLimits)
  : list Label :=
  [Start newId "executor" "do it" "a task"
     (Some (mkOpts None limits None None None));
   Settle pid Resolved; Settle pid Resolved;
   Settle pid (CompleteOk (Some "done"));
   Settle pid Resolved].

(** [A] completes, [B] takes the only slot, then a chat turn re-enters
    [A]. *)
Definition overCapacity : list Label :=
  runToCompletion "A" 0 None
  ++ [Start "B" "executor" "do it" "another task" None;
      ChatAsync "A" "one more thing"].

(** [A], limited to one tool call, completes without a tool call; in the
    chat turn that follows, its agent runs two tools. *)
Definition chatOverLimit : list Label :=
  runToCompletion "A" 0 (Some (mkLimits (Some 1) None None))
  ++ [ChatAsync "A" "one more thing";
      AgentEmits "A" tool_executed; AgentEmits "A" tool_executed].

(** [A], limited to two tool calls, is in its first [complete] and has run
    one tool. *)
Definition oneToolCall : list Label :=
  [Start "A" "executor" "do it" "a task"
     (Some (mkOpts None (Some (mkLimits (Some 2) None None)) None None None));
   Settle 0 Resolved; Settle 0 Resolved; AgentEmits "A" tool_executed].

(** [A] is in its first [complete]; two instructions are sent, then the
    task is cancelled, then [complete] returns [paused]. *)
Definition cancelledBeforePause : list Label :=
  [Start "A" "executor" "do it" "a task" None;
   Settle 0 Resolved; Settle 0 Resolved;
   SendMessage "A" "first"; SendMessage "A" "second";
   Cancel "A" None;
   Settle 0 (CompletePaused None)].

(** [A] is in its first [complete], [B] waits in the queue. *)
Definition inFirstComplete : list Label :=
  [Start "A" "executor" "do it" "a task" None;
   Settle 0 Resolved; Settle 0 Resolved;
   Start "B" "executor" "do it" "another task" None].

(** [A] holds the only slot; [B] (low), [C] (normal), [D] (high) and [E]
    (normal) are started in this order. *)
Definition withPriority (p : TaskPriority) : option StartOpts :=
  Some (mkOpts (Some p) None None None None).

Definition fourWaiting : list Label :=
  [Start "A" "executor" "do it" "a task" None;
   Start "B" "executor" "do it" "low" (withPriority low);
   Start "C" "executor" "do it" "normal" (withPriority normal);
   Start "D" "executor" "do it" "high" (withPriority high);
   Start "E" "executor" "do it" "normal too" (withPriority normal)].

(** Without an injection queue, [A] holds the only slot and [B] waits. *)
Definition twoStarted : list Label :=
  [Start "A" "executor" "do it" "a task" None;
   Start "B" "executor" "do it" "another task" None].

(** With the injection queue set, [A] holds the only slot and [B] waits. *)
Definition oneWaiting : list Label :=
  [SetInjectionQueue;
   Start "A" "executor" "do it" "a task" None;
   Start "B" "executor" "do it" "another task" None].

(** Without an injection queue, [A] runs to completion. *)
Definition completedUnannounced : list Label := runToCompletion "A" 0 None.

(** With the injection queue set, [A] completes and is announced; then a
    turn of [chatAsync] with [A] starts, as the call at index 1. *)
Definition chatStarted : list Label :=
  [SetInjectionQueue]
  ++ runToCompletion "A" 0 None
  ++ [Settle 0 Resolved;
      ChatAsync "A" "one more thing"].

(** The agent answers, and the import of the turn resolves. *)
Definition chatAnswered : list Label :=
  [Settle 1 (CompleteOk (Some "again")); Settle 1 Resolved].

(** With the injection queue set, [A] fails on its idle timer and is
    announced, [B] was cancelled in the queue. *)
Definition failedAndCancelled : list Label :=
  [SetInjectionQueue;
   Start "A" "executor" "do it" "a task" None;
   Start "B" "executor" "do it" "another task" None;
   Cancel "B" None;
   Settle 0 Resolved; Settle 0 Resolved;
   IdleTimer "A";
   Settle 0 (CompletePaused None);
   Settle 0 Resolved; Settle 0 Resolved;
   Settle 1 Resolved].

Section Core.

Variable cfg : BgTaskConfig.
Variable sandboxPreviewUrl : option string -> option string.

(** The state between the assignments of a step and [drainQueue]. *)
Record coreOk (l : Label) (s : Runner) : Prop := {
  core_nodup : NoDup (launched s ++ map qtask (coreQueue cfg sandboxPreviewUrl l s));
  core_pending : ∀ q, q ∈ coreQueue cfg sandboxPreviewUrl l s ->
    ∃ t0, coreTasks cfg sandboxPreviewUrl l s !! qtask q = Some t0 ∧ status t0 = queued;
  core_launched : ∀ i, i ∈ launched s ->
    ∃ t0, coreTasks cfg sandboxPreviewUrl l s !! i = Some t0 ∧ status t0 ≠ queued;
  core_sorted : StronglySorted (byRank (rankIn (coreTasks cfg sandboxPreviewUrl l s))) (coreQueue cfg sandboxPreviewUrl l s);
  core_running : ∀ p i, p ∈ coreProcs sandboxPreviewUrl l s -> busyProc p = Some i ->
    ∃ t0, coreTasks cfg sandboxPreviewUrl l s !! i = Some t0 ∧ status t0 ≠ queued;
}.

End Core.

End RunnerSpec.

(* ===================================================================== *)
(** * Vocabulary of the statements about ChatLock *)
(* ===================================================================== *)

Module ChatLockSpec.
Import ChatLock.

(** The calls of [release()] in a sequence of operations, and the callers of
    [acquire()], in order. *)
Definition isRelease (o : Op) : bool :=
  match o with Release => true | _ => false end.

Definition releases (ops : list Op) : nat :=
  length (List.filter isRelease ops).

Definition callers (ops : list Op) : list Caller :=
  omap (fun o => match o with Acquire c => Some c | _ => None end) ops.

(** The discipline of the callers of the lock: [release()] is called only
    while the lock is held. *)
Fixpoint disciplined (ops : list Op) (l : t) : bool :=
  match ops with
  | [] => true
  | o :: rest =>
      match o with Release => locked l | _ => true end
      && disciplined rest (step o l)
  end.

(** [n] times: the holder releases, the woken waiter runs. *)
Definition handoffs (n : nat) : list Op :=
  concat (replicate n [Release; Resume]).

End ChatLockSpec.

(* ===================================================================== *)
(** * Vocabulary of the statements about InjectionQueue *)
(* ===================================================================== *)

Module QueueSpec.
Import InjectionQueue.

(** The items [enqueue] was called with, in order. *)
Definition enqueuedOf (ls : list Label) : list InjectionItem :=
  omap (fun l => match l with Enqueue item => Some item | _ => None end) ls.

(** The item [processNext] has taken off the queue and not yet handed to
    [chatStream]. *)
Definition current (w : Worker) : list InjectionItem :=
  match w with
  | WAcquire item | WAcquired item => [item]
  | WIdle | WStream _ _ => []
  end.

Definition idle (w : Worker) : bool :=
  match w with WIdle => true | _ => false end.

(** [processNext] is between the return of its [acquire()] and its
    [release()]. *)
Definition holds (w : Worker) : bool :=
  match w with
  | WAcquired _ | WStream _ _ => true
  | WIdle | WAcquire _ => false
  end.

(** The [orchestrator_start] messages among those sent. *)
Definition startsOf (ms : list SSEMessage) : list (string * InjectionType) :=
  omap (fun m => match m with
                 | orchestrator_start taskId reason => Some (taskId, reason)
                 | _ => None
                 end) ms.

Definition metadata (item : InjectionItem) : string * InjectionType :=
  (BgTaskRunner.metaTaskId item, BgTaskRunner.metaType item).

(** Does the [acquire()] of another user return with the lock in this
    transition. *)
Definition otherTakes (l : Label) (s : t) : bool :=
  match l with
  | Acquire _ => negb (ChatLock.locked (chatLock s))
  | Resume =>
      match ChatLock.woken (chatLock s) with
      | c :: _ => negb (Nat.eqb c workerId) && negb (ChatLock.locked (chatLock s))
      | [] => false
      end
  | _ => false
  end.

(** The discipline of the other users of the lock: [release()] is called by
    the one that holds the lock.  [others held ls s] follows a run from [s],
    [held] telling whether another user holds the lock; the result is [None]
    when a transition is not enabled or a [release()] breaks the discipline,
    and else tells whether another user holds the lock in the end. *)
Fixpoint others (held : bool) (ls : list Label) (s : t) : option bool :=
  match ls with
  | [] => Some held
  | l :: rest =>
      match step l s with
      | None => None
      | Some s' =>
          match l with
          | Release => if held then others false rest s' else None
          | _ => others (held || otherTakes l s) rest s'
          end
      end
  end.

(** The queue, the item in hand and the calls made so far account for the
    items [items], and [processing] tells whether [processNext] runs. *)
Record accounted (items : list InjectionItem) (s : t) : Prop := {
  acc_done : ∃ done,
    items = done ++ current (worker s) ++ queue s
    ∧ chatStreamCalls s = map BgTaskRunner.message done
    ∧ startsOf (sent s) = map metadata done;
  acc_processing : processing s = negb (idle (worker s));
  acc_idle : worker s = WIdle -> queue s = [];
}.

(** The state of the lock when another user holds it ([held]) or not:
    locked exactly when [processNext] or another user holds it, never both;
    and the [acquire()] of [processNext] is parked once while it waits, and
    not otherwise. *)
Record exclusive (held : bool) (s : t) : Prop := {
  ex_processing : processing s = negb (idle (worker s));
  ex_locked : ChatLock.locked (chatLock s) = holds (worker s) || held;
  ex_one : holds (worker s) && held = false;
  ex_parked :
    length (filter (fun c => c = workerId)
                   (ChatLock.waiters (chatLock s) ++ ChatLock.woken (chatLock s)))
    = match worker s with WAcquire _ => 1%nat | _ => 0%nat end;
}.

End QueueSpec.

(* ===================================================================== *)
(** * Vocabulary of the statements about the safe-command policy *)
(* ===================================================================== *)

Module SafeCommandsSpec.
Import SafeCommands.

(** ** What a pattern matches

    [Matches r prev s prev' s']: the pattern [r] matches a prefix of [s], and
    [s'] is what is left of [s] after it; [prev] is the code unit before [s]
    and [prev'] the one before [s'] ([None] at the start of the text).  This
    is the pattern read as a set of texts: no order among the alternatives,
    no greed, no backtracking, no bound on the iterations. *)
Inductive Matches : regex -> option N -> jsstring -> option N -> jsstring -> Prop :=
| M_Eps prev s :
    Matches Eps prev s prev s
| M_Cls p prev c s :
    p c = true -> Matches (Cls p) prev (c :: s) (Some c) s
| M_Seq r1 r2 prev s prev1 s1 prev2 s2 :
    Matches r1 prev s prev1 s1 -> Matches r2 prev1 s1 prev2 s2 ->
    Matches (Seq r1 r2) prev s prev2 s2
| M_AltL r1 r2 prev s prev' s' :
    Matches r1 prev s prev' s' -> Matches (Alt r1 r2) prev s prev' s'
| M_AltR r1 r2 prev s prev' s' :
    Matches r2 prev s prev' s' -> Matches (Alt r1 r2) prev s prev' s'
| M_StarNil r prev s :
    Matches (Star r) prev s prev s
| M_StarCons r prev s prev1 s1 prev2 s2 :
    Matches r prev s prev1 s1 -> Matches (Star r) prev1 s1 prev2 s2 ->
    Matches (Star r) prev s prev2 s2
| M_Bnd prev s :
    xorb (is_word_before prev) (is_word_after s) = true ->
    Matches Bnd prev s prev s
| M_Bol s :
    Matches Bol None s None s.

(** The pattern occurs in the text: it matches from some index on. *)
Definition Occurs (r : regex) (s : jsstring) : Prop :=
  ∃ pre rest prev' rest',
    s = pre ++ rest ∧ Matches r (last pre) rest prev' rest'.

(** The loop [matcher] runs on [Star r], by its name. *)
Section StarLoop.

Context {A : Type} (r : regex) (k : option N -> jsstring -> option A).

Fixpoint starLoop (fuel : nat) (prev : option N) (s : jsstring) : option A :=
  match fuel with
  | O => k prev s
  | S fuel' =>
      match matcher r prev s (fun prev' s' =>
              if (length s' <? length s)%nat
              then starLoop fuel' prev' s' else None) with
      | Some x => Some x
      | None => k prev s
      end
  end.

End StarLoop.

(** ** Leading [env] assignments

    What the claim calls stripping a leading [env VAR=value] prefix, said
    without a pattern. *)
Fixpoint takeWhile (p : N -> bool) (s : jsstring) : jsstring :=
  match s with
  | c :: s' => if p c then c :: takeWhile p s' else []
  | [] => []
  end.

Fixpoint dropWhile (p : N -> bool) (s : jsstring) : jsstring :=
  match s with
  | c :: s' => if p c then dropWhile p s' else s
  | [] => []
  end.

Definition notSpace (c : N) : bool := negb (is_space c).

Definition isEmpty (s : jsstring) : bool :=
  match s with [] => true | _ :: _ => false end.

(** Is there a [=] in [w] with something after it. *)
Fixpoint assignsTail (w : jsstring) : bool :=
  match w with
  | [] => false
  | c :: w' => (c =? 61)%N && negb (isEmpty w') || assignsTail w'
  end.

(** A word of the form [VAR=value]: a [=] with something before it and
    something after it. *)
Definition isAssignment (word : jsstring) : bool :=
  match word with
  | [] => false
  | _ :: w => assignsTail w
  end.

(** One assignment at the head of [s]: the letters [env], white space, a
    word of the form [VAR=value] (all that is no white space), white space.
    [Some rest] is what follows it. *)
Definition envAssignment (s : jsstring) : option jsstring :=
  let s1 := drop 3 s in
  let s2 := dropWhile is_space s1 in
  let s3 := dropWhile notSpace s2 in
  let s4 := dropWhile is_space s3 in
  if bool_decide (take 3 s = js "env")
     && (length s2 <? length s1)%nat
     && isAssignment (takeWhile notSpace s2)
     && (length s4 <? length s3)%nat
  then Some s4 else None.

Fixpoint stripAssignments (fuel : nat) (s : jsstring) : jsstring :=
  match fuel with
  | O => s
  | S fuel' =>
      match envAssignment s with
      | Some rest => stripAssignments fuel' rest
      | None => s
      end
  end.

(** The text without its leading white space and the [env] assignments that
    follow it, as many as there are. *)
Definition stripEnv (s : jsstring) : jsstring :=
  let s0 := dropWhile is_space s in
  stripAssignments (length s0) s0.

(** The same, said by the shape of the text.  One assignment: the letters
    [env], white space, a variable, [=], a value (no white space in the
    three), white space. *)
Definition isEnvAssignment (a : jsstring) : Prop :=
  ∃ spaces1 variable value spaces2,
    a = js "env" ++ spaces1 ++ variable ++ [61%N] ++ value ++ spaces2
    ∧ spaces1 ≠ [] ∧ Forall (fun c => is_space c = true) spaces1
    ∧ variable ≠ [] ∧ value ≠ []
    ∧ Forall (fun c => is_space c = false) (variable ++ [61%N] ++ value)
    ∧ spaces2 ≠ [] ∧ Forall (fun c => is_space c = true) spaces2.

(** A text that starts with no white space. *)
Definition startsBare (s : jsstring) : Prop :=
  ∀ c tail, s = c :: tail -> is_space c = false.

(** A text with nothing to strip: it starts with neither white space nor an
    assignment. *)
Definition isStripped (rest : jsstring) : Prop :=
  startsBare rest ∧ ¬ ∃ a tail, isEnvAssignment a ∧ rest = a ++ tail.

(** [command] is [rest] behind white space and assignments. *)
Definition stripsTo (command rest : jsstring) : Prop :=
  ∃ lead assignments,
    command = lead ++ concat assignments ++ rest
    ∧ Forall (fun c => is_space c = true) lead
    ∧ Forall isEnvAssignment assignments
    ∧ isStripped rest.

End SafeCommandsSpec.

(* ===================================================================== *)
(** * Vocabulary of the statement about the step limit *)
(* ===================================================================== *)

Module StepsSpec.
Import BgTaskRunner RunnerSpec.

(** The suspended calls of a run up to the return of [complete]. *)
Definition preRun (p : Proc) : option string :=
  match p with
  | PSandboxCreate i _ | PAgentCreate i _ | PComplete i _ => Some i
  | _ => None
  end.

(** The suspended calls of a chat turn inside [complete]. *)
Definition chatting (p : Proc) : option string :=
  match p with
  | PChatAsyncComplete i _ | PChatComplete i _ => Some i
  | _ => None
  end.

(** A task that runs, has completed or can take a chat turn. *)
Definition live (t : BgTask) : Prop :=
  status t = running ∨ status t = completed ∨ agentAlive t = Some true.

(** The step counter in a task map [m] with suspended calls [ps]: a queued
    task has counted nothing and has no agent; a live task with a positive
    limit is below it; until its [complete] returns a run has neither
    completed nor an agent to chat with, and no chat turn is under way for
    its task; and a task in a chat turn is below its limit. *)
Record stepsInv (m : gmap string BgTask) (ps : list Proc) : Prop := {
  si_fresh : ∀ k t, m !! k = Some t -> status t = queued ->
    agentAlive t ≠ Some true ∧ steps (resourceUsage t) = 0;
  si_live : ∀ k t lim, m !! k = Some t ->
    maxSteps (resourceLimits t) = Some lim -> 0 < lim ->
    live t -> steps (resourceUsage t) < lim;
  si_pre : ∀ p k t, p ∈ ps -> preRun p = Some k -> m !! k = Some t ->
    status t ≠ completed ∧ agentAlive t ≠ Some true;
  si_apart : ∀ p1 p2 k, p1 ∈ ps -> p2 ∈ ps ->
    preRun p1 = Some k -> chatting p2 = Some k -> False;
  si_chat : ∀ p k t lim, p ∈ ps -> chatting p = Some k -> m !! k = Some t ->
    maxSteps (resourceLimits t) = Some lim -> 0 < lim ->
    steps (resourceUsage t) < lim;
}.

(** One step of a run counted, with [maxSteps = 2]. *)
Definition oneStep : list Label :=
  [Start "A" "executor" "do it" "a task"
     (Some (mkOpts None (Some (mkLimits None (Some 2) None)) None None None));
   Settle 0 Resolved; Settle 0 Resolved; AgentEmits "A" step_complete].

End StepsSpec.

(* ===================================================================== *)
(** * Properties of ChatLock *)
(* ===================================================================== *)

Module ChatLockProps.
Import ChatLock.

(** [acquire] on a free lock takes it at once; on a held lock it parks the
    caller behind the waiters already there. *)
Lemma acquire_free c l :
  locked l = false ->
  acquire c l = mk true (waiters l) (woken l) (acquired l ++ [c]).
Proof. intros H. unfold acquire, enter. by rewrite H. Qed.

Lemma acquire_held c l :
  locked l = true ->
  acquire c l = mk true (waiters l ++ [c]) (woken l) (acquired l).
Proof. intros H. unfold acquire, enter. by rewrite H. Qed.

(** [release] never leaves the flag set. *)
Lemma release_unlocks l : locked (release l) = false.
Proof. unfold release. by destruct (waiters l). Qed.

(** Every caller that has the lock went through [enter] with the flag
    clear, so [acquired] grows by at most one per step and only then. *)
Lemma step_acquired_grows o l :
  acquired (step o l) = acquired l
  ∨ (locked l = false ∧ ∃ c, acquired (step o l) = acquired l ++ [c]).
Proof.
  destruct o as [c| |]; simpl.
  - unfold acquire, enter. destruct (locked l) eqn:E; simpl; eauto.
  - left. unfold release. by destruct (waiters l).
  - unfold resume. destruct (woken l) as [|c rest]; [by left|].
    unfold enter; simpl. destruct (locked l) eqn:E; simpl; eauto.
Qed.

(** C2, as stated, fails.  Caller 1 holds the lock and caller 2 is parked
    when [release()] runs.  When it returns the lock is free, not held by
    caller 2; caller 3, whose first [acquire()] comes after that return,
    takes the lock, and caller 2, once resumed, parks again. *)
Lemma release_handoff_counterexample :
  let held := run [Acquire 1%nat; Acquire 2%nat] init in
  let released := release held in
  let later := run [Acquire 3%nat; Resume] released in
  waiters held = [2%nat]
  ∧ isLocked released = false
  ∧ acquired later = [1%nat; 3%nat]
  ∧ waiters later = [2%nat].
Proof. repeat split. Qed.

(** C2 (amended): [release()] clears the flag, takes the head waiter off the
    list and schedules its continuation.  The lock is handed to nobody: the
    woken waiter tests the flag again when it runs.  If it runs first it
    takes the lock; a caller whose [acquire()] runs before it takes the lock
    instead, and the woken waiter goes to the tail of the waiter list. *)
Theorem release_wakes_head_waiter (l : t) (w : Caller) (ws : list Caller) :
  waiters l = w :: ws ->
  woken l = [] ->
  let released := release l in
  (locked released = false ∧ waiters released = ws ∧ woken released = [w])
  ∧ (let resumed := resume released in
     locked resumed = true ∧ acquired resumed = acquired l ++ [w]
     ∧ waiters resumed = ws)
  ∧ (∀ c, let raced := resume (acquire c released) in
     locked raced = true ∧ acquired raced = acquired l ++ [c]
     ∧ waiters raced = ws ++ [w]).
Proof.
  intros Hw Hk. unfold release. rewrite Hw, Hk. simpl.
  repeat split.
Qed.

Lemma release_wakes_head_waiter_witness :
  let l := run [Acquire 1%nat; Acquire 2%nat; Acquire 4%nat] init in
  waiters l = [2%nat; 4%nat] ∧ woken l = []
  ∧ acquired (resume (release l)) = [1%nat; 2%nat]
  ∧ acquired (resume (acquire 3%nat (release l))) = [1%nat; 3%nat]
  ∧ waiters (resume (acquire 3%nat (release l))) = [4%nat; 2%nat].
Proof.
  intros l.
  destruct (release_wakes_head_waiter l 2%nat [4%nat] eq_refl eq_refl)
    as (_ & (_ & Ha & _) & Hr).
  destruct (Hr 3%nat) as (_ & Hb & Hc).
  repeat split; assumption.
Defined.


(** ** Further properties of the lock *)

Import ChatLockSpec.

Lemma run_cons o ops l : run (o :: ops) l = run ops (step o l).
Proof. reflexivity. Qed.

Lemma holders_step o l :
  (match o with Release => locked l | _ => true end) = true ->
  (length (acquired (step o l)) + (if locked l then 1 else 0)
   = length (acquired l) + (if isRelease o then 1 else 0)
     + (if locked (step o l) then 1 else 0))%nat.
Proof.
  destruct o as [c| |]; cbn; intros Hd.
  - unfold acquire, enter. destruct (locked l); cbn; rewrite ?length_app; cbn; lia.
  - rewrite Hd. unfold release. destruct (waiters l); cbn; lia.
  - unfold resume. destruct (woken l) as [|c rest]; [lia|].
    unfold enter. cbn. destruct (locked l); cbn; rewrite ?length_app; cbn; lia.
Qed.

Lemma holders_run ops l :
  disciplined ops l = true ->
  (length (acquired (run ops l)) + (if locked l then 1 else 0)
   = length (acquired l) + releases ops + (if locked (run ops l) then 1 else 0))%nat.
Proof.
  revert l. induction ops as [|o ops IH]; intros l Hd.
  - cbn. lia.
  - cbn [disciplined] in Hd. apply andb_prop in Hd as [Ho Hd].
    rewrite run_cons. specialize (IH (step o l) Hd).
    pose proof (holders_step o l Ho) as Hs.
    unfold releases in *. cbn [List.filter].
    destruct (isRelease o); cbn [length]; lia.
Qed.

(** X1: Mutual exclusion: as long as [release()] is called only while the lock
    is held, the callers that took the lock are as many as the calls of
    [release()], plus one while the lock is held.  So the lock is taken
    again only after its holder released it. *)
Theorem one_holder_at_a_time (ops : list Op) :
  disciplined ops init = true ->
  length (acquired (run ops init))
  = (releases ops + (if isLocked (run ops init) then 1 else 0))%nat.
Proof.
  intros Hd. pose proof (holders_run ops init Hd) as H. cbn in H. unfold isLocked. lia.
Qed.

Lemma one_holder_at_a_time_witness :
  length (acquired (run [Acquire 1; Acquire 2; Release; Acquire 3; Resume; Release; Resume]%nat init))
  = 3%nat.
Proof.
  rewrite one_holder_at_a_time; [|reflexivity]. reflexivity.
Defined.

Ltac perm1 :=
  rewrite <- ?app_assoc; cbn [app]; rewrite <- ?Permutation_middle, ?app_nil_r; done.

Lemma callers_step o l :
  acquired (step o l) ++ waiters (step o l) ++ woken (step o l)
  ≡ₚ acquired l ++ waiters l ++ woken l
     ++ match o with Acquire c => [c] | _ => [] end.
Proof.
  destruct o as [c| |]; cbn.
  - unfold acquire, enter. destruct (locked l); cbn; perm1.
  - unfold release. destruct (waiters l) as [|w ws]; cbn; perm1.
  - unfold resume. destruct (woken l) as [|c rest] eqn:E; [rewrite E; perm1|].
    unfold enter. cbn. destruct (locked l); cbn; perm1.
Qed.

Lemma callers_run ops l :
  acquired (run ops l) ++ waiters (run ops l) ++ woken (run ops l)
  ≡ₚ acquired l ++ waiters l ++ woken l ++ callers ops.
Proof.
  revert l. induction ops as [|o ops IH]; intros l.
  - cbn. by rewrite app_nil_r.
  - rewrite run_cons. etrans; [apply IH|]. rewrite !app_assoc.
    rewrite <- (app_assoc (acquired (step o l))). rewrite callers_step.
    rewrite <- !app_assoc. do 3 apply Permutation_app_head. by destruct o.
Qed.

(** X2: No caller is lost or served twice: whatever the order of the calls,
    every caller of [acquire()] either has taken the lock, or is parked, or
    was woken and has not run yet, and each is in one of the three places
    once. *)
Theorem no_caller_is_lost (ops : list Op) :
  let l := run ops init in
  acquired l ++ waiters l ++ woken l ≡ₚ callers ops.
Proof. cbv zeta. by rewrite callers_run. Qed.

Lemma handoffs_S n : handoffs (S n) = Release :: Resume :: handoffs n.
Proof. reflexivity. Qed.

(** X3: First in, first out: when nobody else calls [acquire()] in between,
    the parked callers take the lock in the order in which they parked, one
    with every [release()]. *)
Theorem waiters_are_served_in_order (l : t) (n : nat) :
  locked l = true -> woken l = [] ->
  (n <= length (waiters l))%nat ->
  let l' := run (handoffs n) l in
  acquired l' = acquired l ++ take n (waiters l)
  ∧ waiters l' = drop n (waiters l)
  ∧ woken l' = []
  ∧ locked l' = true.
Proof.
  revert l. induction n as [|n IH]; intros l Hl Hw Hn; cbv zeta.
  - cbn. by rewrite app_nil_r.
  - rewrite handoffs_S, !run_cons.
    destruct (waiters l) as [|w ws] eqn:Ews; [cbn in Hn; lia|].
    assert (step Resume (step Release l)
            = mk true ws [] (acquired l ++ [w])) as ->.
    { cbn. unfold release. rewrite Ews, Hw. reflexivity. }
    destruct (IH (mk true ws [] (acquired l ++ [w]))) as (H1 & H2 & H3 & H4);
      [done|done|cbn in Hn |- *; lia|].
    cbv zeta in H1, H2, H3, H4. cbn [acquired waiters] in H1, H2.
    rewrite H1, H2, H3, H4. cbn. by rewrite <- app_assoc.
Qed.

Lemma waiters_are_served_in_order_witness :
  acquired (run (handoffs 2) (run [Acquire 1; Acquire 2; Acquire 3; Acquire 4]%nat init))
  = [1; 2; 3]%nat.
Proof.
  destruct (waiters_are_served_in_order
              (run [Acquire 1; Acquire 2; Acquire 3; Acquire 4]%nat init) 2)
    as (H & _); [reflexivity|reflexivity|cbn; lia|].
  exact H.
Defined.

End ChatLockProps.


(* ===================================================================== *)
(** * Properties of the safe-command policy *)
(* ===================================================================== *)

Module SafeCommandsProps.
Import SafeCommands SafeCommandsSpec.

Lemma streq_spec a b : streq a b = true ↔ a = b.
Proof.
  revert b. induction a as [|x a IH]; intros [|y b]; simpl; try easy.
  rewrite andb_true_iff, N.eqb_eq, IH. split.
  - by intros [-> ->].
  - by intros [= -> ->].
Qed.

Lemma startsWith_spec s p : startsWith s p = true ↔ ∃ rest, s = p ++ rest.
Proof.
  revert s. induction p as [|a p IH]; intros s; simpl.
  - split; [intros _; by exists s | by destruct s].
  - destruct s as [|b s].
    + split; [easy | by intros [? ?]].
    + simpl. rewrite andb_true_iff, N.eqb_eq, IH. split.
      * intros [-> [rest ->]]. eauto.
      * intros [rest [= -> ->]]. eauto.
Qed.

Lemma matchesPrefix_spec normalized prefix :
  matchesPrefix normalized prefix = true ↔
  normalized = prefix
  ∨ (∃ rest, normalized = prefix ++ [32%N] ++ rest)
  ∨ (∃ rest, normalized = prefix ++ [9%N] ++ rest).
Proof.
  unfold matchesPrefix.
  rewrite !orb_true_iff, streq_spec, !startsWith_spec.
  setoid_rewrite <- app_assoc. tauto.
Qed.

Lemma trimStart_spaces s :
  Forall (fun c => is_space c = true) s -> trimStart s = [].
Proof. induction 1 as [|c s Hc _ IH]; simpl; [done | by rewrite Hc]. Qed.

Lemma trim_spaces s :
  Forall (fun c => is_space c = true) s -> trim s = [].
Proof. intros H. unfold trim. by rewrite (trimStart_spaces _ H). Qed.

Lemma firstCandidate_no_string cs :
  (∀ c s, c ∈ cs -> c ≠ JString s) -> firstCandidate cs = None.
Proof.
  induction cs as [|c cs IH]; intros H; [done|].
  simpl. destruct c; try (apply IH; intros; apply H; by right).
  exfalso. eapply H; [by left | done].
Qed.

(** The policy does not look at a command it could not extract. *)
Lemma isSafeCommand_no_command stringify v :
  extractCommand stringify v = None ∨ extractCommand stringify v = Some [] ->
  isSafeCommand stringify v = false.
Proof. unfold isSafeCommand. by intros [-> | ->]. Qed.

(** The first loop: one dangerous pattern that matches is enough, whatever
    the command starts with.  The second loop decides all the rest. *)
Lemma isSafeCommand_unfold stringify v command :
  extractCommand stringify v = Some command -> command ≠ [] ->
  isSafeCommand stringify v =
    negb (existsb (fun pattern => test pattern command) DANGEROUS_PATTERNS)
    && existsb (matchesPrefix (normalize command)) SAFE_COMMAND_PREFIXES.
Proof.
  intros He Hne. unfold isSafeCommand. rewrite He.
  destruct command; [done|]. by destruct (existsb _ DANGEROUS_PATTERNS).
Qed.

(** A few commands, among them one that is dangerous and starts with a safe
    prefix, and one whose [env] assignments are stripped. *)
Example isSafeCommand_samples :
  let ask s := isSafeCommand (fun _ => None) (JObject [(js "command", JString (js s))]) in
  map ask ["ls -la"; "cat notes > out"; "git log | sh"; "env A=1 env B=2 ls";
           "env A=1 make"; "curl -x post http://h"; "wget -O - http://h";
           "git statusx"; "  pwd  "]%string
  = [true; false; false; true; false; false; true; false; true].
Proof. vm_compute. reflexivity. Qed.

Example normalize_samples :
  normalize (js "env A=1 env B=2 ls") = js "ls"
  ∧ normalize (js "env A=B=C   git status ") = js "git status"
  ∧ normalize (js "env") = js "env"
  ∧ normalize (js "environment") = js "environment".
Proof. vm_compute. repeat split. Qed.


(** ** The matcher and the meaning of a pattern *)

Lemma matcher_Star {A} r prev s (k : option N -> jsstring -> option A) :
  matcher (Star r) prev s k = starLoop r k (length s) prev s.
Proof. reflexivity. Qed.

(** What the matcher finds is a match. *)
Lemma matcher_sound {A} r prev s (k : option N -> jsstring -> option A) x :
  matcher r prev s k = Some x ->
  ∃ prev' s', Matches r prev s prev' s' ∧ k prev' s' = Some x.
Proof.
  revert prev s k.
  induction r as [|p|r1 IH1 r2 IH2|r1 IH1 r2 IH2|r1 IH1| |]; intros prev s k H.
  - eauto using Matches.
  - cbn in H. destruct s as [|c s]; [done|]. destruct (p c) eqn:E; [|done].
    eauto using Matches.
  - cbn in H. apply IH1 in H as (p1 & s1 & H1 & H).
    apply IH2 in H as (p2 & s2 & H2 & H). eauto using Matches.
  - cbn in H. destruct (matcher r1 prev s k) eqn:E.
    + injection H as ->. apply IH1 in E as (p1 & s1 & H1 & E). eauto using Matches.
    + apply IH2 in H as (p2 & s2 & H2 & H). eauto using Matches.
  - rewrite matcher_Star in H. revert H.
    generalize (length s). intros fuel. revert prev s.
    induction fuel as [|fuel IHf]; intros prev s H; cbn [starLoop] in H.
    + eauto using Matches.
    + destruct (matcher r1 prev s _) eqn:E.
      * injection H as ->. apply IH1 in E as (p1 & s1 & H1 & E).
        destruct (length s1 <? length s)%nat; [|done].
        apply IHf in E as (p2 & s2 & H2 & E). eauto using Matches.
      * eauto using Matches.
  - cbn in H. destruct (xorb _ _) eqn:E; [|done]. eauto using Matches.
  - cbn in H. destruct prev; [done|]. eauto using Matches.
Qed.

(** The matcher asks its continuation only about what is left of the
    text. *)
Lemma matcher_ext {A} r prev s (k1 k2 : option N -> jsstring -> option A) :
  (∀ p' s', (length s' <= length s)%nat -> k1 p' s' = k2 p' s') ->
  matcher r prev s k1 = matcher r prev s k2.
Proof.
  revert prev s k1 k2.
  induction r as [|p|r1 IH1 r2 IH2|r1 IH1 r2 IH2|r1 IH1| |]; intros prev s k1 k2 H.
  - cbn. by apply H.
  - cbn. destruct s as [|c s]; [done|]. destruct (p c); [|done]. apply H. cbn. lia.
  - cbn. apply IH1. intros p' s' Hl. apply IH2. intros p2 s2 Hl2. apply H. lia.
  - cbn. by rewrite (IH1 prev s k1 k2 H), (IH2 prev s k1 k2 H).
  - rewrite !matcher_Star. generalize (length s). intros fuel.
    revert prev s H. induction fuel as [|fuel IHf]; intros prev s H; cbn [starLoop].
    + by apply H.
    + rewrite (H prev s) by done.
      rewrite (IH1 prev s _ (fun prev' s' =>
                 if (length s' <? length s)%nat then starLoop r1 k2 fuel prev' s' else None));
        [done|].
      intros p' s' Hl. destruct (length s' <? length s)%nat eqn:E; [|done].
      apply IHf. intros p2 s2 Hl2. apply H. lia.
  - cbn. by rewrite (H prev s).
  - cbn. by rewrite (H prev s).
Qed.

Lemma matcher_none {A} r prev s :
  matcher r prev s (fun _ _ => @None A) = None.
Proof.
  revert prev s.
  induction r as [|p|r1 IH1 r2 IH2|r1 IH1 r2 IH2|r1 IH1| |]; intros prev s.
  - done.
  - cbn. destruct s; [done|]. by destruct (p n).
  - cbn. rewrite (matcher_ext r1 prev s _ (fun _ _ => None)); [apply IH1|].
    intros p' s' _. apply IH2.
  - cbn. by rewrite IH1, IH2.
  - rewrite matcher_Star. generalize (length s). intros fuel. revert prev s.
    induction fuel as [|fuel IHf]; intros prev s; cbn [starLoop]; [done|].
    rewrite (matcher_ext r1 prev s _ (fun _ _ => None)); [by rewrite IH1|].
    intros p' s' _. destruct (length s' <? length s)%nat; [apply IHf|done].
  - cbn. by destruct (xorb _ _).
  - cbn. by destruct prev.
Qed.

(** The length of the text is fuel enough for the loop of [Star]. *)
Lemma starLoop_fuel {A} r (k : option N -> jsstring -> option A) f1 f2 prev s :
  (length s <= f1)%nat -> (length s <= f2)%nat ->
  starLoop r k f1 prev s = starLoop r k f2 prev s.
Proof.
  assert (∀ f prev, starLoop r k f prev [] = k prev []) as Hnil.
  { intros [|f] p; cbn [starLoop]; [done|].
    rewrite (matcher_ext r p [] _ (fun _ _ => None)); [by rewrite matcher_none|].
    intros p' s' _. by destruct s'. }
  revert f2 prev s. induction f1 as [|f1 IH]; intros f2 prev s H1 H2.
  - destruct s; [|cbn in H1; lia]. by rewrite !Hnil.
  - destruct f2 as [|f2].
    + destruct s; [|cbn in H2; lia]. by rewrite !Hnil.
    + cbn [starLoop].
      rewrite (matcher_ext r prev s _ (fun prev' s' =>
                 if (length s' <? length s)%nat then starLoop r k f2 prev' s' else None));
        [done|].
      intros p' s' Hl. destruct (length s' <? length s)%nat eqn:E; [|done].
      apply Nat.ltb_lt in E. apply IH; lia.
Qed.

(** A match leaves a suffix of the text, and the whole text only when it
    consumed nothing. *)
Lemma Matches_length r prev s prev' s' :
  Matches r prev s prev' s' ->
  (length s' <= length s)%nat ∧ (length s' = length s -> prev' = prev ∧ s' = s).
Proof.
  induction 1 as [| | ? ? ? ? ? ? ? ? _ [IH1 IH1'] _ [IH2 IH2'] | | | |
                  ? ? ? ? ? ? ? _ [IH1 IH1'] _ [IH2 IH2'] | |]; cbn; try done.
  - split; [lia|]. intros; lia.
  - split; [lia|]. intros E.
    destruct IH1' as [-> ->]; [lia|]. destruct IH2' as [-> ->]; [lia|]. done.
  - split; [lia|]. intros E.
    destruct IH1' as [-> ->]; [lia|]. destruct IH2' as [-> ->]; [lia|]. done.
Qed.

(** Whatever matches, the matcher finds a match. *)
Lemma matcher_complete r prev s prev' s' :
  Matches r prev s prev' s' ->
  ∀ A (k : option N -> jsstring -> option A),
    is_Some (k prev' s') -> is_Some (matcher r prev s k).
Proof.
  induction 1 as [| ? ? ? ? Hp | ? ? ? ? ? ? ? ? _ IH1 _ IH2 | ? ? ? ? ? ? _ IH
                  | ? ? ? ? ? ? _ IH | | ? ? ? ? ? ? ? H1 IH1 _ IH2 | ? ? Hb |];
    intros A k Hk.
  - done.
  - cbn. by rewrite Hp.
  - cbn. apply IH1. by apply IH2.
  - cbn. specialize (IH A k Hk). destruct (matcher r1 prev s k); [eauto|].
    by destruct IH.
  - cbn. destruct (matcher r1 prev s k); [eauto|]. by apply IH.
  - rewrite matcher_Star. destruct (length s); cbn [starLoop]; [done|].
    destruct (matcher r prev s _); eauto.
  - destruct (Matches_length _ _ _ _ _ H1) as [Hle Heq].
    destruct (decide (length s1 = length s)) as [E|Hne].
    + destruct (Heq E) as [-> ->]. by apply IH2.
    + rewrite matcher_Star. destruct (length s) as [|f] eqn:El; [lia|].
      cbn [starLoop].
      assert (is_Some (matcher r prev s (fun prev' s' =>
                 if (length s' <? length s)%nat then starLoop r k f prev' s' else None)))
        as [x ->]; [|eauto].
      apply IH1. rewrite (proj2 (Nat.ltb_lt _ _)) by lia.
      rewrite (starLoop_fuel r k f (length s1) prev1 s1) by lia.
      rewrite <- matcher_Star. by apply IH2.
  - cbn. by rewrite Hb.
  - done.
Qed.

Lemma matchHere_spec r prev s :
  is_Some (matchHere r prev s) ↔ ∃ prev' s', Matches r prev s prev' s'.
Proof.
  unfold matchHere. split.
  - intros [x H]. apply matcher_sound in H as (p' & s' & H & _). eauto.
  - intros (p' & s' & H). by apply (matcher_complete _ _ _ _ _ H).
Qed.

Lemma testFrom_spec r s prev :
  testFrom r prev s = true ↔
  ∃ pre rest prev' rest',
    s = pre ++ rest
    ∧ Matches r (match last pre with Some c => Some c | None => prev end)
              rest prev' rest'.
Proof.
  revert prev. induction s as [|c s IH]; intros prev; cbn [testFrom].
  - destruct (matchHere r prev []) as [x|] eqn:E.
    + split; [|done]. intros _.
      destruct (proj1 (matchHere_spec r prev [])) as (p' & s' & H); [by rewrite E|].
      by exists [], [], p', s'.
    + split; [done|]. intros (pre & rest & p' & s' & Hs & H).
      symmetry in Hs. apply app_eq_nil in Hs as [-> ->]. cbn in H.
      destruct (proj2 (matchHere_spec r prev [])) as [x Hx]; [eauto|]. congruence.
  - destruct (matchHere r prev (c :: s)) as [x|] eqn:E.
    + split; [|done]. intros _.
      destruct (proj1 (matchHere_spec r prev (c :: s))) as (p' & s' & H); [by rewrite E|].
      by exists [], (c :: s), p', s'.
    + rewrite IH. split.
      * intros (pre & rest & p' & s' & -> & H).
        exists (c :: pre), rest, p', s'. split; [done|].
        rewrite last_cons. by destruct (last pre).
      * intros (pre & rest & p' & s' & Hs & H). destruct pre as [|c' pre].
        -- cbn in Hs, H. subst rest.
           destruct (proj2 (matchHere_spec r prev (c :: s))) as [x Hx]; [eauto|].
           congruence.
        -- injection Hs as <- ->. exists pre, rest, p', s'. split; [done|].
           rewrite last_cons in H. by destruct (last pre).
Qed.

(** [test] finds a pattern exactly when it occurs in the text. *)
Lemma test_spec r s : test r s = true ↔ Occurs r s.
Proof.
  unfold test, Occurs. rewrite testFrom_spec.
  split; intros (pre & rest & p' & s' & Hs & H); exists pre, rest, p', s';
    (split; [done|]); by destruct (last pre).
Qed.


(** [/\brm\s/] occurs in a command that calls [rm], not in one that only
    has the letters inside a word. *)
Example Occurs_samples :
  Occurs (wordThenSpace "rm") (js "ls; rm -rf /tmp/x")
  ∧ ¬ Occurs (wordThenSpace "rm") (js "farm -x")
  ∧ ¬ Occurs (wordThenSpace "rm") (js "rmdir x").
Proof.
  split; [|split].
  - apply test_spec. vm_compute. reflexivity.
  - intros H%test_spec. vm_compute in H. discriminate H.
  - intros H%test_spec. vm_compute in H. discriminate H.
Qed.

(** ** The pattern of the [env] prefix, step by step *)

Lemma star_cls_nil {A} p prev (k : option N -> jsstring -> option A) :
  matcher (Star (Cls p)) prev [] k = k prev [].
Proof. reflexivity. Qed.

(** [*] on a class of characters: one more character first, the text as it
    is otherwise. *)
Lemma star_cls_cons {A} p prev c s (k : option N -> jsstring -> option A) :
  matcher (Star (Cls p)) prev (c :: s) k =
  if p c
  then match matcher (Star (Cls p)) (Some c) s k with
       | Some x => Some x
       | None => k prev (c :: s)
       end
  else k prev (c :: s).
Proof.
  rewrite !matcher_Star. cbn [length starLoop matcher].
  destruct (p c); [|done].
  by rewrite (proj2 (Nat.ltb_lt (length s) (S (length s)))) by lia.
Qed.

(** Greed pays when the continuation accepts what the longest run leaves. *)
Lemma star_cls_accept {A} p (k : option N -> jsstring -> option A) prev s :
  (∀ p', is_Some (k p' (dropWhile p s))) ->
  ∃ p', matcher (Star (Cls p)) prev s k = k p' (dropWhile p s).
Proof.
  revert prev. induction s as [|c s IH]; intros prev Hk.
  - by exists prev.
  - rewrite star_cls_cons. cbn [dropWhile] in *. destruct (p c); [|by exists prev].
    destruct (IH (Some c) Hk) as [p' ->]. exists p'.
    by destruct (Hk p') as [x ->].
Qed.

(** ... and it is the only way when the continuation refuses a text that
    starts with a character of the class. *)
Lemma star_cls_reject {A} p (k : option N -> jsstring -> option A) prev s :
  (∀ p' c s', p c = true -> k p' (c :: s') = None) ->
  ∃ p', matcher (Star (Cls p)) prev s k = k p' (dropWhile p s).
Proof.
  intros Hk. revert prev. induction s as [|c s IH]; intros prev.
  - by exists prev.
  - rewrite star_cls_cons. cbn [dropWhile]. destruct (p c) eqn:E; [|by exists prev].
    destruct (IH (Some c)) as [p' ->]. exists p'.
    destruct (k p' (dropWhile p s)); [done|]. by apply Hk.
Qed.

Lemma plus_cls {A} p prev s (k : option N -> jsstring -> option A) :
  matcher (Plus (Cls p)) prev s k =
  match s with
  | c :: s' => if p c then matcher (Star (Cls p)) (Some c) s' k else None
  | [] => None
  end.
Proof. by destruct s. Qed.

(** [+] on a class does not look at what came before. *)
Lemma plus_cls_prev {A} p prev prev' s (k : option N -> jsstring -> option A) :
  matcher (Plus (Cls p)) prev s k = matcher (Plus (Cls p)) prev' s k.
Proof. by rewrite !plus_cls. Qed.

Lemma dropWhile_length p s : (length (dropWhile p s) <= length s)%nat.
Proof.
  induction s as [|c s IH]; cbn; [done|]. destruct (p c); cbn; lia.
Qed.

(** The longest run is empty exactly when nothing is dropped. *)
Lemma dropWhile_shorter p s :
  (length (dropWhile p s) <? length s)%nat
  = match s with c :: _ => p c | [] => false end.
Proof.
  destruct s as [|c s]; [done|]. cbn [dropWhile]. destruct (p c).
  - apply Nat.ltb_lt. pose proof (dropWhile_length p s). cbn. lia.
  - apply Nat.ltb_ge. done.
Qed.

Lemma plus_cls_accept {A} p (k : option N -> jsstring -> option A) prev s :
  (∀ p', is_Some (k p' (dropWhile p s))) ->
  if (length (dropWhile p s) <? length s)%nat
  then ∃ p', matcher (Plus (Cls p)) prev s k = k p' (dropWhile p s)
  else matcher (Plus (Cls p)) prev s k = None.
Proof.
  intros Hk. rewrite dropWhile_shorter, plus_cls.
  destruct s as [|c s]; [done|]. cbn [dropWhile] in *. destruct (p c); [|done].
  by apply star_cls_accept.
Qed.

Lemma plus_cls_reject {A} p (k : option N -> jsstring -> option A) prev s :
  (∀ p' c s', p c = true -> k p' (c :: s') = None) ->
  if (length (dropWhile p s) <? length s)%nat
  then ∃ p', matcher (Plus (Cls p)) prev s k = k p' (dropWhile p s)
  else matcher (Plus (Cls p)) prev s k = None.
Proof.
  intros Hk. rewrite dropWhile_shorter, plus_cls.
  destruct s as [|c s]; [done|]. cbn [dropWhile]. destruct (p c); [|done].
  by apply star_cls_reject.
Qed.

Lemma plus_cls_first {A} p (k : option N -> jsstring -> option A) prev c s :
  p c = false -> matcher (Plus (Cls p)) prev (c :: s) k = None.
Proof. intros E. by rewrite plus_cls, E. Qed.

(** The letters [env]. *)
Lemma lit_env {A} prev s (k : option N -> jsstring -> option A) :
  matcher (lit "env") prev s k =
  if bool_decide (take 3 s = js "env") then k (Some 118%N) (drop 3 s) else None.
Proof.
  change (lit "env") with (Seq (Chr 101) (Seq (Chr 110) (Chr 118))).
  change (js "env") with [101%N; 110%N; 118%N].
  destruct s as [|a [|b [|c s]]]; cbn [matcher Chr take drop].
  - done.
  - destruct (N.eqb_spec 101 a); by rewrite bool_decide_eq_false_2 by (intros [=]; done).
  - destruct (N.eqb_spec 101 a), (N.eqb_spec 110 b);
      by rewrite bool_decide_eq_false_2 by (intros [=]; done).
  - destruct (N.eqb_spec 101 a) as [<-|], (N.eqb_spec 110 b) as [<-|],
      (N.eqb_spec 118 c) as [<-|];
      first [ by rewrite bool_decide_eq_true_2
            | by rewrite bool_decide_eq_false_2 by (intros [=]; done) ].
Qed.

(** The pattern of one assignment: [env\s+\S+=\S+\s+]. *)
Local Abbreviation ASSIGNMENT :=
  (seqs [lit "env"; Plus ws; Plus nws; lit "="; Plus nws; Plus ws]).

(** The tail of the assignment, from inside the word: the rest of the
    variable, [=], the value and the white space. *)
Lemma assignment_tail {A} (k : option N -> jsstring -> option A) prev t :
  matcher (Star nws) prev t
    (fun p3 s3 => matcher (Chr 61) p3 s3
       (fun p4 s4 => matcher (Plus nws) p4 s4
          (fun p5 s5 => matcher (Plus ws) p5 s5 k)))
  = if assignsTail (takeWhile notSpace t)
    then matcher (Plus ws) None (dropWhile notSpace t) k
    else None.
Proof.
  set (K5 := fun p5 s5 => matcher (Plus ws) p5 s5 k).
  set (K4 := fun p4 s4 => matcher (Plus nws) p4 s4 K5).
  set (K3 := fun p3 s3 => matcher (Chr 61) p3 s3 K4).
  assert (∀ p' c s', notSpace c = true -> K5 p' (c :: s') = None) as HK5.
  { intros p' c s' Hc. unfold K5, ws. rewrite plus_cls.
    unfold notSpace in Hc. by destruct (is_space c). }
  assert (∀ p t, K4 p t =
            if isEmpty (takeWhile notSpace t) then None
            else matcher (Plus ws) None (dropWhile notSpace t) k) as HK4.
  { intros p t0. unfold K4, nws.
    pose proof (plus_cls_reject (fun c => negb (is_space c)) K5 p t0 HK5) as H.
    change (fun c => negb (is_space c)) with notSpace in *.
    rewrite dropWhile_shorter in H.
    destruct t0 as [|c t0]; [done|]. cbn [takeWhile dropWhile] in *.
    destruct (notSpace c); [|done].
    destruct H as [p' ->]. unfold K5. apply plus_cls_prev. }
  revert prev. induction t as [|c t IH]; intros prev.
  - done.
  - unfold nws in *. change (fun c => negb (is_space c)) with notSpace in *.
    rewrite star_cls_cons. cbn [takeWhile dropWhile assignsTail].
    assert (K3 prev (c :: t) = if (c =? 61)%N then K4 (Some c) t else None) as HK3.
    { unfold K3. cbn [matcher Chr]. by rewrite N.eqb_sym. }
    destruct (notSpace c) eqn:Ec.
    + rewrite IH, HK3, HK4. cbn [assignsTail].
      destruct (assignsTail (takeWhile notSpace t)) eqn:Et.
      * rewrite orb_true_r.
        destruct (matcher (Plus ws) None (dropWhile notSpace t) k) eqn:Er; [done|].
        by repeat case_match.
      * rewrite orb_false_r. destruct (c =? 61)%N; cbn [andb]; [|done].
        by destruct (isEmpty (takeWhile notSpace t)).
    + rewrite HK3. destruct (N.eqb_spec c 61) as [->|]; [|done].
      by vm_compute in Ec.
Qed.

(** One assignment, as the pattern sees it and as [envAssignment] says it. *)
Lemma matcher_assignment {A} (k : option N -> jsstring -> option A) prev s :
  match envAssignment s with
  | Some rest =>
      (∀ p', is_Some (k p' rest)) -> ∃ p', matcher ASSIGNMENT prev s k = k p' rest
  | None => matcher ASSIGNMENT prev s k = None
  end.
Proof.
  cbn [seqs matcher]. rewrite lit_env. unfold envAssignment.
  destruct (bool_decide (take 3 s = js "env")); cbn [andb]; [|done].
  set (s1 := drop 3 s).
  set (K2 := fun p2 s2 => matcher (Plus nws) p2 s2 _).
  assert (∀ p' c s', is_space c = true -> K2 p' (c :: s') = None) as HK2.
  { intros p' c s' Hc. unfold K2, nws. rewrite plus_cls. by rewrite Hc. }
  pose proof (plus_cls_reject is_space K2 (Some 118%N) s1 HK2) as H1.
  fold ws in H1.
  destruct (length (dropWhile is_space s1) <? length s1)%nat; cbn [andb]; [|done].
  set (s2 := dropWhile is_space s1) in *.
  assert (∀ p, K2 p s2 =
            if isAssignment (takeWhile notSpace s2)
            then matcher (Plus ws) None (dropWhile notSpace s2) k
            else None) as HK2'.
  { intros p. unfold K2, nws. rewrite plus_cls.
    change (fun c => negb (is_space c)) with notSpace.
    destruct s2 as [|c0 s2']; [done|]. cbn [takeWhile dropWhile].
    change (negb (is_space c0)) with (notSpace c0).
    destruct (notSpace c0); [|done]. cbn [isAssignment].
    apply (assignment_tail k). }
  destruct H1 as [p1 H1]. rewrite H1, HK2'.
  destruct (isAssignment (takeWhile notSpace s2)); cbn [andb]; [|done].
  set (s3 := dropWhile notSpace s2).
  destruct (length (dropWhile is_space s3) <? length s3)%nat eqn:E3.
  - intros Hk. pose proof (plus_cls_accept is_space k None s3 Hk) as H.
    by rewrite E3 in H.
  - rewrite dropWhile_shorter in E3. unfold ws. rewrite plus_cls.
    destruct s3 as [|c s3']; [done|]. by rewrite E3.
Qed.

Lemma envAssignment_shorter s rest :
  envAssignment s = Some rest -> (length rest < length s)%nat.
Proof.
  unfold envAssignment. intros H. repeat case_match; try done. simplify_eq.
  repeat match goal with
         | H : _ && _ = true |- _ => apply andb_true_iff in H as [? ?]
         | H : (_ <? _)%nat = true |- _ => apply Nat.ltb_lt in H
         end.
  pose proof (dropWhile_length notSpace (dropWhile is_space (drop 3 s))).
  rewrite length_drop in *. lia.
Qed.

(** The assignments, as many as there are. *)
Lemma assignments_loop fuel prev s :
  starLoop ASSIGNMENT (fun _ rest => Some rest) fuel prev s
  = Some (stripAssignments fuel s).
Proof.
  revert prev s. induction fuel as [|fuel IH]; intros prev s; [done|].
  cbn [starLoop stripAssignments].
  pose proof (matcher_assignment
                (fun prev' s' =>
                   if (length s' <? length s)%nat
                   then starLoop ASSIGNMENT (fun _ rest => Some rest) fuel prev' s'
                   else None) prev s) as H.
  destruct (envAssignment s) as [rest|] eqn:E.
  - apply envAssignment_shorter, Nat.ltb_lt in E.
    destruct H as [p' ->]; rewrite E, ?IH; eauto.
  - by rewrite H.
Qed.

(** Cutting the match of [/^\s*(env\s+\S+=\S+\s+)*/] out of a text removes
    its leading white space and [env] assignments. *)
Lemma replaceEmpty_ENV_PREFIX s : replaceEmpty ENV_PREFIX s = stripEnv s.
Proof.
  assert (matchHere ENV_PREFIX None s = Some (stripEnv s)) as H.
  { unfold matchHere, stripEnv.
    change (matcher ENV_PREFIX None s (fun _ rest => Some rest))
      with (matcher (Star (Cls is_space)) None s
              (fun p s' => matcher (Star ASSIGNMENT) p s' (fun _ rest => Some rest))).
    destruct (star_cls_accept is_space
                (fun p s' => matcher (Star ASSIGNMENT) p s' (fun _ rest => Some rest))
                None s) as [p' ->].
    - intros p'. rewrite matcher_Star, assignments_loop. eauto.
    - by rewrite matcher_Star, assignments_loop. }
  unfold replaceEmpty. destruct s; cbn [replaceFrom]; by rewrite H.
Qed.

Lemma normalize_spec command : normalize command = trim (stripEnv command).
Proof. unfold normalize. by rewrite replaceEmpty_ENV_PREFIX. Qed.


(** ** Stripping, by the shape of the text *)

Lemma takeWhile_dropWhile p s : takeWhile p s ++ dropWhile p s = s.
Proof.
  induction s as [|c s IH]; [done|]. cbn. destruct (p c); [|done]. cbn. by rewrite IH.
Qed.

Lemma Forall_takeWhile p s : Forall (fun c => p c = true) (takeWhile p s).
Proof.
  induction s as [|c s IH]; cbn; [constructor|].
  destruct (p c) eqn:E; by constructor.
Qed.

Lemma dropWhile_head p s c tail : dropWhile p s = c :: tail -> p c = false.
Proof.
  induction s as [|c0 s IH]; cbn; [done|].
  destruct (p c0) eqn:E; [done|]. by intros [= <- <-].
Qed.

(** A run of the class in front of a text that does not go on with it. *)
Lemma dropWhile_app p a s :
  Forall (fun c => p c = true) a ->
  (∀ c tail, s = c :: tail -> p c = false) ->
  takeWhile p (a ++ s) = a ∧ dropWhile p (a ++ s) = s.
Proof.
  intros Ha Hs. induction Ha as [|c a Hc _ IH]; cbn.
  - destruct s as [|c s]; cbn; [done|]. by rewrite (Hs c s eq_refl).
  - rewrite Hc. destruct IH as [-> ->]. done.
Qed.

Lemma takeWhile_nonempty p s :
  (length (dropWhile p s) <? length s)%nat = true -> takeWhile p s ≠ [].
Proof.
  rewrite dropWhile_shorter. destruct s as [|c s]; [done|]. cbn. by intros ->.
Qed.

Lemma notSpace_Forall w :
  Forall (fun c => is_space c = false) w ↔ Forall (fun c => notSpace c = true) w.
Proof.
  unfold notSpace.
  split; intros H; (eapply Forall_impl; [exact H|]); intros c; cbn;
    by destruct (is_space c).
Qed.

Lemma assignsTail_spec w :
  assignsTail w = true ↔ ∃ a b, w = a ++ 61%N :: b ∧ b ≠ [].
Proof.
  induction w as [|c w IH]; cbn.
  - split; [done|]. intros (a & b & H & _). by destruct a.
  - rewrite orb_true_iff, andb_true_iff, IH, N.eqb_eq, negb_true_iff. split.
    + intros [[-> Hw] | (a & b & -> & Hb)].
      * exists [], w. split; [done|]. by destruct w.
      * by exists (c :: a), b.
    + intros (a & b & H & Hb). destruct a as [|c' a]; cbn in H.
      * injection H as -> ->. left. split; [done|]. by destruct b.
      * injection H as -> ->. right. eauto.
Qed.

Lemma isAssignment_spec word :
  isAssignment word = true ↔
  ∃ variable value, word = variable ++ 61%N :: value ∧ variable ≠ [] ∧ value ≠ [].
Proof.
  destruct word as [|c w]; cbn.
  - split; [done|]. intros (a & b & H & _). by destruct a.
  - rewrite assignsTail_spec. split.
    + intros (a & b & -> & Hb). by exists (c :: a), b.
    + intros (a & b & H & Ha & Hb). destruct a as [|c' a]; [done|].
      injection H as -> ->. eauto.
Qed.

(** [envAssignment] takes an assignment off, and only an assignment. *)
Lemma envAssignment_sound s rest :
  envAssignment s = Some rest ->
  ∃ a, isEnvAssignment a ∧ s = a ++ rest ∧ startsBare rest.
Proof.
  unfold envAssignment.
  set (s1 := drop 3 s). set (s2 := dropWhile is_space s1).
  set (s3 := dropWhile notSpace s2). set (s4 := dropWhile is_space s3).
  destruct (bool_decide _) eqn:E0; cbn [andb]; [|done].
  destruct (length s2 <? length s1)%nat eqn:E1; cbn [andb]; [|done].
  destruct (isAssignment _) eqn:E2; cbn [andb]; [|done].
  destruct (length s4 <? length s3)%nat eqn:E3; [|done].
  intros Hr. injection Hr as Hr. subst rest.
  apply bool_decide_eq_true in E0.
  apply isAssignment_spec in E2 as (variable & value & Hw & Hvar & Hval).
  exists (js "env" ++ takeWhile is_space s1 ++ variable ++ [61%N] ++ value
          ++ takeWhile is_space s3).
  split; [|split].
  - exists (takeWhile is_space s1), variable, value, (takeWhile is_space s3).
    split; [done|].
    split; [by apply takeWhile_nonempty|].
    split; [apply Forall_takeWhile|]. split; [done|]. split; [done|].
    split. { apply notSpace_Forall. change (variable ++ [61%N] ++ value)
               with (variable ++ 61%N :: value). rewrite <- Hw.
             apply Forall_takeWhile. }
    split; [by apply takeWhile_nonempty|apply Forall_takeWhile].
  - rewrite <- E0. rewrite <- !app_assoc.
    change (variable ++ [61%N] ++ value ++ takeWhile is_space s3 ++ s4)
      with (variable ++ (61%N :: value) ++ takeWhile is_space s3 ++ s4).
    rewrite (app_assoc variable), <- Hw.
    unfold s4. rewrite takeWhile_dropWhile.
    unfold s3. rewrite takeWhile_dropWhile.
    unfold s2. rewrite takeWhile_dropWhile.
    unfold s1. by rewrite take_drop.
  - intros c tail Hc. by apply (dropWhile_head is_space s3 c tail).
Qed.

Lemma envAssignment_complete a rest :
  isEnvAssignment a -> startsBare rest -> envAssignment (a ++ rest) = Some rest.
Proof.
  intros (sp1 & variable & value & sp2 & -> & Hsp1 & Hs1 & Hvar & Hval & Hw & Hsp2 & Hs2)
    Hrest.
  set (word := variable ++ [61%N] ++ value) in *.
  assert ((js "env" ++ sp1 ++ variable ++ [61%N] ++ value ++ sp2) ++ rest
          = 101%N :: 110%N :: 118%N :: sp1 ++ word ++ sp2 ++ rest) as ->.
  { unfold word. rewrite <- !app_assoc. reflexivity. }
  unfold envAssignment.
  change (take 3 (101%N :: 110%N :: 118%N :: sp1 ++ word ++ sp2 ++ rest))
    with (js "env").
  change (drop 3 (101%N :: 110%N :: 118%N :: sp1 ++ word ++ sp2 ++ rest))
    with (sp1 ++ word ++ sp2 ++ rest).
  rewrite bool_decide_eq_true_2 by done. cbn [andb].
  destruct (dropWhile_app is_space sp1 (word ++ sp2 ++ rest) Hs1) as [_ ->].
  { intros c tail Hc. unfold word in Hc, Hw. apply Forall_app in Hw as [Hw _].
    destruct variable as [|c' variable]; [done|]. injection Hc as <- _.
    by inversion Hw. }
  destruct (dropWhile_app notSpace word (sp2 ++ rest)) as [-> ->].
  { by apply notSpace_Forall. }
  { intros c tail Hc. destruct sp2 as [|c' sp2]; [done|]. injection Hc as <- _.
    unfold notSpace. inversion Hs2; subst. by rewrite H1. }
  destruct (dropWhile_app is_space sp2 rest Hs2 Hrest) as [_ ->].
  assert (isAssignment word = true) as ->.
  { apply isAssignment_spec. by exists variable, value. }
  rewrite !(proj2 (Nat.ltb_lt _ _)); [done| |].
  - rewrite length_app. destruct sp2; [done|]. cbn. lia.
  - rewrite !length_app. destruct sp1; [done|]. cbn. lia.
Qed.

Lemma stripAssignments_fuel f1 f2 s :
  (length s <= f1)%nat -> (length s <= f2)%nat ->
  stripAssignments f1 s = stripAssignments f2 s.
Proof.
  revert f2 s. induction f1 as [|f1 IH]; intros f2 s H1 H2.
  - destruct s; [|cbn in H1; lia]. by destruct f2.
  - destruct f2 as [|f2].
    + destruct s; [|cbn in H2; lia]. done.
    + cbn [stripAssignments]. destruct (envAssignment s) as [rest|] eqn:E; [|done].
      apply envAssignment_shorter in E. apply IH; lia.
Qed.

Lemma isEnvAssignment_length a : isEnvAssignment a -> (0 < length a)%nat.
Proof. intros (? & ? & ? & ? & -> & _). cbn. lia. Qed.

Lemma isEnvAssignment_bare a tail : isEnvAssignment a -> startsBare (a ++ tail).
Proof. intros (? & ? & ? & ? & -> & _) c t [= <- _]. done. Qed.

(** What is left behind white space and assignments is what [stripEnv]
    returns. *)
Lemma stripsTo_stripEnv command rest : stripsTo command rest -> stripEnv command = rest.
Proof.
  intros (lead & assignments & -> & Hlead & Has & Hbare & Hnone).
  assert (startsBare (concat assignments ++ rest)) as Hb.
  { destruct Has as [|a l Ha _]; [done|]. cbn. rewrite <- app_assoc.
    by apply isEnvAssignment_bare. }
  unfold stripEnv.
  destruct (dropWhile_app is_space lead _ Hlead Hb) as [_ ->].
  generalize (Nat.le_refl (length (concat assignments ++ rest))).
  generalize (length (concat assignments ++ rest)) at 2 3. intros fuel Hfuel.
  clear Hb. revert fuel Hfuel.
  induction Has as [|a l Ha Hl IH]; intros fuel Hfuel; cbn [concat app] in Hfuel |- *.
  - destruct fuel as [|fuel]; [done|]. cbn [stripAssignments].
    destruct (envAssignment rest) as [r|] eqn:E; [|done].
    apply envAssignment_sound in E as (a & Ha & -> & _).
    destruct Hnone. eauto.
  - rewrite <- app_assoc in Hfuel |- *.
    pose proof (isEnvAssignment_length a Ha) as Hpos.
    rewrite length_app in Hfuel.
    destruct fuel as [|fuel]; [lia|]. cbn [stripAssignments].
    rewrite envAssignment_complete; [apply IH; lia|done|].
    destruct Hl as [|a' l' Ha' _]; [done|]. cbn. rewrite <- app_assoc.
    by apply isEnvAssignment_bare.
Qed.

(** ... and [stripEnv] does leave such a text. *)
Lemma stripEnv_stripsTo command : stripsTo command (stripEnv command).
Proof.
  unfold stripEnv.
  assert (∀ fuel s, (length s <= fuel)%nat -> startsBare s ->
            ∃ assignments,
              s = concat assignments ++ stripAssignments fuel s
              ∧ Forall isEnvAssignment assignments
              ∧ isStripped (stripAssignments fuel s)) as Hloop.
  { induction fuel as [|fuel IH]; intros s Hlen Hbare.
    - destruct s; [|cbn in Hlen; lia]. exists []. split; [done|]. split; [done|].
      split; [done|]. intros (a & tail & Ha & H).
      apply isEnvAssignment_length in Ha. destruct a; [cbn in Ha; lia|done].
    - cbn [stripAssignments]. destruct (envAssignment s) as [rest|] eqn:E.
      + pose proof (envAssignment_shorter s rest E) as Hshort.
        apply envAssignment_sound in E as (a & Ha & -> & Hrest).
        destruct (IH rest) as (l & Hl & Hall & Hs); [lia|done|].
        exists (a :: l). split; [cbn; by rewrite <- app_assoc, <- Hl|].
        split; [by constructor|done].
      + exists []. split; [done|]. split; [done|]. split; [done|].
        intros (a & tail & Ha & ->).
        assert (∃ a' tail', isEnvAssignment a' ∧ a ++ tail = a' ++ tail'
                            ∧ startsBare tail') as (a' & tail' & Ha' & Heq & Hb').
        { destruct Ha as (sp1 & variable & value & sp2 & -> & H1 & H2 & H3 & H4 & H5 & H6 & H7).
          exists (js "env" ++ sp1 ++ variable ++ [61%N] ++ value
                  ++ sp2 ++ takeWhile is_space tail), (dropWhile is_space tail).
          split; [|split].
          - exists sp1, variable, value, (sp2 ++ takeWhile is_space tail).
            split; [done|].
            split; [done|]. split; [done|]. split; [done|]. split; [done|].
            split; [done|]. split; [by destruct sp2|].
            apply Forall_app. split; [done|apply Forall_takeWhile].
          - rewrite <- !app_assoc. by rewrite takeWhile_dropWhile.
          - intros c t Hc. by apply (dropWhile_head is_space tail c t). }
        rewrite Heq, envAssignment_complete in E; done. }
  destruct (Hloop (length (dropWhile is_space command)) (dropWhile is_space command))
    as (l & Hl & Hall & Hs); [done| |].
  { intros c tail Hc. by apply (dropWhile_head is_space command c tail). }
  exists (takeWhile is_space command), l.
  split; [by rewrite <- Hl, takeWhile_dropWhile|].
  split; [apply Forall_takeWhile|]. done.
Qed.

(** Stripping, said in full: [stripEnv command] is the one text that is left
    of [command] behind white space and assignments. *)
Lemma stripEnv_spec command rest : stripsTo command rest ↔ rest = stripEnv command.
Proof.
  split.
  - intros H. by rewrite (stripsTo_stripEnv command rest H).
  - intros ->. apply stripEnv_stripsTo.
Qed.

Example stripsTo_samples :
  stripsTo (js "env A=1 env B=2 ls") (js "ls")
  ∧ stripsTo (js "env A=B=C   git status ") (js "git status ")
  ∧ stripsTo (js "env") (js "env")
  ∧ stripsTo (js "env A=1") (js "env A=1")
  ∧ stripsTo (js "env =1 ls") (js "env =1 ls")
  ∧ stripsTo (js "environment") (js "environment").
Proof. repeat split; apply stripEnv_spec; vm_compute; reflexivity. Qed.

(** C8: the three steps of [isSafeCommand].  With a command extracted, when
    one of the dangerous patterns occurs in it the answer is [false], also
    when a safe prefix would match.  The command is some text behind white
    space and [env VAR=value] assignments, and when no dangerous pattern
    occurs in it, the answer is [true] exactly when that text, trimmed, is a
    safe prefix or starts with one followed by a space or a tab.
    [{command: "git status"}] is safe. *)
Theorem isSafeCommand_decision
    (stringify : JSValue -> option jsstring) (v : JSValue) (command : jsstring) :
  extractCommand stringify v = Some command ->
  command ≠ [] ->
  ((∃ pattern, pattern ∈ DANGEROUS_PATTERNS ∧ Occurs pattern command) ->
     isSafeCommand stringify v = false)
  ∧ (∃ rest, stripsTo command rest)
  ∧ (∀ rest,
       (∀ pattern, pattern ∈ DANGEROUS_PATTERNS -> ¬ Occurs pattern command) ->
       stripsTo command rest ->
       (isSafeCommand stringify v = true ↔
        ∃ prefix, prefix ∈ SAFE_COMMAND_PREFIXES
          ∧ (trim rest = prefix
             ∨ (∃ tail, trim rest = prefix ++ [32%N] ++ tail)
             ∨ (∃ tail, trim rest = prefix ++ [9%N] ++ tail))))
  ∧ isSafeCommand stringify (JObject [(js "command", JString (js "git status"))]) = true.
Proof.
  intros He Hne. rewrite (isSafeCommand_unfold _ _ _ He Hne).
  split; [|split; [|split]].
  - intros (pattern & Hin & Ht%test_spec).
    assert (existsb (fun p => test p command) DANGEROUS_PATTERNS = true) as ->; [|done].
    apply existsb_exists. exists pattern. by rewrite <- list_elem_of_In.
  - exists (stripEnv command). apply stripEnv_stripsTo.
  - intros rest Hsafe ->%stripEnv_spec.
    assert (existsb (fun p => test p command) DANGEROUS_PATTERNS = false) as ->.
    { apply not_true_is_false. intros (p & Hin & Ht%test_spec)%existsb_exists.
      rewrite <- list_elem_of_In in Hin. by destruct (Hsafe p Hin). }
    cbn [negb andb]. rewrite existsb_exists, normalize_spec. split.
    + intros (prefix & Hin & Hm). exists prefix.
      by rewrite <- list_elem_of_In in Hin; rewrite <- matchesPrefix_spec.
    + intros (prefix & Hin & Hm). exists prefix.
      by rewrite <- list_elem_of_In; rewrite matchesPrefix_spec.
  - vm_compute. reflexivity.
Qed.

Lemma isSafeCommand_decision_witness :
  let v := JObject [(js "cmd", JString (js " env CI=1 npm test -- --watch "))] in
  let command := js "env CI=1 npm test -- --watch" in
  extractCommand (fun _ => None) v = Some command ∧ command ≠ []
  ∧ (∀ pattern, pattern ∈ DANGEROUS_PATTERNS -> ¬ Occurs pattern command)
  ∧ stripsTo command (js "npm test -- --watch")
  ∧ isSafeCommand (fun _ => None) v = true.
Proof.
  intros v command.
  assert (extractCommand (fun _ => None) v = Some command) as He by (vm_compute; reflexivity).
  assert (command ≠ []) as Hne by (vm_compute; discriminate).
  assert (∀ pattern, pattern ∈ DANGEROUS_PATTERNS -> test pattern command = false) as Ht.
  { apply Forall_forall. unfold DANGEROUS_PATTERNS.
    repeat (constructor; [vm_compute; reflexivity|]). constructor. }
  assert (∀ pattern, pattern ∈ DANGEROUS_PATTERNS -> ¬ Occurs pattern command) as Hd.
  { intros pattern Hin Ho%test_spec. rewrite (Ht pattern Hin) in Ho. discriminate Ho. }
  assert (stripsTo command (js "npm test -- --watch")) as Hs.
  { apply stripEnv_spec. vm_compute. reflexivity. }
  destruct (isSafeCommand_decision (fun _ => None) v command He Hne) as (_ & _ & Hdec & _).
  split; [exact He|]. split; [exact Hne|]. split; [exact Hd|]. split; [exact Hs|].
  apply (Hdec _ Hd Hs). exists (js "npm test"). split.
  - rewrite list_elem_of_In. vm_compute.
    repeat first [left; reflexivity | right].
  - right. left. exists (js "-- --watch"). vm_compute. reflexivity.
Defined.

(** C10: when no non-empty command can be extracted the answer is [false]:
    for [null] and [undefined]; for a string that is empty or only
    whitespace; for an object none of whose recognised fields holds a
    string, that is not a single string-valued key, and whose JSON text has
    500 characters or more (or cannot be produced); and in general whenever
    [extractCommand] yields [null] or the empty string. *)
Theorem isSafeCommand_fail_closed
    (stringify : JSValue -> option jsstring) (v : JSValue) :
  v = JNull ∨ v = JUndefined
  ∨ (∃ s, v = JString s ∧ Forall (fun c => is_space c = true) s)
  ∨ (∃ props, v = JObject props
       ∧ (∀ name s, name ∈ candidateNames -> field v name ≠ JString s)
       ∧ (∀ s, ownValues v ≠ [JString s])
       ∧ (∀ json, stringify v = Some json -> (500 <= length json)%nat))
  ∨ extractCommand stringify v = None
  ∨ extractCommand stringify v = Some [] ->
  isSafeCommand stringify v = false.
Proof.
  intros H. apply isSafeCommand_no_command.
  destruct H as [-> | [-> | [(s & -> & Hs) | [(props & -> & Hc & Hk & Hj) | H]]]];
    [by left | by left | | | done].
  - unfold extractCommand. destruct s as [|c s]; [by left|].
    simpl truthy. cbn match. right. by rewrite trim_spaces.
  - left. unfold extractCommand. simpl truthy. cbn match.
    rewrite firstCandidate_no_string.
    2:{ intros c s (name & -> & Hin)%list_elem_of_fmap. by apply Hc. }
    assert (match ownValues (JObject props) with
            | [JString s] => Some (trim s)
            | _ => match stringify (JObject props) with
                   | Some json => if (length json <? 500)%nat then Some json else None
                   | None => None
                   end
            end = None) as Hgoal.
    { assert (match stringify (JObject props) with
              | Some json => if (length json <? 500)%nat then Some json else None
              | None => None
              end = None) as Hlong.
      { destruct (stringify (JObject props)) as [json|]; [|done].
        specialize (Hj json eq_refl). apply Nat.ltb_ge in Hj. by rewrite Hj. }
      destruct (ownValues (JObject props)) as [|[| | | | |s0| | |] [|]] eqn:E;
        try exact Hlong.
      by destruct (Hk s0). }
    exact Hgoal.
Qed.

Lemma isSafeCommand_fail_closed_witness :
  let stringify := fun _ : JSValue => Some (replicate 500 120%N) in
  let v := JObject [(js "timeout", JNumber 30); (js "command", JNumber 7)] in
  (∀ name s, name ∈ candidateNames -> field v name ≠ JString s)
  ∧ (∀ s, ownValues v ≠ [JString s])
  ∧ (∀ json, stringify v = Some json -> (500 <= length json)%nat)
  ∧ isSafeCommand stringify v = false
  ∧ isSafeCommand stringify (JString (js "   ")) = false.
Proof.
  intros stringify v.
  assert (∀ name s, name ∈ candidateNames -> field v name ≠ JString s) as Hc.
  { intros name s Hin. revert name Hin. apply Forall_forall. unfold candidateNames.
    simpl map. repeat (constructor; [vm_compute; discriminate|]). constructor. }
  assert (∀ s, ownValues v ≠ [JString s]) as Hk by (intros s; vm_compute; discriminate).
  assert (∀ json, stringify v = Some json -> (500 <= length json)%nat) as Hj.
  { intros json [= <-]. apply Nat.leb_le. vm_compute. reflexivity. }
  split; [exact Hc|]. split; [exact Hk|]. split; [exact Hj|]. split.
  - apply isSafeCommand_fail_closed. do 3 right. left. exists [(js "timeout", JNumber 30); (js "command", JNumber 7)]. eauto.
  - apply isSafeCommand_fail_closed. do 2 right. left. exists (js "   "). split; [done|].
    repeat constructor.
Defined.


(** ** Further properties of the policy *)

(** A pattern that matches at some index whatever precedes it is found by
    [test]. *)
Lemma testFrom_infix r pre s prev :
  (∀ p, matchHere r p s ≠ None) -> testFrom r prev (pre ++ s) = true.
Proof.
  intros Hm. revert prev. induction pre as [|c pre IH]; intros prev.
  - destruct s as [|c s]; simpl; specialize (Hm prev);
      by destruct (matchHere r prev _).
  - simpl. by destruct (matchHere r prev (c :: pre ++ s)).
Qed.

Lemma test_redirect command :
  62%N ∈ command -> test (seqs [lit ">"; Star ws]) command = true.
Proof.
  intros (pre & post & ->)%list_elem_of_split. apply testFrom_infix.
  intros p. unfold matchHere. cbn.
  change (N.eqb _ 62%N) with true. cbv iota.
  destruct (length post); [done|]. by case_match.
Qed.

Lemma test_substitution pre post :
  test (lit "$(") (pre ++ js "$(" ++ post) = true.
Proof. apply testFrom_infix. intros p. by vm_compute. Qed.

Lemma dangerous_refused stringify v command pattern :
  extractCommand stringify v = Some command ->
  pattern ∈ DANGEROUS_PATTERNS -> test pattern command = true ->
  isSafeCommand stringify v = false.
Proof.
  intros He Hin Ht. unfold isSafeCommand. rewrite He.
  destruct command as [|c command]; [done|].
  assert (existsb (fun p => test p (c :: command)) DANGEROUS_PATTERNS = true) as ->; [|done].
  apply existsb_exists. exists pattern. by rewrite <- list_elem_of_In.
Qed.

(** X4: No command that redirects output or substitutes a command is approved:
    when the extracted command holds a [>] anywhere, or the two characters
    [$(], the answer is [false], whatever the command starts with. *)
Theorem redirection_and_substitution_are_refused
    (stringify : JSValue -> option jsstring) (v : JSValue) (command : jsstring) :
  extractCommand stringify v = Some command ->
  62%N ∈ command ∨ (∃ pre post, command = pre ++ js "$(" ++ post) ->
  isSafeCommand stringify v = false.
Proof.
  intros He [Hgt|(pre & post & ->)].
  - eapply dangerous_refused; [done| |by apply test_redirect].
    rewrite list_elem_of_In. unfold DANGEROUS_PATTERNS. do 9 right. by left.
  - eapply dangerous_refused; [done| |by apply test_substitution].
    rewrite list_elem_of_In. unfold DANGEROUS_PATTERNS. do 28 right. by left.
Qed.

Lemma redirection_and_substitution_are_refused_witness :
  isSafeCommand (fun _ => None) (JString (js "echo $(whoami)")) = false
  ∧ isSafeCommand (fun _ => None) (JObject [(js "cmd", JString (js "ls 2>&1"))]) = false.
Proof.
  split.
  - apply (redirection_and_substitution_are_refused _ _ (js "echo $(whoami)"));
      [reflexivity|].
    right. exists (js "echo "), (js "whoami)"). reflexivity.
  - apply (redirection_and_substitution_are_refused _ _ (js "ls 2>&1"));
      [reflexivity|].
    left. vm_compute. do 4 right. by left.
Defined.

Lemma firstCandidate_one_string cs s :
  (∀ c, c ∈ cs -> c = JString s ∨ c = JUndefined) ->
  firstCandidate cs = None ∨ firstCandidate cs = Some (trim s).
Proof.
  induction cs as [|c cs IH]; intros H; [by left|].
  destruct (H c) as [-> | ->]; [by left| |].
  - simpl. destruct (trim s) eqn:E; [|by right].
    apply IH. intros; apply H; by right.
  - simpl. apply IH. intros; apply H; by right.
Qed.

Lemma extractCommand_single stringify name s :
  extractCommand stringify (JObject [(name, JString s)]) = Some (trim s).
Proof.
  unfold extractCommand. cbn [truthy negb].
  destruct (firstCandidate_one_string
              (map (field (JObject [(name, JString s)])) candidateNames) s) as [-> | ->];
    [|done|done].
  intros c (cand & -> & _)%list_elem_of_fmap. cbn.
  destruct (streq name cand); auto.
Qed.

Lemma isSafeCommand_same_command stringify v v' :
  (match extractCommand stringify v with Some [] => None | o => o end)
  = (match extractCommand stringify v' with Some [] => None | o => o end) ->
  isSafeCommand stringify v = isSafeCommand stringify v'.
Proof.
  unfold isSafeCommand.
  destruct (extractCommand stringify v) as [[|c command]|],
           (extractCommand stringify v') as [[|c' command']|]; try done.
  by intros [= -> ->].
Qed.

(** X5: How the command is wrapped does not matter: an object with a single
    key that holds a string, whatever the key is called, and an array of one
    string get the answer the string itself gets. *)
Theorem single_string_is_judged_as_the_string
    (stringify : JSValue -> option jsstring) (name s : jsstring) :
  isSafeCommand stringify (JObject [(name, JString s)])
  = isSafeCommand stringify (JString s)
  ∧ isSafeCommand stringify (JArray [JString s])
    = isSafeCommand stringify (JString s).
Proof.
  split; apply isSafeCommand_same_command.
  - rewrite extractCommand_single. by destruct s.
  - by destruct s.
Qed.

Lemma trimStart_app_spaces p s :
  Forall (fun c => is_space c = true) p -> trimStart (p ++ s) = trimStart s.
Proof. induction 1 as [|c p Hc _ IH]; simpl; [done | by rewrite Hc]. Qed.

Lemma trimStart_app s s' :
  trimStart s ≠ [] -> trimStart (s ++ s') = trimStart s ++ s'.
Proof.
  induction s as [|c s IH]; simpl; [done|].
  by destruct (is_space c).
Qed.

Lemma trimStart_empty s :
  trimStart s = [] -> Forall (fun c => is_space c = true) s.
Proof.
  induction s as [|c s IH]; simpl; [by constructor|].
  destruct (is_space c) eqn:E; [|done]. intros H. constructor; auto.
Qed.

Lemma trimEnd_app_spaces s p :
  Forall (fun c => is_space c = true) p -> trimEnd (s ++ p) = trimEnd s.
Proof.
  intros Hp. unfold trimEnd. rewrite rev_app_distr, trimStart_app_spaces; [done|].
  apply Forall_forall. intros c Hc. rewrite Forall_forall in Hp. apply Hp.
  rewrite list_elem_of_In in *. by apply in_rev.
Qed.

Lemma trim_padded pad1 s pad2 :
  Forall (fun c => is_space c = true) pad1 ->
  Forall (fun c => is_space c = true) pad2 ->
  trim (pad1 ++ s ++ pad2) = trim s.
Proof.
  intros H1 H2. unfold trim. rewrite trimStart_app_spaces by done.
  destruct (trimStart s) as [|c rest] eqn:E.
  - rewrite trimStart_spaces; [done|].
    apply Forall_app. split; [by apply trimStart_empty|done].
  - rewrite trimStart_app by (by rewrite E). rewrite E.
    by apply trimEnd_app_spaces.
Qed.

(** X6: White space around a command does not change the answer. *)
Theorem surrounding_whitespace_is_ignored
    (stringify : JSValue -> option jsstring) (pad1 s pad2 : jsstring) :
  Forall (fun c => is_space c = true) pad1 ->
  Forall (fun c => is_space c = true) pad2 ->
  isSafeCommand stringify (JString (pad1 ++ s ++ pad2))
  = isSafeCommand stringify (JString s).
Proof.
  intros H1 H2. apply isSafeCommand_same_command.
  pose proof (trim_padded pad1 s pad2 H1 H2) as Ht.
  unfold extractCommand. cbn [truthy].
  destruct (pad1 ++ s ++ pad2) as [|c l] eqn:E.
  - apply app_eq_nil in E as [_ [-> _]%app_eq_nil]. done.
  - cbn [negb]. rewrite Ht. destruct s as [|c' s']; [|done].
    by cbn.
Qed.

Lemma surrounding_whitespace_is_ignored_witness :
  isSafeCommand (fun _ => None) (JString (js "  " ++ js "git status" ++ [9; 10]%N)) = true.
Proof.
  rewrite surrounding_whitespace_is_ignored.
  - reflexivity.
  - repeat constructor.
  - repeat constructor.
Defined.
End SafeCommandsProps.


(* ===================================================================== *)
(** * Properties of BgTaskRunner *)
(* ===================================================================== *)

Module BgTaskRunnerProps.
Import BgTaskRunner RunnerSpec.

(** ** The loop of [drainQueue] *)

Lemma tasks_onUpdate taskId s : tasks (onUpdate taskId s) = tasks s.
Proof. unfold onUpdate. by destruct (tasks s !! taskId). Qed.

Lemma dispatch_set_pendingQueue q rest s :
  dispatch q (set_pendingQueue rest s) = set_pendingQueue rest (dispatch q s).
Proof.
  unfold dispatch, onUpdate. cbn.
  by destruct (alter (set_status running) (qtask q) (tasks s) !! qtask q).
Qed.

Lemma dispatchAll_set_pendingQueue popped rest s :
  dispatchAll popped (set_pendingQueue rest s)
  = set_pendingQueue rest (dispatchAll popped s).
Proof.
  revert s. induction popped as [|q popped IH]; intros s; [done|].
  cbn. rewrite dispatch_set_pendingQueue. apply IH.
Qed.

Lemma pendingQueue_dispatch q s : pendingQueue (dispatch q s) = pendingQueue s.
Proof.
  unfold dispatch, onUpdate. cbn.
  by destruct (alter (set_status running) (qtask q) (tasks s) !! qtask q).
Qed.

Lemma set_pendingQueue_twice a b s :
  set_pendingQueue a (set_pendingQueue b s) = set_pendingQueue a s.
Proof. reflexivity. Qed.

Lemma set_pendingQueue_same s : set_pendingQueue (pendingQueue s) s = s.
Proof. by destruct s. Qed.

(** [drainQueue] shifts a prefix of the queue and dispatches it in order. *)
Lemma drainLoop_spec cfg n s :
  ∃ popped rest,
    pendingQueue s = popped ++ rest
    ∧ drainLoop cfg n s = set_pendingQueue rest (dispatchAll popped s).
Proof.
  revert s. induction n as [|n IH]; intros s.
  - exists [], (pendingQueue s). split; [done|]. by rewrite set_pendingQueue_same.
  - cbn. destruct (pendingQueue s) as [|next rest0] eqn:E.
    + exists [], []. split; [done|]. cbn. rewrite <- E. by rewrite set_pendingQueue_same.
    + destruct (runningCount s <? maxConcurrent cfg).
      * destruct (IH (dispatch next (set_pendingQueue rest0 s))) as (popped & rest & Hq & Hd).
        rewrite pendingQueue_dispatch in Hq. cbn in Hq. subst rest0.
        exists (next :: popped), rest. split; [done|].
        rewrite Hd. cbn. rewrite dispatch_set_pendingQueue.
        rewrite dispatchAll_set_pendingQueue. reflexivity.
      * exists [], (next :: rest0). split; [done|]. cbn. rewrite <- E.
        by rewrite set_pendingQueue_same.
Qed.

Lemma drainQueue_spec cfg s :
  ∃ popped rest,
    pendingQueue s = popped ++ rest
    ∧ drainQueue cfg s = set_pendingQueue rest (dispatchAll popped s).
Proof. apply drainLoop_spec. Qed.

(** ** The task map, the queue and the launch log after each operation *)

Lemma onUpdate_eq i s :
  onUpdate i s = set_updates (updates s ++ option_list (tasks s !! i)) s.
Proof.
  unfold onUpdate. destruct s; cbn. destruct (_ !! _); cbn; [done|].
  by rewrite app_nil_r.
Qed.

(** Projections of a state written with the setters. *)
Ltac rsimpl :=
  rewrite ?onUpdate_eq;
  cbn [tasks agents sandboxes idleTimers pendingMessages pendingQueue
       injectionQueue procs updates injected interrupts completeCalls launched
       set_tasks set_agents set_sandboxes set_idleTimers set_pendingMessages
       set_pendingQueue set_injectionQueue set_procs set_updates set_injected
       set_interrupts set_completeCalls set_launched
       modTask enqueue interrupt complete spawn setProc resetIdleTimer
       clearIdleTimer setInjectionQueue fst snd].

Ltac use_eqs :=
  repeat match goal with
         | H : ?x = _ |- context [?x] => rewrite H
         end.

Ltac same_task E :=
  first [ apply alter_ext | symmetry; apply alter_id ];
  let t := fresh "t" in
  let Ht := fresh "Ht" in
  intros t Ht; rewrite E in Ht; injection Ht as <-.

Ltac effect_cases :=
  unfold RunnerSpec.effect, pausedT, finallyT, afterLoopT, catchT, cancelT,
    chatDoneT, chatT, failRunning;
  repeat case_match; simplify_eq; cbn.

Section Shape.

Variable cfg : BgTaskConfig.
Variable sandboxPreviewUrl : option string -> option string.

Lemma alter_missing (f : BgTask -> BgTask) i (m : gmap string BgTask) :
  m !! i = None -> alter f i m = m.
Proof. intros E. apply alter_id. intros t Ht. congruence. Qed.

Lemma alter_same i (m : gmap string BgTask) : alter (fun t => t) i m = m.
Proof. by apply alter_id. Qed.

Lemma dispatchAll_cons q popped s :
  dispatchAll (q :: popped) s = dispatchAll popped (dispatch q s).
Proof. reflexivity. Qed.

Lemma startAll_cons q popped m :
  startAll (q :: popped) m = startAll popped (alter (set_status running) (qtask q) m).
Proof. reflexivity. Qed.

Lemma tasks_dispatchAll popped s :
  tasks (dispatchAll popped s) = startAll popped (tasks s).
Proof.
  revert s. induction popped as [|q popped IH]; intros s; [done|].
  rewrite dispatchAll_cons, startAll_cons, IH. unfold dispatch. by rsimpl.
Qed.

Lemma launched_dispatchAll popped s :
  launched (dispatchAll popped s) = launched s ++ map qtask popped.
Proof.
  revert s. induction popped as [|q popped IH]; intros s.
  - cbn. by rewrite app_nil_r.
  - rewrite dispatchAll_cons, IH. unfold dispatch. rsimpl.
    by rewrite <- app_assoc.
Qed.

Lemma procs_dispatchAll popped s :
  procs (dispatchAll popped s) = procs s ++ map spawnOf popped.
Proof.
  revert s. induction popped as [|q popped IH]; intros s.
  - cbn. by rewrite app_nil_r.
  - rewrite dispatchAll_cons, IH. unfold dispatch. rsimpl.
    by rewrite <- app_assoc.
Qed.

Lemma injected_dispatchAll popped s :
  injected (dispatchAll popped s) = injected s.
Proof.
  revert s. induction popped as [|q popped IH]; intros s; [done|].
  rewrite dispatchAll_cons, IH. unfold dispatch. by rsimpl.
Qed.

(** *** Counting the running tasks *)

Lemma runningIn_le (m m' : gmap string BgTask) :
  (∀ k t', m' !! k = Some t' -> status t' = running ->
           ∃ t, m !! k = Some t ∧ status t = running) ->
  runningIn m' <= runningIn m.
Proof.
  intros H. unfold runningIn. apply inj_le.
  rewrite <- !size_dom. apply subseteq_size.
  intros k [t' Hk]%elem_of_dom. apply map_lookup_filter_Some in Hk as [Hk Hs].
  destruct (H k t' Hk Hs) as (t & Ht & Hr).
  apply elem_of_dom. exists t. by apply map_lookup_filter_Some.
Qed.

Lemma runningIn_alter_le f i (m : gmap string BgTask) :
  runningIn (alter f i m) <= runningIn m + 1.
Proof.
  unfold runningIn.
  assert (dom (filter (fun kv : string * BgTask => status kv.2 = running) (alter f i m))
          ⊆ {[i]} ∪ dom (filter (fun kv : string * BgTask => status kv.2 = running) m)) as Hsub.
  { intros k [t' Hk]%elem_of_dom. apply map_lookup_filter_Some in Hk as [Hk Hs].
    destruct (decide (i = k)) as [->|Hne];
      [apply elem_of_union; left; by apply elem_of_singleton|].
    rewrite lookup_alter_ne in Hk by done.
    apply elem_of_union. right. apply elem_of_dom. exists t'.
    by apply map_lookup_filter_Some. }
  apply subseteq_size in Hsub. rewrite size_union_alt, size_singleton in Hsub.
  rewrite !size_dom in Hsub.
  pose proof (subseteq_size
    (dom (filter (fun kv : string * BgTask => status kv.2 = running) m) ∖ {[i]})
    (dom (filter (fun kv : string * BgTask => status kv.2 = running) m))) as Hd.
  rewrite size_dom in Hd.
  assert (dom (filter (fun kv : string * BgTask => status kv.2 = running) m) ∖ {[i]}
          ⊆ dom (filter (fun kv : string * BgTask => status kv.2 = running) m)) as Hsub'.
  { intros k Hk. by apply elem_of_difference in Hk as [Hk _]. }
  specialize (Hd Hsub'). lia.
Qed.

Lemma runningCount_dispatch q s :
  runningCount (dispatch q s) <= runningCount s + 1.
Proof.
  unfold dispatch, runningCount. rsimpl. apply runningIn_alter_le.
Qed.

(** [drainQueue] launches a task only while fewer than [maxConcurrent]
    are running. *)
Lemma drainLoop_count n s :
  runningIn (tasks (drainLoop cfg n s))
  <= Z.max (runningIn (tasks s)) (maxConcurrent cfg).
Proof.
  revert s. induction n as [|n IH]; intros s; cbn [drainLoop]; [lia|].
  destruct (pendingQueue s) as [|next rest]; [lia|].
  destruct (runningCount s <? maxConcurrent cfg) eqn:E; [|lia].
  apply Z.ltb_lt in E.
  etrans; [apply IH|].
  pose proof (runningCount_dispatch next (set_pendingQueue rest s)) as Hd.
  unfold runningCount, runningIn in *. cbn [tasks set_pendingQueue] in Hd. lia.
Qed.

Lemma drained_here m q la cp inj s' :
  tasks s' = m -> pendingQueue s' = q -> launched s' = la ->
  procs s' = cp -> injected s' = inj -> drained cfg m q la cp inj s'.
Proof.
  intros <- <- <- <- <-. split; [|lia].
  exists [], (pendingQueue s'). cbn. by rewrite !app_nil_r.
Qed.

Lemma drained_drainQueue s :
  drained cfg (tasks s) (pendingQueue s) (launched s) (procs s) (injected s)
          (drainQueue cfg s).
Proof.
  split; [|apply drainLoop_count].
  destruct (drainQueue_spec cfg s) as (popped & rest & Hq & ->).
  exists popped, rest. rsimpl.
  by rewrite tasks_dispatchAll, launched_dispatchAll, procs_dispatchAll,
       injected_dispatchAll.
Qed.

(** The call [pid] takes its next state after the queue was drained. *)
Lemma drained_setProc m q la cp inj pid p s' :
  (pid < length cp)%nat ->
  drained cfg m q la cp inj s' ->
  drained cfg m q la (<[pid := p]> cp) inj (setProc pid p s').
Proof.
  intros Hlen [(popped & rest & Hq & Hr & Hl & Ht & Hp & Hi) Hb].
  split; [|exact Hb].
  exists popped, rest. rsimpl. rewrite Hp. by rewrite insert_app_l.
Qed.

Lemma shape_handleIdleTimeout i s :
  let s' := handleIdleTimeout cfg i s in
  tasks s' = alter (failRunning (idleError cfg)) i (tasks s) ∧ sameRest s s'.
Proof.
  unfold handleIdleTimeout, sameRest.
  destruct (tasks s !! i) as [task|] eqn:E; [|by rewrite alter_missing].
  repeat case_match; rsimpl; (split; [|done]); same_task E;
    unfold failRunning; use_eqs; done.
Qed.

Lemma shape_handleResourceLimit i limitType s :
  let s' := handleResourceLimit i limitType s in
  tasks s' = alter (failRunning (limitError limitType)) i (tasks s) ∧ sameRest s s'.
Proof.
  unfold handleResourceLimit, sameRest.
  destruct (tasks s !! i) as [task|] eqn:E; [|by rewrite alter_missing].
  repeat case_match; rsimpl; (split; [|done]); same_task E;
    unfold failRunning, limitError; cbn zeta; use_eqs; done.
Qed.

Lemma shape_runMonitor i ev s :
  let s' := runMonitor i ev s in
  tasks s' = alter (runMonitorT ev) i (tasks s) ∧ sameRest s s'.
Proof.
  unfold runMonitor. destruct ev; rsimpl; rewrite ?lookup_alter_eq; [| |done].
  - destruct (tasks s !! i) as [task|] eqn:E; cbn [fmap option_fmap option_map].
    2:{ unfold sameRest. rsimpl. by rewrite !alter_missing. }
    destruct (reached _ _) eqn:Hr.
    + destruct (shape_handleResourceLimit i "maxToolCalls"
                  (resetIdleTimer i (modTask i addToolCall s))) as (-> & Hrest).
      split; [|exact Hrest]. rsimpl. rewrite alter_alter_eq. same_task E.
      unfold runMonitorT. cbn in Hr |- *. by rewrite Hr.
    + unfold sameRest. rsimpl. split; [|done]. same_task E.
      unfold runMonitorT. cbn in Hr |- *. by rewrite Hr.
  - destruct (tasks s !! i) as [task|] eqn:E; cbn [fmap option_fmap option_map].
    2:{ unfold sameRest. rsimpl. by rewrite !alter_missing. }
    destruct (reached _ _) eqn:Hr.
    + destruct (shape_handleResourceLimit i "maxSteps"
                  (resetIdleTimer i (modTask i addStep s))) as (-> & Hrest).
      split; [|exact Hrest]. rsimpl. rewrite alter_alter_eq. same_task E.
      unfold runMonitorT. cbn in Hr |- *. by rewrite Hr.
    + unfold sameRest. rsimpl. split; [|done]. same_task E.
      unfold runMonitorT. cbn in Hr |- *. by rewrite Hr.
Qed.

Lemma sameRest_refl s : sameRest s s.
Proof. by unfold sameRest. Qed.

Lemma sameRest_trans s1 s2 s3 : sameRest s1 s2 -> sameRest s2 s3 -> sameRest s1 s3.
Proof. unfold sameRest. intros (-> & -> & -> & -> & ->) (-> & -> & -> & -> & ->). done. Qed.

Lemma shape_monitorOf p i ev s :
  let s' := monitorOf p i ev s in
  tasks s' = alter (monitorT p i ev) i (tasks s) ∧ sameRest s s'.
Proof.
  pose proof (alter_same i (tasks s)) as Hid.
  unfold monitorOf, monitorT. cbv zeta.
  destruct p; rsimpl; rewrite ?Hid; try (split; [done | apply sameRest_refl]);
    destruct (String.eqb _ i); rsimpl; rewrite ?Hid;
    try (split; [done | apply sameRest_refl]);
    try apply shape_runMonitor;
    unfold chatMonitor, chatMonitorT, sameRest; destruct ev; rsimpl; rewrite ?Hid; done.
Qed.

Lemma shape_monitors ps i ev s :
  let s' := foldl (fun a p => monitorOf p i ev a) s ps in
  tasks s' = alter (fun t => foldl (fun a p => monitorT p i ev a) t ps) i (tasks s)
  ∧ sameRest s s'.
Proof.
  revert s. induction ps as [|p ps IH]; intros s.
  - cbn. split; [|apply sameRest_refl]. symmetry. by apply alter_id.
  - cbn [foldl]. destruct (IH (monitorOf p i ev s)) as (-> & Hr2).
    destruct (shape_monitorOf p i ev s) as (-> & Hr1).
    split; [by rewrite alter_alter_eq | by eapply sameRest_trans].
Qed.

Lemma shape_afterLoop i text s :
  let s' := afterLoop sandboxPreviewUrl i text s in
  tasks s' = alter (afterLoopT sandboxPreviewUrl text) i (tasks s) ∧ sameRest s s'.
Proof.
  unfold afterLoop, sameRest. rsimpl.
  destruct (tasks s !! i) as [task|] eqn:E; [|by rewrite alter_missing].
  repeat case_match; rsimpl; (split; [|done]); rewrite ?alter_alter_eq; same_task E;
    unfold afterLoopT; cbn; use_eqs; done.
Qed.

Lemma shape_catchBlock i err s :
  let s' := catchBlock i err s in
  tasks s' = alter (catchT err) i (tasks s) ∧ sameRest s s'.
Proof.
  unfold catchBlock, sameRest.
  destruct (tasks s !! i) as [task|] eqn:E; [|by rewrite alter_missing].
  repeat case_match; rsimpl; (split; [|done]); same_task E;
    unfold catchT; use_eqs; done.
Qed.

Lemma shape_announce pid i s :
  (pid < length (procs s))%nat ->
  drained cfg (tasks s) (pendingQueue s) (launched s)
          (<[pid := if injectionQueue s then PRunImport i else PDone]> (procs s))
          (injected s) (announce cfg pid i s).
Proof.
  intros Hpid. unfold announce. rsimpl. destruct (injectionQueue s).
  - by apply drained_here.
  - apply drained_setProc; [done|].
    apply (drained_drainQueue (set_updates (updates s ++ option_list (tasks s !! i)) s)).
Qed.

Lemma shape_inject pid i s :
  (pid < length (procs s))%nat ->
  drained cfg (tasks s) (pendingQueue s) (launched s) (<[pid := PDone]> (procs s))
          (injected s ++ itemOf buildMessage (fun t => injectionTypeOf (status t))
                           (tasks s !! i))
          (inject cfg pid i s).
Proof.
  intros Hpid. unfold inject, itemOf.
  destruct (tasks s !! i) as [task|]; apply drained_setProc; try done.
  - apply (drained_drainQueue (enqueue _ s)).
  - rewrite app_nil_r. apply drained_drainQueue.
Qed.

Lemma shape_finallyBlock pid p i subAgent s :
  procs s !! pid = Some p ->
  drained cfg (alter (finallyT subAgent) i (tasks s)) (pendingQueue s) (launched s)
          (<[pid := runNext s i (tasks s !! i) p]> (procs s)) (injected s)
          (finallyBlock cfg pid i subAgent s).
Proof.
  intros Hp. pose proof (lookup_lt_Some _ _ _ Hp) as Hlen.
  unfold finallyBlock, runNext. rsimpl.
  destruct (tasks s !! i) as [task|] eqn:E.
  2:{ apply drained_here; try done; [by rewrite alter_missing|].
      by rewrite list_insert_id. }
  assert (∀ m : gmap string BgTask, m !! i = Some task ->
          alter (finallyT subAgent) i m
          = (if nonEmpty (sandboxUrl task)
             then alter (set_sandboxAlive (Some true)) i else fun m => m)
              (alter (set_agentAlive (Some (bool_decide (status task = completed) && subAgent))) i m)) as Hf.
  { intros m Hm. destruct (nonEmpty (sandboxUrl task)) eqn:Hn;
      rewrite ?alter_alter_eq; apply alter_ext; intros t Ht;
      rewrite Hm in Ht; injection Ht as <-; unfold finallyT; cbn; by rewrite Hn. }
  rewrite (Hf _ E).
  destruct (bool_decide (status task = completed) && subAgent) eqn:Hb;
    destruct (nonEmpty (sandboxUrl task)) eqn:Hn; rsimpl.
  - match goal with |- drained _ _ _ _ _ _ (announce _ _ _ ?s0) =>
      apply (shape_announce pid i s0 Hlen) end.
  - by apply drained_here.
  - match goal with |- drained _ _ _ _ _ _ (announce _ _ _ ?s0) =>
      apply (shape_announce pid i s0 Hlen) end.
  - by apply drained_here.
Qed.

Lemma shape_finally_after pid p i subAgent (f : BgTask -> BgTask) s1 s :
  procs s !! pid = Some p ->
  tasks s1 = alter f i (tasks s) ∧ sameRest s s1 ->
  drained cfg (alter (fun t => finallyT subAgent (f t)) i (tasks s))
          (pendingQueue s) (launched s)
          (<[pid := runNext s i (f <$> tasks s !! i) p]> (procs s)) (injected s)
          (finallyBlock cfg pid i subAgent s1).
Proof.
  intros Hp (Ht & Hq & Hl & Hps & Hi & Hj).
  assert (procs s1 !! pid = Some p) as Hp1 by by rewrite Hps.
  pose proof (shape_finallyBlock pid p i subAgent s1 Hp1) as H.
  rewrite Ht, Hq, Hl, Hps, Hi, alter_alter_eq, lookup_alter_eq in H.
  unfold runNext in *. by rewrite Hj in H.
Qed.

Lemma shape_paused pid i input text s :
  procs s !! pid = Some (PComplete i input) ->
  drained cfg (alter (pausedT sandboxPreviewUrl
                    (bool_decide (is_Some (pendingMessages s !! i))) text) i (tasks s))
          (pendingQueue s) (launched s)
          (<[pid := settleProc sandboxPreviewUrl (PComplete i input)
                      (CompletePaused text) s]> (procs s))
          (injected s) (paused cfg sandboxPreviewUrl pid i text s).
Proof.
  intros Hp. unfold paused, settleProc.
  destruct (tasks s !! i) as [task|] eqn:E.
  2:{ apply drained_here; try done; [by rewrite alter_missing|].
      by rewrite list_insert_id. }
  assert (∀ b, settled (status task) = true ∨ b = false ->
          alter (pausedT sandboxPreviewUrl b text) i (tasks s)
          = alter (fun t => finallyT true (afterLoopT sandboxPreviewUrl text t)) i (tasks s)) as Hbreak.
  { intros b Hb. same_task E. unfold pausedT. by destruct Hb as [-> | ->]; [|destruct (settled _)]. }
  pose proof (shape_finally_after pid _ i true _ _ s Hp (shape_afterLoop i text s)) as Hfin.
  rewrite E in Hfin. cbn [fmap option_fmap option_map] in Hfin.
  destruct (settled (status task)) eqn:Hs.
  - rewrite Hbreak by by left. exact Hfin.
  - destruct (pendingMessages s !! i) as [instruction|] eqn:Hm.
    + apply drained_here; rsimpl; try done.
      same_task E. unfold pausedT. rewrite Hs.
      by rewrite bool_decide_eq_true_2.
    + rewrite Hbreak; [exact Hfin|].
      right. apply bool_decide_eq_false_2. by intros [? ?].
Qed.

Lemma shape_cancel i reason s :
  let l := Cancel i reason in
  let s' := (cancel i reason s).2 in
  tasks s' = alter (cancelT reason) i (tasks s)
  ∧ pendingQueue s' = coreQueue cfg sandboxPreviewUrl l s
  ∧ launched s' = launched s
  ∧ procs s' = coreProcs sandboxPreviewUrl l s
  ∧ injected s' = injected s.
Proof.
  unfold cancel, coreQueue, coreProcs, statusOf.
  destruct (tasks s !! i) as [task|] eqn:E.
  2:{ cbn. by rewrite alter_missing, app_nil_r. }
  cbn [fmap option_fmap option_map].
  destruct (status task) eqn:Hs; rsimpl;
    rewrite ?bool_decide_eq_true_2, ?bool_decide_eq_false_2 by congruence;
    repeat case_match; rsimpl; rewrite ?app_nil_r; (split; [|done]); same_task E;
    unfold cancelT; by rewrite Hs.
Qed.

Lemma shape_disposeAgent i s :
  let s' := disposeAgent i s in
  tasks s' = alter (effect cfg sandboxPreviewUrl (DisposeAgent i) s) i (tasks s)
  ∧ sameRest s s'.
Proof.
  unfold disposeAgent, effect, sameRest. destruct (hasAgent s i); rsimpl; [done|].
  split; [|done]. symmetry. by apply alter_id.
Qed.

Lemma shape_chatGuard i s :
  match chatGuard i s with
  | Some (_, s') =>
      tasks s' = alter (chatT (hasAgent s i)) i (tasks s)
      ∧ sameRest s s'
      ∧ ∀ mk, chatProcs mk i s = []
  | None =>
      ∃ task, tasks s !! i = Some task ∧ agentAlive task = Some true
              ∧ hasAgent s i = true
  end.
Proof.
  unfold chatGuard, chatProcs, sameRest.
  destruct (tasks s !! i) as [task|] eqn:E; [|by rewrite alter_missing].
  case_bool_decide as Ha; cbn [negb andb].
  - destruct (hasAgent s i) eqn:Hg; cbn [negb]; [eauto|].
    rsimpl. split; [|done]. same_task E. unfold chatT.
    by rewrite bool_decide_eq_true_2.
  - split; [|done]. same_task E. unfold chatT. by rewrite bool_decide_eq_false_2.
Qed.

Lemma shape_chatAsync i message s :
  let l := ChatAsync i message in
  let s' := (chatAsync i message s).2 in
  tasks s' = alter (chatT (hasAgent s i)) i (tasks s)
  ∧ pendingQueue s' = pendingQueue s ∧ launched s' = launched s
  ∧ procs s' = coreProcs sandboxPreviewUrl l s
  ∧ injected s' = injected s.
Proof.
  unfold chatAsync, chatEnter, statusOf, coreProcs.
  pose proof (shape_chatGuard i s) as H.
  destruct (chatGuard i s) as [[err s']|].
  - cbv zeta. rsimpl. destruct H as (-> & (-> & -> & -> & -> & _) & ->).
    by rewrite app_nil_r.
  - destruct H as (task & E & Ha & Hg). unfold chatProcs. rewrite E, Hg.
    cbn [fmap option_fmap option_map]. rewrite bool_decide_eq_true_2 by done.
    rsimpl. split; [|done]. same_task E. unfold chatT.
    by rewrite bool_decide_eq_true_2.
Qed.

Lemma shape_chat i message s :
  let l := Chat i message in
  let s' := (chat i message s).2 in
  tasks s' = alter (chatT (hasAgent s i)) i (tasks s)
  ∧ pendingQueue s' = pendingQueue s ∧ launched s' = launched s
  ∧ procs s' = coreProcs sandboxPreviewUrl l s
  ∧ injected s' = injected s.
Proof.
  unfold chat, chatEnter, statusOf, coreProcs.
  pose proof (shape_chatGuard i s) as H.
  destruct (chatGuard i s) as [[err s']|].
  - cbv zeta. rsimpl. destruct H as (-> & (-> & -> & -> & -> & _) & ->).
    by rewrite app_nil_r.
  - destruct H as (task & E & Ha & Hg). unfold chatProcs. rewrite E, Hg.
    cbn [fmap option_fmap option_map]. rewrite bool_decide_eq_true_2 by done.
    rsimpl. split; [|done]. same_task E. unfold chatT.
    by rewrite bool_decide_eq_true_2.
Qed.

Lemma shape_start newId templateId prompt description opts s :
  let l := Start newId templateId prompt description opts in
  drained cfg (coreTasks cfg sandboxPreviewUrl l s) (coreQueue cfg sandboxPreviewUrl l s)
          (launched s) (procs s) (injected s)
          (start cfg newId templateId prompt description opts s).
Proof.
  unfold start, coreTasks, coreQueue. rsimpl.
  match goal with |- drained _ _ _ _ _ _ (drainQueue _ ?s0) =>
    apply (drained_drainQueue s0) end.
Qed.

Lemma shape_settle pid o s s' :
  settle cfg sandboxPreviewUrl pid o s = Some s' ->
  let l := Settle pid o in
  drained cfg (coreTasks cfg sandboxPreviewUrl l s) (pendingQueue s) (launched s)
          (coreProcs sandboxPreviewUrl l s)
          (injected s ++ coreInjected l s) s'.
Proof.
  unfold settle, coreTasks, coreProcs, coreInjected, target, effect, alterAt.
  destruct (procs s !! pid) as [p|] eqn:Ep; [|done].
  pose proof (lookup_lt_Some _ _ _ Ep) as Hlen.
  destruct p, o; intros Hs; simplify_eq; cbn [mbind option_bind procTask settleProc];
    rewrite ?alter_same, ?app_nil_r;
    try (apply drained_here; unfold agentCreated, cancelInject, chatAsyncDone,
           chatAsyncFailed, chatInject, chatDone, chatFailed, sandboxDisposed, itemOf;
         repeat case_match; rsimpl; rewrite ?app_nil_r; done).
  - apply (shape_finally_after pid _ taskId false _ _ s Ep (shape_catchBlock taskId err s)).
  - apply (shape_finally_after pid _ taskId true _ _ s Ep (shape_catchBlock taskId err s)).
  - apply (shape_finally_after pid _ taskId true _ _ s Ep (shape_afterLoop taskId text s)).
  - by apply shape_paused.
  - by apply shape_announce.
  - by apply shape_announce.
  - by apply shape_inject.
  - unfold chatAsyncFailed. rsimpl.
    destruct (injectionQueue s); apply drained_here; by rsimpl.
  - unfold chatAsyncDone. rsimpl.
    destruct (injectionQueue s); apply drained_here; by rsimpl.
  - unfold chatAsyncDone. rsimpl.
    destruct (injectionQueue s); apply drained_here; by rsimpl.
Qed.

(** What a transition leaves: the assignments of [effect] to the task of
    [target] (or the new task of [start]), the suspended calls and the
    injections of the table above, then what [drainQueue] starts from the
    head of the queue. *)
Lemma step_shape l s s' :
  step cfg sandboxPreviewUrl l s = Some s' ->
  drained cfg (coreTasks cfg sandboxPreviewUrl l s)
          (coreQueue cfg sandboxPreviewUrl l s) (launched s)
          (coreProcs sandboxPreviewUrl l s)
          (injected s ++ coreInjected l s) s'.
Proof.
  destruct l; cbn [step]; intros Hs; simplify_eq;
    try (unfold coreInjected; rewrite app_nil_r).
  - by apply drained_here.
  - destruct (tasks s !! newId); [done|]. simplify_eq. apply shape_start.
  - apply drained_here; apply shape_cancel.
  - apply drained_here; unfold sendMessage; repeat case_match; rsimpl; try done;
      unfold coreTasks, alterAt, target, effect; by rewrite alter_same.
  - apply drained_here; unfold disposeSandbox, coreProcs; repeat case_match;
      rsimpl; rewrite ?app_nil_r; try done;
      unfold coreTasks, alterAt, target, effect; by rewrite alter_same.
  - apply drained_here; apply shape_disposeAgent.
  - apply drained_here; apply shape_chatAsync.
  - apply drained_here; apply shape_chat.
  - case_bool_decide; [|done]. simplify_eq.
    apply drained_here; apply (shape_handleIdleTimeout taskId (clearIdleTimer taskId s)).
  - unfold agentEmits. apply drained_here; apply shape_monitors.
  - by apply shape_settle.
Qed.

End Shape.

(** ** What the assignments of a step preserve *)

Section Invariants.

Variable cfg : BgTaskConfig.
Variable sandboxPreviewUrl : option string -> option string.

Abbreviation effect := (effect cfg sandboxPreviewUrl).
Abbreviation coreTasks := (coreTasks cfg sandboxPreviewUrl).
Abbreviation coreQueue := (coreQueue cfg sandboxPreviewUrl).
Abbreviation coreProcs := (coreProcs sandboxPreviewUrl).
Abbreviation step := (step cfg sandboxPreviewUrl).
Abbreviation run := (run cfg sandboxPreviewUrl).
Abbreviation reachable := (reachable cfg sandboxPreviewUrl).

(** Unfold the assignments of a step down to the setters. *)
Lemma monitorT_static p i ev t : static (monitorT p i ev t) = static t.
Proof.
  unfold monitorT, runMonitorT, chatMonitorT, failRunning.
  repeat case_match; reflexivity.
Qed.

Lemma monitorT_status p i ev t :
  status (monitorT p i ev t) = status t
  ∨ (status t = running ∧ status (monitorT p i ev t) = failed).
Proof.
  unfold monitorT, runMonitorT, chatMonitorT, failRunning.
  repeat case_match; cbn; auto;
    right; split; try done; by eapply bool_decide_eq_true_1.
Qed.

Lemma monitorT_agentAlive p i ev t :
  agentAlive (monitorT p i ev t) = agentAlive t.
Proof.
  unfold monitorT, runMonitorT, chatMonitorT, failRunning.
  repeat case_match; reflexivity.
Qed.

Lemma monitors_static ps i ev t :
  static (foldl (fun a p => monitorT p i ev a) t ps) = static t.
Proof.
  revert t. induction ps as [|p ps IH]; intros t; [done|].
  cbn. by rewrite IH, monitorT_static.
Qed.

Lemma monitors_status ps i ev t :
  let t' := foldl (fun a p => monitorT p i ev a) t ps in
  status t' = status t ∨ (status t = running ∧ status t' = failed).
Proof.
  revert t. induction ps as [|p ps IH]; intros t; [by left|].
  cbn. pose proof (IH (monitorT p i ev t)) as H1. cbv zeta in H1.
  pose proof (monitorT_status p i ev t) as H2.
  destruct H1 as [H1 | [H1 H1']], H2 as [H2 | [H2 H2']];
    rewrite ?H1, ?H1', ?H2, ?H2' in *; auto; congruence.
Qed.

Lemma monitors_agentAlive ps i ev t :
  agentAlive (foldl (fun a p => monitorT p i ev a) t ps) = agentAlive t.
Proof.
  revert t. induction ps as [|p ps IH]; intros t; [done|].
  cbn. by rewrite IH, monitorT_agentAlive.
Qed.

Lemma effect_static l s t : static (effect l s t) = static t.
Proof.
  destruct l; try reflexivity; try (effect_cases; reflexivity).
  apply monitors_static.
Qed.

(** No assignment makes a task queued, given that no chat turn remembers
    [queued] as the status to restore. *)
Lemma effect_queued l s t :
  (∀ p, p ∈ procs s -> chatPrevious p ≠ Some queued) ->
  status (effect l s t) = queued -> status t = queued.
Proof.
  intros Hprev.
  destruct l; try done; try (effect_cases; congruence).
  - cbn. destruct (monitors_status (procs s) taskId ev t) as [-> | [_ ->]]; done.
  - unfold RunnerSpec.effect.
    destruct (procs s !! pid) as [p|] eqn:Ep; [|done].
    apply list_elem_of_lookup_2 in Ep. specialize (Hprev p Ep).
    destruct p, o; try done; cbn in Hprev; effect_cases; congruence.
Qed.

Lemma effect_agentAlive l s t :
  agentAlive (effect l s t) = Some true ->
  agentAlive t = Some true ∨ status (effect l s t) = completed.
Proof.
  destruct l; auto;
    try (cbn; rewrite monitors_agentAlive; by auto);
    effect_cases; auto; try discriminate.
  all: try (intros [= Hb]; apply andb_prop in Hb as [Hb _];
      apply bool_decide_eq_true_1 in Hb; cbn in Hb; by auto).
Qed.

(** ** Tasks after a step *)

Lemma lookup_startAll_notin popped (m : gmap string BgTask) k :
  k ∉ map qtask popped -> startAll popped m !! k = m !! k.
Proof.
  revert m. induction popped as [|q popped IH]; intros m Hk; [done|].
  apply not_elem_of_cons in Hk as [Hq Hk].
  rewrite startAll_cons, IH by done.
  apply lookup_alter_ne. congruence.
Qed.

Lemma lookup_startAll_in popped (m : gmap string BgTask) k :
  k ∈ map qtask popped -> startAll popped m !! k = set_status running <$> m !! k.
Proof.
  revert m. induction popped as [|q popped IH]; intros m Hk; [by inversion Hk|].
  rewrite startAll_cons.
  destruct (decide (k ∈ map qtask popped)) as [Hin|Hin].
  - rewrite IH by done. rewrite lookup_alter.
    destruct (decide (qtask q = k)) as [->|]; [|done].
    by destruct (m !! k).
  - rewrite lookup_startAll_notin by done.
    apply elem_of_cons in Hk as [<- | Hk]; [|done]. apply lookup_alter_eq.
Qed.

Lemma lookup_coreTasks_other l s k :
  target l s ≠ Some k -> coreTasks l s !! k = tasks s !! k.
Proof.
  intros Hk. unfold RunnerSpec.coreTasks.
  destruct l;
    try (unfold alterAt; destruct (target _ s) as [i|] eqn:Ht;
         [apply lookup_alter_ne; congruence | done]).
  apply lookup_insert_ne. cbn in Hk. congruence.
Qed.

Lemma lookup_coreTasks_target l s k :
  target l s = Some k ->
  coreTasks l s !! k =
    match l with
    | Start newId templateId prompt description opts =>
        Some (newTask cfg newId templateId prompt description opts)
    | _ => effect l s <$> tasks s !! k
    end.
Proof.
  intros Hk. unfold RunnerSpec.coreTasks, alterAt. rewrite Hk.
  destruct l; cbn in Hk; simplify_eq; try apply lookup_alter_eq.
  apply lookup_insert_eq.
Qed.

(** A task after a step: the task before it with the assignments of the
    step, or the new task of [start]; set to running if [drainQueue]
    launched it. *)
Lemma step_task l s s' k t' :
  step l s = Some s' ->
  tasks s' !! k = Some t' ->
  ∃ t0,
    (t' = t0 ∨ (t' = set_status running t0 ∧ k ∈ launched s'))
    ∧ ((∃ t, tasks s !! k = Some t ∧ (t0 = t ∨ t0 = effect l s t))
       ∨ (∃ templateId prompt description opts,
            l = Start k templateId prompt description opts
            ∧ tasks s !! k = None
            ∧ t0 = newTask cfg k templateId prompt description opts)).
Proof.
  intros Hstep Hk.
  destruct (step_shape cfg sandboxPreviewUrl l s s' Hstep)
    as [(popped & rest & Hq & Hr & Hl & Ht & Hp & Hi) _].
  rewrite Ht in Hk.
  assert (∃ t0, (t' = t0 ∨ (t' = set_status running t0 ∧ k ∈ launched s'))
                ∧ coreTasks l s !! k = Some t0) as (t0 & Ht0 & Hcore).
  { destruct (decide (k ∈ map qtask popped)) as [Hin|Hin].
    - rewrite lookup_startAll_in in Hk by done.
      destruct (coreTasks l s !! k) as [t0|]; [|done]. cbn in Hk. simplify_eq.
      exists t0. split; [|done]. right. split; [done|]. rewrite Hl.
      apply elem_of_app. by right.
    - rewrite lookup_startAll_notin in Hk by done. eauto. }
  exists t0. split; [done|].
  destruct (decide (target l s = Some k)) as [Htg|Htg].
  - rewrite lookup_coreTasks_target in Hcore by done.
    destruct l; try (destruct (tasks s !! k) as [t|]; [|done]; cbn in Hcore;
                     simplify_eq; left; eauto).
    cbn in Htg. simplify_eq. right. cbn in Hstep.
    destruct (tasks s !! k) eqn:E; [done|]. eauto 10.
  - rewrite lookup_coreTasks_other in Hcore by done. left. eauto.
Qed.

(** No step deletes a task or touches its static fields. *)
Lemma step_static l s s' k t :
  step l s = Some s' ->
  tasks s !! k = Some t ->
  ∃ t', tasks s' !! k = Some t' ∧ static t' = static t.
Proof.
  intros Hstep Hk.
  destruct (step_shape cfg sandboxPreviewUrl l s s' Hstep)
    as [(popped & rest & Hq & Hr & Hl & Ht & Hp & Hi) _].
  assert (∃ t0, coreTasks l s !! k = Some t0 ∧ static t0 = static t) as (t0 & Hc & Hs).
  { destruct (decide (target l s = Some k)) as [Htg|Htg].
    - rewrite lookup_coreTasks_target by done.
      destruct l; try (rewrite Hk; cbn [fmap option_fmap option_map];
                       eexists; split; [done | apply effect_static]).
      cbn in Htg. simplify_eq. cbn in Hstep. by rewrite Hk in Hstep.
    - rewrite lookup_coreTasks_other by done. eauto. }
  rewrite Ht. destruct (decide (k ∈ map qtask popped)) as [Hin|Hin].
  - rewrite lookup_startAll_in, Hc by done. eexists. split; [done|]. exact Hs.
  - rewrite lookup_startAll_notin by done. eauto.
Qed.

(** ** The invariant on tasks *)

Lemma chatPrevious_settleProc p o s prev :
  chatPrevious (settleProc sandboxPreviewUrl p o s) = Some prev ->
  chatPrevious p = Some prev.
Proof.
  unfold settleProc, runNext. repeat case_match; simplify_eq; cbn; congruence.
Qed.

Lemma coreProcs_elem l s p :
  p ∈ coreProcs l s ->
  p ∈ procs s
  ∨ (∃ i reason, l = Cancel i reason ∧ p = PCancelImport i
       ∧ statusOf s i = Some queued ∧ injectionQueue s = true)
  ∨ (∃ i, l = DisposeSandbox i ∧ p = PDisposeSandbox i)
  ∨ (∃ i message t, (l = ChatAsync i message ∧ p = PChatAsyncComplete i (status t)
                     ∨ l = Chat i message ∧ p = PChatComplete i (status t))
       ∧ tasks s !! i = Some t ∧ agentAlive t = Some true ∧ hasAgent s i = true)
  ∨ (∃ pid o p0, l = Settle pid o ∧ procs s !! pid = Some p0
       ∧ p = settleProc sandboxPreviewUrl p0 o s).
Proof.
  unfold RunnerSpec.coreProcs, chatProcs.
  destruct l as [| | | | | |taskId msg|taskId msg| | |]; auto.
  - intros [H|H]%elem_of_app; [auto|]. right. left.
    destruct (bool_decide _ && _) eqn:Hb; [|by inversion H].
    apply list_elem_of_singleton in H as ->.
    apply andb_prop in Hb as [Hq Hi]. apply bool_decide_eq_true_1 in Hq. eauto 10.
  - intros [H|H]%elem_of_app; [auto|]. right. right. left.
    case_bool_decide; [|by inversion H].
    apply list_elem_of_singleton in H as ->. eauto.
  - intros [H|H]%elem_of_app; [auto|]. do 3 right. left.
    destruct (tasks s !! taskId) as [t|] eqn:E; [|by inversion H].
    destruct (bool_decide _ && _) eqn:Hb; [|by inversion H].
    apply list_elem_of_singleton in H as ->.
    apply andb_prop in Hb as [Ha Hg]. apply bool_decide_eq_true_1 in Ha.
    exists taskId, msg, t. eauto 10.
  - intros [H|H]%elem_of_app; [auto|]. do 3 right. left.
    destruct (tasks s !! taskId) as [t|] eqn:E; [|by inversion H].
    destruct (bool_decide _ && _) eqn:Hb; [|by inversion H].
    apply list_elem_of_singleton in H as ->.
    apply andb_prop in Hb as [Ha Hg]. apply bool_decide_eq_true_1 in Ha.
    exists taskId, msg, t. eauto 10.
  - destruct (procs s !! pid) as [p0|] eqn:E; [|auto].
    intros H. apply list_elem_of_lookup in H as [j Hj].
    destruct (decide (pid = j)) as [->|Hne].
    + rewrite list_lookup_insert_eq in Hj by by eapply lookup_lt_Some.
      simplify_eq. do 4 right. eauto 10.
    + rewrite list_lookup_insert_ne in Hj by done.
      left. by eapply list_elem_of_lookup_2.
Qed.

Lemma newTask_static newId templateId prompt description opts :
  let t := newTask cfg newId templateId prompt description opts in
  id t = newId ∧ status t = queued ∧ agentAlive t = None
  ∧ is_Some (maxToolCalls (resourceLimits t))
  ∧ is_Some (maxSteps (resourceLimits t)).
Proof. cbn. eauto 10. Qed.

Lemma tasksOk_init : tasksOk init.
Proof. split; cbn; intros; try done; by inversion H. Qed.

Lemma tasksOk_step l s s' : tasksOk s -> step l s = Some s' -> tasksOk s'.
Proof.
  intros [Hid Hlim Hqa Hprev] Hstep. split.
  - intros k t' Hk.
    destruct (step_task l s s' k t' Hstep Hk) as (t0 & Ht' & Ht0).
    assert (id t' = id t0) as -> by (by destruct Ht' as [-> | [-> _]]).
    destruct Ht0 as [(t & Ht & [-> | ->]) | (? & ? & ? & ? & _ & _ & ->)]; [eauto| |done].
    pose proof (effect_static l s t) as Hs. injection Hs as Hs _. rewrite Hs. eauto.
  - intros k t' Hk.
    destruct (step_task l s s' k t' Hstep Hk) as (t0 & Ht' & Ht0).
    assert (resourceLimits t' = resourceLimits t0) as -> by (by destruct Ht' as [-> | [-> _]]).
    destruct Ht0 as [(t & Ht & [-> | ->]) | (? & ? & ? & ? & _ & _ & ->)]; [eauto| |].
    + pose proof (effect_static l s t) as Hs. injection Hs as _ _ _ _ _ _ _ _ Hs.
      rewrite Hs. eauto.
    + cbn. eauto.
  - intros k t' Hk Hq.
    destruct (step_task l s s' k t' Hstep Hk) as (t0 & Ht' & Ht0).
    destruct Ht' as [-> | [-> _]]; [|done].
    destruct Ht0 as [(t & Ht & [-> | ->]) | (? & ? & ? & ? & _ & _ & ->)]; [eauto| |done].
    intros Ha. pose proof (effect_queued l s t Hprev Hq) as Hq0.
    destruct (effect_agentAlive l s t Ha) as [Ha0 | Hc]; [|congruence].
    by eapply Hqa.
  - intros p Hp.
    destruct (step_shape cfg sandboxPreviewUrl l s s' Hstep)
      as [(popped & rest & _ & _ & _ & _ & Hps & _) _].
    rewrite Hps in Hp. apply elem_of_app in Hp as [Hp|Hp].
    2:{ apply list_elem_of_fmap in Hp as (q & -> & _). done. }
    apply coreProcs_elem in Hp
      as [Hp | [(i & r & _ & -> & _) | [(i & _ & ->) | [(i & m & t & Hl & Ht & Ha & _)
          | (pid & o & p0 & _ & Hp0 & ->)]]]].
    + eauto.
    + done.
    + done.
    + assert (status t ≠ queued) as Hne by (intros Hq; by eapply Hqa).
      destruct Hl as [[_ ->] | [_ ->]]; cbn; congruence.
    + intros Hc. apply chatPrevious_settleProc in Hc.
      eapply Hprev; [|exact Hc]. by eapply list_elem_of_lookup_2.
Qed.

Lemma run_app ls1 ls2 s :
  run (ls1 ++ ls2) s = run ls1 s ≫= run ls2.
Proof.
  revert s. induction ls1 as [|l ls1 IH]; intros s; [done|].
  cbn. destruct (step l s); [apply IH | done].
Qed.

Lemma run_snoc ls l s s' :
  run (ls ++ [l]) s = Some s' ↔ ∃ s1, run ls s = Some s1 ∧ step l s1 = Some s'.
Proof.
  rewrite run_app. destruct (run ls s) as [s1|]; cbn.
  - destruct (step l s1) eqn:E; split.
    + intros [= <-]. eauto.
    + intros (? & [= <-] & ?). congruence.
    + done.
    + intros (? & [= <-] & ?). congruence.
  - split; [done | by intros (? & ? & ?)].
Qed.

(** Induction over the transitions that lead to a state. *)
Lemma reachable_ind (P : Runner -> Prop) :
  P init ->
  (∀ l s s', reachable s -> P s -> step l s = Some s' -> P s') ->
  ∀ s, reachable s -> P s.
Proof.
  intros Hinit Hstep s [ls Hls]. revert s Hls.
  induction ls as [|l ls IH] using rev_ind; intros s Hls.
  - cbn in Hls. by simplify_eq.
  - apply run_snoc in Hls as (s1 & Hs1 & Hl).
    eapply Hstep; [by exists ls | by apply IH | done].
Qed.

Lemma reachable_tasksOk s : reachable s -> tasksOk s.
Proof.
  revert s. apply reachable_ind.
  - apply tasksOk_init.
  - intros l s s' _ IH Hstep. by eapply tasksOk_step.
Qed.

End Invariants.

(** ** The sort of [start] *)

Section Sort.

Context {A : Type} (rank : A -> Z).

Local Abbreviation byRank := (byRank rank).

Lemma insertBy_perm x l : insertBy rank x l ≡ₚ x :: l.
Proof.
  induction l as [|y l IH]; [done|]. cbn.
  destruct (rank x <=? rank y); [done|].
  rewrite IH. apply Permutation_swap.
Qed.

Lemma sortBy_perm l : sortBy rank l ≡ₚ l.
Proof.
  induction l as [|x l IH]; [done|]. cbn. by rewrite insertBy_perm, IH.
Qed.

Lemma insertBy_sorted x l :
  StronglySorted byRank l -> StronglySorted byRank (insertBy rank x l).
Proof.
  induction 1 as [|y l Hl IH Hy]; cbn; [repeat constructor|].
  destruct (rank x <=? rank y) eqn:E.
  - apply Z.leb_le in E. constructor; [by constructor|].
    constructor; [done|]. eapply Forall_impl; [exact Hy|].
    unfold RunnerSpec.byRank. intros; lia.
  - apply Z.leb_gt in E. constructor; [done|].
    rewrite insertBy_perm. constructor; [unfold RunnerSpec.byRank; lia | done].
Qed.

Lemma sortBy_sorted l : StronglySorted byRank (sortBy rank l).
Proof.
  induction l as [|x l IH]; cbn; [constructor | by apply insertBy_sorted].
Qed.

(** Inserting in front of a list whose members all rank at least as high. *)
Lemma insertBy_head x l :
  Forall (fun b => rank x <= rank b) l -> insertBy rank x l = x :: l.
Proof.
  destruct 1 as [|y l Hy _]; [done|]. cbn.
  by apply Z.leb_le in Hy as ->.
Qed.

(** The new entry goes behind every entry that ranks at most as high. *)
Lemma insertBy_split x l :
  StronglySorted byRank l ->
  ∃ l1 l2, l = l1 ++ l2 ∧ insertBy rank x l = l1 ++ x :: l2
    ∧ Forall (fun a => rank a < rank x) l1
    ∧ Forall (fun b => rank x <= rank b) l2.
Proof.
  induction 1 as [|y l Hl IH Hy]; cbn.
  - exists [], []. by repeat constructor.
  - destruct (rank x <=? rank y) eqn:E.
    + apply Z.leb_le in E. exists [], (y :: l). repeat split; [constructor|].
      constructor; [done|]. eapply Forall_impl; [exact Hy|].
      unfold RunnerSpec.byRank. intros; lia.
    + apply Z.leb_gt in E. destruct IH as (l1 & l2 & -> & -> & H1 & H2).
      exists (y :: l1), l2. repeat split; [|done]. by constructor.
Qed.

(** Sorting a sorted queue with one entry pushed at its end: the entry goes
    behind the entries that rank at most as high, in front of the others,
    and nothing else moves. *)
Lemma sortBy_snoc q x :
  StronglySorted byRank q ->
  ∃ l1 l2, q = l1 ++ l2 ∧ sortBy rank (q ++ [x]) = l1 ++ x :: l2
    ∧ Forall (fun a => rank a <= rank x) l1
    ∧ Forall (fun b => rank x < rank b) l2.
Proof.
  induction 1 as [|a q Hq IH Ha]; cbn.
  - exists [], []. by repeat constructor.
  - destruct IH as (l1 & l2 & -> & -> & H1 & H2).
    apply Forall_app in Ha as [Ha1 Ha2].
    destruct l1 as [|b l1]; cbn.
    + destruct (rank a <=? rank x) eqn:E.
      * apply Z.leb_le in E. exists [a], l2. repeat split; [|done].
        by repeat constructor.
      * apply Z.leb_gt in E. rewrite insertBy_head by done.
        exists [], (a :: l2). repeat split; [constructor|].
        by constructor.
    + apply Forall_cons in Ha1 as [Hab Ha1]. unfold RunnerSpec.byRank in Hab.
      apply Z.leb_le in Hab as Hab'. rewrite Hab'.
      exists (a :: b :: l1), l2. repeat split; [|done].
      apply Forall_cons in H1 as [Hb H1]. repeat constructor; [lia|done..].
Qed.

Lemma StronglySorted_byRank_ext (rank' : A -> Z) l :
  (∀ a, a ∈ l -> rank' a = rank a) ->
  StronglySorted byRank l ->
  StronglySorted (RunnerSpec.byRank rank') l.
Proof.
  intros Hext Hs. induction Hs as [|a l Hl IH Ha]; [constructor|].
  constructor.
  - apply IH. intros b Hb. apply Hext. by right.
  - apply Forall_forall. intros b Hb. rewrite Forall_forall in Ha.
    unfold RunnerSpec.byRank. rewrite !Hext by (by left || by right). by apply Ha.
Qed.

Lemma StronglySorted_filter_byRank (P : A -> Prop) `{∀ a, Decision (P a)} l :
  StronglySorted byRank l -> StronglySorted byRank (filter P l).
Proof.
  induction 1 as [|a l Hl IH Ha]; [constructor|].
  rewrite filter_cons. destruct (decide (P a)); [|done].
  constructor; [done|]. apply Forall_forall. intros b Hb.
  apply list_elem_of_filter in Hb as [_ Hb]. rewrite Forall_forall in Ha. by apply Ha.
Qed.

End Sort.

(** ** The invariant on the queue *)

Section QueueInvariant.

Variable cfg : BgTaskConfig.
Variable sandboxPreviewUrl : option string -> option string.

Abbreviation effect := (effect cfg sandboxPreviewUrl).
Abbreviation coreTasks := (coreTasks cfg sandboxPreviewUrl).
Abbreviation coreQueue := (coreQueue cfg sandboxPreviewUrl).
Abbreviation coreProcs := (coreProcs sandboxPreviewUrl).
Abbreviation step := (step cfg sandboxPreviewUrl).
Abbreviation run := (run cfg sandboxPreviewUrl).
Abbreviation reachable := (reachable cfg sandboxPreviewUrl).

Lemma busyProc_settleProc p o s i :
  busyProc (settleProc sandboxPreviewUrl p o s) = Some i -> busyProc p = Some i.
Proof.
  unfold settleProc, runNext. repeat case_match; simplify_eq; cbn; congruence.
Qed.

Lemma busyProc_procTask p i : busyProc p = Some i -> procTask p = Some i.
Proof. by destruct p. Qed.

Lemma procTask_not_busy p i :
  procTask p = Some i -> busyProc p = None -> p = PDisposeSandbox i.
Proof. destruct p; cbn; congruence. Qed.

(** A step leaves a queued task queued, unless it cancels or launches it. *)
Lemma effect_keeps_queued l s k t :
  tasksOk s -> queueOk s ->
  tasks s !! k = Some t -> status t = queued ->
  target l s = Some k ->
  (∀ i reason, l ≠ Cancel i reason) ->
  status (effect l s t) = queued.
Proof.
  intros Hok Hq Hk Hs Htg Hl.
  destruct l as [| |i r| | | | | | | |pid o]; try done.
  - by destruct (Hl i r).
  - cbn. by destruct (hasAgent s taskId).
  - cbn. unfold chatT. case_bool_decide as Ha; [|done].
    by destruct (ok_queued_agent s Hok k t Hk Hs).
  - cbn. unfold chatT. case_bool_decide as Ha; [|done].
    by destruct (ok_queued_agent s Hok k t Hk Hs).
  - cbn. unfold failRunning. rewrite bool_decide_eq_false_2 by congruence. done.
  - cbn. destruct (monitors_status (procs s) taskId ev t) as [-> | [? _]];
      [done | congruence].
  - cbn in Htg. destruct (procs s !! pid) as [p|] eqn:Ep; [|done]. cbn in Htg.
    destruct (busyProc p) as [j|] eqn:Hb.
    + pose proof (busyProc_procTask p j Hb) as Hj. simplify_eq.
      destruct (ok_running s Hq p k (list_elem_of_lookup_2 _ _ _ Ep) Hb)
        as (t1 & Ht1 & Hne). congruence.
    + pose proof (procTask_not_busy p k Htg Hb) as ->.
      unfold RunnerSpec.effect. rewrite Ep. by destruct o.
Qed.

Lemma rankIn_ext (m m' : gmap string BgTask) q :
  priority <$> m' !! qtask q = priority <$> m !! qtask q ->
  rankIn m' q = rankIn m q.
Proof.
  unfold rankIn. destruct (m' !! qtask q), (m !! qtask q); cbn; congruence.
Qed.

Lemma priority_static t t' : static t' = static t -> priority t' = priority t.
Proof. by intros [= _ _ _ ? _ _ _ _ _]. Qed.

Lemma rankIn_startAll popped (m : gmap string BgTask) q :
  rankIn (startAll popped m) q = rankIn m q.
Proof.
  apply rankIn_ext.
  destruct (decide (qtask q ∈ map qtask popped)).
  - rewrite lookup_startAll_in by done. by destruct (m !! qtask q).
  - by rewrite lookup_startAll_notin.
Qed.

Lemma rankIn_coreTasks l s q :
  is_Some (tasks s !! qtask q) ->
  is_Some (step l s) ->
  rankIn (coreTasks l s) q = rankIn (tasks s) q.
Proof.
  intros [t Ht] [s' Hen]. apply rankIn_ext.
  destruct (decide (target l s = Some (qtask q))) as [Htg|Htg].
  - rewrite lookup_coreTasks_target by done.
    destruct l; try (rewrite Ht; cbn [fmap option_fmap option_map]; f_equal;
                     apply priority_static, effect_static).
    cbn in Htg. simplify_eq. cbn in Hen. by rewrite Ht in Hen.
  - by rewrite lookup_coreTasks_other.
Qed.

(** A task that is not queued is not queued after the assignments of a
    step either. *)
Lemma core_not_queued l s s' i t :
  tasksOk s -> step l s = Some s' ->
  tasks s !! i = Some t -> status t ≠ queued ->
  ∃ t0, coreTasks l s !! i = Some t0 ∧ status t0 ≠ queued.
Proof.
  intros Hok Hstep Hi Hne.
  destruct (decide (target l s = Some i)) as [Htg|Htg].
  - rewrite lookup_coreTasks_target by done.
    destruct l; try (rewrite Hi; cbn [fmap option_fmap option_map];
                     eexists; split; [done|]; intros Hq;
                     by apply effect_queued in Hq; [|apply Hok]).
    cbn in Htg. simplify_eq. cbn in Hstep. by rewrite Hi in Hstep.
  - rewrite lookup_coreTasks_other by done. eauto.
Qed.

Lemma queued_not_launched s q :
  queueOk s -> q ∈ pendingQueue s -> qtask q ∉ launched s.
Proof.
  intros Hq Hin Hl. pose proof (ok_nodup s Hq) as Hnd.
  apply NoDup_app in Hnd as (_ & Hdis & _).
  apply (Hdis _ Hl). by apply list_elem_of_fmap_2.
Qed.

Lemma filter_all {B} (P : B -> Prop) `{∀ x, Decision (P x)} (l : list B) :
  Forall P l -> filter P l = l.
Proof.
  induction 1 as [|x l Hx _ IH]; [done|].
  by rewrite filter_cons_True, IH.
Qed.

Lemma start_or_not (l : Label) :
  (∃ newId templateId prompt description opts,
     l = Start newId templateId prompt description opts)
  ∨ ¬ (∃ newId templateId prompt description opts,
     l = Start newId templateId prompt description opts).
Proof. destruct l; eauto 10; right; intros (? & ? & ? & ? & ? & ?); discriminate. Qed.

Lemma cancel_or_not (l : Label) :
  (∃ i r, l = Cancel i r) ∨ ¬ (∃ i r, l = Cancel i r).
Proof. destruct l; eauto; right; intros (? & ? & ?); discriminate. Qed.

Lemma coreOk_step l s s' :
  tasksOk s -> queueOk s -> step l s = Some s' -> coreOk cfg sandboxPreviewUrl l s.
Proof.
  intros Hok Hq Hstep.
  assert (∀ i, i ∈ launched s ->
    ∃ t0, coreTasks l s !! i = Some t0 ∧ status t0 ≠ queued) as Hlaunched.
  { intros i Hi. destruct (ok_launched s Hq i Hi) as (t & Ht & Hne).
    by eapply core_not_queued. }
  assert (∀ p i, p ∈ coreProcs l s -> busyProc p = Some i ->
    ∃ t0, coreTasks l s !! i = Some t0 ∧ status t0 ≠ queued) as Hrunning.
  { intros p i Hp Hb.
    apply coreProcs_elem in Hp
      as [Hp | [(j & r & -> & -> & Hst & _) | [(j & _ & ->) | [(j & m & t & Hl & Ht & Ha & _)
          | (pid & o & p0 & _ & Hp0 & ->)]]]].
    - destruct (ok_running s Hq p i Hp Hb) as (t & Ht & Hne).
      by eapply core_not_queued.
    - cbn in Hb. simplify_eq. unfold statusOf in Hst.
      destruct (tasks s !! i) as [t|] eqn:Ht; [|done]. cbn in Hst. simplify_eq.
      rewrite lookup_coreTasks_target by done. rewrite Ht. cbn.
      eexists. split; [done|]. unfold cancelT. by rewrite Hst.
    - done.
    - assert (status t ≠ queued) as Hne.
      { intros Hs. by eapply (ok_queued_agent s Hok). }
      assert (i = j) as -> by (destruct Hl as [[_ ->] | [_ ->]]; cbn in Hb; congruence).
      by eapply core_not_queued.
    - apply busyProc_settleProc in Hb.
      destruct (ok_running s Hq p0 i (list_elem_of_lookup_2 _ _ _ Hp0) Hb)
        as (t & Ht & Hne).
      by eapply core_not_queued. }
  destruct (start_or_not l) as [(newId & tpl & pr & d & o & ->) | Hns].
  - (* start *)
    cbn in Hstep. destruct (tasks s !! newId) eqn:Hfresh; [done|].
    assert (∀ q, q ∈ pendingQueue s -> qtask q ≠ newId) as Hnew.
    { intros q Hin Heq. pose proof (ok_pending s Hq q Hin) as Hst.
      unfold statusOf in Hst. by rewrite Heq, Hfresh in Hst. }
    assert (newId ∉ launched s) as Hnl.
    { intros Hin. destruct (ok_launched s Hq _ Hin) as (t & Ht & _). congruence. }
    split; try done.
    + unfold RunnerSpec.coreQueue. rewrite sortBy_perm.
      rewrite map_app. cbn. rewrite app_assoc.
      apply NoDup_app. split; [apply Hq|]. split; [|apply NoDup_singleton].
      intros i Hi ->%list_elem_of_singleton.
      apply elem_of_app in Hi as [Hi|Hi]; [done|].
      apply list_elem_of_fmap in Hi as (q & -> & Hin). by eapply Hnew.
    + intros q Hin. unfold RunnerSpec.coreQueue in Hin. rewrite sortBy_perm in Hin.
      apply elem_of_app in Hin as [Hin | ->%list_elem_of_singleton].
      * rewrite lookup_coreTasks_other by (cbn; intros [= ?]; by eapply Hnew).
        pose proof (ok_pending s Hq q Hin) as Hst. unfold statusOf in Hst.
        destruct (tasks s !! qtask q) as [t|]; [|done]. cbn in Hst. simplify_eq. eauto.
      * rewrite lookup_coreTasks_target by done. eauto.
    + apply sortBy_sorted.
  - (* the other operations *)
    assert (∀ q, q ∈ pendingQueue s -> ∀ i r, l = Cancel i r -> qtask q ≠ i ->
              ∃ t0, coreTasks l s !! qtask q = Some t0 ∧ status t0 = queued) as Hcancel.
    { intros q Hin i r -> Hne. rewrite lookup_coreTasks_other by (cbn; congruence).
      pose proof (ok_pending s Hq q Hin) as Hst. unfold statusOf in Hst.
      destruct (tasks s !! qtask q) as [t|]; [|done]. cbn in Hst. simplify_eq. eauto. }
    assert (∀ q, q ∈ pendingQueue s -> (∀ i r, l ≠ Cancel i r) ->
              ∃ t0, coreTasks l s !! qtask q = Some t0 ∧ status t0 = queued) as Hother.
    { intros q Hin Hnc.
      pose proof (ok_pending s Hq q Hin) as Hst. unfold statusOf in Hst.
      destruct (tasks s !! qtask q) as [t|] eqn:Ht; [|done]. cbn in Hst. simplify_eq.
      destruct (decide (target l s = Some (qtask q))) as [Htg|Htg].
      - rewrite lookup_coreTasks_target by done.
        destruct l; try (rewrite Ht; cbn [fmap option_fmap option_map];
                         eexists; split; [done|]; by eapply effect_keeps_queued).
        destruct Hns. eauto 10.
      - rewrite lookup_coreTasks_other by done. eauto. }
    assert (∀ q, q ∈ pendingQueue s ->
              rankIn (coreTasks l s) q = rankIn (tasks s) q) as Hrank.
    { intros q Hin. apply rankIn_coreTasks; [|by eauto].
      pose proof (ok_pending s Hq q Hin) as Hst. unfold statusOf in Hst.
      by destruct (tasks s !! qtask q). }
    assert (StronglySorted (byRank (rankIn (coreTasks l s))) (pendingQueue s)) as Hsorted.
    { eapply StronglySorted_byRank_ext; [|apply Hq]. exact Hrank. }
    destruct (cancel_or_not l) as [(i & r & ->) | Hnc].
    + assert (coreQueue (Cancel i r) s = filter (fun q => qtask q ≠ i) (pendingQueue s)) as Hcq.
      { unfold RunnerSpec.coreQueue. case_bool_decide as Hst; [done|].
        symmetry. apply filter_all. apply Forall_forall. intros q Hin Heq.
        rewrite <- Heq in Hst. by rewrite (ok_pending s Hq q Hin) in Hst. }
      split; try done; rewrite Hcq.
      * pose proof (ok_nodup s Hq) as Hnd.
        apply NoDup_app in Hnd as (Hn1 & Hdis & Hn2).
        apply NoDup_app. split; [done|]. split.
        -- intros k Hk Hin. apply (Hdis k Hk).
           apply list_elem_of_fmap in Hin as (q & -> & Hin).
           apply list_elem_of_filter in Hin as [_ Hin]. by apply list_elem_of_fmap_2.
        -- apply (sublist_NoDup _ (map qtask (pendingQueue s))); try exact Hn2.
           apply fmap_sublist, sublist_filter.
      * intros q [Hne Hin]%list_elem_of_filter. by eapply Hcancel.
      * by apply StronglySorted_filter_byRank.
    + assert (coreQueue l s = pendingQueue s) as Hcq.
      { destruct l; try done; [destruct Hns | destruct Hnc]; eauto 10. }
      split; try done; rewrite Hcq; [apply Hq| |done].
      intros q Hin. apply Hother; [done|]. intros i r ->. destruct Hnc. eauto.
Qed.

Lemma queueOk_init : queueOk init.
Proof.
  split; cbn; try (intros ? H; by inversion H); try constructor.
  intros ? ? H. by inversion H.
Qed.

Lemma queueOk_step l s s' :
  tasksOk s -> queueOk s -> step l s = Some s' -> queueOk s'.
Proof.
  intros Hok Hq Hstep.
  destruct (coreOk_step l s s' Hok Hq Hstep) as [Hnd Hpend Hlaun Hsort Hrun].
  destruct (step_shape cfg sandboxPreviewUrl l s s' Hstep)
    as [(popped & rest & Hcq & Hr & Hl & Ht & Hp & _) _].
  rewrite Hcq in *. rewrite map_app in Hnd.
  assert (∀ i t0, coreTasks l s !! i = Some t0 -> status t0 ≠ queued ->
            ∃ t', tasks s' !! i = Some t' ∧ status t' ≠ queued) as Hkeep.
  { intros i t0 Hi Hne. rewrite Ht.
    destruct (decide (i ∈ map qtask popped)).
    - rewrite lookup_startAll_in, Hi by done. cbn. eauto.
    - rewrite lookup_startAll_notin by done. eauto. }
  assert (∀ q, q ∈ popped -> ∃ t', tasks s' !! qtask q = Some t' ∧ status t' ≠ queued)
    as Hpop.
  { intros q Hin. destruct (Hpend q) as (t0 & Ht0 & _); [apply elem_of_app; by left|].
    rewrite Ht, lookup_startAll_in, Ht0 by by apply list_elem_of_fmap_2.
    cbn. eauto. }
  split.
  - rewrite Hl, Hr. by rewrite <- app_assoc.
  - intros q Hin. rewrite Hr in Hin.
    destruct (Hpend q) as (t0 & Ht0 & Hst); [apply elem_of_app; by right|].
    unfold statusOf. rewrite Ht, lookup_startAll_notin, Ht0; [by cbn; f_equal|].
    apply NoDup_app in Hnd as (_ & _ & Hnd).
    apply NoDup_app in Hnd as (_ & Hdis & _).
    intros Hin'. apply (Hdis _ Hin'). by apply list_elem_of_fmap_2.
  - intros i Hi. rewrite Hl in Hi. apply elem_of_app in Hi as [Hi|Hi].
    + destruct (Hlaun i Hi) as (t0 & Ht0 & Hne). by eapply Hkeep.
    + apply list_elem_of_fmap in Hi as (q & -> & Hin). by apply Hpop.
  - rewrite Hr. apply StronglySorted_app_1_r in Hsort.
    eapply StronglySorted_byRank_ext; [|exact Hsort].
    intros q _. rewrite Ht. apply rankIn_startAll.
  - intros p i Hin Hb. rewrite Hp in Hin. apply elem_of_app in Hin as [Hin|Hin].
    + destruct (Hrun p i Hin Hb) as (t0 & Ht0 & Hne). by eapply Hkeep.
    + apply list_elem_of_fmap in Hin as (q & -> & Hin). cbn in Hb. simplify_eq.
      by apply Hpop.
Qed.

Lemma reachable_queueOk s : reachable s -> tasksOk s ∧ queueOk s.
Proof.
  revert s. apply reachable_ind.
  - split; [apply tasksOk_init | apply queueOk_init].
  - intros l s s' _ [Hok Hq] Hstep.
    split; [by eapply tasksOk_step | by eapply queueOk_step].
Qed.

End QueueInvariant.

(** ** C1: the number of running tasks *)

Section Capacity.

Variable cfg : BgTaskConfig.
Variable sandboxPreviewUrl : option string -> option string.

Abbreviation effect := (effect cfg sandboxPreviewUrl).
Abbreviation coreTasks := (coreTasks cfg sandboxPreviewUrl).
Abbreviation coreProcs := (coreProcs sandboxPreviewUrl).
Abbreviation step := (step cfg sandboxPreviewUrl).
Abbreviation run := (run cfg sandboxPreviewUrl).

Lemma chatProc_settleProc p o s :
  chatProc (settleProc sandboxPreviewUrl p o s) = true -> chatProc p = true.
Proof. unfold settleProc, runNext. repeat case_match; simplify_eq; cbn; congruence. Qed.

(** Chat turns start with [chatAsync] or [chat] only. *)
Lemma noChat_step l s s' :
  chatLabel l = false ->
  (∀ p, p ∈ procs s -> chatProc p = false) ->
  step l s = Some s' ->
  ∀ p, p ∈ procs s' -> chatProc p = false.
Proof.
  intros Hl Hs Hstep p Hp.
  destruct (step_shape cfg sandboxPreviewUrl l s s' Hstep)
    as [(popped & rest & _ & _ & _ & _ & Hps & _) _].
  rewrite Hps in Hp. apply elem_of_app in Hp as [Hp|Hp].
  2:{ by apply list_elem_of_fmap in Hp as (q & -> & _). }
  apply coreProcs_elem in Hp
    as [Hp | [(i & r & _ & -> & _) | [(i & _ & ->) | [(i & m & t & Hlab & _)
        | (pid & o & p0 & _ & Hp0 & ->)]]]]; try done.
  - by apply Hs.
  - destruct Hlab as [[-> _] | [-> _]]; done.
  - apply not_true_is_false. intros Hc%chatProc_settleProc.
    rewrite Hs in Hc; [done|]. by eapply list_elem_of_lookup_2.
Qed.

(** Outside a chat turn no assignment makes a task running. *)
Lemma effect_running l s t :
  chatLabel l = false ->
  (∀ p, p ∈ procs s -> chatProc p = false) ->
  status (effect l s t) = running -> status t = running.
Proof.
  intros Hl Hs.
  destruct l; try done; try (effect_cases; congruence).
  - cbn. destruct (monitors_status (procs s) taskId ev t) as [-> | [_ ->]]; done.
  - unfold RunnerSpec.effect.
    destruct (procs s !! pid) as [p|] eqn:Ep; [|done].
    apply list_elem_of_lookup_2 in Ep. specialize (Hs p Ep).
    destruct p, o; try done; effect_cases; congruence.
Qed.

Lemma runningIn_coreTasks l s s' :
  chatLabel l = false ->
  (∀ p, p ∈ procs s -> chatProc p = false) ->
  step l s = Some s' ->
  runningIn (coreTasks l s) <= runningIn (tasks s).
Proof.
  intros Hl Hs Hstep. apply runningIn_le. intros k t0 Hk Hr.
  destruct (decide (target l s = Some k)) as [Htg|Htg].
  - rewrite lookup_coreTasks_target in Hk by done.
    destruct l; try (destruct (tasks s !! k) as [t|]; [|done]; cbn in Hk; simplify_eq;
                     eexists; split; [done|]; by eapply effect_running).
    all: by simplify_eq.
  - rewrite lookup_coreTasks_other in Hk by done. eauto.
Qed.

(** Every operation but the chat re-entry keeps the bound. *)
Lemma running_bound_step l s s' :
  chatLabel l = false ->
  (∀ p, p ∈ procs s -> chatProc p = false) ->
  step l s = Some s' ->
  runningCount s <= maxConcurrent cfg ->
  runningCount s' <= maxConcurrent cfg.
Proof.
  intros Hl Hs Hstep Hb.
  destruct (step_shape cfg sandboxPreviewUrl l s s' Hstep) as [_ Hcount].
  pose proof (runningIn_coreTasks l s s' Hl Hs Hstep) as Hcore.
  unfold runningCount, runningIn in *. lia.
Qed.

End Capacity.

(** C1, as stated, fails: with [maxConcurrent = 1], task [A] completes and
    keeps its agent, task [B] is started and runs, and [chatAsync] sets [A]
    to running again.  Two tasks are running. *)
Lemma running_bound_counterexample :
  (fun s => (statusOf s "A", statusOf s "B", runningCount s, maxConcurrent oneAtATime))
    <$> run oneAtATime noPreview overCapacity init
  = Some (Some running, Some running, 2, 1).
Proof. vm_compute. reflexivity. Qed.

(** C1 (amended): for every configuration with [maxConcurrent >= 0] and in
    every state reached without a chat re-entry ([chat], [chatAsync]), at
    most [maxConcurrent] tasks are running; every operation other than the
    chat re-entry preserves the bound, [drainQueue] starting a task only
    while fewer than [maxConcurrent] are running.  The chat re-entry sets a
    completed task to running without looking at the bound. *)
Theorem running_bound_without_chat
    (cfg : BgTaskConfig) (sandboxPreviewUrl : option string -> option string)
    (ls : list Label) (s : Runner) :
  0 <= maxConcurrent cfg ->
  Forall (fun l => chatLabel l = false) ls ->
  run cfg sandboxPreviewUrl ls init = Some s ->
  runningCount s <= maxConcurrent cfg.
Proof.
  intros Hmax Hls Hrun.
  cut ((∀ p, p ∈ procs s -> chatProc p = false) ∧ runningCount s <= maxConcurrent cfg);
    [by intros [_ ?]|].
  revert s Hrun. induction ls as [|l ls IH] using rev_ind; intros s Hrun.
  - cbn in Hrun. simplify_eq. split; [intros p Hp; by inversion Hp|].
    by vm_compute.
  - apply Forall_app in Hls as [Hls Hl]. apply Forall_cons in Hl as [Hl _].
    apply run_snoc in Hrun as (s1 & Hs1 & Hstep).
    destruct (IH Hls s1 Hs1) as [Hnc Hb]. split.
    + by eapply noChat_step.
    + by eapply running_bound_step.
Qed.

Lemma running_bound_without_chat_witness :
  match run oneAtATime noPreview
          (runToCompletion "A" 0 None
           ++ [Start "B" "executor" "do it" "another task" None;
               Start "C" "executor" "do it" "a third task" None]) init with
  | Some s => statusOf s "C" = Some queued ∧ runningCount s <= 1
  | None => False
  end.
Proof.
  destruct (run oneAtATime noPreview _ init) as [s|] eqn:E.
  - split.
    + vm_compute in E. by simplify_eq.
    + eapply (running_bound_without_chat oneAtATime noPreview); [| |exact E].
      * vm_compute. discriminate.
      * repeat constructor.
  - vm_compute in E. discriminate.
Defined.

(** ** C7: bg_task_retry *)

Lemma dom_startAll popped (m : gmap string BgTask) :
  dom (startAll popped m) = dom m.
Proof.
  revert m. induction popped as [|q popped IH]; intros m; [done|].
  rewrite startAll_cons, IH. apply dom_alter_L.
Qed.

(** What [start] leaves of the task it creates. *)
Lemma start_creates cfg (sandboxPreviewUrl : option string -> option string) newId templateId prompt description opts s :
  let s' := start cfg newId templateId prompt description opts s in
  dom (tasks s') = {[newId]} ∪ dom (tasks s)
  ∧ (∀ k, k ≠ newId -> static <$> tasks s' !! k = static <$> tasks s !! k)
  ∧ ∃ t, tasks s' !! newId = Some t
       ∧ static t = static (newTask cfg newId templateId prompt description opts)
       ∧ (status t = queued ∨ status t = running).
Proof.
  intros s'.
  destruct (shape_start cfg sandboxPreviewUrl newId templateId prompt description opts s)
    as [(popped & rest & _ & _ & _ & Ht & _ & _) _].
  fold s' in Ht. rewrite Ht. unfold coreTasks. split; [|split].
  - rewrite dom_startAll. apply dom_insert_L.
  - intros k Hk. destruct (decide (k ∈ map qtask popped)) as [Hin|Hin].
    + rewrite lookup_startAll_in, lookup_insert_ne by done.
      by destruct (tasks s !! k).
    + by rewrite lookup_startAll_notin, lookup_insert_ne by done.
  - destruct (decide (newId ∈ map qtask popped)) as [Hin|Hin].
    + rewrite lookup_startAll_in, lookup_insert_eq by done.
      eexists. split; [done|]. split; [done|]. by right.
    + rewrite lookup_startAll_notin, lookup_insert_eq by done.
      eexists. split; [done|]. split; [done|]. by left.
Qed.

(** C7: [bg_task_retry] answers [ok: true] only for a task that is failed or
    cancelled.  It then starts exactly one new task, whose [retryCount] is
    the original's plus one, whose prompt is [modifiedPrompt] if given and
    the original's otherwise, whose priority, resource limits and skills
    are the original's, and whose description is the original's followed by
    [" (retry #N)"] with [N] the new [retryCount].  For a task in another
    status, and for an unknown id, the answer is [ok: false] and the runner
    is left as it was. *)
Theorem bg_task_retry_spec
    (cfg : BgTaskConfig) (sandboxPreviewUrl : option string -> option string)
    (newId taskId : string) (modifiedPrompt : option string) (s : Runner) :
  reachable cfg sandboxPreviewUrl s ->
  tasks s !! newId = None ->
  let r := (bg_task_retry cfg newId taskId modifiedPrompt s).1 in
  let s' := (bg_task_retry cfg newId taskId modifiedPrompt s).2 in
  match tasks s !! taskId with
  | Some task =>
      if bool_decide (status task = failed ∨ status task = cancelled)
      then
        r = RetryOk taskId newId (retryCount task + 1)
              ("任务已重试，新 ID: " +:+ newId)
        ∧ retryOk r = true
        ∧ dom (tasks s') = {[newId]} ∪ dom (tasks s)
        ∧ ∃ t, tasks s' !! newId = Some t
             ∧ retryCount t = (retryCount task + 1)%nat
             ∧ prompt t = default (prompt task) modifiedPrompt
             ∧ priority t = priority task
             ∧ resourceLimits t = resourceLimits task
             ∧ skills t = skills task
             ∧ description t =
                 (description task +:+ " (retry #"
                  +:+ pretty (retryCount task + 1)%nat +:+ ")")%string
             ∧ templateId t = templateId task
             ∧ (status t = queued ∨ status t = running)
      else retryOk r = false ∧ s' = s
  | None => retryOk r = false ∧ s' = s
  end.
Proof.
  intros Hreach Hfresh r s'. subst r s'. unfold bg_task_retry.
  destruct (tasks s !! taskId) as [task|] eqn:Etask; [|done].
  apply reachable_tasksOk in Hreach.
  destruct (ok_limits s Hreach taskId task Etask) as [[mt Hmt] [ms Hms]].
  destruct (status task) eqn:Est; cbn [negb andb bool_decide decide_rel fst snd];
    try (rewrite bool_decide_eq_false_2 by (intros [?|?]; congruence); done).
  all: rewrite bool_decide_eq_true_2 by (first [by left | by right]).
  all: cbn [negb andb fst snd]; rewrite ?bool_decide_eq_true_2 by done;
    rewrite ?bool_decide_eq_false_2 by done; cbn [negb andb fst snd].
  all: split; [done|]; split; [done|].
  all: match goal with |- context [start _ ?a ?b ?c ?d ?e _] =>
         destruct (start_creates cfg sandboxPreviewUrl a b c d e s)
           as (Hdom & _ & t & Ht & Hst & Hstatus) end.
  all: split; [done|]; exists t; split; [done|].
  all: unfold static in Hst; cbn in Hst; simplify_eq.
  all: repeat split; try done.
  all: destruct (resourceLimits task) as [a b c], (resourceLimits t) as [a' b' c'];
    cbn in *; by simplify_eq.
Qed.

Lemma bg_task_retry_spec_witness :
  match run oneAtATime noPreview
          [Start "A" "executor" "do it" "a task" None; Cancel "A" None] init with
  | Some s =>
      tasks s !! "R" = None
      ∧ ∃ t, tasks (bg_task_retry oneAtATime "R" "A" (Some "do it well") s).2 !! "R"
             = Some t
           ∧ retryCount t = 1%nat ∧ prompt t = "do it well"
           ∧ description t = "a task (retry #1)"
  | None => False
  end.
Proof.
  destruct (run oneAtATime noPreview _ init) as [s|] eqn:E.
  - assert (Hreach : reachable oneAtATime noPreview s) by (eexists; exact E).
    assert (Hfresh : tasks s !! "R" = None) by (vm_compute in E; by simplify_eq).
    split; [exact Hfresh|].
    pose proof (bg_task_retry_spec oneAtATime noPreview "R" "A" (Some "do it well") s
                  Hreach Hfresh) as H.
    assert (Htask : ∃ task, tasks s !! "A" = Some task ∧ status task = cancelled
                            ∧ retryCount task = 0%nat ∧ prompt task = "do it"
                            ∧ description task = "a task").
    { vm_compute in E. simplify_eq. eexists. split; [vm_compute; reflexivity|done]. }
    destruct Htask as (task & Etask & Est & Erc & Epr & Ede).
    cbv zeta in H. rewrite Etask, bool_decide_eq_true_2 in H by (by right).
    destruct H as (_ & _ & _ & t & Ht & H1 & H2 & _ & _ & _ & H3 & _).
    exists t. split; [exact Ht|]. rewrite H1, H2, H3, Erc, Ede. done.
  - vm_compute in E. discriminate.
Defined.

(** ** C3: the tool-call limit *)

Section ToolCalls.

Variable cfg : BgTaskConfig.
Variable sandboxPreviewUrl : option string -> option string.

Abbreviation effect := (effect cfg sandboxPreviewUrl).
Abbreviation coreTasks := (coreTasks cfg sandboxPreviewUrl).
Abbreviation coreQueue := (coreQueue cfg sandboxPreviewUrl).
Abbreviation step := (step cfg sandboxPreviewUrl).
Abbreviation run := (run cfg sandboxPreviewUrl).

Lemma limits_static t t' :
  static t' = static t -> resourceLimits t' = resourceLimits t.
Proof. by intros [= _ _ _ _ _ _ _ _ ?]. Qed.

(** The listener of a run keeps a running task below its limit. *)
Lemma monitorT_within p i ev t m :
  chatProc p = false ->
  maxToolCalls (resourceLimits t) = Some m -> 0 < m ->
  (status t = running -> toolCalls (resourceUsage t) < m) ->
  status (monitorT p i ev t) = running ->
  toolCalls (resourceUsage (monitorT p i ev t)) < m.
Proof.
  intros Hp Hm Hpos Ht.
  destruct p; try done; cbn; try (case_match; [|done]).
  destruct ev; cbn; [| |done].
  - unfold reached, failRunning. cbn. rewrite Hm. cbn.
    destruct (m =? 0) eqn:E0; [lia|]. cbn.
    destruct (m <=? toolCalls (resourceUsage t) + 1) eqn:E1.
    + case_bool_decide; cbn; congruence.
    + cbn. lia.
  - unfold reached, failRunning. cbn. repeat case_match; cbn; try congruence; auto.
Qed.

Lemma monitors_within ps i ev t m :
  (∀ p, p ∈ ps -> chatProc p = false) ->
  maxToolCalls (resourceLimits t) = Some m -> 0 < m ->
  (status t = running -> toolCalls (resourceUsage t) < m) ->
  let t' := foldl (fun a p => monitorT p i ev a) t ps in
  status t' = running -> toolCalls (resourceUsage t') < m.
Proof.
  revert t. induction ps as [|p ps IH]; intros t Hps Hm Hpos Ht; [done|].
  cbn. apply IH.
  - intros q Hq. apply Hps. by right.
  - by rewrite (limits_static _ _ (monitorT_static p i ev t)).
  - done.
  - apply monitorT_within; [apply Hps; by left|done..].
Qed.

(** No listener is subscribed for a task without a suspended call. *)
Lemma monitors_idle ps i ev t :
  (∀ p, p ∈ ps -> busyProc p ≠ Some i) ->
  foldl (fun a p => monitorT p i ev a) t ps = t.
Proof.
  induction ps as [|p ps IH]; intros Hps; [done|].
  cbn. assert (monitorT p i ev t = t) as ->.
  { assert (busyProc p ≠ Some i) as Hp by (apply Hps; by left).
    destruct p; try done; cbn in *;
      (destruct (String.eqb_spec taskId i) as [->|]; [done|done]). }
  apply IH. intros q Hq. apply Hps. by right.
Qed.

Lemma effect_usage l s t :
  (∀ i ev, l ≠ AgentEmits i ev) ->
  resourceUsage (effect l s t) = resourceUsage t.
Proof.
  intros Hl. destruct l; try reflexivity; try (effect_cases; reflexivity).
  by destruct (Hl taskId ev).
Qed.

Lemma effect_within l s k t m :
  chatLabel l = false ->
  (∀ p, p ∈ procs s -> chatProc p = false) ->
  tasksOk s -> queueOk s ->
  tasks s !! k = Some t -> target l s = Some k ->
  maxToolCalls (resourceLimits t) = Some m -> 0 < m ->
  withinToolCalls t m -> withinToolCalls (effect l s t) m.
Proof.
  intros Hl Hnc Hok Hq Hk Htg Hm Hpos [Hqueued Hrunning].
  assert ((∃ i ev, l = AgentEmits i ev) ∨ ¬ (∃ i ev, l = AgentEmits i ev))
    as [(i & ev & ->)|Hne]
    by (destruct l; eauto; right; intros (? & ? & ?); discriminate).
  - cbn in Htg. simplify_eq. cbn.
    destruct (decide (status t = queued)) as [Hs|Hs].
    + rewrite monitors_idle; [done|]. intros p Hp Hb.
      destruct (ok_running s Hq p k Hp Hb) as (t1 & Ht1 & Hne). congruence.
    + split.
      * destruct (monitors_status (procs s) k ev t) as [-> | [_ ->]]; done.
      * by apply monitors_within.
  - assert (∀ i ev, l ≠ AgentEmits i ev) as Hl' by (intros i ev ->; eauto).
    split; rewrite effect_usage by done.
    + intros Hs. apply Hqueued. eapply effect_queued; [|done].
      apply (ok_chat_previous s Hok).
    + intros Hs. apply Hrunning. by eapply effect_running.
Qed.

Lemma usageOk_step l s s' :
  chatLabel l = false ->
  (∀ p, p ∈ procs s -> chatProc p = false) ->
  tasksOk s -> queueOk s -> usageOk s ->
  step l s = Some s' -> usageOk s'.
Proof.
  intros Hl Hnc Hok Hq Hu Hstep.
  destruct (coreOk_step cfg sandboxPreviewUrl l s s' Hok Hq Hstep)
    as [_ Hpend _ _ _].
  destruct (step_shape cfg sandboxPreviewUrl l s s' Hstep)
    as [(popped & rest & Hcq & _ & _ & Ht & _ & _) _].
  assert (∀ k t0 m, coreTasks l s !! k = Some t0 ->
            maxToolCalls (resourceLimits t0) = Some m -> 0 < m ->
            withinToolCalls t0 m) as Hcore.
  { intros k t0 m Hk Hm Hpos.
    destruct (decide (target l s = Some k)) as [Htg|Htg].
    - rewrite lookup_coreTasks_target in Hk by done.
      destruct l;
        try (destruct (tasks s !! k) as [t|] eqn:Et; [|done];
             cbn [fmap option_fmap option_map] in Hk; simplify_eq;
             rewrite (limits_static _ _ (effect_static cfg sandboxPreviewUrl _ s t)) in Hm;
             eapply effect_within; eauto).
      all: by simplify_eq.
    - rewrite lookup_coreTasks_other in Hk by done. eauto. }
  intros k t' m Hk Hm Hpos. rewrite Ht in Hk.
  destruct (decide (k ∈ map qtask popped)) as [Hin|Hin].
  - rewrite lookup_startAll_in in Hk by done.
    destruct (coreTasks l s !! k) as [t0|] eqn:E0; [|done]. cbn in Hk. simplify_eq.
    apply list_elem_of_fmap in Hin as (q & -> & Hq0).
    destruct (Hpend q) as (t1 & Ht1 & Hs1).
    { rewrite Hcq. apply elem_of_app. by left. }
    rewrite E0 in Ht1. injection Ht1 as <-.
    destruct (Hcore (qtask q) t0 m E0 Hm Hpos) as [H0 _].
    split; cbn; [done|]. intros _. rewrite H0 by done. done.
  - rewrite lookup_startAll_notin in Hk by done. eauto.
Qed.

Lemma usageOk_run ls s :
  Forall (fun l => chatLabel l = false) ls ->
  run ls init = Some s -> usageOk s.
Proof.
  intros Hls Hrun.
  cut ((∀ p, p ∈ procs s -> chatProc p = false) ∧ usageOk s); [by intros [_ ?]|].
  revert s Hrun. induction ls as [|l ls IH] using rev_ind; intros s Hrun.
  - cbn in Hrun. simplify_eq. split; [intros p Hp; by inversion Hp|].
    intros k t m Hk. by inversion Hk.
  - apply Forall_app in Hls as [Hls Hl]. apply Forall_cons in Hl as [Hl _].
    apply run_snoc in Hrun as (s1 & Hs1 & Hstep).
    destruct (IH Hls s1 Hs1) as [Hnc Hu].
    destruct (reachable_queueOk cfg sandboxPreviewUrl s1) as [Hok Hq]; [by exists ls|].
    split; [by eapply noChat_step | by eapply usageOk_step].
Qed.

End ToolCalls.

(** The listener of a run on the tool call that reaches the limit. *)
Lemma runMonitor_limit k s t m :
  tasks s !! k = Some t -> status t = running ->
  maxToolCalls (resourceLimits t) = Some m -> 0 < m ->
  m <= toolCalls (resourceUsage t) + 1 ->
  let t' := set_error (Some ("资源超限：maxToolCalls ("
                             +:+ pretty (toolCalls (resourceUsage t) + 1)
                             +:+ "/" +:+ pretty m +:+ ")")%string)
              (set_status failed (addToolCall t)) in
  let s' := runMonitor k tool_executed s in
  tasks s' = <[k := t']> (tasks s)
  ∧ updates s' = updates s ++ [t']
  ∧ interrupts s' =
      interrupts s ++ (if hasAgent s k
                       then [(k, "Resource limit exceeded: maxToolCalls"%string)]
                       else []).
Proof.
  intros Hk Hs Hm Hpos Hreach. cbv zeta.
  unfold runMonitor. rsimpl. rewrite lookup_alter_eq, Hk. cbn [fmap option_fmap option_map].
  unfold reached. cbn [resourceLimits resourceUsage addToolCall set_resourceUsage toolCalls].
  rewrite Hm. cbn [nonZero default from_option]. unfold Datatypes.id.
  assert ((m =? 0) = false) as -> by lia.
  assert ((m <=? toolCalls (resourceUsage t) + 1) = true) as -> by lia.
  cbn [negb andb]. unfold handleResourceLimit. rsimpl.
  rewrite lookup_alter_eq, Hk. cbn [fmap option_fmap option_map].
  cbn [status addToolCall set_resourceUsage]. rewrite Hs.
  rewrite bool_decide_eq_true_2 by done. rsimpl.
  rewrite lookup_alter_eq, lookup_alter_eq, Hk. cbn [fmap option_fmap option_map].
  unfold hasAgent. rsimpl.
  assert (alter (fun t0 => set_error
            (Some ("资源超限：" +:+ "maxToolCalls" +:+ " (" +:+
                   pretty (toolCalls (resourceUsage (addToolCall t))) +:+ "/" +:+
                   showNum (maxToolCalls (resourceLimits (addToolCall t))) +:+ ")")%string)
            (set_status failed t0)) k (alter addToolCall k (tasks s))
          = <[k := set_error (Some ("资源超限：maxToolCalls ("
                             +:+ pretty (toolCalls (resourceUsage t) + 1)
                             +:+ "/" +:+ pretty m +:+ ")")%string)
              (set_status failed (addToolCall t))]> (tasks s)) as Halter.
  { rewrite alter_alter_eq. apply map_eq. intros j.
    destruct (decide (j = k)) as [->|Hj].
    - rewrite lookup_alter_eq, lookup_insert_eq, Hk. cbn. rewrite Hm. done.
    - by rewrite lookup_alter_ne, lookup_insert_ne. }
  case_bool_decide; rsimpl; cbn in Halter |- *; rewrite ?Halter.
  all: rewrite ?app_nil_r; repeat split; try done.
  all: cbn; rewrite ?Hm; done.
Qed.

(** C3, as stated, fails on the chat re-entry: the listener [chatAsync]
    subscribes counts the tool calls and tests no limit.  Task [A] has
    [maxToolCalls = 1]; after two tool calls of its chat turn it is running
    with [toolCalls = 2]. *)
Lemma tool_calls_bound_counterexample :
  (fun s => (fun t => (status t, toolCalls (resourceUsage t),
                        maxToolCalls (resourceLimits t))) <$> tasks s !! "A")
    <$> run oneAtATime noPreview chatOverLimit init
  = Some (Some (running, 2, Some 1)).
Proof. vm_compute. reflexivity. Qed.

(** The test [limit && used >= limit] reads a limit of 0 as no limit. *)
Example tool_limit_zero_is_no_limit :
  (fun s => (fun t => (status t, toolCalls (resourceUsage t),
                        maxToolCalls (resourceLimits t))) <$> tasks s !! "A")
    <$> run oneAtATime noPreview
          [Start "A" "executor" "do it" "a task"
             (Some (mkOpts None (Some (mkLimits (Some 0) None None)) None None None));
           Settle 0 Resolved; Settle 0 Resolved; AgentEmits "A" tool_executed] init
  = Some (Some (running, 1, Some 0)).
Proof. vm_compute. reflexivity. Qed.

(** C3 (amended): in every state reached without a chat re-entry, a task
    with a positive limit [maxToolCalls = m] that is queued or running has
    [toolCalls <= m] (a queued one has none, a running one is below [m]);
    and when the [tool_executed] listener of its run makes [toolCalls] reach
    [m], the task becomes failed with the error text naming the count and
    the limit, the update is emitted and the agent, if still registered,
    is interrupted.  The listeners of the chat re-entry only count. *)
Theorem tool_calls_bound_without_chat
    (cfg : BgTaskConfig) (sandboxPreviewUrl : option string -> option string)
    (ls : list Label) (s : Runner) (k : string) (t : BgTask) (m : Z) :
  Forall (fun l => chatLabel l = false) ls ->
  run cfg sandboxPreviewUrl ls init = Some s ->
  tasks s !! k = Some t ->
  maxToolCalls (resourceLimits t) = Some m ->
  0 < m ->
  (status t = queued -> toolCalls (resourceUsage t) = 0)
  ∧ (status t = running -> toolCalls (resourceUsage t) < m)
  ∧ (status t = queued ∨ status t = running -> toolCalls (resourceUsage t) <= m)
  ∧ (status t = running -> toolCalls (resourceUsage t) + 1 = m ->
     let s' := runMonitor k tool_executed s in
     ∃ t', tasks s' !! k = Some t'
       ∧ status t' = failed
       ∧ toolCalls (resourceUsage t') = m
       ∧ error t' = Some ("资源超限：maxToolCalls (" +:+ pretty m +:+ "/"
                          +:+ pretty m +:+ ")")%string
       ∧ updates s' = updates s ++ [t']
       ∧ interrupts s' =
           interrupts s ++ (if hasAgent s k
                            then [(k, "Resource limit exceeded: maxToolCalls"%string)]
                            else [])).
Proof.
  intros Hls Hrun Hk Hm Hpos.
  destruct (usageOk_run cfg sandboxPreviewUrl ls s Hls Hrun k t m Hk Hm Hpos)
    as [Hq Hr].
  split; [done|]. split; [done|]. split.
  - intros [H|H]; [rewrite Hq by done; lia | specialize (Hr H); lia].
  - intros Hs Hreach.
    destruct (runMonitor_limit k s t m Hk Hs Hm Hpos) as (Ht & Hu & Hi); [lia|].
    cbv zeta. eexists. rewrite Ht, lookup_insert_eq. split; [done|].
    rewrite Hu, Hi, Hreach. cbn. rewrite Hreach. done.
Qed.

Lemma tool_calls_bound_without_chat_witness :
  match run oneAtATime noPreview oneToolCall init with
  | Some s =>
      ∃ t, tasks s !! "A" = Some t
        ∧ status t = running
        ∧ toolCalls (resourceUsage t) <= 2
        ∧ status <$> tasks (runMonitor "A" tool_executed s) !! "A" = Some failed
        ∧ interrupts (runMonitor "A" tool_executed s)
          = [("A", "Resource limit exceeded: maxToolCalls")]
  | None => False
  end.
Proof.
  destruct (run oneAtATime noPreview _ init) as [s|] eqn:E.
  - assert (Hs : ∃ t, tasks s !! "A" = Some t ∧ status t = running
                   ∧ maxToolCalls (resourceLimits t) = Some 2
                   ∧ toolCalls (resourceUsage t) + 1 = 2
                   ∧ hasAgent s "A" = true ∧ interrupts s = []).
    { vm_compute in E. simplify_eq. eexists. split; [vm_compute; reflexivity|done]. }
    destruct Hs as (t & Ht & Hst & Hm & Hreach & Hag & Hint).
    destruct (tool_calls_bound_without_chat oneAtATime noPreview oneToolCall s "A" t 2)
      as (_ & _ & Hle & Hfail); [repeat constructor|exact E|exact Ht|exact Hm|lia|].
    destruct (Hfail Hst Hreach) as (t' & Ht' & Hst' & _ & _ & _ & Hint').
    exists t. split; [exact Ht|]. split; [exact Hst|]. split; [apply Hle; by right|].
    split; [by rewrite Ht', <- Hst'|].
    by rewrite Hint', Hint, Hag.
  - vm_compute in E. discriminate.
Defined.

(** ** Pending instructions and calls of [complete] *)

Section Ledger.

Variable cfg : BgTaskConfig.
Variable sandboxPreviewUrl : option string -> option string.

Abbreviation step := (step cfg sandboxPreviewUrl).
Abbreviation run := (run cfg sandboxPreviewUrl).
Abbreviation reachable := (reachable cfg sandboxPreviewUrl).

Lemma sameLedger_refl s : sameLedger s s.
Proof. done. Qed.

Lemma sameLedger_trans s1 s2 s3 :
  sameLedger s1 s2 -> sameLedger s2 s3 -> sameLedger s1 s3.
Proof. unfold sameLedger. intros [-> ->] [-> ->]. done. Qed.

Ltac ledger := unfold sameLedger; rsimpl; repeat case_match; rsimpl; done.

Lemma ledger_dispatchAll popped s : sameLedger s (dispatchAll popped s).
Proof.
  revert s. induction popped as [|q popped IH]; intros s; [done|].
  rewrite dispatchAll_cons. eapply sameLedger_trans; [|apply IH].
  unfold dispatch. ledger.
Qed.

Lemma ledger_drainQueue s : sameLedger s (drainQueue cfg s).
Proof.
  destruct (drainQueue_spec cfg s) as (popped & rest & _ & ->).
  destruct (ledger_dispatchAll popped s) as [H1 H2]. by split.
Qed.

Lemma ledger_handleResourceLimit i ty s : sameLedger s (handleResourceLimit i ty s).
Proof. unfold handleResourceLimit, hasAgent. ledger. Qed.

Lemma ledger_monitorOf p i ev s : sameLedger s (monitorOf p i ev s).
Proof.
  unfold monitorOf, runMonitor, chatMonitor.
  repeat case_match; try done;
    try (eapply sameLedger_trans; [|apply ledger_handleResourceLimit]); ledger.
Qed.

Lemma ledger_agentEmits i ev s : sameLedger s (agentEmits i ev s).
Proof.
  unfold agentEmits. generalize (procs s) as ps. intros ps. revert s.
  induction ps as [|p ps IH]; intros s; [done|].
  cbn [foldl]. eapply sameLedger_trans; [apply ledger_monitorOf | apply IH].
Qed.

Lemma ledger_afterLoop i text s : sameLedger s (afterLoop sandboxPreviewUrl i text s).
Proof. unfold afterLoop. ledger. Qed.

Lemma ledger_catchBlock i err s : sameLedger s (catchBlock i err s).
Proof. unfold catchBlock. ledger. Qed.

Lemma present_afterLoop i text s :
  (is_Some (tasks s !! i) ∧ is_Some (tasks (afterLoop sandboxPreviewUrl i text s) !! i))
  ∨ (tasks s !! i = None ∧ tasks (afterLoop sandboxPreviewUrl i text s) !! i = None).
Proof.
  destruct (shape_afterLoop sandboxPreviewUrl i text s) as [-> _].
  rewrite lookup_alter_eq. destruct (tasks s !! i); cbn; eauto.
Qed.

Lemma present_catchBlock i err s :
  (is_Some (tasks s !! i) ∧ is_Some (tasks (catchBlock i err s) !! i))
  ∨ (tasks s !! i = None ∧ tasks (catchBlock i err s) !! i = None).
Proof.
  destruct (shape_catchBlock i err s) as [-> _].
  rewrite lookup_alter_eq. destruct (tasks s !! i); cbn; eauto.
Qed.

Lemma ledger_announce pid i s : sameLedger s (announce cfg pid i s).
Proof.
  unfold announce. rsimpl. destruct (injectionQueue s); rsimpl; [done|].
  match goal with |- context [drainQueue _ ?s0] =>
    destruct (ledger_drainQueue s0) as [H1 H2] end.
  split; rsimpl; [by rewrite H1 | by rewrite H2].
Qed.

Lemma ledger_inject pid i s : sameLedger s (inject cfg pid i s).
Proof.
  unfold inject. rsimpl.
  match goal with |- context [drainQueue _ ?s0] =>
    destruct (ledger_drainQueue s0) as [H1 H2] end.
  split; rsimpl; [rewrite H1 | rewrite H2]; by destruct (tasks s !! i).
Qed.

Lemma ledger_finallyBlock pid i sub s :
  let s' := finallyBlock cfg pid i sub s in
  pendingMessages s' =
    match tasks s !! i with
    | Some _ => delete i (pendingMessages s)
    | None => pendingMessages s
    end
  ∧ completeCalls s' = completeCalls s.
Proof.
  unfold finallyBlock. rsimpl. destruct (tasks s !! i) as [t|]; [|done].
  destruct (nonEmpty (sandboxUrl t)).
  - match goal with |- context [announce cfg pid i ?s0] =>
      destruct (ledger_announce pid i s0) as [-> ->] end.
    by repeat case_match.
  - by repeat case_match.
Qed.

Lemma ledger_final_catch pid i sub err s :
  let s' := finallyBlock cfg pid i sub (catchBlock i err s) in
  pendingMessages s' =
    match tasks s !! i with
    | Some _ => delete i (pendingMessages s)
    | None => pendingMessages s
    end
  ∧ completeCalls s' = completeCalls s.
Proof.
  cbv zeta. destruct (ledger_catchBlock i err s) as [H1 H2].
  destruct (ledger_finallyBlock pid i sub (catchBlock i err s)) as [-> ->].
  rewrite H1, H2. split; [|done].
  destruct (present_catchBlock i err s) as [[[t ->] [t' ->]] | [-> ->]]; done.
Qed.

Lemma ledger_final_after pid i sub text s :
  let s' := finallyBlock cfg pid i sub (afterLoop sandboxPreviewUrl i text s) in
  pendingMessages s' =
    match tasks s !! i with
    | Some _ => delete i (pendingMessages s)
    | None => pendingMessages s
    end
  ∧ completeCalls s' = completeCalls s.
Proof.
  cbv zeta. destruct (ledger_afterLoop i text s) as [H1 H2].
  destruct (ledger_finallyBlock pid i sub (afterLoop sandboxPreviewUrl i text s))
    as [-> ->].
  rewrite H1, H2. split; [|done].
  destruct (present_afterLoop i text s) as [[[t ->] [t' ->]] | [-> ->]]; done.
Qed.

Lemma ledger_start newId templateId prompt description opts s :
  sameLedger s (start cfg newId templateId prompt description opts s).
Proof.
  unfold start. rsimpl.
  match goal with |- context [drainQueue _ ?s0] =>
    destruct (ledger_drainQueue s0) as [H1 H2] end.
  by split.
Qed.

(** What one transition does to the pending instructions and to the log of
    the calls of [complete]. *)
Lemma step_ledger l s s' :
  step l s = Some s' ->
  pendingMessages s' = corePending l s
  ∧ completeCalls s' = completeCalls s ++ coreCalls l s.
Proof.
  intros Hstep. destruct l; cbn [BgTaskRunner.step corePending coreCalls] in *;
    rewrite ?app_nil_r.
  - by simplify_eq.
  - destruct (tasks s !! newId); simplify_eq. apply ledger_start.
  - simplify_eq. unfold cancel, hasAgent. ledger.
  - simplify_eq. unfold sendMessage. repeat case_match; rsimpl; done.
  - simplify_eq. unfold disposeSandbox. ledger.
  - simplify_eq. unfold disposeAgent. ledger.
  - simplify_eq. unfold chatAsync, chatGuard, chatEnter, statusOf.
    destruct (tasks s !! taskId) as [t|]; [|by rewrite app_nil_r].
    case_bool_decide; cbn [negb andb]; [|by rewrite app_nil_r].
    destruct (hasAgent s taskId); cbn [negb fmap option_fmap option_map];
      rsimpl; [done|by rewrite app_nil_r].
  - simplify_eq. unfold chat, chatGuard, chatEnter, statusOf.
    destruct (tasks s !! taskId) as [t|]; [|by rewrite app_nil_r].
    case_bool_decide; cbn [negb andb]; [|by rewrite app_nil_r].
    destruct (hasAgent s taskId); cbn [negb fmap option_fmap option_map];
      rsimpl; [done|by rewrite app_nil_r].
  - case_bool_decide; simplify_eq. unfold handleIdleTimeout, hasAgent. ledger.
  - simplify_eq. apply ledger_agentEmits.
  - unfold settle in Hstep.
    destruct (procs s !! pid) as [p|]; [|done].
    destruct p, o; simplify_eq; rewrite ?app_nil_r;
      try (unfold agentCreated, cancelInject, chatAsyncDone, chatAsyncFailed,
             chatInject, chatDone, chatFailed, sandboxDisposed; ledger);
      try apply ledger_announce; try apply ledger_inject;
      try (by apply ledger_final_catch); try (by apply ledger_final_after).
    unfold paused. destruct (tasks s !! taskId) as [t|] eqn:Et; [|by rewrite app_nil_r].
    pose proof (ledger_final_after pid taskId true text s) as Hfin.
    cbv zeta in Hfin. rewrite Et in Hfin.
    destruct (settled (status t)); [by rewrite app_nil_r|].
    destruct (pendingMessages s !! taskId) as [m|]; [|by rewrite app_nil_r].
    rsimpl. done.
Qed.

End Ledger.

(** ** C9: the pending instruction of a task *)

Section Pause.

Variable cfg : BgTaskConfig.
Variable sandboxPreviewUrl : option string -> option string.

Abbreviation coreTasks := (coreTasks cfg sandboxPreviewUrl).
Abbreviation coreQueue := (coreQueue cfg sandboxPreviewUrl).
Abbreviation coreProcs := (coreProcs sandboxPreviewUrl).
Abbreviation step := (step cfg sandboxPreviewUrl).
Abbreviation run := (run cfg sandboxPreviewUrl).
Abbreviation reachable := (reachable cfg sandboxPreviewUrl).

Lemma runProc_settleProc p o s i :
  runProc (settleProc sandboxPreviewUrl p o s) = Some i -> runProc p = Some i.
Proof. unfold settleProc, runNext. repeat case_match; simplify_eq; cbn; congruence. Qed.

Lemma runProc_busyProc p i : runProc p = Some i -> busyProc p = Some i.
Proof. by destruct p. Qed.

(** A step starts no run but for the tasks it takes off the queue. *)
Lemma coreProcs_run l s pid p i :
  coreProcs l s !! pid = Some p -> runProc p = Some i ->
  ∃ p0, procs s !! pid = Some p0 ∧ runProc p0 = Some i.
Proof.
  intros Hp Hr.
  assert (∀ extra, (∀ q, q ∈ extra -> runProc q = None) ->
            (procs s ++ extra) !! pid = Some p ->
            ∃ p0, procs s !! pid = Some p0 ∧ runProc p0 = Some i) as Happ.
  { intros extra Hex Hl. apply lookup_app_Some in Hl as [Hl | [_ Hl]]; [eauto|].
    apply list_elem_of_lookup_2, Hex in Hl. congruence. }
  destruct l; cbn in Hp; eauto.
  - eapply Happ; [|done]. intros q. case_match; [|by inversion 1].
    intros ->%list_elem_of_singleton. done.
  - eapply Happ; [|done]. intros q. case_match; [|by inversion 1].
    intros ->%list_elem_of_singleton. done.
  - eapply Happ; [|done]. intros q. unfold chatProcs.
    repeat case_match; try by inversion 1.
    intros ->%list_elem_of_singleton. done.
  - eapply Happ; [|done]. intros q. unfold chatProcs.
    repeat case_match; try by inversion 1.
    intros ->%list_elem_of_singleton. done.
  - destruct (procs s !! pid0) as [p0|] eqn:E0; [|eauto].
    destruct (decide (pid = pid0)) as [->|Hne].
    + rewrite list_lookup_insert_eq in Hp by (by eapply lookup_lt_Some).
      simplify_eq. eauto using runProc_settleProc.
    + rewrite list_lookup_insert_ne in Hp by done. eauto.
Qed.

Lemma procsOk_init : procsOk init.
Proof. split; cbn; intros; by simplify_eq. Qed.

Lemma procsOk_step l s s' :
  tasksOk s -> queueOk s -> procsOk s -> step l s = Some s' -> procsOk s'.
Proof.
  intros Hok Hq [Hla Hun] Hstep.
  destruct (coreOk_step cfg sandboxPreviewUrl l s s' Hok Hq Hstep)
    as [Hnd _ _ _ _].
  destruct (step_shape cfg sandboxPreviewUrl l s s' Hstep)
    as [(popped & rest & Hcq & _ & Hl & _ & Hp & _) _].
  rewrite Hcq, map_app in Hnd.
  assert (∀ pid p i, procs s' !! pid = Some p -> runProc p = Some i ->
            (i ∈ launched s ∧ ∃ p0, procs s !! pid = Some p0 ∧ runProc p0 = Some i)
            ∨ (∃ j q, pid = (length (coreProcs l s) + j)%nat
                      ∧ popped !! j = Some q ∧ qtask q = i)) as Hcases.
  { intros pid p i Hpid Hr. rewrite Hp in Hpid.
    apply lookup_app_Some in Hpid as [Hpid | [Hlen Hpid]].
    - left. destruct (coreProcs_run l s pid p i Hpid Hr) as (p0 & Hp0 & Hr0).
      split; eauto.
    - right. rewrite list_lookup_fmap in Hpid.
      destruct (popped !! (pid - length (coreProcs l s))%nat) as [q|] eqn:Eq; [|done].
      cbn in Hpid. simplify_eq. cbn in Hr. simplify_eq.
      exists (pid - length (coreProcs l s))%nat, q. split; [lia|done]. }
  split.
  - intros pid p i Hpid Hr. rewrite Hl. apply elem_of_app.
    destruct (Hcases pid p i Hpid Hr) as [[Hin _] | (j & q & _ & Hj & <-)]; [by left|].
    right. apply list_elem_of_fmap_2. by eapply list_elem_of_lookup_2.
  - intros pid1 pid2 p1 p2 i H1 H2 Hr1 Hr2.
    apply NoDup_app in Hnd as (_ & Hdis & Hnd2).
    apply NoDup_app in Hnd2 as (Hndp & _ & _).
    destruct (Hcases pid1 p1 i H1 Hr1) as [[Hin1 (q1 & Hq1 & Hrq1)] | (j1 & q1 & -> & Hj1 & E1)],
             (Hcases pid2 p2 i H2 Hr2) as [[Hin2 (q2 & Hq2 & Hrq2)] | (j2 & q2 & -> & Hj2 & E2)].
    + eauto.
    + exfalso. apply (Hdis i Hin1). apply elem_of_app. left.
      rewrite <- E2. apply list_elem_of_fmap_2. by eapply list_elem_of_lookup_2.
    + exfalso. apply (Hdis i Hin2). apply elem_of_app. left.
      rewrite <- E1. apply list_elem_of_fmap_2. by eapply list_elem_of_lookup_2.
    + f_equal. eapply (NoDup_lookup (map qtask popped)); [done| |].
      * rewrite list_lookup_fmap, Hj1. cbn. by rewrite E1.
      * rewrite list_lookup_fmap, Hj2. cbn. by rewrite E2.
Qed.

Lemma reachable_procsOk s : reachable s -> procsOk s.
Proof.
  intros Hr. cut (tasksOk s ∧ queueOk s ∧ procsOk s); [by intros (_ & _ & ?)|].
  revert s Hr. apply reachable_ind.
  - split; [apply tasksOk_init|]. split; [apply queueOk_init | apply procsOk_init].
  - intros l s s' _ (Hok & Hq & Hp) Hstep.
    split; [by eapply tasksOk_step|]. split; [by eapply queueOk_step|].
    by eapply procsOk_step.
Qed.

Lemma reachable_step l s s' : reachable s -> step l s = Some s' -> reachable s'.
Proof. intros [ls Hls] Hstep. exists (ls ++ [l]). apply run_snoc. eauto. Qed.

Lemma reachable_run ls s s' : reachable s -> run ls s = Some s' -> reachable s'.
Proof.
  intros [ls0 Hls] Hrun. exists (ls0 ++ ls). rewrite run_app, Hls. exact Hrun.
Qed.

(** A suspended call changes only when its own promise settles. *)
Lemma procs_other l s s' pid p :
  step l s = Some s' ->
  procs s !! pid = Some p ->
  (∀ o, l ≠ Settle pid o) ->
  procs s' !! pid = Some p.
Proof.
  intros Hstep Hpid Hl.
  destruct (step_shape cfg sandboxPreviewUrl l s s' Hstep)
    as [(popped & rest & _ & _ & _ & _ & Hp & _) _].
  rewrite Hp. apply lookup_app_l_Some.
  destruct l; cbn; try done; try (by apply lookup_app_l_Some).
  destruct (procs s !! pid0) as [p0|] eqn:E0; [|done].
  rewrite list_lookup_insert_ne; [done|]. intros ->. by destruct (Hl o).
Qed.

(** Beside the suspended [complete] of the run of [k], nothing touches the
    pending instruction of [k] or calls its agent. *)
Lemma aside_step k pid p l s s' :
  reachable s ->
  procs s !! pid = Some (PComplete k p) ->
  aside k pid l = true ->
  step l s = Some s' ->
  pendingMessages s' !! k = pendingMessages s !! k
  ∧ callsOf k s' = callsOf k s
  ∧ procs s' !! pid = Some (PComplete k p).
Proof.
  intros Hreach Hpid Ha Hstep.
  pose proof (reachable_procsOk s Hreach) as [_ Hun].
  destruct (step_ledger cfg sandboxPreviewUrl l s s' Hstep) as [Hpm Hcc].
  assert (∀ pid' o p', l = Settle pid' o -> procs s !! pid' = Some p' ->
            runProc p' ≠ Some k) as Hother.
  { intros pid' o p' -> Hp' Hr. cbn in Ha.
    assert (pid' = pid) as -> by (by eapply Hun).
    by rewrite Nat.eqb_refl in Ha. }
  split; [|split].
  - rewrite Hpm. destruct l; try done; cbn in Ha |- *.
    + apply negb_true_iff, String.eqb_neq in Ha.
      repeat case_match; try done. by rewrite lookup_insert_ne.
    + destruct (procs s !! pid0) as [p'|] eqn:Ep; [|done].
      specialize (Hother pid0 o p' eq_refl Ep).
      destruct p', o; try done; destruct (tasks s !! taskId); try done;
        apply lookup_delete_ne; cbn in Hother; congruence.
  - unfold callsOf. rewrite Hcc, filter_app.
    assert (filter (fun c => c.1 = k) (coreCalls l s) = []) as ->;
      [|by rewrite app_nil_r].
    destruct l; try done; cbn in Ha |- *.
    + apply negb_true_iff, String.eqb_neq in Ha.
      repeat case_match; try done. by rewrite filter_cons_False.
    + apply negb_true_iff, String.eqb_neq in Ha.
      repeat case_match; try done. by rewrite filter_cons_False.
    + destruct (procs s !! pid0) as [p'|] eqn:Ep; [|done].
      specialize (Hother pid0 o p' eq_refl Ep).
      destruct p', o; try done; repeat case_match; try done;
        rewrite filter_cons_False; cbn in Hother |- *; congruence.
  - eapply procs_other; [done..|]. intros o ->. cbn in Ha.
    by rewrite Nat.eqb_refl in Ha.
Qed.

Lemma aside_run k pid p ls s s' :
  reachable s ->
  procs s !! pid = Some (PComplete k p) ->
  Forall (fun l => aside k pid l = true) ls ->
  run ls s = Some s' ->
  pendingMessages s' !! k = pendingMessages s !! k
  ∧ callsOf k s' = callsOf k s
  ∧ procs s' !! pid = Some (PComplete k p).
Proof.
  intros Hreach Hpid Hls. revert s Hreach Hpid.
  induction Hls as [|l ls Hl _ IH]; intros s Hreach Hpid Hrun.
  - cbn in Hrun. by simplify_eq.
  - cbn in Hrun. destruct (BgTaskRunner.step cfg sandboxPreviewUrl l s) as [s1|] eqn:Hstep;
      [|done].
    destruct (aside_step k pid p l s s1 Hreach Hpid Hl Hstep) as (H1 & H2 & H3).
    destruct (IH s1) as (H4 & H5 & H6); [by eapply reachable_step|done..|].
    by rewrite H4, H5, H1, H2.
Qed.

Lemma sendMessage_true k m s :
  (sendMessage k m s).1 = true ->
  let s' := (sendMessage k m s).2 in
  step (SendMessage k m) s = Some s'
  ∧ pendingMessages s' = <[k := m]> (pendingMessages s)
  ∧ completeCalls s' = completeCalls s
  ∧ procs s' = procs s
  ∧ interrupts s' = interrupts s ++ [(k, m)]
  ∧ statusOf s k = Some running.
Proof.
  cbn [BgTaskRunner.step]. unfold sendMessage, statusOf.
  destruct (tasks s !! k) as [t|]; [|done].
  destruct (hasAgent s k); [|done]. case_bool_decide as Hs; [|done].
  intros _. cbn. by rewrite Hs.
Qed.

End Pause.

(** C9, as stated, fails when the task is cancelled before the pause is
    seen: both [sendMessage] calls are accepted (their notes are passed to
    [interrupt]), [cancel] follows, and when [complete] returns [paused] the
    loop is left.  [complete] was called with the first prompt only, and the
    second instruction is dropped by the [finally]. *)
Lemma pending_message_counterexample :
  (fun s => (statusOf s "A", map snd (interrupts s), length (callsOf "A" s),
             bool_decide (("A", "second") ∈ completeCalls s),
             pendingMessages s !! "A", procs s !! 0%nat))
    <$> run oneAtATime noPreview cancelledBeforePause init
  = Some (Some cancelled, ["first"; "second"; "Task cancelled by orchestrator"],
          1%nat, false, None, Some (PRunDispose "A")).
Proof. vm_compute. reflexivity. Qed.

(** C9 (amended): one instruction is stored per task.  While the run of
    task [k] is suspended in a call of [complete], let [sendMessage k m1]
    and later [sendMessage k m2] both return true, with any transitions in
    between and after that are not a further [sendMessage] to [k], a chat
    turn with [k] or the return of that call.  Then [m1] is pending after
    the first call and [m2] after the second; and if the task is still
    running when [complete] returns [paused], the loop calls [complete] once
    more, with [m2], and clears the slot: from the first [sendMessage] on,
    [m2] is the only input passed to the agent, and a next pause without a
    new instruction leaves the loop. *)
Theorem pending_message_overwritten
    (cfg : BgTaskConfig) (sandboxPreviewUrl : option string -> option string)
    (k m1 m2 p0 : string) (pid : nat) (text : option string)
    (ls1 ls2 : list Label) (s0 s2 s4 : Runner) :
  reachable cfg sandboxPreviewUrl s0 ->
  procs s0 !! pid = Some (PComplete k p0) ->
  (sendMessage k m1 s0).1 = true ->
  Forall (fun l => aside k pid l = true) ls1 ->
  run cfg sandboxPreviewUrl ls1 (sendMessage k m1 s0).2 = Some s2 ->
  (sendMessage k m2 s2).1 = true ->
  Forall (fun l => aside k pid l = true) ls2 ->
  run cfg sandboxPreviewUrl ls2 (sendMessage k m2 s2).2 = Some s4 ->
  statusOf s4 k = Some running ->
  pendingMessages s2 !! k = Some m1
  ∧ pendingMessages s4 !! k = Some m2
  ∧ callsOf k s4 = callsOf k s0
  ∧ ∃ s5, step cfg sandboxPreviewUrl (Settle pid (CompletePaused text)) s4 = Some s5
      ∧ completeCalls s5 = completeCalls s4 ++ [(k, m2)]
      ∧ callsOf k s5 = callsOf k s0 ++ [(k, m2)]
      ∧ procs s5 !! pid = Some (PComplete k m2)
      ∧ pendingMessages s5 !! k = None
      ∧ ∀ text' s6,
          step cfg sandboxPreviewUrl (Settle pid (CompletePaused text')) s5 = Some s6 ->
          completeCalls s6 = completeCalls s5
          ∧ ∀ m, procs s6 !! pid ≠ Some (PComplete k m).
Proof.
  intros Hreach Hpid Hsent1 Hls1 Hrun1 Hsent2 Hls2 Hrun2 Hrunning.
  destruct (sendMessage_true cfg sandboxPreviewUrl k m1 s0 Hsent1)
    as (Hstep1 & Hpm1 & Hcc1 & Hp1 & _ & _).
  assert (reachable cfg sandboxPreviewUrl (sendMessage k m1 s0).2) as Hreach1
    by (by eapply reachable_step).
  destruct (aside_run cfg sandboxPreviewUrl k pid p0 ls1 _ s2 Hreach1) as (Hpm2 & Hcc2 & Hp2);
    [by rewrite Hp1|done..|].
  assert (reachable cfg sandboxPreviewUrl s2) as Hreach2 by (by eapply reachable_run).
  destruct (sendMessage_true cfg sandboxPreviewUrl k m2 s2 Hsent2)
    as (Hstep3 & Hpm3 & Hcc3 & Hp3 & _ & _).
  assert (reachable cfg sandboxPreviewUrl (sendMessage k m2 s2).2) as Hreach3
    by (by eapply reachable_step).
  destruct (aside_run cfg sandboxPreviewUrl k pid p0 ls2 _ s4 Hreach3) as (Hpm4 & Hcc4 & Hp4);
    [by rewrite Hp3|done..|].
  assert (pendingMessages s4 !! k = Some m2) as Hm2
    by (by rewrite Hpm4, Hpm3, lookup_insert_eq).
  assert (callsOf k s4 = callsOf k s0) as Hcalls.
  { rewrite Hcc4. unfold callsOf. rewrite Hcc3. fold (callsOf k s2).
    rewrite Hcc2. unfold callsOf. by rewrite Hcc1. }
  split; [by rewrite Hpm2, Hpm1, lookup_insert_eq|].
  split; [done|]. split; [done|].
  unfold statusOf in Hrunning.
  destruct (tasks s4 !! k) as [t|] eqn:Et; [|done]. cbn in Hrunning. simplify_eq.
  eexists. split.
  { cbn [step]. unfold settle. rewrite Hp4. unfold paused.
    rewrite Et, Hrunning, Hm2. cbn [settled]. reflexivity. }
  rsimpl. split; [done|]. split.
  { unfold callsOf. rsimpl. rewrite filter_app. fold (callsOf k s4).
    rewrite Hcalls. by rewrite filter_cons_True. }
  split.
  { apply list_lookup_insert_eq. by eapply lookup_lt_Some. }
  split; [apply lookup_delete_eq|].
  intros text' s6 Hstep6.
  match type of Hstep6 with step _ _ _ ?s5 = _ => set (s5' := s5) in * end.
  assert (procs s5' !! pid = Some (PComplete k m2)) as Hp5.
  { unfold s5'. rsimpl. apply list_lookup_insert_eq. by eapply lookup_lt_Some. }
  assert (pendingMessages s5' !! k = None) as Hpm5.
  { unfold s5'. rsimpl. apply lookup_delete_eq. }
  assert (tasks s5' !! k = Some t) as Et5 by (unfold s5'; rsimpl; done).
  destruct (step_ledger cfg sandboxPreviewUrl _ _ _ Hstep6) as [_ Hcc6].
  split.
  - rewrite Hcc6. cbn [coreCalls]. rewrite Hp5, Et5, Hpm5.
    destruct (settled (status t)); by rewrite app_nil_r.
  - intros m Hm.
    destruct (step_shape cfg sandboxPreviewUrl _ _ _ Hstep6)
      as [(popped & rest & _ & _ & _ & _ & Hp6 & _) _].
    rewrite Hp6 in Hm. cbn [coreProcs] in Hm. rewrite Hp5 in Hm.
    rewrite lookup_app_l in Hm
      by (rewrite length_insert; by eapply lookup_lt_Some).
    rewrite list_lookup_insert_eq in Hm by (by eapply lookup_lt_Some).
    cbn [settleProc] in Hm. rewrite Et5, Hpm5 in Hm. unfold runNext in Hm.
    repeat case_match; simplify_eq.
Qed.

Lemma pending_message_overwritten_witness :
  match run oneAtATime noPreview inFirstComplete init with
  | Some s0 =>
      let s2 := (sendMessage "A" "first" s0).2 in
      match run oneAtATime noPreview [AgentEmits "A" tool_executed; Cancel "B" None]
              (sendMessage "A" "second" s2).2 with
      | Some s4 =>
          pendingMessages s2 !! "A" = Some "first"
          ∧ pendingMessages s4 !! "A" = Some "second"
          ∧ ∃ s5, step oneAtATime noPreview (Settle 0 (CompletePaused None)) s4 = Some s5
              ∧ callsOf "A" s5 = callsOf "A" s0 ++ [("A", "second")]
      | None => False
      end
  | None => False
  end.
Proof.
  destruct (run oneAtATime noPreview inFirstComplete init) as [s0|] eqn:E0;
    [|vm_compute in E0; discriminate].
  cbv zeta.
  destruct (run oneAtATime noPreview _ (sendMessage "A" "second" _).2) as [s4|] eqn:E4.
  - assert (Hfacts : procs s0 !! 0%nat
                     = Some (PComplete "A" (promptWithContext "A" "do it"))
                   ∧ (sendMessage "A" "first" s0).1 = true
                   ∧ (sendMessage "A" "second" (sendMessage "A" "first" s0).2).1 = true).
    { vm_compute in E0. simplify_eq. vm_compute. done. }
    destruct Hfacts as (Hp & Hs1 & Hs2).
    assert (Hrunning : statusOf s4 "A" = Some running).
    { vm_compute in E0. simplify_eq. vm_compute in E4. simplify_eq. vm_compute. done. }
    assert (Hreach : reachable oneAtATime noPreview s0) by (by exists inFirstComplete).
    assert (Hnone : Forall (fun l => aside "A" 0 l = true) []) by constructor.
    assert (Hsome : Forall (fun l => aside "A" 0 l = true)
                      [AgentEmits "A" tool_executed; Cancel "B" None])
      by (repeat constructor).
    destruct (pending_message_overwritten oneAtATime noPreview "A" "first" "second"
                (promptWithContext "A" "do it") 0 None []
                [AgentEmits "A" tool_executed; Cancel "B" None]
                s0 (sendMessage "A" "first" s0).2 s4
                Hreach Hp Hs1 Hnone eq_refl Hs2 Hsome E4 Hrunning)
      as (H1 & H2 & _ & s5 & H3 & _ & H4 & _).
    split; [exact H1|]. split; [exact H2|]. exists s5. split; [exact H3|exact H4].
  - vm_compute in E0. by simplify_eq.
Defined.

(** ** C6: the order of dispatch *)

Section Before.

Context {A : Type}.

Lemma before_split (x y : A) l1 l2 : x ∈ l1 -> before x y (l1 ++ y :: l2).
Proof.
  intros (m1 & m2 & ->)%list_elem_of_split. unfold before.
  rewrite <- app_assoc. apply sublist_inserts_l. cbn.
  apply sublist_skip, sublist_inserts_l, sublist_skip, sublist_nil_l.
Qed.

Lemma before_split_r (x y : A) l1 l2 : y ∈ l2 -> before x y (l1 ++ x :: l2).
Proof.
  intros (m1 & m2 & ->)%list_elem_of_split. unfold before.
  apply sublist_inserts_l, sublist_skip, sublist_inserts_l, sublist_skip, sublist_nil_l.
Qed.

Lemma before_mono (x y : A) l k : l `sublist_of` k -> before x y l -> before x y k.
Proof. unfold before. intros H1 H2. by etrans. Qed.

Lemma sublist_filter_mono (P : A -> Prop) `{∀ a, Decision (P a)} (l k : list A) :
  l `sublist_of` k -> filter P l `sublist_of` filter P k.
Proof.
  induction 1 as [|x l k _ IH|x l k _ IH].
  - constructor.
  - rewrite !filter_cons. destruct (decide (P x)); [by constructor|done].
  - rewrite filter_cons. destruct (decide (P x)); [by constructor|done].
Qed.

Lemma before_filter (P : A -> Prop) `{∀ a, Decision (P a)} (x y : A) l :
  P x -> P y -> before x y l -> before x y (filter P l).
Proof.
  intros Hx Hy Hb. apply (sublist_filter_mono P) in Hb.
  by rewrite filter_cons_True, filter_cons_True in Hb.
Qed.

(** What is dispatched is dispatched before what waits. *)
Lemma before_prefix (x y : A) l1 l2 :
  NoDup (l1 ++ l2) -> before x y (l1 ++ l2) -> y ∈ l1 -> before x y l1.
Proof.
  intros Hnd Hb Hy. apply sublist_app_r in Hb as (k1 & k2 & Hk & H1 & H2).
  apply NoDup_app in Hnd as (_ & Hdis & _).
  destruct k1 as [|a [|b k1]]; cbn in Hk; simplify_eq.
  - exfalso. apply (Hdis y Hy). apply (sublist_subseteq _ _ H2). set_solver.
  - exfalso. apply (Hdis y Hy). apply (sublist_subseteq _ _ H2). set_solver.
  - destruct k1; [|done]. done.
Qed.

Variable rank : A -> Z.

Lemma sorted_before (x y : A) l :
  StronglySorted (byRank rank) l -> x ∈ l -> y ∈ l -> rank x < rank y ->
  before x y l.
Proof.
  intros Hs Hx Hy Hlt. apply list_elem_of_split in Hy as (l1 & l2 & ->).
  apply before_split. apply elem_of_app in Hx as [Hx|Hx]; [done|].
  apply StronglySorted_app_1_r in Hs. inversion Hs as [|? ? _ Hall]; subst.
  apply elem_of_cons in Hx as [->|Hx]; [lia|].
  rewrite Forall_forall in Hall. specialize (Hall x Hx). unfold byRank in Hall. lia.
Qed.

End Before.

Section Order.

Variable cfg : BgTaskConfig.
Variable sandboxPreviewUrl : option string -> option string.

Abbreviation coreTasks := (coreTasks cfg sandboxPreviewUrl).
Abbreviation coreQueue := (coreQueue cfg sandboxPreviewUrl).
Abbreviation step := (step cfg sandboxPreviewUrl).
Abbreviation run := (run cfg sandboxPreviewUrl).
Abbreviation reachable := (reachable cfg sandboxPreviewUrl).

Lemma before_fmap {A B} (f : A -> B) (x y : A) l :
  before x y l -> before (f x) (f y) (map f l).
Proof. unfold before. intros H. by apply (fmap_sublist f) in H. Qed.

Lemma filter_qtask (P : string -> Prop) `{∀ i, Decision (P i)} (q : list QueuedTask) :
  map qtask (filter (fun x => P (qtask x)) q) = filter P (map qtask q).
Proof.
  induction q as [|x q IH]; [done|].
  cbn [map]. rewrite !filter_cons. destruct (decide (P (qtask x))); cbn; by rewrite IH.
Qed.

(** [drainQueue] takes the tasks off the head of the queue, in order. *)
Lemma dispatchOrder_step l s s' :
  step l s = Some s' ->
  dispatchOrder s' = launched s ++ map qtask (coreQueue l s).
Proof.
  intros Hstep.
  destruct (step_shape cfg sandboxPreviewUrl l s s' Hstep)
    as [(popped & rest & -> & Hr & Hl & _) _].
  unfold dispatchOrder. by rewrite Hl, Hr, map_app, app_assoc.
Qed.

Lemma rank_queued l s q :
  queueOk s -> is_Some (step l s) -> q ∈ pendingQueue s ->
  rankIn (coreTasks l s) q = rankIn (tasks s) q.
Proof.
  intros Hq Hen Hin. apply rankIn_coreTasks; [|done].
  pose proof (ok_pending s Hq q Hin) as Hst. unfold statusOf in Hst.
  by destruct (tasks s !! qtask q).
Qed.

(** Where [start] puts the new entry. *)
Lemma start_queue newId templateId prompt description opts s s' :
  let l := Start newId templateId prompt description opts in
  queueOk s -> step l s = Some s' ->
  ∃ l1 l2, pendingQueue s = l1 ++ l2
    ∧ coreQueue l s = l1 ++ mkQueued newId prompt :: l2
    ∧ Forall (fun a => rankIn (tasks s) a
                       <= PRIORITY_ORDER (default normal (opts ≫= optPriority))) l1
    ∧ Forall (fun b => PRIORITY_ORDER (default normal (opts ≫= optPriority))
                       < rankIn (tasks s) b) l2.
Proof.
  intros l Hq Hstep.
  assert (StronglySorted (byRank (rankIn (coreTasks l s))) (pendingQueue s)) as Hsorted.
  { eapply StronglySorted_byRank_ext; [|apply Hq].
    intros q Hin. by apply rank_queued. }
  destruct (sortBy_snoc (rankIn (coreTasks l s)) (pendingQueue s) (mkQueued newId prompt) Hsorted)
    as (l1 & l2 & Hsplit & Hsort & H1 & H2).
  assert (rankIn (coreTasks l s) (mkQueued newId prompt)
          = PRIORITY_ORDER (default normal (opts ≫= optPriority))) as Hnew.
  { unfold rankIn, RunnerSpec.coreTasks, l. cbn [qtask]. by rewrite lookup_insert_eq. }
  rewrite Hnew in H1, H2.
  exists l1, l2. split; [done|]. split; [exact Hsort|].
  rewrite Forall_forall in H1, H2.
  split; apply Forall_forall; intros q Hin;
    rewrite <- (rank_queued l s q) by (rewrite ?Hsplit, ?elem_of_app; eauto); auto.
Qed.

Lemma rankIn_task s q t :
  tasks s !! qtask q = Some t -> rankIn (tasks s) q = PRIORITY_ORDER (priority t).
Proof. unfold rankIn. by intros ->. Qed.

Lemma order_step l s s' a b :
  queueOk s -> step l s = Some s' ->
  before a b (dispatchOrder s) ->
  (∀ r, l ≠ Cancel a r) -> (∀ r, l ≠ Cancel b r) ->
  before a b (dispatchOrder s').
Proof.
  intros Hq Hstep Hb Ha Hbb. rewrite (dispatchOrder_step l s s' Hstep).
  destruct (start_or_not l) as [(newId & tpl & pr & d & o & ->) | Hns].
  - destruct (start_queue newId tpl pr d o s s' Hq Hstep) as (l1 & l2 & Hsplit & -> & _).
    eapply before_mono; [|exact Hb]. unfold dispatchOrder. rewrite Hsplit.
    apply sublist_app; [done|]. rewrite !map_app. apply sublist_app; [done|].
    cbn. by apply sublist_cons.
  - destruct (cancel_or_not l) as [(i & r & ->) | Hnc].
    + unfold RunnerSpec.coreQueue. case_bool_decide; [|done].
      assert (a ≠ i) as Hai by (intros ->; by destruct (Ha r)).
      assert (b ≠ i) as Hbi by (intros ->; by destruct (Hbb r)).
      pose proof (filter_qtask (fun j => j ≠ i) (pendingQueue s)) as Hf.
      cbn beta in Hf. rewrite Hf.
      apply (before_filter (fun j => j ≠ i)) in Hb; [|done..].
      unfold dispatchOrder in Hb. rewrite filter_app in Hb.
      eapply before_mono; [|exact Hb].
      apply sublist_app; [apply sublist_filter|done].
    + assert (coreQueue l s = pendingQueue s) as ->; [|done].
      destruct l; try done; [destruct Hns | destruct Hnc]; eauto 10.
Qed.

Lemma order_run ls s s' a b :
  reachable s -> run ls s = Some s' ->
  before a b (dispatchOrder s) ->
  Forall (fun l => ∀ r, l ≠ Cancel a r ∧ l ≠ Cancel b r) ls ->
  before a b (dispatchOrder s').
Proof.
  intros Hreach Hrun Hb Hls. revert s Hreach Hrun Hb.
  induction Hls as [|l ls Hl _ IH]; intros s Hreach Hrun Hb.
  - cbn in Hrun. by simplify_eq.
  - cbn in Hrun.
    destruct (BgTaskRunner.step cfg sandboxPreviewUrl l s) as [s1|] eqn:Hstep; [|done].
    apply (IH s1); [by eapply reachable_step | done |].
    destruct (reachable_queueOk cfg sandboxPreviewUrl s Hreach) as [_ Hq].
    eapply order_step; [done..| |]; intros r; by destruct (Hl r).
Qed.

End Order.

(** C6: the waiting tasks are dispatched by priority, and in the order of
    their [start] within one priority.  In every reachable state a waiting
    task of higher priority ([high] before [normal] before [low]) stands
    before every waiting task of lower priority.  [drainQueue] takes the
    tasks off the head of the queue, so that the order of dispatch is the
    dispatched tasks followed by the queue; a step never swaps two tasks in
    it (a cancelled task leaves it).  [start] puts the new task behind every
    waiting task of the same or a higher priority and ahead of the others.
    So of two tasks in this order the second is never dispatched first. *)
Theorem dispatch_by_priority_then_fifo
    (cfg : BgTaskConfig) (sandboxPreviewUrl : option string -> option string)
    (s : Runner) :
  reachable cfg sandboxPreviewUrl s ->
  PRIORITY_ORDER high < PRIORITY_ORDER normal < PRIORITY_ORDER low
  ∧ (∀ a b ta tb,
       a ∈ map qtask (pendingQueue s) -> b ∈ map qtask (pendingQueue s) ->
       tasks s !! a = Some ta -> tasks s !! b = Some tb ->
       PRIORITY_ORDER (priority ta) < PRIORITY_ORDER (priority tb) ->
       before a b (map qtask (pendingQueue s)))
  ∧ (∀ l s', step cfg sandboxPreviewUrl l s = Some s' ->
       (∃ popped,
          coreQueue cfg sandboxPreviewUrl l s = popped ++ pendingQueue s'
          ∧ launched s' = launched s ++ map qtask popped)
       ∧ (∀ a b, before a b (dispatchOrder s) ->
            (∀ r, l ≠ Cancel a r) -> (∀ r, l ≠ Cancel b r) ->
            before a b (dispatchOrder s'))
       ∧ (∀ b templateId prompt description opts a ta,
            l = Start b templateId prompt description opts ->
            a ∈ map qtask (pendingQueue s) -> tasks s !! a = Some ta ->
            if decide (PRIORITY_ORDER (priority ta)
                       <= PRIORITY_ORDER (default normal (opts ≫= optPriority)))
            then before a b (dispatchOrder s')
            else before b a (dispatchOrder s')))
  ∧ (∀ ls s' a b,
       run cfg sandboxPreviewUrl ls s = Some s' ->
       before a b (dispatchOrder s) ->
       Forall (fun l => ∀ r, l ≠ Cancel a r ∧ l ≠ Cancel b r) ls ->
       before a b (dispatchOrder s')
       ∧ (b ∈ launched s' -> before a b (launched s'))).
Proof.
  intros Hreach.
  destruct (reachable_queueOk cfg sandboxPreviewUrl s Hreach) as [Hok Hq].
  split; [done|]. split; [|split].
  - intros a b ta tb Ha Hb Hta Htb Hlt.
    apply list_elem_of_fmap in Ha as (qa & -> & Ha).
    apply list_elem_of_fmap in Hb as (qb & -> & Hb).
    apply before_fmap.
    apply (sorted_before (rankIn (tasks s))); [apply Hq|done..|].
    by rewrite (rankIn_task s qa ta), (rankIn_task s qb tb).
  - intros l s' Hstep. split; [|split].
    + destruct (step_shape cfg sandboxPreviewUrl l s s' Hstep)
        as [(popped & rest & Hcq & Hr & Hl & _) _].
      exists popped. by rewrite Hr.
    + intros a b. by apply (order_step cfg sandboxPreviewUrl).
    + intros b templateId prompt description opts a ta -> Ha Hta.
      rewrite (dispatchOrder_step _ _ _ _ _ Hstep).
      destruct (start_queue cfg sandboxPreviewUrl b templateId prompt description opts s s'
                  Hq Hstep) as (l1 & l2 & Hsplit & -> & H1 & H2).
      apply list_elem_of_fmap in Ha as (qa & -> & Ha).
      rewrite Forall_forall in H1, H2.
      rewrite Hsplit in Ha. rewrite map_app. cbn [map qtask].
      destruct (decide _) as [Hle|Hgt].
      * apply before_mono with (map qtask l1 ++ b :: map qtask l2);
          [by apply sublist_inserts_l|].
        apply before_split. apply elem_of_app in Ha as [Ha|Ha].
        -- by apply list_elem_of_fmap_2.
        -- specialize (H2 qa Ha). rewrite (rankIn_task s qa ta) in H2 by done. lia.
      * apply before_mono with (map qtask l1 ++ b :: map qtask l2);
          [by apply sublist_inserts_l|].
        apply before_split_r. apply elem_of_app in Ha as [Ha|Ha].
        -- specialize (H1 qa Ha). rewrite (rankIn_task s qa ta) in H1 by done. lia.
        -- by apply list_elem_of_fmap_2.
  - intros ls s' a b Hrun Hb Hls.
    assert (before a b (dispatchOrder s')) as Hb'
      by (by eapply (order_run cfg sandboxPreviewUrl)).
    split; [done|]. intros Hin.
    assert (reachable cfg sandboxPreviewUrl s') as Hreach' by (by eapply reachable_run).
    destruct (reachable_queueOk cfg sandboxPreviewUrl s' Hreach') as [_ Hq'].
    eapply before_prefix; [apply (ok_nodup s' Hq')|done..].
Qed.

Lemma dispatch_by_priority_then_fifo_witness :
  match run oneAtATime noPreview fourWaiting init with
  | Some s =>
      map qtask (pendingQueue s) = ["D"; "C"; "E"; "B"]
      ∧ before "D" "B" (map qtask (pendingQueue s))
  | None => False
  end.
Proof.
  destruct (run oneAtATime noPreview fourWaiting init) as [s|] eqn:E.
  - assert (Hs : map qtask (pendingQueue s) = ["D"; "C"; "E"; "B"]
               ∧ priority <$> tasks s !! "D" = Some high
               ∧ priority <$> tasks s !! "B" = Some low).
    { vm_compute in E. simplify_eq. vm_compute. done. }
    destruct Hs as (Hqueue & Hd & Hb). split; [exact Hqueue|].
    assert (Hreach : reachable oneAtATime noPreview s) by (exists fourWaiting; exact E).
    clear E.
    destruct (tasks s !! "D") as [td|] eqn:Etd; [|discriminate Hd].
    destruct (tasks s !! "B") as [tb|] eqn:Etb; [|discriminate Hb].
    cbn in Hd, Hb. injection Hd as Hd. injection Hb as Hb.
    destruct (dispatch_by_priority_then_fifo oneAtATime noPreview s Hreach)
      as (_ & Hprio & _).
    apply (Hprio "D" "B" td tb).
    + rewrite Hqueue. apply list_elem_of_In. cbn. tauto.
    + rewrite Hqueue. apply list_elem_of_In. cbn. tauto.
    + exact Etd.
    + exact Etb.
    + rewrite Hd, Hb. reflexivity.
  - vm_compute in E. discriminate E.
Defined.

(** ** C4: cancelling a task that waits *)

Section CancelQueued.

Variable cfg : BgTaskConfig.
Variable sandboxPreviewUrl : option string -> option string.

Abbreviation effect := (effect cfg sandboxPreviewUrl).
Abbreviation coreTasks := (coreTasks cfg sandboxPreviewUrl).
Abbreviation coreQueue := (coreQueue cfg sandboxPreviewUrl).
Abbreviation coreProcs := (coreProcs sandboxPreviewUrl).
Abbreviation step := (step cfg sandboxPreviewUrl).
Abbreviation run := (run cfg sandboxPreviewUrl).
Abbreviation reachable := (reachable cfg sandboxPreviewUrl).

Lemma listening_busy p i : listening p = Some i -> busyProc p = Some i.
Proof. by destruct p. Qed.

Lemma monitors_quiet ps i ev t :
  (∀ p, p ∈ ps -> listening p ≠ Some i) ->
  foldl (fun a p => monitorT p i ev a) t ps = t.
Proof.
  induction ps as [|p ps IH]; intros Hps; [done|].
  cbn. assert (monitorT p i ev t = t) as ->.
  { assert (listening p ≠ Some i) as Hp by (apply Hps; by left).
    destruct p; try done; cbn in *;
      (destruct (String.eqb_spec taskId i) as [->|]; [done|done]). }
  apply IH. intros q Hq. apply Hps. by right.
Qed.

(** The entries of the queue after the assignments of a step. *)
Lemma coreQueue_elem l s q :
  q ∈ coreQueue l s ->
  q ∈ pendingQueue s
  ∨ ∃ templateId prompt description opts,
      l = Start (qtask q) templateId prompt description opts.
Proof.
  unfold RunnerSpec.coreQueue. destruct l; auto.
  - rewrite sortBy_perm. intros [H | ->%list_elem_of_singleton]%elem_of_app; [auto|].
    right. cbn. eauto.
  - case_bool_decide; [|auto]. intros [_ Hin]%list_elem_of_filter. auto.
Qed.

(** Where a suspended call at work on [k] comes from. *)
Lemma coreProcs_busy l s pid p k :
  coreProcs l s !! pid = Some p -> busyProc p = Some k ->
  (∃ p0, procs s !! pid = Some p0 ∧ busyProc p0 = Some k
         ∧ (p = p0 ∨ ∃ o, l = Settle pid o ∧ p = settleProc sandboxPreviewUrl p0 o s))
  ∨ (∃ r, l = Cancel k r ∧ statusOf s k = Some queued
          ∧ pid = length (procs s) ∧ p = PCancelImport k)
  ∨ (∃ m t, (l = ChatAsync k m ∨ l = Chat k m)
            ∧ tasks s !! k = Some t ∧ agentAlive t = Some true).
Proof.
  intros Hp Hb.
  assert (∀ extra, (procs s ++ extra) !! pid = Some p ->
            (∃ p0, procs s !! pid = Some p0 ∧ busyProc p0 = Some k
                   ∧ (p = p0 ∨ ∃ o, l = Settle pid o
                                    ∧ p = settleProc sandboxPreviewUrl p0 o s))
            ∨ (p ∈ extra ∧ (length extra ≤ 1 -> pid = length (procs s)))%nat) as Happ.
  { intros extra Hl. apply lookup_app_Some in Hl as [Hl | [Hge Hl]]; [eauto 10|].
    right. split; [by eapply list_elem_of_lookup_2|].
    intros Hlen. apply lookup_lt_Some in Hl. lia. }
  destruct l as [| |i r| |i|i|i m|i m|i|i ev|pid0 o]; cbn in Hp; eauto 10.
  - destruct (Happ _ Hp) as [H|[H Hpid]]; [auto|]. right. left.
    destruct (bool_decide _ && _) eqn:Hc; [|by inversion H].
    apply list_elem_of_singleton in H as ->. cbn in Hb. simplify_eq.
    apply andb_prop in Hc as [Hq _]. apply bool_decide_eq_true_1 in Hq.
    exists r. split; [done|]. split; [done|]. split; [by apply Hpid|done].
  - destruct (Happ _ Hp) as [H|[H _]]; [auto|].
    case_bool_decide; [|by inversion H].
    apply list_elem_of_singleton in H as ->. done.
  - destruct (Happ _ Hp) as [H|[H _]]; [auto|]. right. right.
    unfold chatProcs in H. destruct (tasks s !! i) as [t|] eqn:E; [|by inversion H].
    destruct (bool_decide _ && _) eqn:Hc; [|by inversion H].
    apply list_elem_of_singleton in H as ->. cbn in Hb. simplify_eq.
    apply andb_prop in Hc as [Ha _]. apply bool_decide_eq_true_1 in Ha. eauto 10.
  - destruct (Happ _ Hp) as [H|[H _]]; [auto|]. right. right.
    unfold chatProcs in H. destruct (tasks s !! i) as [t|] eqn:E; [|by inversion H].
    destruct (bool_decide _ && _) eqn:Hc; [|by inversion H].
    apply list_elem_of_singleton in H as ->. cbn in Hb. simplify_eq.
    apply andb_prop in Hc as [Ha _]. apply bool_decide_eq_true_1 in Ha. eauto 10.
  - destruct (procs s !! pid0) as [p0|] eqn:E0; [|eauto 10].
    destruct (decide (pid = pid0)) as [->|Hne].
    + rewrite list_lookup_insert_eq in Hp by (by eapply lookup_lt_Some).
      simplify_eq. left. exists p0. split; [done|].
      split; [by eapply busyProc_settleProc | eauto].
    + rewrite list_lookup_insert_ne in Hp by done. eauto 10.
Qed.

(** A step enqueues for [k] only when an import of a call at work on [k]
    resolves. *)
Lemma items_other l s s' k :
  tasksOk s -> step l s = Some s' ->
  (∀ pid p, l = Settle pid Resolved -> procs s !! pid = Some p ->
            busyProc p ≠ Some k) ->
  itemsOf k s' = itemsOf k s.
Proof.
  intros Hok Hstep Hno.
  destruct (step_shape cfg sandboxPreviewUrl l s s' Hstep)
    as [(popped & rest & _ & _ & _ & _ & _ & Hi) _].
  unfold itemsOf. rewrite Hi, filter_app.
  assert (filter (fun it => metaTaskId it = k) (coreInjected l s) = []) as ->;
    [|by rewrite app_nil_r].
  destruct l as [| | | | | | | | | |pid o]; try done. destruct o; try done. cbn.
  destruct (procs s !! pid) as [p|] eqn:Ep; [|done].
  specialize (Hno pid p eq_refl Ep).
  destruct p; try done; cbn in Hno |- *;
    (destruct (tasks s !! taskId) as [t|] eqn:Et; [|done]); cbn;
    rewrite (ok_id s Hok taskId t Et); rewrite decide_False by congruence; done.
Qed.

(** A cancelled task without a live agent, with no listener and no run, is
    left as it is. *)
Lemma effect_dead l s k t :
  status t = cancelled -> agentAlive t ≠ Some true ->
  (∀ pid p, procs s !! pid = Some p -> busyProc p = Some k -> p = PCancelImport k) ->
  target l s = Some k ->
  (∀ newId templateId prompt description opts,
     l ≠ Start newId templateId prompt description opts) ->
  status (effect l s t) = cancelled
  ∧ cancelReason (effect l s t) = cancelReason t
  ∧ agentAlive (effect l s t) ≠ Some true.
Proof.
  intros Hs Ha Hprocs Htg Hns.
  destruct l as [|newId tpl pr d o|i r| |i|i|i m|i m|i|i ev|pid o]; try done.
  - cbn. unfold cancelT. by rewrite Hs.
  - cbn. by destruct (hasAgent s i).
  - cbn. unfold chatT. by rewrite bool_decide_eq_false_2.
  - cbn. unfold chatT. by rewrite bool_decide_eq_false_2.
  - cbn. unfold failRunning. rewrite bool_decide_eq_false_2 by congruence. done.
  - cbn in Htg. simplify_eq. cbn. rewrite monitors_quiet; [done|].
    intros p Hp Hl. apply list_elem_of_lookup in Hp as [pid Hpid].
    rewrite (Hprocs pid p Hpid (listening_busy p k Hl)) in Hl. done.
  - cbn in Htg. destruct (procs s !! pid) as [p|] eqn:Ep; [|done]. cbn in Htg.
    unfold RunnerSpec.effect. rewrite Ep.
    destruct (busyProc p) as [j|] eqn:Hb.
    + pose proof (busyProc_procTask p j Hb) as Hj. simplify_eq.
      rewrite (Hprocs pid p Ep Hb). by destruct o.
    + pose proof (procTask_not_busy p k Htg Hb) as ->. by destruct o.
Qed.

Lemma cancelledWhileQueued_step l s s' k reason pid :
  tasksOk s -> queueOk s ->
  cancelledWhileQueued k reason pid s ->
  step l s = Some s' ->
  cancelledWhileQueued k reason pid s'.
Proof.
  intros Hok Hq [(t & Ht & Hst & Hre & Hag) Hqueue Hlaunched Hprocs Hitems] Hstep.
  destruct (step_shape cfg sandboxPreviewUrl l s s' Hstep)
    as [(popped & rest & Hcq & Hr & Hl & Htasks & Hp & Hi) _].
  assert (∀ newId templateId prompt description opts,
            l = Start newId templateId prompt description opts -> newId ≠ k) as Hfresh.
  { intros newId tpl pr d o -> ->. cbn in Hstep. by rewrite Ht in Hstep. }
  assert (k ∉ map qtask (coreQueue l s)) as Hcore.
  { intros (q & Hk & Hin)%list_elem_of_fmap.
    apply coreQueue_elem in Hin as [Hin | (tpl & pr & d & o & Hs)].
    - apply Hqueue. rewrite Hk. by apply list_elem_of_fmap_2.
    - by eapply Hfresh. }
  assert (k ∉ map qtask popped) as Hpopped.
  { intros Hin. apply Hcore. rewrite Hcq, map_app. apply elem_of_app. by left. }
  assert (∀ pid' p, procs s !! pid' = Some p -> busyProc p = Some k -> p = PCancelImport k)
    as Honly by (intros pid' p H1 H2; by destruct (Hprocs pid' p H1 H2)).
  assert (∀ pid' p, procs s' !! pid' = Some p -> busyProc p = Some k ->
            pid' = pid ∧ p = PCancelImport k) as Hprocs'.
  { intros pid' p Hpid Hb. rewrite Hp in Hpid.
    apply lookup_app_Some in Hpid as [Hpid | [_ Hpid]].
    - destruct (coreProcs_busy l s pid' p k Hpid Hb)
        as [(p0 & Hp0 & Hb0 & Hcase) | [(r & -> & Hsq & _) | (m & t1 & _ & Ht1 & Ha1)]].
      + destruct (Hprocs pid' p0 Hp0 Hb0) as [-> ->].
        destruct Hcase as [-> | (o & -> & ->)]; [done|].
        destruct o; cbn in Hb |- *; done.
      + unfold statusOf in Hsq. rewrite Ht in Hsq. cbn in Hsq. congruence.
      + congruence.
    - apply list_elem_of_lookup_2, list_elem_of_fmap in Hpid as (q & -> & Hin).
      cbn in Hb. simplify_eq. destruct Hpopped. by apply list_elem_of_fmap_2. }
  assert (∀ o, l = Settle pid o -> o = Resolved ∧ procs s !! pid = Some (PCancelImport k))
    as Hsettle.
  { intros o ->. cbn in Hstep. unfold settle in Hstep.
    destruct Hitems as [[Hpid _] | [Hpid _]]; rewrite Hpid in Hstep; by destruct o. }
  split.
  - rewrite Htasks, lookup_startAll_notin by done.
    destruct (decide (target l s = Some k)) as [Htg|Htg].
    + rewrite lookup_coreTasks_target by done.
      destruct (effect_dead l s k t Hst Hag Honly Htg) as (H1 & H2 & H3).
      { intros newId tpl pr d o ->. cbn in Htg. simplify_eq.
        by eapply Hfresh. }
      destruct l; try (rewrite Ht; cbn [fmap option_fmap option_map];
                       eexists; split; [done|]; split; [done|]; split; [congruence|done]).
      cbn in Htg. simplify_eq. by destruct (Hfresh _ _ _ _ _ eq_refl).
    + rewrite lookup_coreTasks_other by done. eauto 10.
  - rewrite Hr. intros Hin. apply Hcore. rewrite Hcq, map_app. apply elem_of_app. by right.
  - rewrite Hl. intros [Hin|Hin]%elem_of_app; done.
  - exact Hprocs'.
  - assert ((∃ o, l = Settle pid o) ∨ ¬ (∃ o, l = Settle pid o)) as [[o ->]|Hns].
    { destruct l as [| | | | | | | | | |pid0 o];
        try (right; intros [? ?]; discriminate).
      destruct (decide (pid0 = pid)) as [->|Hne]; [eauto|].
      right. intros [? ?]. congruence. }
    + destruct (Hsettle o eq_refl) as [-> Hpid].
      destruct Hitems as [[_ Hnone] | [Hdone _]]; [|congruence].
      right. split.
      * rewrite Hp. cbn [RunnerSpec.coreProcs]. rewrite Hpid.
        rewrite lookup_app_l by (rewrite length_insert; by eapply lookup_lt_Some).
        rewrite list_lookup_insert_eq by (by eapply lookup_lt_Some). done.
      * unfold itemsOf in *. rewrite Hi, filter_app, Hnone. cbn [coreInjected].
        rewrite Hpid, Ht. cbn [itemOf app].
        rewrite filter_cons_True by (cbn; by apply (ok_id s Hok)).
        eexists. split; [done|done].
    + assert (itemsOf k s' = itemsOf k s) as Hsame.
      { apply (items_other l s s' k Hok Hstep).
        intros pid' p -> Hpid' Hb. destruct (Hprocs pid' p Hpid' Hb) as [-> _].
        destruct Hns. eauto. }
      assert (∀ p, procs s !! pid = Some p -> procs s' !! pid = Some p) as Hkeep.
      { intros p Hpid. eapply procs_other; [done..|]. intros o ->. destruct Hns. eauto. }
      rewrite Hsame. destruct Hitems as [[Hpid Hnone] | [Hpid Hone]]; [left|right]; auto.
Qed.

Lemma cancelledWhileQueued_run ls s s' k reason pid :
  reachable s ->
  cancelledWhileQueued k reason pid s ->
  run ls s = Some s' ->
  cancelledWhileQueued k reason pid s'.
Proof.
  revert s. induction ls as [|l ls IH]; intros s Hreach Hc Hrun.
  - cbn in Hrun. by simplify_eq.
  - cbn in Hrun.
    destruct (BgTaskRunner.step cfg sandboxPreviewUrl l s) as [s1|] eqn:Hstep; [|done].
    destruct (reachable_queueOk cfg sandboxPreviewUrl s Hreach) as [Hok Hq].
    apply (IH s1); [by eapply reachable_step | by eapply cancelledWhileQueued_step | done].
Qed.

(** A task is queued only while it is in the queue. *)
Lemma queued_waits_step l s s' :
  tasksOk s -> queueOk s ->
  (∀ k t, tasks s !! k = Some t -> status t = queued -> k ∈ map qtask (pendingQueue s)) ->
  step l s = Some s' ->
  ∀ k t, tasks s' !! k = Some t -> status t = queued -> k ∈ map qtask (pendingQueue s').
Proof.
  intros Hok Hq Hw Hstep k t' Hk Hs.
  destruct (step_shape cfg sandboxPreviewUrl l s s' Hstep)
    as [(popped & rest & Hcq & Hr & _ & Htasks & _ & _) _].
  rewrite Htasks in Hk.
  assert (k ∉ map qtask popped) as Hpopped.
  { intros Hin. rewrite lookup_startAll_in in Hk by done.
    destruct (coreTasks l s !! k); cbn in Hk; by simplify_eq. }
  rewrite lookup_startAll_notin in Hk by done.
  cut (k ∈ map qtask (coreQueue l s)).
  { rewrite Hcq, map_app, Hr. intros [?|?]%elem_of_app; done. }
  destruct (start_or_not l) as [(newId & tpl & pr & d & o & ->) | Hns].
  - unfold RunnerSpec.coreQueue. rewrite sortBy_perm, map_app. apply elem_of_app.
    destruct (decide (k = newId)) as [->|Hne]; [right; cbn; set_solver|left].
    rewrite lookup_coreTasks_other in Hk by (cbn; congruence). eauto.
  - assert (∃ t, tasks s !! k = Some t ∧ status t = queued
                 ∧ (∀ r, l ≠ Cancel k r ∨ False)) as (t & Ht & Hst & Hnc).
    { destruct (decide (target l s = Some k)) as [Htg|Htg].
      - rewrite lookup_coreTasks_target in Hk by done.
        destruct l;
          try (destruct (tasks s !! k) as [t|] eqn:Et; [|done];
               cbn [fmap option_fmap option_map] in Hk; simplify_eq;
               exists t; split; [done|]; split;
               [eapply effect_queued; [apply (ok_chat_previous s Hok)|done]|];
               intros r; left; discriminate).
        all: try (cbn in Htg; discriminate).
        all: try (destruct Hns; by eauto 10).
        destruct (tasks s !! k) as [t|] eqn:Et; [|done].
        cbn [fmap option_fmap option_map] in Hk. simplify_eq.
        assert (status t = queued) as Hst
          by (eapply effect_queued; [apply (ok_chat_previous s Hok)|done]).
        cbn in Hs. unfold cancelT in Hs. rewrite Hst in Hs. done.
      - rewrite lookup_coreTasks_other in Hk by done. exists t'.
        split; [done|]. split; [done|]. intros r. left. intros ->. by destruct Htg. }
    specialize (Hw k t Ht Hst).
    destruct (cancel_or_not l) as [(i & r & ->) | Hnl].
    + unfold RunnerSpec.coreQueue. case_bool_decide; [|done].
      apply list_elem_of_fmap in Hw as (q & -> & Hin).
      apply list_elem_of_fmap_2, list_elem_of_filter. split; [|done].
      intros <-. destruct (Hnc r) as [H1|[]]. by destruct H1.
    + assert (coreQueue l s = pendingQueue s) as ->; [|done].
      destruct l; try done; [destruct Hns | destruct Hnl]; eauto 10.
Qed.

Lemma reachable_queued_waits s k t :
  reachable s -> tasks s !! k = Some t -> status t = queued ->
  k ∈ map qtask (pendingQueue s).
Proof.
  intros Hreach. revert k t.
  cut (tasksOk s ∧ queueOk s
       ∧ ∀ k t, tasks s !! k = Some t -> status t = queued ->
                k ∈ map qtask (pendingQueue s)); [by intros (_ & _ & ?)|].
  revert s Hreach. apply reachable_ind.
  - split; [apply tasksOk_init|]. split; [apply queueOk_init|]. intros k t H. by inversion H.
  - intros l s s' _ (Hok & Hq & Hw) Hstep.
    split; [by eapply tasksOk_step|]. split; [by eapply queueOk_step|].
    by eapply queued_waits_step.
Qed.

(** Nothing is enqueued for a task that still waits. *)
Lemma items_known_step l s s' :
  tasksOk s -> queueOk s ->
  (∀ it, it ∈ injected s ->
     ∃ t, tasks s !! metaTaskId it = Some t ∧ status t ≠ queued) ->
  step l s = Some s' ->
  ∀ it, it ∈ injected s' ->
    ∃ t, tasks s' !! metaTaskId it = Some t ∧ status t ≠ queued.
Proof.
  intros Hok Hq Hknown Hstep it Hin.
  assert (∀ i t, tasks s !! i = Some t -> status t ≠ queued ->
            ∃ t', tasks s' !! i = Some t' ∧ status t' ≠ queued) as Hkeep.
  { intros i t Hi Hne.
    destruct (core_not_queued cfg sandboxPreviewUrl l s s' i t Hok Hstep Hi Hne)
      as (t0 & Ht0 & Hne0).
    destruct (step_shape cfg sandboxPreviewUrl l s s' Hstep)
      as [(popped & rest & _ & _ & _ & -> & _ & _) _].
    destruct (decide (i ∈ map qtask popped)).
    - rewrite lookup_startAll_in, Ht0 by done. cbn. eauto.
    - rewrite lookup_startAll_notin by done. eauto. }
  destruct (step_shape cfg sandboxPreviewUrl l s s' Hstep)
    as [(popped & rest & _ & _ & _ & _ & _ & Hi) _].
  rewrite Hi in Hin. apply elem_of_app in Hin as [Hin|Hin].
  - destruct (Hknown it Hin) as (t & Ht & Hne). eauto.
  - destruct l as [| | | | | | | | | |pid o]; try by inversion Hin.
    destruct o; try by inversion Hin. cbn in Hin.
    destruct (procs s !! pid) as [p|] eqn:Ep; [|by inversion Hin].
    assert (∀ i build ty, busyProc p = Some i ->
              it ∈ itemOf build ty (tasks s !! i) ->
              ∃ t', tasks s' !! metaTaskId it = Some t' ∧ status t' ≠ queued) as Hitem.
    { intros i build ty Hb Hit.
      destruct (tasks s !! i) as [t|] eqn:Et; [|by inversion Hit].
      apply list_elem_of_singleton in Hit as ->. cbn.
      rewrite (ok_id s Hok i t Et).
      destruct (ok_running s Hq p i (list_elem_of_lookup_2 _ _ _ Ep) Hb)
        as (t1 & Ht1 & Hne). simplify_eq. eauto. }
    destruct p; try (by inversion Hin); by eapply Hitem.
Qed.

Lemma reachable_items_known s it :
  reachable s -> it ∈ injected s ->
  ∃ t, tasks s !! metaTaskId it = Some t ∧ status t ≠ queued.
Proof.
  intros Hreach. revert it.
  cut (tasksOk s ∧ queueOk s
       ∧ ∀ it, it ∈ injected s ->
           ∃ t, tasks s !! metaTaskId it = Some t ∧ status t ≠ queued);
    [by intros (_ & _ & ?)|].
  revert s Hreach. apply reachable_ind.
  - split; [apply tasksOk_init|]. split; [apply queueOk_init|]. intros it H. by inversion H.
  - intros l s s' _ (Hok & Hq & Hw) Hstep.
    split; [by eapply tasksOk_step|]. split; [by eapply queueOk_step|].
    by eapply items_known_step.
Qed.

Lemma queued_no_items s k t :
  reachable s -> tasks s !! k = Some t -> status t = queued -> itemsOf k s = [].
Proof.
  intros Hreach Hk Hs. unfold itemsOf.
  destruct (filter _ _) as [|it rest] eqn:E; [done|].
  assert (it ∈ filter (fun it => metaTaskId it = k) (injected s)) as Hin
    by (rewrite E; by left).
  apply list_elem_of_filter in Hin as [Hid Hin].
  destruct (reachable_items_known s it Hreach Hin) as (t1 & Ht1 & Hne).
  rewrite Hid in Ht1. congruence.
Qed.

End CancelQueued.

Lemma alter_present {B} (f : B -> B) (m : gmap string B) k x :
  m !! k = Some x -> alter f k m = <[k := f x]> m.
Proof.
  intros Hk. apply map_eq. intros j. destruct (decide (j = k)) as [->|Hne].
  - by rewrite lookup_alter_eq, lookup_insert_eq, Hk.
  - by rewrite lookup_alter_ne, lookup_insert_ne.
Qed.

(** C4, as stated, fails on a runner that was given no injection queue:
    with [A] in the only slot and [B] waiting, [cancel] of [B] answers true
    and cancels it, but no call stays suspended for [B] and nothing is
    enqueued. *)
Lemma cancel_without_queue_counterexample :
  (fun s =>
     let s1 := (cancel "B" (Some "not needed") s).2 in
     (statusOf s "B", injectionQueue s, (cancel "B" (Some "not needed") s).1,
      statusOf s1 "B", map qtask (pendingQueue s1), procs s1, injected s1))
    <$> run oneAtATime noPreview twoStarted init
  = Some (Some queued, false, true, Some cancelled, [],
          [PSandboxCreate "A" "do it"], []).
Proof. vm_compute. reflexivity. Qed.

(** C4 (amended).  [cancel] on a task that waits returns true, takes the
    task out of the queue (the other entries stay), sets its status to
    cancelled and its [cancelReason] to the reason given, and emits the
    update.  Without an injection queue that is all.  With an injection queue
    set, the call then waits for its import, and whatever happens next, the
    task stays cancelled with that reason, is never dispatched and never
    queued again, and one item is enqueued for it, of type [task_cancelled],
    when the import resolves: none before, none after.  On a task that is
    completed, failed or cancelled, [cancel] returns false and leaves the
    runner as it is. *)
Theorem cancel_queued_task
    (cfg : BgTaskConfig) (sandboxPreviewUrl : option string -> option string)
    (s : Runner) (k : string) (reason : option string) (t : BgTask) :
  reachable cfg sandboxPreviewUrl s ->
  tasks s !! k = Some t ->
  (status t = queued ->
     let t' := set_cancelReason reason (set_status cancelled t) in
     let s1 := (cancel k reason s).2 in
     let pid := length (procs s) in
     (cancel k reason s).1 = true
     ∧ (∀ interrupted, cancelSettles k reason interrupted s = Fulfils true)
     ∧ k ∈ map qtask (pendingQueue s)
     ∧ pendingQueue s1 = filter (fun q => qtask q ≠ k) (pendingQueue s)
     ∧ (k ∉ map qtask (pendingQueue s1))
     ∧ tasks s1 = <[k := t']> (tasks s)
     ∧ updates s1 = updates s ++ [t']
     ∧ launched s1 = launched s
     ∧ (k ∉ launched s)
     ∧ injected s1 = injected s
     ∧ itemsOf k s1 = []
     ∧ (injectionQueue s = false -> procs s1 = procs s)
     ∧ (injectionQueue s = true ->
        procs s1 = procs s ++ [PCancelImport k]
        ∧ ∀ ls s2, run cfg sandboxPreviewUrl ls s1 = Some s2 ->
            cancelledWhileQueued k reason pid s2
            ∧ (procs s2 !! pid = Some (PCancelImport k) ->
               ∃ s3 it,
                 step cfg sandboxPreviewUrl (Settle pid Resolved) s2 = Some s3
                 ∧ injected s3 = injected s2 ++ [it]
                 ∧ metaTaskId it = k ∧ metaType it = task_cancelled
                 ∧ itemsOf k s3 = [it])))
  ∧ (terminal (status t) = true ->
     cancel k reason s = (false, s)
     ∧ ∀ interrupted, cancelSettles k reason interrupted s = Fulfils false).
Proof.
  intros Hreach Ht. split; cycle 1.
  { intros Hterm. unfold cancel, cancelSettles. rewrite Ht.
    by destruct (status t). }
  intros Hst.
  destruct (reachable_queueOk cfg sandboxPreviewUrl s Hreach) as [Hok Hq].
  assert (k ∉ launched s) as Hnl.
  { intros Hin. destruct (ok_launched s Hq k Hin) as (t1 & Ht1 & Hne). congruence. }
  assert (∀ pid p, procs s !! pid = Some p -> busyProc p ≠ Some k) as Hidle.
  { intros pid p Hp Hb.
    destruct (ok_running s Hq p k (list_elem_of_lookup_2 _ _ _ Hp) Hb)
      as (t1 & Ht1 & Hne). congruence. }
  set (base := onUpdate k (modTask k (fun t => set_cancelReason reason (set_status cancelled t))
                 (set_pendingQueue (filter (fun q => qtask q ≠ k) (pendingQueue s)) s))).
  assert ((cancel k reason s).2
          = if injectionQueue s then spawn (PCancelImport k) base else base) as Hs1.
  { unfold cancel, base. rewrite Ht, Hst. cbn [snd]. rsimpl.
    by destruct (injectionQueue s). }
  assert (BgTaskRunner.step cfg sandboxPreviewUrl (Cancel k reason) s
          = Some (cancel k reason s).2) as Hstep by done.
  cbv zeta. rewrite Hs1 in Hstep |- *. clear Hs1.
  set (t' := set_cancelReason reason (set_status cancelled t)).
  match type of Hstep with _ = Some ?x => set (s1 := x) in * end.
  assert (tasks s1 = <[k := t']> (tasks s)) as Htasks.
  { unfold s1, base. destruct (injectionQueue s); rsimpl;
      by apply (alter_present (fun t => set_cancelReason reason (set_status cancelled t))). }
  assert (injected s1 = injected s) as Hinjected
    by (unfold s1, base; destruct (injectionQueue s); by rsimpl).
  assert (pendingQueue s1 = filter (fun q => qtask q ≠ k) (pendingQueue s)) as Hqueue
    by (unfold s1, base; destruct (injectionQueue s); by rsimpl).
  assert (launched s1 = launched s) as Hlaunched
    by (unfold s1, base; destruct (injectionQueue s); by rsimpl).
  assert (itemsOf k s1 = []) as Hitems.
  { unfold itemsOf. rewrite Hinjected.
    by apply (queued_no_items cfg sandboxPreviewUrl s k t). }
  assert (k ∉ map qtask (pendingQueue s1)) as Hout.
  { rewrite Hqueue. intros (q & Hk & Hin)%list_elem_of_fmap.
    apply list_elem_of_filter in Hin as [Hne _]. congruence. }
  split; [unfold cancel; by rewrite Ht, Hst|].
  split; [intros interrupted; unfold cancelSettles; by rewrite Ht, Hst|].
  split; [by eapply reachable_queued_waits|].
  split; [done|]. split; [done|]. split; [done|].
  split; [unfold s1, base; destruct (injectionQueue s); rsimpl;
          rewrite lookup_alter_eq, Ht; done|].
  split; [done|]. split; [done|]. split; [done|]. split; [done|].
  split; [intros Hinj; unfold s1, base; rewrite Hinj; by rsimpl|].
  intros Hinj.
  assert (procs s1 = procs s ++ [PCancelImport k]) as Hprocs
    by (unfold s1, base; rewrite Hinj; by rsimpl).
  split; [done|].
  intros ls s2 Hrun.
  assert (cancelledWhileQueued k reason (length (procs s)) s1) as Hdead.
  { split.
    - exists t'. rewrite Htasks, lookup_insert_eq. split; [done|].
      split; [done|]. split; [done|]. cbn. by apply (ok_queued_agent s Hok k t).
    - done.
    - by rewrite Hlaunched.
    - intros pid p Hp Hb. rewrite Hprocs in Hp.
      apply lookup_app_Some in Hp as [Hp | [Hlen Hp]]; [by destruct (Hidle pid p Hp)|].
      destruct (pid - length (procs s))%nat as [|n] eqn:En; cbn in Hp; [|done].
      simplify_eq. split; [lia|done].
    - left. split; [|done]. rewrite Hprocs, lookup_app_r by lia.
      by rewrite Nat.sub_diag. }
  assert (reachable cfg sandboxPreviewUrl s1) as Hreach1 by (by eapply reachable_step).
  assert (cancelledWhileQueued k reason (length (procs s)) s2) as Hdead2
    by (by eapply cancelledWhileQueued_run).
  split; [done|]. intros Hpid.
  destruct Hdead2 as [(t2 & Ht2 & _) _ _ _ Hitems2].
  destruct Hitems2 as [[_ Hnone] | [Hdone _]]; [|congruence].
  assert (reachable cfg sandboxPreviewUrl s2) as Hreach2 by (by eapply reachable_run).
  pose proof (reachable_tasksOk cfg sandboxPreviewUrl s2 Hreach2) as Hok2.
  eexists _, (mkItem (buildMessage t2) (id t2) task_cancelled).
  split.
  { cbn [BgTaskRunner.step]. unfold settle. rewrite Hpid. reflexivity. }
  unfold cancelInject, itemsOf. rewrite Ht2. rsimpl.
  split; [done|]. split; [by apply (ok_id s2 Hok2)|]. split; [done|].
  rewrite filter_app. fold (itemsOf k s2). rewrite Hnone.
  rewrite filter_cons_True by (cbn; by apply (ok_id s2 Hok2)). done.
Qed.

Lemma cancel_queued_task_witness :
  match run oneAtATime noPreview oneWaiting init with
  | Some s =>
      statusOf s "B" = Some queued
      ∧ (cancel "B" (Some "not needed") s).1 = true
      ∧ ("B" ∉ map qtask (pendingQueue (cancel "B" (Some "not needed") s).2))
      ∧ procs (cancel "B" (Some "not needed") s).2
        = procs s ++ [PCancelImport "B"]
  | None => False
  end.
Proof.
  destruct (run oneAtATime noPreview oneWaiting init) as [s|] eqn:E;
    [|vm_compute in E; discriminate E].
  assert (Hreach : reachable oneAtATime noPreview s) by (exists oneWaiting; exact E).
  assert (Hs : ∃ t, tasks s !! "B" = Some t ∧ status t = queued
                    ∧ injectionQueue s = true).
  { vm_compute in E. injection E as <-. eexists. split; [vm_compute; reflexivity|].
    split; reflexivity. }
  clear E. destruct Hs as (t & Ht & Hst & Hinj).
  destruct (cancel_queued_task oneAtATime noPreview s "B" (Some "not needed") t
              Hreach Ht) as [H _].
  specialize (H Hst). cbv zeta in H.
  destruct H as (H1 & _ & _ & _ & H2 & _ & _ & _ & _ & _ & _ & _ & H3).
  destruct (H3 Hinj) as [H4 _].
  split; [unfold statusOf; rewrite Ht; cbn; by rewrite Hst|].
  split; [exact H1|]. split; [exact H2|exact H4].
Defined.

(** ** C5: the announcements *)

Section Announce.

Variable cfg : BgTaskConfig.
Variable sandboxPreviewUrl : option string -> option string.

Abbreviation effect := (effect cfg sandboxPreviewUrl).
Abbreviation coreTasks := (coreTasks cfg sandboxPreviewUrl).
Abbreviation coreQueue := (coreQueue cfg sandboxPreviewUrl).
Abbreviation coreProcs := (coreProcs sandboxPreviewUrl).
Abbreviation step := (step cfg sandboxPreviewUrl).
Abbreviation run := (run cfg sandboxPreviewUrl).
Abbreviation reachable := (reachable cfg sandboxPreviewUrl).

Lemma finishing_busy p k : finishing p = Some k -> busyProc p = Some k.
Proof. by destruct p. Qed.

Lemma importing_busy p k : importing p = Some k -> busyProc p = Some k.
Proof. by destruct p. Qed.

Lemma terminal_not_queued st : terminal st = true -> st ≠ queued.
Proof. by destruct st. Qed.

(** The items a step enqueues, one at most. *)
Lemma coreInjected_cases l s :
  tasksOk s ->
  coreInjected l s = []
  ∨ ∃ pid p k t it,
      l = Settle pid Resolved ∧ procs s !! pid = Some p ∧ importing p = Some k
      ∧ tasks s !! k = Some t ∧ coreInjected l s = [it] ∧ metaTaskId it = k
      ∧ ((p = PRunImport k ∧ message it = buildMessage t
          ∧ metaType it = injectionTypeOf (status t))
         ∨ (p = PCancelImport k ∧ message it = buildMessage t
            ∧ metaType it = task_cancelled)
         ∨ (∃ text, p = PChatAsyncImport k text
                    ∧ message it = buildChatMessage t text None
                    ∧ metaType it = chat_result)
         ∨ (∃ err, p = PChatAsyncImportErr k err
                   ∧ message it = buildChatMessage t None (Some err)
                   ∧ metaType it = chat_failed)).
Proof.
  intros Hok. destruct l as [| | | | | | | | | |pid o]; auto.
  destruct o; auto. cbn.
  destruct (procs s !! pid) as [p|] eqn:Ep; auto.
  destruct p; auto;
    (destruct (tasks s !! taskId) as [t|] eqn:Et; [|auto]); right;
    exists pid; eexists _, taskId, t, _;
    (split; [done|]); (split; [done|]); (split; [done|]); (split; [done|]);
    (split; [done|]); (split; [by apply (ok_id s Hok)|]); cbn; eauto 10.
Qed.

Lemma items_step l s s' k :
  tasksOk s -> step l s = Some s' ->
  itemsOf k s' = itemsOf k s ++ filter (fun it => metaTaskId it = k) (coreInjected l s).
Proof.
  intros Hok Hstep.
  destruct (step_shape cfg sandboxPreviewUrl l s s' Hstep)
    as [(popped & rest & _ & _ & _ & _ & _ & Hi) _].
  unfold itemsOf. by rewrite Hi, filter_app.
Qed.

(** A task that is not queued after the assignments of a step is not
    dispatched by it. *)
Lemma not_popped l s s' k t0 :
  tasksOk s -> queueOk s -> step l s = Some s' ->
  coreTasks l s !! k = Some t0 -> status t0 ≠ queued ->
  tasks s' !! k = Some t0.
Proof.
  intros Hok Hq Hstep Hk Hne.
  destruct (coreOk_step cfg sandboxPreviewUrl l s s' Hok Hq Hstep) as [_ Hpend _ _ _].
  destruct (step_shape cfg sandboxPreviewUrl l s s' Hstep)
    as [(popped & rest & Hcq & _ & _ & -> & _ & _) _].
  rewrite lookup_startAll_notin; [done|].
  intros (q & Hqk & Hin)%list_elem_of_fmap.
  destruct (Hpend q) as (t1 & Ht1 & Hs1); [rewrite Hcq, elem_of_app; by left|].
  rewrite <- Hqk in Ht1. congruence.
Qed.

(** Without a chat turn, a finished task keeps its status, unless a call at
    work on it resumes. *)
Lemma effect_finished l s k t :
  chatLabel l = false ->
  (∀ p, p ∈ procs s -> chatProc p = false) ->
  terminal (status t) = true ->
  target l s = Some k ->
  (∀ pid o p, l = Settle pid o -> procs s !! pid = Some p -> busyProc p ≠ Some k) ->
  status (effect l s t) = status t.
Proof.
  intros Hl Hnc Ht Htg Hno.
  destruct l as [| |i r| |i|i|i m|i m|i|i ev|pid o]; try done.
  - cbn. unfold cancelT. destruct (status t) eqn:E; cbn in Ht; done.
  - cbn. by destruct (hasAgent s i).
  - cbn. unfold failRunning. rewrite bool_decide_eq_false_2; [done|].
    intros Hr. by rewrite Hr in Ht.
  - cbn. destruct (monitors_status (procs s) i ev t) as [-> | [Hr _]]; [done|].
    by rewrite Hr in Ht.
  - cbn in Htg. destruct (procs s !! pid) as [p|] eqn:Ep; [|done]. cbn in Htg.
    specialize (Hno pid o p eq_refl Ep).
    destruct (busyProc p) as [j|] eqn:Hb.
    + pose proof (busyProc_procTask p j Hb) as Hj. congruence.
    + pose proof (procTask_not_busy p k Htg Hb) as ->.
      unfold RunnerSpec.effect. rewrite Ep. by destruct o.
Qed.

(** When a call at work on [k] resumes into the part past the status of
    the task, the task is finished. *)
Lemma settle_finished pid o p0 s k t :
  procs s !! pid = Some p0 ->
  tasks s !! k = Some t ->
  busyProc p0 = Some k ->
  chatProc p0 = false ->
  (finishing p0 = Some k ->
   terminal (status t) = true ∧ (p0 = PCancelImport k -> status t = cancelled)) ->
  finishing (settleProc sandboxPreviewUrl p0 o s) = Some k ->
  terminal (status (effect (Settle pid o) s t)) = true
  ∧ (settleProc sandboxPreviewUrl p0 o s = PCancelImport k ->
     status (effect (Settle pid o) s t) = cancelled).
Proof.
  intros Hp Ht Hb Hnc Hfin Hf. unfold RunnerSpec.effect. rewrite Hp.
  destruct p0; cbn in Hb, Hnc; simplify_eq; try done.
  - (* runInBackground *) by destruct o.
  - (* Agent.create *)
    destruct o; try done. cbn in Hf |- *. rewrite Ht in Hf. cbn in Hf.
    split; [|unfold runNext; repeat case_match; done].
    unfold finallyT, catchT. repeat case_match; cbn; try done;
      by destruct (status t).
  - (* complete *)
    destruct o; try done; cbn in Hf |- *; rewrite Ht in Hf; cbn in Hf.
    + split; [|unfold runNext; repeat case_match; done].
      unfold finallyT, catchT. repeat case_match; cbn; try done;
        by destruct (status t).
    + split; [|unfold runNext; repeat case_match; done].
      unfold finallyT, afterLoopT. repeat case_match; cbn; try done;
        by destruct (status t).
    + unfold pausedT. destruct (settled (status t)) eqn:Hs.
      * split; [|unfold runNext in *; repeat case_match; done].
        unfold finallyT, afterLoopT. rewrite Hs. repeat case_match; cbn; try done;
          by destruct (status t).
      * destruct (pendingMessages s !! k) as [m|] eqn:Hm; [done|].
        rewrite bool_decide_eq_false_2 by (by intros [? ?]).
        split; [|unfold runNext in *; repeat case_match; done].
        unfold finallyT, afterLoopT. rewrite Hs. repeat case_match; cbn; done.
  - (* dispose of the sandbox *)
    destruct (Hfin eq_refl) as [Hterm _].
    destruct o; cbn in Hf |- *; try done; split; try done;
      by destruct (injectionQueue s).
  - (* import of the run *)
    destruct (Hfin eq_refl) as [Hterm _]. by destruct o.
  - (* import of cancel *)
    destruct (Hfin eq_refl) as [Hterm Hc]. destruct o; try done.
    all: split; [done|]; intros _; by apply Hc.
Qed.


Lemma finished_keeps l s s' k t :
  chatLabel l = false ->
  (∀ p, p ∈ procs s -> chatProc p = false) ->
  tasksOk s -> queueOk s -> step l s = Some s' ->
  tasks s !! k = Some t -> terminal (status t) = true ->
  (∀ pid o p, l = Settle pid o -> procs s !! pid = Some p -> busyProc p ≠ Some k) ->
  ∃ t', tasks s' !! k = Some t' ∧ status t' = status t.
Proof.
  intros Hl Hnc Hok Hq Hstep Hk Ht Hno.
  assert (∃ t0, coreTasks l s !! k = Some t0 ∧ status t0 = status t) as (t0 & Ht0 & Hs0).
  { destruct (decide (target l s = Some k)) as [Htg|Htg].
    - rewrite lookup_coreTasks_target by done.
      destruct l; try (rewrite Hk; cbn [fmap option_fmap option_map];
                       eexists; split; [done|]; by eapply effect_finished).
      cbn in Htg. simplify_eq. cbn in Hstep. by rewrite Hk in Hstep.
    - rewrite lookup_coreTasks_other by done. eauto. }
  exists t0. split; [|done]. eapply not_popped; [done..|].
  rewrite Hs0. by apply terminal_not_queued.
Qed.

(** Nothing is enqueued for a task that waits after the assignments of a
    step. *)
Lemma queued_core_no_items l s s' k t0 :
  reachable s -> step l s = Some s' ->
  coreTasks l s !! k = Some t0 -> status t0 = queued ->
  itemsOf k s' = [].
Proof.
  intros Hreach Hstep Hk Hs.
  destruct (reachable_queueOk cfg sandboxPreviewUrl s Hreach) as [Hok Hq].
  assert (∀ t, tasks s !! k = Some t -> status t = queued) as Hqueued.
  { intros t Ht. destruct (decide (target l s = Some k)) as [Htg|Htg].
    - rewrite lookup_coreTasks_target in Hk by done.
      destruct l; try (rewrite Ht in Hk; cbn [fmap option_fmap option_map] in Hk;
                       simplify_eq;
                       by (eapply effect_queued; [apply (ok_chat_previous s Hok)|done])).
      cbn in Htg. simplify_eq. cbn in Hstep. by rewrite Ht in Hstep.
    - rewrite lookup_coreTasks_other in Hk by done. congruence. }
  rewrite (items_step l s s' k Hok Hstep).
  assert (itemsOf k s = []) as ->.
  { unfold itemsOf. destruct (filter _ _) as [|it rest] eqn:E; [done|].
    assert (it ∈ filter (fun it => metaTaskId it = k) (injected s)) as Hin
      by (rewrite E; by left).
    apply list_elem_of_filter in Hin as [Hid Hin].
    destruct (reachable_items_known cfg sandboxPreviewUrl s it Hreach Hin)
      as (t1 & Ht1 & Hne). rewrite Hid in Ht1. by destruct (Hne (Hqueued t1 Ht1)). }
  destruct (coreInjected_cases l s Hok)
    as [-> | (pid & p & k' & t & it & -> & Hp & Himp & Ht & -> & Hid & _)]; [done|].
  rewrite filter_cons_False; [done|]. rewrite Hid. intros ->.
  destruct (ok_running s Hq p k (list_elem_of_lookup_2 _ _ _ Hp) (importing_busy p k Himp))
    as (t1 & Ht1 & Hne). rewrite Ht in Ht1. simplify_eq. by destruct (Hne (Hqueued t1 Ht)).
Qed.

Lemma coreProcs_at pid o p0 s :
  procs s !! pid = Some p0 ->
  coreProcs (Settle pid o) s !! pid = Some (settleProc sandboxPreviewUrl p0 o s).
Proof.
  intros Hp. cbn. rewrite Hp.
  apply list_lookup_insert_eq. by eapply lookup_lt_Some.
Qed.

Lemma settle_or_not (l : Label) (pid : nat) :
  (∃ o, l = Settle pid o) ∨ ¬ (∃ o, l = Settle pid o).
Proof.
  destruct l as [| | | | | | | | | |pid0 o]; try (right; intros [? ?]; discriminate).
  destruct (decide (pid0 = pid)) as [->|Hne]; [eauto|].
  right. intros [? ?]. congruence.
Qed.

Lemma announcedOk_init : announcedOk init.
Proof. split; cbn; intros; try done; by inversion H. Qed.

Lemma announcedOk_step l s s' :
  chatLabel l = false ->
  (∀ p, p ∈ procs s -> chatProc p = false) ->
  reachable s -> announcedOk s ->
  step l s = Some s' -> announcedOk s'.
Proof.
  intros Hl Hnc Hreach [Hbusy Hunique Hfinal Hitem] Hstep.
  destruct (reachable_queueOk cfg sandboxPreviewUrl s Hreach) as [Hok Hq].
  destruct (coreOk_step cfg sandboxPreviewUrl l s s' Hok Hq Hstep)
    as [Hnd Hpend _ _ Hrun].
  destruct (step_shape cfg sandboxPreviewUrl l s s' Hstep)
    as [(popped & rest & Hcq & Hr & Hla & Htasks & Hp & Hi) _].
  rewrite Hcq, map_app in Hnd.
  apply NoDup_app in Hnd as (_ & _ & Hnd). apply NoDup_app in Hnd as (Hndp & _ & _).
  (* where a call of [s'] comes from *)
  assert (∀ pid p, procs s' !! pid = Some p ->
            coreProcs l s !! pid = Some p
            ∨ ∃ j q, pid = (length (coreProcs l s) + j)%nat
                     ∧ popped !! j = Some q ∧ p = spawnOf q) as Hfrom.
  { intros pid p Hpid. rewrite Hp in Hpid.
    apply lookup_app_Some in Hpid as [Hpid | [Hlen Hpid]]; [by left|]. right.
    rewrite list_lookup_fmap in Hpid.
    destruct (popped !! (pid - length (coreProcs l s))%nat) as [q|] eqn:Eq; [|done].
    cbn in Hpid. simplify_eq.
    exists (pid - length (coreProcs l s))%nat, q. split; [lia|done]. }
  assert (∀ j q, popped !! j = Some q ->
            ∃ t0, coreTasks l s !! qtask q = Some t0 ∧ status t0 = queued) as Hspawn.
  { intros j q Hj. apply Hpend. rewrite Hcq, elem_of_app. left.
    by eapply list_elem_of_lookup_2. }
  assert (∀ pid p k, coreProcs l s !! pid = Some p -> busyProc p = Some k ->
            ∃ t0, coreTasks l s !! k = Some t0 ∧ status t0 ≠ queued) as Hcore.
  { intros pid p k Hpid Hb. eapply Hrun; [|done]. by eapply list_elem_of_lookup_2. }
  assert (∀ pid p k, procs s !! pid = Some p -> busyProc p = Some k ->
            ∃ t, tasks s !! k = Some t ∧ status t ≠ queued) as Hatwork.
  { intros pid p k Hpid Hb. eapply (ok_running s Hq); [|done].
    by eapply list_elem_of_lookup_2. }
  assert (∀ pid p, procs s !! pid = Some p -> chatProc p = false) as Hnc'.
  { intros pid p Hpid. apply Hnc. by eapply list_elem_of_lookup_2. }
  (* a call of [coreProcs] at work on [k] *)
  assert (∀ pid p k, coreProcs l s !! pid = Some p -> busyProc p = Some k ->
            (∃ p0, procs s !! pid = Some p0 ∧ busyProc p0 = Some k)
            ∨ (∃ r t, l = Cancel k r ∧ tasks s !! k = Some t ∧ status t = queued
                      ∧ pid = length (procs s) ∧ p = PCancelImport k)) as Hold.
  { intros pid p k Hpid Hb.
    destruct (coreProcs_busy sandboxPreviewUrl l s pid p k Hpid Hb)
      as [(p0 & Hp0 & Hb0 & _) | [(r & -> & Hsq & -> & ->) | (m & t1 & Hchat & _)]].
    - eauto.
    - right. unfold statusOf in Hsq. destruct (tasks s !! k) as [t|] eqn:Et; [|done].
      cbn in Hsq. simplify_eq. eauto 10.
    - destruct Hchat as [-> | ->]; done. }
  split.
  - (* nothing enqueued while a call is at work *)
    intros pid p k Hpid Hb.
    destruct (Hfrom pid p Hpid) as [Hc | (j & q & _ & Hj & ->)].
    2:{ cbn in Hb. simplify_eq. destruct (Hspawn j q Hj) as (t0 & Ht0 & Hs0).
        by eapply queued_core_no_items. }
    destruct (Hold pid p k Hc Hb) as [(p0 & Hp0 & Hb0) | (r & t & -> & Ht & Hst & _)].
    2:{ rewrite (items_step _ s s' k Hok Hstep). cbn. rewrite app_nil_r.
        by eapply (queued_no_items cfg sandboxPreviewUrl). }
    rewrite (items_step l s s' k Hok Hstep), (Hbusy pid p0 k Hp0 Hb0).
    destruct (coreInjected_cases l s Hok)
      as [-> | (pid' & p' & k' & t & it & -> & Hp' & Himp & Ht & -> & Hid & _)]; [done|].
    rewrite filter_cons_False; [done|]. rewrite Hid. intros ->.
    assert (pid' = pid) as -> by (eapply Hunique; eauto using importing_busy).
    assert (p' = p0) as -> by congruence.
    rewrite (coreProcs_at pid Resolved p0 s Hp0) in Hc. injection Hc as <-.
    destruct p0; cbn in Himp, Hb; simplify_eq.
  - (* one call at a time *)
    intros pid1 pid2 p1 p2 k H1 H2 Hb1 Hb2.
    destruct (Hfrom pid1 p1 H1) as [Hc1 | (j1 & q1 & -> & Hj1 & ->)],
             (Hfrom pid2 p2 H2) as [Hc2 | (j2 & q2 & -> & Hj2 & ->)].
    + destruct (Hold pid1 p1 k Hc1 Hb1) as [(p01 & Hp01 & Hb01) | (r1 & t1 & -> & Ht1 & Hs1 & -> & _)],
               (Hold pid2 p2 k Hc2 Hb2) as [(p02 & Hp02 & Hb02) | (r2 & t2 & Hl2 & Ht2 & Hs2 & -> & _)].
      * eauto.
      * destruct (Hatwork pid1 p01 k Hp01 Hb01) as (t & Ht & Hne). congruence.
      * destruct (Hatwork pid2 p02 k Hp02 Hb02) as (t & Ht & Hne). congruence.
      * done.
    + cbn in Hb2. simplify_eq.
      destruct (Hcore pid1 p1 _ Hc1 Hb1) as (t0 & Ht0 & Hne).
      destruct (Hspawn j2 q2 Hj2) as (t1 & Ht1 & Hs1). congruence.
    + cbn in Hb1. simplify_eq.
      destruct (Hcore pid2 p2 _ Hc2 Hb2) as (t0 & Ht0 & Hne).
      destruct (Hspawn j1 q1 Hj1) as (t1 & Ht1 & Hs1). congruence.
    + cbn in Hb1, Hb2. injection Hb1 as Hb1. injection Hb2 as Hb2. f_equal.
      eapply (NoDup_lookup (map qtask popped) _ _ k); [done| |].
      * rewrite list_lookup_fmap, Hj1. cbn. by rewrite Hb1.
      * rewrite list_lookup_fmap, Hj2. cbn. by rewrite Hb2.
  - (* past the status, the task is finished *)
    intros pid p k Hpid Hf.
    pose proof (finishing_busy p k Hf) as Hb.
    destruct (Hfrom pid p Hpid) as [Hc | (j & q & _ & Hj & ->)]; [|done].
    destruct (Hold pid p k Hc Hb) as [(p0 & Hp0 & Hb0) | (r & t & -> & Ht & Hst & _ & ->)].
    2:{ exists (cancelT r t). split.
        - eapply not_popped; [done..| |].
          + rewrite lookup_coreTasks_target by done. by rewrite Ht.
          + unfold cancelT. by rewrite Hst.
        - unfold cancelT. by rewrite Hst. }
    destruct (Hatwork pid p0 k Hp0 Hb0) as (t & Ht & Hnq).
    destruct (settle_or_not l pid) as [[o ->] | Hns].
    + rewrite (coreProcs_at pid o p0 s Hp0) in Hc. injection Hc as <-.
      destruct (settle_finished pid o p0 s k t Hp0 Ht Hb0 (Hnc' pid p0 Hp0)) as [Hterm Hcan].
      { intros Hf0. destruct (Hfinal pid p0 k Hp0 Hf0) as (t1 & Ht1 & H1 & H2).
        assert (t1 = t) as -> by congruence. done. }
      { done. }
      exists (effect (Settle pid o) s t). split; [|done].
      eapply not_popped; [done..| |by apply terminal_not_queued].
      rewrite lookup_coreTasks_target; [by rewrite Ht|].
      cbn. rewrite Hp0. cbn. by apply busyProc_procTask.
    + assert (procs s' !! pid = Some p0) as Hsame.
      { eapply procs_other; [done..|]. intros o ->. destruct Hns. eauto. }
      assert (p = p0) as -> by congruence.
      destruct (Hfinal pid p0 k Hp0 Hf) as (t1 & Ht1 & Hterm & Hcan).
      assert (t1 = t) as -> by congruence.
      destruct (finished_keeps l s s' k t Hl Hnc Hok Hq Hstep Ht Hterm) as (t' & Ht' & Hs').
      { intros pid' o p' -> Hp' Hb'.
        assert (pid' = pid) as -> by (by eapply Hunique).
        destruct Hns. eauto. }
      exists t'. rewrite Hs'. eauto.
  - (* the item of a task *)
    intros k it Hin. rewrite (items_step l s s' k Hok Hstep) in Hin |- *.
    destruct (coreInjected_cases l s Hok)
      as [Hnone | (pid & p & k' & t & it' & -> & Hpid & Himp & Ht & Hone & Hid & Hkind)].
    + rewrite Hnone in Hin |- *. cbn in Hin |- *. rewrite app_nil_r in Hin |- *.
      destruct (Hitem k it Hin) as (Hall & t & Ht & Hterm & Hty).
      split; [done|].
      destruct (finished_keeps l s s' k t Hl Hnc Hok Hq Hstep Ht Hterm) as (t' & Ht' & Hs').
      { intros pid o p -> Hpid Hb. rewrite (Hbusy pid p k Hpid Hb) in Hin. by inversion Hin. }
      exists t'. by rewrite Hs'.
    + rewrite Hone in Hin |- *. cbn [filter list_filter] in Hin |- *.
      destruct (decide (k' = k)) as [->|Hne].
      * rewrite decide_True in Hin |- * by done.
        pose proof (importing_busy p k Himp) as Hb.
        rewrite (Hbusy pid p k Hpid Hb) in Hin |- *. cbn in Hin |- *.
        apply list_elem_of_singleton in Hin as ->. split; [done|].
        destruct (Hfinal pid p k Hpid) as (t1 & Ht1 & Hterm & Hcan).
        { specialize (Hnc' pid p Hpid). destruct p; cbn in Himp, Hnc' |- *; done. }
        simplify_eq. exists t. split; [|split; [done|]].
        -- eapply not_popped; [done..| |by apply terminal_not_queued].
           rewrite lookup_coreTasks_target
             by (cbn; rewrite Hpid; cbn; by apply busyProc_procTask).
           rewrite Ht. cbn. unfold RunnerSpec.effect. rewrite Hpid.
           specialize (Hnc' pid p Hpid). destruct p; cbn in Himp, Hnc' |- *; done.
        -- destruct Hkind as [(-> & _ & ->) | [(-> & _ & ->) | [(tx & -> & _) | (e & -> & _)]]].
           ++ done.
           ++ by rewrite Hcan.
           ++ by specialize (Hnc' pid _ Hpid).
           ++ by specialize (Hnc' pid _ Hpid).
      * rewrite decide_False in Hin |- * by congruence.
        rewrite app_nil_r in Hin |- *.
        destruct (Hitem k it Hin) as (Hall & t0 & Ht0 & Hterm & Hty).
        split; [done|].
        destruct (finished_keeps (Settle pid Resolved) s s' k t0 Hl Hnc Hok Hq Hstep Ht0 Hterm)
          as (t' & Ht' & Hs').
        { intros pid0 o p0 _ Hpid0 Hb0.
          rewrite (Hbusy pid0 p0 k Hpid0 Hb0) in Hin. by inversion Hin. }
        exists t'. by rewrite Hs'.
Qed.

Lemma announcedOk_run ls s :
  Forall (fun l => chatLabel l = false) ls ->
  run ls init = Some s -> announcedOk s.
Proof.
  intros Hls Hrun.
  cut ((∀ p, p ∈ procs s -> chatProc p = false) ∧ announcedOk s); [by intros [_ ?]|].
  revert s Hrun. induction ls as [|l ls IH] using rev_ind; intros s Hrun.
  - cbn in Hrun. simplify_eq. split; [intros p Hp; by inversion Hp|].
    apply announcedOk_init.
  - apply Forall_app in Hls as [Hls Hl]. apply Forall_cons in Hl as [Hl _].
    apply run_snoc in Hrun as (s1 & Hs1 & Hstep).
    destruct (IH Hls s1 Hs1) as [Hnc Han].
    split; [by eapply noChat_step|].
    eapply announcedOk_step; [done..| |done|done]. by exists ls.
Qed.

(** *** One item for each call that owes one *)

Lemma queue_dispatchAll popped s :
  injectionQueue (dispatchAll popped s) = injectionQueue s.
Proof.
  revert s. induction popped as [|q popped IH]; intros s; [done|].
  rewrite dispatchAll_cons, IH. unfold dispatch. by rsimpl.
Qed.

(** No transition takes the injection queue away. *)
Lemma queue_step l s s' :
  step l s = Some s' -> injectionQueue s = true -> injectionQueue s' = true.
Proof.
  intros Hstep Hset.
  assert (∀ s0, injectionQueue (drainQueue cfg s0) = injectionQueue s0) as Hdrain.
  { intros s0. destruct (drainQueue_spec cfg s0) as (popped & rest & _ & ->).
    rsimpl. apply queue_dispatchAll. }
  assert (∀ pid i sub s0, injectionQueue (finallyBlock cfg pid i sub s0) = injectionQueue s0)
    as Hfinally.
  { intros pid i sub s0. unfold finallyBlock, announce. rsimpl.
    repeat case_match; rsimpl; rewrite ?Hdrain; by rsimpl. }
  assert (∀ i text s0, injectionQueue (afterLoop sandboxPreviewUrl i text s0) = injectionQueue s0)
    as Hafter.
  { intros i text s0. by destruct (shape_afterLoop sandboxPreviewUrl i text s0)
      as (_ & _ & _ & _ & _ & ->). }
  assert (∀ i err s0, injectionQueue (catchBlock i err s0) = injectionQueue s0) as Hcatch.
  { intros i err s0. by destruct (shape_catchBlock i err s0) as (_ & _ & _ & _ & _ & ->). }
  destruct l; cbn [BgTaskRunner.step] in Hstep; simplify_eq.
  - done.
  - destruct (tasks s !! newId); [done|]. simplify_eq.
    unfold start. rewrite Hdrain. by rsimpl.
  - unfold cancel. repeat case_match; by rsimpl.
  - unfold sendMessage. repeat case_match; by rsimpl.
  - unfold disposeSandbox. repeat case_match; by rsimpl.
  - unfold disposeAgent. repeat case_match; by rsimpl.
  - unfold chatAsync, chatGuard, chatEnter. repeat case_match; simplify_eq; by rsimpl.
  - unfold chat, chatGuard, chatEnter. repeat case_match; simplify_eq; by rsimpl.
  - case_bool_decide; [|done]. simplify_eq.
    destruct (shape_handleIdleTimeout cfg taskId (clearIdleTimer taskId s))
      as (_ & _ & _ & _ & _ & ->). by rsimpl.
  - unfold agentEmits.
    by destruct (shape_monitors (procs s) taskId ev s) as (_ & _ & _ & _ & _ & ->).
  - unfold settle in Hstep.
    destruct (procs s !! pid) as [p|]; [|done].
    destruct p, o; simplify_eq;
      rewrite ?Hfinally, ?Hafter, ?Hcatch; try done;
      try (unfold agentCreated, announce, inject, cancelInject, chatAsyncDone,
             chatAsyncFailed, chatInject, chatDone, chatFailed, sandboxDisposed;
           repeat case_match; rsimpl; rewrite ?Hdrain; by rsimpl).
    unfold paused. repeat case_match; rewrite ?Hfinally, ?Hafter; by rsimpl.
Qed.

(** A transition that is not a continuation of the call [pid] leaves that
    call where it is. *)
Lemma coreProcs_other l s pid p :
  ¬ (∃ o, l = Settle pid o) ->
  procs s !! pid = Some p -> coreProcs l s !! pid = Some p.
Proof.
  intros Hl Hp. unfold RunnerSpec.coreProcs.
  destruct l; try done; try (by apply lookup_app_l_Some).
  destruct (procs s !! pid0) eqn:E; [|done].
  rewrite list_lookup_insert_ne; [done|]. intros ->. apply Hl. eauto.
Qed.

Lemma enqueuedAt_settle pid o s s' :
  step (Settle pid o) s = Some s' ->
  enqueuedAt pid (Settle pid o) s s' = coreInjected (Settle pid o) s.
Proof.
  intros Hstep. unfold enqueuedAt. rewrite Nat.eqb_refl.
  destruct (step_shape cfg sandboxPreviewUrl _ s s' Hstep)
    as [(popped & rest & _ & _ & _ & _ & _ & ->) _].
  by rewrite drop_app_length.
Qed.

Lemma enqueuedAt_other pid l s s' :
  ¬ (∃ o, l = Settle pid o) -> enqueuedAt pid l s s' = [].
Proof.
  intros Hl. unfold enqueuedAt. destruct l; try done.
  destruct (Nat.eqb_spec pid0 pid) as [->|]; [|done]. destruct Hl. eauto.
Qed.

Lemma procs_step_at l s s' pid p :
  step l s = Some s' -> procs s !! pid = Some p ->
  procs s' !! pid = coreProcs l s !! pid.
Proof.
  intros Hstep Hp.
  destruct (step_shape cfg sandboxPreviewUrl l s s' Hstep)
    as [(popped & rest & _ & _ & _ & _ & -> & _) _].
  apply lookup_app_l.
  pose proof (lookup_lt_Some _ _ _ Hp) as Hlt.
  unfold RunnerSpec.coreProcs. destruct l; rewrite ?length_app; try lia.
  destruct (procs s !! pid0); rewrite ?length_insert; lia.
Qed.

(** One transition, seen from a call that owes an item: the call goes on
    owing it and enqueues nothing, or its import resolves and it ends with
    the one item. *)
Lemma owing_step l s s' pid p k :
  tasksOk s -> queueOk s -> injectionQueue s = true ->
  step l s = Some s' ->
  procs s !! pid = Some p -> owing p = Some k ->
  (∃ p2, procs s' !! pid = Some p2 ∧ owing p2 = Some k
         ∧ chatProc p2 = chatProc p ∧ enqueuedAt pid l s s' = [])
  ∨ (procs s' !! pid = Some PDone
     ∧ ∃ it, enqueuedAt pid l s s' = [it] ∧ metaTaskId it = k
             ∧ kindOf p (metaType it) = true).
Proof.
  intros Hok Hq Hset Hstep Hp Ho.
  rewrite (procs_step_at l s s' pid p Hstep Hp).
  destruct (settle_or_not l pid) as [[o ->] | Hl]; cycle 1.
  { left. exists p. rewrite (coreProcs_other l s pid p Hl Hp).
    by rewrite (enqueuedAt_other pid l s s' Hl). }
  rewrite (coreProcs_at pid o p s Hp), (enqueuedAt_settle pid o s s' Hstep).
  assert (busyProc p = Some k) as Hb by (destruct p; cbn in Ho |- *; congruence).
  destruct (ok_running s Hq p k (list_elem_of_lookup_2 _ _ _ Hp) Hb) as (t & Ht & _).
  pose proof (ok_id s Hok k t Ht) as Hid.
  unfold coreInjected, kindOf. rewrite Hp.
  destruct p; cbn in Ho; simplify_eq; cbn [settleProc chatProc].
  - (* PAgentCreate *)
    left. destruct o; cbn; rewrite ?Ht; cbn; rewrite ?Hset;
      repeat case_match; eauto.
  - (* PComplete *)
    left. destruct o; cbn; rewrite ?Ht; cbn; rewrite ?Hset;
      repeat case_match; eauto.
  - (* PRunDispose *)
    left. destruct o; cbn; rewrite ?Hset; eauto.
  - (* PRunImport *)
    destruct o; try (left; by eauto).
    right. split; [done|]. rewrite Ht. cbn. eexists. split; [done|]. split; [done|].
    cbn. by destruct (status t).
  - (* PCancelImport *)
    destruct o; try (left; by eauto).
    right. split; [done|]. rewrite Ht. cbn. eexists. split; [done|]. by split.
  - (* PChatAsyncComplete *)
    left. destruct o; cbn; rewrite ?Hset; eauto.
  - (* PChatAsyncImport *)
    destruct o; try (left; by eauto).
    right. split; [done|]. rewrite Ht. cbn. eexists. split; [done|]. by split.
  - (* PChatAsyncImportErr *)
    destruct o; try (left; by eauto).
    right. split; [done|]. rewrite Ht. cbn. eexists. split; [done|]. by split.
Qed.

(** A call that has ended stays so and enqueues nothing more. *)
Lemma done_step l s s' pid :
  step l s = Some s' -> procs s !! pid = Some PDone ->
  procs s' !! pid = Some PDone ∧ enqueuedAt pid l s s' = [].
Proof.
  intros Hstep Hp.
  rewrite (procs_step_at l s s' pid PDone Hstep Hp).
  destruct (settle_or_not l pid) as [[o ->] | Hl]; cycle 1.
  { by rewrite (coreProcs_other l s pid PDone Hl Hp), (enqueuedAt_other pid l s s' Hl). }
  rewrite (coreProcs_at pid o PDone s Hp), (enqueuedAt_settle pid o s s' Hstep).
  unfold coreInjected. rewrite Hp. by destruct o.
Qed.

Lemma enqueuedBy_cons pid l ls s s' :
  step l s = Some s' ->
  enqueuedBy cfg sandboxPreviewUrl pid (l :: ls) s
  = enqueuedAt pid l s s' ++ enqueuedBy cfg sandboxPreviewUrl pid ls s'.
Proof. intros Hstep. cbn [enqueuedBy]. by rewrite Hstep. Qed.

Lemma done_run ls s s2 pid :
  run ls s = Some s2 -> procs s !! pid = Some PDone ->
  procs s2 !! pid = Some PDone ∧ enqueuedBy cfg sandboxPreviewUrl pid ls s = [].
Proof.
  revert s. induction ls as [|l ls IH]; intros s Hrun Hp.
  - cbn in Hrun. by simplify_eq.
  - cbn [BgTaskRunner.run] in Hrun.
    destruct (step l s) as [s'|] eqn:Hstep; [|done].
    destruct (done_step l s s' pid Hstep Hp) as [Hp' Hnone].
    destruct (IH s' Hrun Hp') as [Hp2 Hnone2].
    split; [done|]. by rewrite (enqueuedBy_cons pid l ls s s' Hstep), Hnone, Hnone2.
Qed.

(** Along any sequence of transitions, a call that owes an item has enqueued
    nothing while it is at work, and exactly its one item once it has
    ended. *)
Lemma owing_run ls s s2 pid p k :
  reachable s -> injectionQueue s = true ->
  run ls s = Some s2 ->
  procs s !! pid = Some p -> owing p = Some k ->
  (∃ p2, procs s2 !! pid = Some p2 ∧ owing p2 = Some k
         ∧ enqueuedBy cfg sandboxPreviewUrl pid ls s = [])
  ∨ (procs s2 !! pid = Some PDone
     ∧ ∃ it, enqueuedBy cfg sandboxPreviewUrl pid ls s = [it] ∧ metaTaskId it = k
             ∧ kindOf p (metaType it) = true).
Proof.
  revert s p. induction ls as [|l ls IH]; intros s p Hreach Hset Hrun Hp Ho.
  - cbn in Hrun. simplify_eq. left. eauto.
  - cbn [BgTaskRunner.run] in Hrun.
    destruct (step l s) as [s'|] eqn:Hstep; [|done].
    rewrite (enqueuedBy_cons pid l ls s s' Hstep).
    destruct (reachable_queueOk cfg sandboxPreviewUrl s Hreach) as [Hok Hq].
    destruct (owing_step l s s' pid p k Hok Hq Hset Hstep Hp Ho)
      as [(p2 & Hp2 & Ho2 & Hc & ->) | (Hdone & it & -> & Hid & Hkind)].
    + cbn [app].
      destruct (IH s' p2 (reachable_step cfg sandboxPreviewUrl l s s' Hreach Hstep)
                  (queue_step l s s' Hstep Hset) Hrun Hp2 Ho2)
        as [H | (Hd & it & Hit & Hid & Hkind)]; [by left|].
      right. split; [done|]. exists it. unfold kindOf in *. by rewrite <- Hc.
    + destruct (done_run ls s' s2 pid Hrun Hdone) as [Hd ->].
      right. split; [done|]. exists it. by rewrite app_nil_r.
Qed.

(** *** No queue, no item *)

Lemma settleProc_quiet p o s :
  injectionQueue s = false -> importing p = None ->
  importing (settleProc sandboxPreviewUrl p o s) = None.
Proof.
  intros Hq Hp. destruct p, o; cbn in Hp |- *; try done;
    unfold runNext; rewrite ?Hq; repeat case_match; done.
Qed.

(** As long as no injection queue is set, nothing is enqueued and no call
    waits for the import. *)
Lemma reachable_quiet s :
  reachable s -> injectionQueue s = false ->
  injected s = [] ∧ ∀ p, p ∈ procs s -> importing p = None.
Proof.
  revert s. apply (reachable_ind cfg sandboxPreviewUrl
    (fun s => injectionQueue s = false ->
              injected s = [] ∧ ∀ p, p ∈ procs s -> importing p = None)).
  - intros _. split; [done|]. intros p Hin. by inversion Hin.
  - intros l s s' Hreach IH Hstep Hq'.
    assert (injectionQueue s = false) as Hq.
    { destruct (injectionQueue s) eqn:E; [|done].
      by rewrite (queue_step l s s' Hstep E) in Hq'. }
    destruct (IH Hq) as [Hnone Hprocs].
    destruct (step_shape cfg sandboxPreviewUrl l s s' Hstep)
      as [(popped & rest & _ & _ & _ & _ & Hp & Hi) _].
    assert (∀ p, p ∈ coreProcs l s -> importing p = None) as Hcore.
    { intros p Hin.
      destruct (coreProcs_elem sandboxPreviewUrl l s p Hin)
        as [H | [(i & reason & _ & _ & _ & Hset)
          | [(i & _ & ->) | [(i & message & t & [[_ ->]|[_ ->]] & _)
          | (pid & o & p0 & _ & Hp0 & ->)]]]]; try done.
      - by apply Hprocs.
      - congruence.
      - apply (settleProc_quiet _ _ _ Hq), Hprocs.
        by eapply list_elem_of_lookup_2. }
    split.
    + rewrite Hi, Hnone. cbn [app]. unfold coreInjected.
      destruct l; try done. destruct o; try done.
      destruct (procs s !! pid) as [p|] eqn:Ep; [|done].
      pose proof (Hprocs p (list_elem_of_lookup_2 _ _ _ Ep)) as Himp.
      by destruct p.
    + intros p. rewrite Hp. intros [Hin|Hin]%elem_of_app; [by apply Hcore|].
      apply list_elem_of_fmap in Hin as (q & -> & _). done.
Qed.

End Announce.

(** C5, as stated, fails on a runner that was given no injection queue:
    [A] runs to completion, its run has ended, and nothing was enqueued. *)
Lemma unannounced_counterexample :
  (fun s => (statusOf s "A", injectionQueue s, procs s, injected s))
    <$> run oneAtATime noPreview completedUnannounced init
  = Some (Some completed, false, [PDone], []).
Proof. vm_compute. reflexivity. Qed.

(** C5 (amended).  A step enqueues one item at most, and only when the
    import of a suspended call resolves: of a run (the type is
    [task_result], [task_failed] or [task_cancelled], as the task is
    completed, failed or cancelled at that moment), of the [cancel] of a
    waiting task ([task_cancelled]), of a turn of [chatAsync] ([chat_result]
    or [chat_failed]).  With an injection queue set, each of these calls
    enqueues exactly one item, when it ends, and none before: the run of a
    task once its sandbox is there, the [cancel] of a waiting task, and a
    turn of [chatAsync]; an accepted [chatAsync] starts one turn, which goes
    on to enqueue [chat_result] when [complete] returns and [chat_failed]
    when it throws.  And in every state reached without a chat re-entry, at
    most one item has been enqueued for a task; the task of an item is
    completed, failed or cancelled, the type of the item is [task_result],
    [task_failed] or [task_cancelled] accordingly, and no call is at work on
    the task any more.  As long as no injection queue is set, nothing is
    enqueued. *)
Theorem announcements
    (cfg : BgTaskConfig) (sandboxPreviewUrl : option string -> option string)
    (s : Runner) :
  reachable cfg sandboxPreviewUrl s ->
  (∀ l s', step cfg sandboxPreviewUrl l s = Some s' ->
     injected s' = injected s
     ∨ ∃ pid p k t it,
         l = Settle pid Resolved ∧ procs s !! pid = Some p ∧ tasks s !! k = Some t
         ∧ injected s' = injected s ++ [it] ∧ metaTaskId it = k
         ∧ ((p = PRunImport k ∧ message it = buildMessage t
             ∧ taskType (metaType it) = true
             ∧ (terminal (status t) = true ->
                metaType it = injectionTypeOf (status t)))
            ∨ (p = PCancelImport k ∧ message it = buildMessage t
               ∧ metaType it = task_cancelled)
            ∨ (∃ text, p = PChatAsyncImport k text
                       ∧ message it = buildChatMessage t text None
                       ∧ metaType it = chat_result)
            ∨ (∃ err, p = PChatAsyncImportErr k err
                      ∧ message it = buildChatMessage t None (Some err)
                      ∧ metaType it = chat_failed)))
  ∧ (∀ pid p k ls s2,
       injectionQueue s = true ->
       procs s !! pid = Some p -> owing p = Some k ->
       run cfg sandboxPreviewUrl ls s = Some s2 ->
       (∃ p2, procs s2 !! pid = Some p2 ∧ owing p2 = Some k
              ∧ enqueuedBy cfg sandboxPreviewUrl pid ls s = [])
       ∨ (procs s2 !! pid = Some PDone
          ∧ ∃ it, enqueuedBy cfg sandboxPreviewUrl pid ls s = [it]
                  ∧ metaTaskId it = k
                  ∧ kindOf p (metaType it) = true))
  ∧ (∀ pid p k,
       procs s !! pid = Some p -> importing p = Some k ->
       ∃ s' it,
         step cfg sandboxPreviewUrl (Settle pid Resolved) s = Some s'
         ∧ injected s' = injected s ++ [it] ∧ metaTaskId it = k
         ∧ procs s' !! pid = Some PDone)
  ∧ (∀ k message,
       (chatAsync k message s).1 = None ->
       ∃ previous,
         procs (chatAsync k message s).2 = procs s ++ [PChatAsyncComplete k previous])
  ∧ (∀ pid k previous o s',
       injectionQueue s = true ->
       procs s !! pid = Some (PChatAsyncComplete k previous) ->
       step cfg sandboxPreviewUrl (Settle pid o) s = Some s' ->
       injected s' = injected s
       ∧ ((∃ text, (o = CompleteOk text ∨ o = CompletePaused text)
                   ∧ procs s' !! pid = Some (PChatAsyncImport k text))
          ∨ (∃ err, o = Rejected err
                    ∧ procs s' !! pid = Some (PChatAsyncImportErr k err))))
  ∧ (∀ pid o p0 k s',
       injectionQueue s = true ->
       step cfg sandboxPreviewUrl (Settle pid o) s = Some s' ->
       procs s !! pid = Some p0 -> runProc p0 = Some k ->
       procs s' !! pid = Some PDone ->
       (∃ prompt err, p0 = PSandboxCreate k prompt ∧ o = Rejected err)
       ∨ (p0 = PRunImport k ∧ o = Resolved
          ∧ ∃ it, injected s' = injected s ++ [it] ∧ metaTaskId it = k))
  ∧ (∀ ls, Forall (fun l => chatLabel l = false) ls ->
       run cfg sandboxPreviewUrl ls init = Some s ->
       ∀ k,
         (length (itemsOf k s) <= 1)%nat
         ∧ ∀ it, it ∈ itemsOf k s ->
             (∃ t, tasks s !! k = Some t
                   ∧ (status t = completed ∧ metaType it = task_result
                      ∨ status t = failed ∧ metaType it = task_failed
                      ∨ status t = cancelled ∧ metaType it = task_cancelled))
             ∧ ∀ pid p, procs s !! pid = Some p -> busyProc p ≠ Some k)
  ∧ (injectionQueue s = false -> injected s = []).
Proof.
  intros Hreach.
  destruct (reachable_queueOk cfg sandboxPreviewUrl s Hreach) as [Hok Hq].
  assert (∀ l s', step cfg sandboxPreviewUrl l s = Some s' ->
            injected s' = injected s ++ coreInjected l s) as Hinj.
  { intros l s' Hstep.
    by destruct (step_shape cfg sandboxPreviewUrl l s s' Hstep)
      as [(popped & rest & _ & _ & _ & _ & _ & Hi) _]. }
  assert (∀ pid o p0 s', step cfg sandboxPreviewUrl (Settle pid o) s = Some s' ->
            procs s !! pid = Some p0 ->
            procs s' !! pid = Some (settleProc sandboxPreviewUrl p0 o s)) as Hat.
  { intros pid o p0 s' Hstep Hp0.
    rewrite (procs_step_at cfg sandboxPreviewUrl _ s s' pid p0 Hstep Hp0).
    by apply coreProcs_at. }
  split; [|split; [|split; [|split; [|split; [|split; [|split]]]]]].
  - intros l s' Hstep. rewrite (Hinj l s' Hstep).
    destruct (coreInjected_cases l s Hok)
      as [-> | (pid & p & k & t & it & -> & Hp & _ & Ht & -> & Hid & Hkind)].
    + left. by rewrite app_nil_r.
    + right. exists pid, p, k, t, it.
      split; [done|]. split; [done|]. split; [done|]. split; [done|]. split; [done|].
      destruct Hkind as [(-> & Hm & Hty) | Hkind]; [|by right].
      left. split; [done|]. split; [done|]. rewrite Hty.
      split; [by destruct (status t)|done].
  - intros pid p k ls s2 Hset Hp Ho Hrun.
    apply (owing_run cfg sandboxPreviewUrl ls s s2 pid p k Hreach Hset Hrun Hp Ho).
  - intros pid p k Hp Himp.
    destruct (ok_running s Hq p k (list_elem_of_lookup_2 _ _ _ Hp)
                (importing_busy p k Himp)) as (t & Ht & _).
    assert (∃ s', step cfg sandboxPreviewUrl (Settle pid Resolved) s = Some s') as [s' Hstep].
    { cbn [BgTaskRunner.step]. unfold settle. rewrite Hp.
      destruct p; cbn in Himp; simplify_eq; eauto. }
    exists s'. rewrite (Hinj _ s' Hstep), (Hat pid Resolved p s' Hstep Hp).
    unfold coreInjected. rewrite Hp.
    destruct p; cbn in Himp; simplify_eq; rewrite Ht; cbn;
      (eexists; split; [done|]; split; [done|]; split; [by apply (ok_id s Hok)|done]).
  - intros k message Hacc. unfold chatAsync in *.
    destruct (chatGuard k s) as [[err s0]|] eqn:Hg; [done|].
    assert (is_Some (tasks s !! k)) as [t Ht].
    { unfold chatGuard in Hg. destruct (tasks s !! k); [eauto|done]. }
    unfold statusOf. rewrite Ht. cbn. exists (status t).
    unfold chatEnter. by rsimpl.
  - intros pid k previous o s' Hset Hp Hstep.
    rewrite (Hinj _ s' Hstep), (Hat pid o _ s' Hstep Hp).
    unfold coreInjected. rewrite Hp.
    cbn [BgTaskRunner.step] in Hstep. unfold settle in Hstep. rewrite Hp in Hstep.
    destruct o; try done; cbn; rewrite Hset, ?app_nil_r; (split; [done|]);
      eauto 10.
  - intros pid o p0 k s' Hset Hstep Hp0 Hr Hdone.
    rewrite (Hat pid o p0 s' Hstep Hp0) in Hdone.
    injection Hdone as Hdone.
    destruct (ok_running s Hq p0 k (list_elem_of_lookup_2 _ _ _ Hp0)
                (runProc_busyProc p0 k Hr)) as (t & Ht & _).
    destruct p0; cbn in Hr; simplify_eq; cbn in Hdone.
    + destruct o; try done. eauto.
    + destruct o; try done. rewrite Ht in Hdone. cbn in Hdone. rewrite Hset in Hdone.
      by repeat case_match.
    + destruct o; try done; rewrite Ht in Hdone; cbn in Hdone; rewrite ?Hset in Hdone;
        by repeat case_match.
    + rewrite Hset in Hdone. by destruct o.
    + destruct o; try done. right. split; [done|]. split; [done|].
      rewrite (Hinj _ s' Hstep). cbn. rewrite Hp0, Ht. cbn.
      eexists. split; [done|]. by apply (ok_id s Hok).
  - intros ls Hls Hrun k.
    destruct (announcedOk_run cfg sandboxPreviewUrl ls s Hls Hrun)
      as [Hbusy _ _ Hitem].
    split.
    + destruct (itemsOf k s) as [|it rest] eqn:E; [cbn; lia|].
      destruct (Hitem k it) as [Hone _]; [rewrite E; by left|].
      rewrite E in Hone. injection Hone as ->. cbn. lia.
    + intros it Hin. destruct (Hitem k it Hin) as (Hone & t & Ht & Hterm & Hty). split.
      * exists t. split; [done|]. rewrite Hty. destruct (status t); cbn in *; auto; done.
      * intros pid p Hp Hb. rewrite (Hbusy pid p k Hp Hb) in Hin. by inversion Hin.
  - intros Hnone. by destruct (reachable_quiet cfg sandboxPreviewUrl s Hreach Hnone).
Qed.

Lemma announcements_witness :
  match run oneAtATime noPreview failedAndCancelled init with
  | Some s =>
      map (fun it => (metaTaskId it, metaType it)) (injected s)
      = [("A", task_failed); ("B", task_cancelled)]
      ∧ (length (itemsOf "A" s) <= 1)%nat
  | None => False
  end
  ∧ match run oneAtATime noPreview chatStarted init with
    | Some s =>
        procs s !! 1%nat = Some (PChatAsyncComplete "A" completed)
        ∧ ∃ it, enqueuedBy oneAtATime noPreview 1 chatAnswered s = [it]
                ∧ metaTaskId it = "A" ∧ chatType (metaType it) = true
    | None => False
    end.
Proof.
  split.
  - destruct (run oneAtATime noPreview failedAndCancelled init) as [s|] eqn:E;
      [|vm_compute in E; discriminate E].
    split.
    + vm_compute in E. injection E as <-. vm_compute. reflexivity.
    + assert (Hreach : reachable oneAtATime noPreview s)
        by (exists failedAndCancelled; exact E).
      destruct (announcements oneAtATime noPreview s Hreach)
        as (_ & _ & _ & _ & _ & _ & H & _).
      apply (H failedAndCancelled); [|exact E].
      repeat constructor.
  - destruct (run oneAtATime noPreview chatStarted init) as [s|] eqn:E;
      [|vm_compute in E; discriminate E].
    assert (Hreach : reachable oneAtATime noPreview s) by (exists chatStarted; exact E).
    assert (Hs : injectionQueue s = true
                 ∧ procs s !! 1%nat = Some (PChatAsyncComplete "A" completed)
                 ∧ ∃ s2, run oneAtATime noPreview chatAnswered s = Some s2
                         ∧ procs s2 !! 1%nat = Some PDone).
    { vm_compute in E. injection E as <-. split; [reflexivity|]. split; [reflexivity|].
      eexists. split; vm_compute; reflexivity. }
    clear E. destruct Hs as (Hset & Hp & s2 & Hrun & Hdone).
    split; [exact Hp|].
    destruct (announcements oneAtATime noPreview s Hreach) as (_ & H & _).
    destruct (H 1%nat _ "A" chatAnswered s2 Hset Hp eq_refl Hrun)
      as [(p2 & Hp2 & Ho & _) | (_ & it & Hit & Hid & Hkind)].
    + rewrite Hdone in Hp2. injection Hp2 as <-. discriminate Ho.
    + exists it. split; [exact Hit|]. split; [exact Hid|exact Hkind].
Defined.

(** ** Further properties of the runner *)

Section Records.

Variable cfg : BgTaskConfig.
Variable sandboxPreviewUrl : option string -> option string.

Abbreviation effect := (effect cfg sandboxPreviewUrl).
Abbreviation coreTasks := (coreTasks cfg sandboxPreviewUrl).
Abbreviation step := (step cfg sandboxPreviewUrl).
Abbreviation run := (run cfg sandboxPreviewUrl).
Abbreviation reachable := (reachable cfg sandboxPreviewUrl).

Lemma run_static ls s s' k t :
  run ls s = Some s' -> tasks s !! k = Some t ->
  ∃ t', tasks s' !! k = Some t' ∧ static t' = static t.
Proof.
  revert s t. induction ls as [|l ls IH]; intros s t Hrun Hk.
  - cbn in Hrun. simplify_eq. eauto.
  - cbn in Hrun.
    destruct (BgTaskRunner.step cfg sandboxPreviewUrl l s) as [s1|] eqn:Hstep; [|done].
    destruct (step_static cfg sandboxPreviewUrl l s s1 k t Hstep Hk) as (t1 & Ht1 & Hs1).
    destruct (IH s1 t1 Hrun Ht1) as (t' & Ht' & Hs'). exists t'. split; [done|congruence].
Qed.

Lemma step_not_queued l s s' k t :
  tasksOk s -> step l s = Some s' ->
  tasks s !! k = Some t -> status t ≠ queued ->
  ∃ t', tasks s' !! k = Some t' ∧ status t' ≠ queued.
Proof.
  intros Hok Hstep Hk Hne.
  destruct (core_not_queued cfg sandboxPreviewUrl l s s' k t Hok Hstep Hk Hne)
    as (t0 & Ht0 & Hne0).
  destruct (step_shape cfg sandboxPreviewUrl l s s' Hstep)
    as [(popped & rest & _ & _ & _ & -> & _ & _) _].
  destruct (decide (k ∈ map qtask popped)).
  - rewrite lookup_startAll_in, Ht0 by done. cbn. eauto.
  - rewrite lookup_startAll_notin by done. eauto.
Qed.

Lemma run_not_queued ls s s' k t :
  reachable s -> run ls s = Some s' ->
  tasks s !! k = Some t -> status t ≠ queued ->
  ∃ t', tasks s' !! k = Some t' ∧ status t' ≠ queued.
Proof.
  revert s t. induction ls as [|l ls IH]; intros s t Hreach Hrun Hk Hne.
  - cbn in Hrun. simplify_eq. eauto.
  - cbn in Hrun.
    destruct (BgTaskRunner.step cfg sandboxPreviewUrl l s) as [s1|] eqn:Hstep; [|done].
    destruct (step_not_queued l s s1 k t (reachable_tasksOk cfg sandboxPreviewUrl s Hreach)
                Hstep Hk Hne) as (t1 & Ht1 & Hne1).
    apply (IH s1 t1); [by eapply reachable_step|done..].
Qed.

(** Without a chat turn, [cancelled] and [failed] are final, with the error
    and the reason recorded. *)
Lemma monitors_settled ps i ev t :
  settled (status t) = true ->
  let t' := foldl (fun a p => monitorT p i ev a) t ps in
  status t' = status t ∧ error t' = error t ∧ cancelReason t' = cancelReason t.
Proof.
  revert t. induction ps as [|p ps IH]; intros t Hs; [done|].
  cbn. assert (status (monitorT p i ev t) = status t
               ∧ error (monitorT p i ev t) = error t
               ∧ cancelReason (monitorT p i ev t) = cancelReason t) as (H1 & H2 & H3).
  { unfold monitorT, runMonitorT, chatMonitorT, failRunning.
    repeat case_match; cbn; try done;
      match goal with H : bool_decide _ = true |- _ =>
        apply bool_decide_eq_true_1 in H; cbn in H; rewrite H in Hs; done end. }
  destruct (IH (monitorT p i ev t)) as (H4 & H5 & H6); [by rewrite H1|].
  cbv zeta in H4, H5, H6. by rewrite H4, H5, H6.
Qed.

Lemma effect_settled l s t :
  chatLabel l = false ->
  (∀ p, p ∈ procs s -> chatProc p = false) ->
  settled (status t) = true ->
  status (effect l s t) = status t
  ∧ error (effect l s t) = error t
  ∧ cancelReason (effect l s t) = cancelReason t.
Proof.
  intros Hl Hnc Hs.
  destruct l as [| |i r| |i|i|i m|i m|i|i ev|pid o]; try done.
  - cbn. unfold cancelT. destruct (status t) eqn:E; done.
  - cbn. by destruct (hasAgent s i).
  - cbn. unfold failRunning. rewrite bool_decide_eq_false_2; [done|].
    intros Hr. by rewrite Hr in Hs.
  - cbn. by apply monitors_settled.
  - unfold RunnerSpec.effect.
    destruct (procs s !! pid) as [p|] eqn:Ep; [|done].
    specialize (Hnc p (list_elem_of_lookup_2 _ _ _ Ep)).
    destruct p, o; try done; cbn in Hnc; try done;
      unfold pausedT, finallyT, afterLoopT, catchT; rewrite Hs;
      repeat case_match; done.
Qed.

Lemma step_settled l s s' k t :
  chatLabel l = false ->
  (∀ p, p ∈ procs s -> chatProc p = false) ->
  tasksOk s -> queueOk s -> step l s = Some s' ->
  tasks s !! k = Some t -> settled (status t) = true ->
  ∃ t', tasks s' !! k = Some t' ∧ status t' = status t
        ∧ error t' = error t ∧ cancelReason t' = cancelReason t.
Proof.
  intros Hl Hnc Hok Hq Hstep Hk Hs.
  assert (∃ t0, coreTasks l s !! k = Some t0 ∧ status t0 = status t
                ∧ error t0 = error t ∧ cancelReason t0 = cancelReason t)
    as (t0 & Ht0 & H1 & H2 & H3).
  { destruct (decide (target l s = Some k)) as [Htg|Htg].
    - rewrite lookup_coreTasks_target by done.
      destruct l; try (rewrite Hk; cbn [fmap option_fmap option_map];
                       eexists; split; [done|]; by apply effect_settled).
      cbn in Htg. simplify_eq. cbn in Hstep. by rewrite Hk in Hstep.
    - rewrite lookup_coreTasks_other by done. eauto 10. }
  exists t0. split; [|done].
  eapply not_popped; [done..|]. rewrite H1. intros Hq0. by rewrite Hq0 in Hs.
Qed.

End Records.

(** X7: No operation of the runner deletes a task record or assigns to its
    [id], [templateId], [description], [priority], [prompt], [skills],
    [retryCount], [redoHistory] or [resourceLimits]. *)
Theorem task_records_persist
    (cfg : BgTaskConfig) (sandboxPreviewUrl : option string -> option string)
    (ls : list Label) (s s' : Runner) (k : string) (t : BgTask) :
  run cfg sandboxPreviewUrl ls s = Some s' ->
  tasks s !! k = Some t ->
  ∃ t', tasks s' !! k = Some t'
    ∧ id t' = id t ∧ templateId t' = templateId t
    ∧ description t' = description t ∧ priority t' = priority t
    ∧ prompt t' = prompt t ∧ skills t' = skills t
    ∧ retryCount t' = retryCount t ∧ redoHistory t' = redoHistory t
    ∧ resourceLimits t' = resourceLimits t.
Proof.
  intros Hrun Hk.
  destruct (run_static cfg sandboxPreviewUrl ls s s' k t Hrun Hk) as (t' & Ht' & Hs).
  exists t'. split; [done|]. unfold static in Hs. by simplify_eq.
Qed.

Lemma task_records_persist_witness :
  match run oneAtATime noPreview fourWaiting init with
  | Some s =>
      match run oneAtATime noPreview
              [Cancel "B" None; Settle 0 Resolved; Settle 0 Resolved;
               IdleTimer "A"] s with
      | Some s' => priority <$> tasks s' !! "B" = Some low
      | None => False
      end
  | None => False
  end.
Proof.
  destruct (run oneAtATime noPreview fourWaiting init) as [s|] eqn:E;
    [|vm_compute in E; discriminate E].
  assert (Hb : ∃ t, tasks s !! "B" = Some t ∧ priority t = low).
  { vm_compute in E. injection E as <-. eexists. split; [vm_compute; reflexivity|done]. }
  destruct Hb as (t & Ht & Hp).
  destruct (run oneAtATime noPreview _ s) as [s'|] eqn:E'.
  - destruct (task_records_persist oneAtATime noPreview _ s s' "B" t E' Ht)
      as (t' & Ht' & _ & _ & _ & Hp' & _).
    rewrite Ht'. cbn. by rewrite Hp', Hp.
  - vm_compute in E. injection E as <-. vm_compute in E'. discriminate E'.
Defined.

(** X8: The pending queue and the launch log of a reachable state: no task is
    dispatched twice, none is both dispatched and waiting, the queue holds
    exactly the tasks whose status is queued, each once, and a dispatched
    task is not queued. *)
Theorem queue_holds_the_queued_tasks
    (cfg : BgTaskConfig) (sandboxPreviewUrl : option string -> option string)
    (s : Runner) :
  reachable cfg sandboxPreviewUrl s ->
  NoDup (launched s ++ map qtask (pendingQueue s))
  ∧ (∀ k, k ∈ map qtask (pendingQueue s) ↔ statusOf s k = Some queued)
  ∧ (∀ k, k ∈ launched s -> ∃ t, tasks s !! k = Some t ∧ status t ≠ queued).
Proof.
  intros Hreach.
  destruct (reachable_queueOk cfg sandboxPreviewUrl s Hreach) as [Hok Hq].
  split; [apply Hq|]. split; [|apply Hq].
  intros k. split.
  - intros (q & -> & Hin)%list_elem_of_fmap. by apply Hq.
  - unfold statusOf. intros Hs. destruct (tasks s !! k) as [t|] eqn:Et; [|done].
    cbn in Hs. injection Hs as Hs.
    by eapply (reachable_queued_waits cfg sandboxPreviewUrl).
Qed.

Lemma queue_holds_the_queued_tasks_witness :
  match run oneAtATime noPreview fourWaiting init with
  | Some s => statusOf s "E" = Some queued ∧ "E" ∈ map qtask (pendingQueue s)
  | None => False
  end.
Proof.
  destruct (run oneAtATime noPreview fourWaiting init) as [s|] eqn:E;
    [|vm_compute in E; discriminate E].
  assert (Hs : statusOf s "E" = Some queued).
  { vm_compute in E. injection E as <-. vm_compute. reflexivity. }
  split; [exact Hs|].
  assert (Hreach : reachable oneAtATime noPreview s) by (exists fourWaiting; exact E).
  destruct (queue_holds_the_queued_tasks oneAtATime noPreview s Hreach) as (_ & H & _).
  apply H. exact Hs.
Defined.

(** X9: At most one run of a task is in flight (from the creation of its
    sandbox to the import in its [finally]), and only of a task that was
    dispatched. *)
Theorem one_run_per_task
    (cfg : BgTaskConfig) (sandboxPreviewUrl : option string -> option string)
    (s : Runner) :
  reachable cfg sandboxPreviewUrl s ->
  (∀ pid p k, procs s !! pid = Some p -> runProc p = Some k ->
     k ∈ launched s ∧ ∃ t, tasks s !! k = Some t ∧ status t ≠ queued)
  ∧ (∀ pid1 pid2 p1 p2 k,
       procs s !! pid1 = Some p1 -> procs s !! pid2 = Some p2 ->
       runProc p1 = Some k -> runProc p2 = Some k -> pid1 = pid2).
Proof.
  intros Hreach.
  destruct (reachable_queueOk cfg sandboxPreviewUrl s Hreach) as [Hok Hq].
  destruct (reachable_procsOk cfg sandboxPreviewUrl s Hreach) as [Hl Hu].
  split; [|exact Hu].
  intros pid p k Hp Hr. split; [by eapply Hl|].
  eapply (ok_running s Hq); [by eapply list_elem_of_lookup_2|].
  by apply runProc_busyProc.
Qed.

Lemma one_run_per_task_witness :
  match run oneAtATime noPreview fourWaiting init with
  | Some s => procs s !! 0%nat = Some (PSandboxCreate "A" "do it") ∧ "A" ∈ launched s
  | None => False
  end.
Proof.
  destruct (run oneAtATime noPreview fourWaiting init) as [s|] eqn:E;
    [|vm_compute in E; discriminate E].
  assert (Hs : procs s !! 0%nat = Some (PSandboxCreate "A" "do it")).
  { vm_compute in E. injection E as <-. vm_compute. reflexivity. }
  split; [exact Hs|].
  assert (Hreach : reachable oneAtATime noPreview s) by (exists fourWaiting; exact E).
  destruct (one_run_per_task oneAtATime noPreview s Hreach) as (H & _).
  by destruct (H 0%nat _ "A" Hs eq_refl).
Defined.

(** X10: A task leaves the status queued once: whatever happens after it was
    dispatched or cancelled, it is never queued again. *)
Theorem never_queued_again
    (cfg : BgTaskConfig) (sandboxPreviewUrl : option string -> option string)
    (ls : list Label) (s s' : Runner) (k : string) (t : BgTask) :
  reachable cfg sandboxPreviewUrl s ->
  run cfg sandboxPreviewUrl ls s = Some s' ->
  tasks s !! k = Some t -> status t ≠ queued ->
  ∃ t', tasks s' !! k = Some t' ∧ status t' ≠ queued
        ∧ (k ∉ map qtask (pendingQueue s')).
Proof.
  intros Hreach Hrun Hk Hne.
  destruct (run_not_queued cfg sandboxPreviewUrl ls s s' k t Hreach Hrun Hk Hne)
    as (t' & Ht' & Hne').
  exists t'. split; [done|]. split; [done|].
  intros (q & -> & Hin)%list_elem_of_fmap.
  assert (reachable cfg sandboxPreviewUrl s') as Hreach' by (by eapply reachable_run).
  destruct (reachable_queueOk cfg sandboxPreviewUrl s' Hreach') as [_ Hq'].
  pose proof (ok_pending s' Hq' q Hin) as Hst. unfold statusOf in Hst.
  rewrite Ht' in Hst. cbn in Hst. congruence.
Qed.

Lemma never_queued_again_witness :
  match run oneAtATime noPreview oneWaiting init with
  | Some s =>
      match run oneAtATime noPreview
              [Settle 0 (Rejected "no sandbox"); ChatAsync "A" "hello";
               Start "C" "executor" "do it" "a third" None] s with
      | Some s' => "A" ∉ map qtask (pendingQueue s')
      | None => False
      end
  | None => False
  end.
Proof.
  destruct (run oneAtATime noPreview oneWaiting init) as [s|] eqn:E;
    [|vm_compute in E; discriminate E].
  assert (Ha : ∃ t, tasks s !! "A" = Some t ∧ status t = running).
  { vm_compute in E. injection E as <-. eexists. split; [vm_compute; reflexivity|done]. }
  destruct Ha as (t & Ht & Hst).
  assert (Hreach : reachable oneAtATime noPreview s) by (exists oneWaiting; exact E).
  destruct (run oneAtATime noPreview _ s) as [s'|] eqn:E'.
  - destruct (never_queued_again oneAtATime noPreview _ s s' "A" t Hreach E' Ht)
      as (t' & _ & _ & H); [by rewrite Hst|exact H].
  - vm_compute in E. injection E as <-. vm_compute in E'. discriminate E'.
Defined.

(** X12: Without a chat re-entry, a task that is cancelled or failed keeps its
    status, its error and its cancel reason: the return of its agent, a
    later [cancel], a timer or a limit change none of them. *)
Theorem cancelled_and_failed_are_final
    (cfg : BgTaskConfig) (sandboxPreviewUrl : option string -> option string)
    (ls0 ls : list Label) (s s' : Runner) (k : string) (t : BgTask) :
  Forall (fun l => chatLabel l = false) ls0 ->
  run cfg sandboxPreviewUrl ls0 init = Some s ->
  Forall (fun l => chatLabel l = false) ls ->
  run cfg sandboxPreviewUrl ls s = Some s' ->
  tasks s !! k = Some t ->
  status t = cancelled ∨ status t = failed ->
  ∃ t', tasks s' !! k = Some t' ∧ status t' = status t
        ∧ error t' = error t ∧ cancelReason t' = cancelReason t.
Proof.
  intros Hls0 Hrun0 Hls Hrun Hk Hst.
  assert (settled (status t) = true) as Hs by (by destruct Hst as [-> | ->]).
  clear Hst.
  assert (∀ p, p ∈ procs s -> chatProc p = false) as Hnc.
  { clear Hls Hrun Hk Hs. revert s Hrun0.
    induction ls0 as [|l ls0 IH] using rev_ind; intros s Hrun0.
    - cbn in Hrun0. simplify_eq. intros p Hp. by inversion Hp.
    - apply Forall_app in Hls0 as [Hls0 Hl]. apply Forall_cons in Hl as [Hl _].
      apply run_snoc in Hrun0 as (s1 & Hs1 & Hstep).
      by eapply noChat_step; [| |done]; [done|apply IH]. }
  assert (reachable cfg sandboxPreviewUrl s) as Hreach by (by exists ls0).
  clear Hls0 Hrun0. revert s t Hrun Hk Hs Hnc Hreach.
  induction Hls as [|l ls Hl _ IH]; intros s t Hrun Hk Hs Hnc Hreach.
  - cbn in Hrun. simplify_eq. eauto.
  - cbn in Hrun.
    destruct (BgTaskRunner.step cfg sandboxPreviewUrl l s) as [s1|] eqn:Hstep; [|done].
    destruct (reachable_queueOk cfg sandboxPreviewUrl s Hreach) as [Hok Hq].
    destruct (step_settled cfg sandboxPreviewUrl l s s1 k t Hl Hnc Hok Hq Hstep Hk Hs)
      as (t1 & Ht1 & H1 & H2 & H3).
    destruct (IH s1 t1) as (t' & Ht' & H4 & H5 & H6); try done.
    + by rewrite H1.
    + by eapply noChat_step.
    + by eapply reachable_step.
    + exists t'. split; [done|]. by rewrite H4, H5, H6, H1, H2, H3.
Qed.

Lemma cancelled_and_failed_are_final_witness :
  match run oneAtATime noPreview
          [Start "A" "executor" "do it" "a task" None;
           Settle 0 Resolved; Settle 0 Resolved; Cancel "A" (Some "changed my mind")]
          init with
  | Some s =>
      match run oneAtATime noPreview
              [Settle 0 (CompleteOk (Some "all done")); Settle 0 Resolved] s with
      | Some s' => statusOf s' "A" = Some cancelled
      | None => False
      end
  | None => False
  end.
Proof.
  destruct (run oneAtATime noPreview _ init) as [s|] eqn:E;
    [|vm_compute in E; discriminate E].
  assert (Ha : ∃ t, tasks s !! "A" = Some t ∧ status t = cancelled).
  { vm_compute in E. injection E as <-. eexists. split; [vm_compute; reflexivity|done]. }
  destruct Ha as (t & Ht & Hst).
  destruct (run oneAtATime noPreview _ s) as [s'|] eqn:E'.
  - assert (H0 : Forall (fun l => chatLabel l = false)
                   [Start "A" "executor" "do it" "a task" None;
                    Settle 0 Resolved; Settle 0 Resolved;
                    Cancel "A" (Some "changed my mind")]) by (repeat constructor).
    assert (H1 : Forall (fun l => chatLabel l = false)
                   [Settle 0 (CompleteOk (Some "all done")); Settle 0 Resolved])
      by (repeat constructor).
    destruct (cancelled_and_failed_are_final oneAtATime noPreview _ _ s s' "A" t
                H0 E H1 E' Ht (or_introl Hst)) as (t' & Ht' & Hs' & _).
    unfold statusOf. rewrite Ht'. cbn. by rewrite Hs', Hst.
  - vm_compute in E. injection E as <-. vm_compute in E'. discriminate E'.
Defined.

(** X13: After [disposeAgent], a chat turn with the task is refused, by
    [chatAsync] and by [chat] alike: the answer is an error, [complete] is
    not called, no call is started and the status of the task stays. *)
Theorem chat_refused_after_disposeAgent (k message : string) (s : Runner) :
  let s1 := disposeAgent k s in
  (is_Some (chatAsync k message s1).1
   ∧ completeCalls (chatAsync k message s1).2 = completeCalls s
   ∧ procs (chatAsync k message s1).2 = procs s
   ∧ statusOf (chatAsync k message s1).2 k = statusOf s k)
  ∧ (is_Some (chat k message s1).1
     ∧ completeCalls (chat k message s1).2 = completeCalls s
     ∧ procs (chat k message s1).2 = procs s
     ∧ statusOf (chat k message s1).2 k = statusOf s k).
Proof.
  cbv zeta.
  assert (hasAgent (disposeAgent k s) k = false) as Hgone.
  { unfold disposeAgent. destruct (hasAgent s k) eqn:Hg; [|done].
    unfold hasAgent. rsimpl. apply bool_decide_eq_false_2.
    intros [_ Hn]%elem_of_difference. apply Hn. by apply elem_of_singleton. }
  assert (completeCalls (disposeAgent k s) = completeCalls s
          ∧ procs (disposeAgent k s) = procs s
          ∧ statusOf (disposeAgent k s) k = statusOf s k) as (H1 & H2 & H3).
  { unfold disposeAgent, statusOf. destruct (hasAgent s k); rsimpl; [|done].
    rewrite lookup_alter_eq. by destruct (tasks s !! k). }
  unfold chatAsync, chat, chatGuard. rewrite Hgone.
  destruct (tasks (disposeAgent k s) !! k) as [t|] eqn:Et; cbn [negb].
  - case_bool_decide; cbn [negb fst snd]; rsimpl; rewrite ?H1, ?H2, <- ?H3.
    + unfold statusOf. rsimpl. rewrite lookup_alter_eq, Et. cbn. eauto 10.
    + eauto 10.
  - cbn [fst snd]. rewrite H1, H2, H3. eauto 10.
Qed.


(** ** bg_task_redo and bg_task_retry *)

Import BgTaskTools.

(** [start] leaves the record of a task that is not queued as it is. *)
Lemma start_keeps cfg (sandboxPreviewUrl : option string -> option string)
    newId templateId prompt description opts s k t :
  reachable cfg sandboxPreviewUrl s ->
  tasks s !! newId = None ->
  tasks s !! k = Some t -> status t ≠ queued ->
  tasks (start cfg newId templateId prompt description opts s) !! k = Some t.
Proof.
  intros Hreach Hfresh Hk Hst.
  destruct (reachable_queueOk cfg sandboxPreviewUrl s Hreach) as [_ Hq].
  destruct (shape_start cfg sandboxPreviewUrl newId templateId prompt description opts s)
    as [(popped & rest & Hcq & _ & _ & Ht & _ & _) _].
  rewrite Ht. assert (k ≠ newId) as Hne by congruence.
  rewrite lookup_startAll_notin.
  - unfold coreTasks. by rewrite lookup_insert_ne.
  - intros (q & -> & Hin)%list_elem_of_fmap.
    assert (q ∈ popped ++ rest) as Hin' by (apply elem_of_app; by left).
    rewrite <- Hcq in Hin'. unfold coreQueue in Hin'.
    rewrite sortBy_perm in Hin'. apply elem_of_app in Hin' as [Hin'|Hin'].
    + pose proof (ok_pending s Hq q Hin') as Hs. unfold statusOf in Hs.
      rewrite Hk in Hs. cbn in Hs. congruence.
    + apply list_elem_of_singleton in Hin'. by subst q.
Qed.

(** X15: [bg_task_redo] answers [ok: true] only for a completed task.  It then
    starts exactly one new task and leaves the record of the original as it
    is.  The new task has the template, priority, resource limits, skills
    and [retryCount] of the original; its redo history is the original's
    with the feedback appended; its prompt is the original prompt followed
    by the feedback and the previous result (or [(无结果)] when there is
    none); its description ends in [" (redo #N)"], [N] being the length of
    the new history, which is also the [redoCount] of the answer.  For a
    task in another status and for an unknown id the answer is
    [ok: false] and nothing changes. *)
Theorem bg_task_redo_spec
    (cfg : BgTaskConfig) (sandboxPreviewUrl : option string -> option string)
    (slice2000 : string -> string)
    (newId taskId feedback : string) (s : Runner) :
  reachable cfg sandboxPreviewUrl s ->
  tasks s !! newId = None ->
  let r := (bg_task_redo slice2000 cfg newId taskId feedback s).1 in
  let s' := (bg_task_redo slice2000 cfg newId taskId feedback s).2 in
  match tasks s !! taskId with
  | Some task =>
      if bool_decide (status task = completed)
      then
        r = RedoOk taskId newId (length (redoHistory task) + 1)
              ("任务已打回重做，新 ID: " +:+ newId)
        ∧ dom (tasks s') = {[newId]} ∪ dom (tasks s)
        ∧ tasks s' !! taskId = Some task
        ∧ ∃ t, tasks s' !! newId = Some t
             ∧ redoHistory t = (redoHistory task ++ [feedback])%list
             ∧ retryCount t = retryCount task
             ∧ prompt t =
                 String.concat nl
                   [prompt task; ""; "# 上一次结果被打回"; "反馈: " +:+ feedback;
                    "上次输出:"; default "(无结果)" (slice2000 <$> result task);
                    ""; "请根据反馈重做，确保改进上述问题。"]
             ∧ priority t = priority task
             ∧ resourceLimits t = resourceLimits task
             ∧ skills t = skills task
             ∧ description t =
                 (description task +:+ " (redo #"
                  +:+ pretty (length (redoHistory task) + 1)%nat +:+ ")")
             ∧ templateId t = templateId task
             ∧ (status t = queued ∨ status t = running)
      else redoOk r = false ∧ s' = s
  | None => redoOk r = false ∧ s' = s
  end%string.
Proof.
  intros Hreach Hfresh r s'. subst r s'. unfold bg_task_redo.
  destruct (tasks s !! taskId) as [task|] eqn:Etask; [|done].
  pose proof (reachable_tasksOk cfg sandboxPreviewUrl s Hreach) as Hok.
  destruct (ok_limits s Hok taskId task Etask) as [[mt Hmt] [ms Hms]].
  case_bool_decide as Hst; cbn [negb fst snd]; [|done].
  rewrite length_app. cbn [length].
  split; [done|].
  match goal with |- context [start _ ?a ?b ?c ?d ?e _] =>
    destruct (start_creates cfg sandboxPreviewUrl a b c d e s)
      as (Hdom & _ & t & Ht & Hstatic & Hstatus);
    pose proof (start_keeps cfg sandboxPreviewUrl a b c d e s taskId task
                  Hreach Hfresh Etask) as Hkeep
  end.
  split; [done|]. split; [apply Hkeep; congruence|].
  exists t. split; [done|].
  unfold static in Hstatic. cbn in Hstatic.
  injection Hstatic as _ H1 H2 H3 H4 H5 H6 H7 H8.
  rewrite H1, H2, H3, H4, H5, H6, H7, H8.
  repeat split; try done.
  destruct (resourceLimits task) as [a b c]. cbn in *. by simplify_eq.
Qed.

Lemma bg_task_redo_spec_witness :
  match run oneAtATime noPreview
          [Start "A" "executor" "do it" "a task" None;
           Settle 0 Resolved; Settle 0 Resolved;
           Settle 0 (CompleteOk (Some "all done"))] init with
  | Some s =>
      ∃ t, tasks (bg_task_redo (fun r => r) oneAtATime "R" "A" "too short" s).2 !! "R"
           = Some t
         ∧ redoHistory t = ["too short"]
         ∧ description t = "a task (redo #1)"
  | None => False
  end.
Proof.
  destruct (run oneAtATime noPreview _ init) as [s|] eqn:E;
    [|vm_compute in E; discriminate E].
  assert (Hreach : reachable oneAtATime noPreview s) by (eexists; exact E).
  assert (Hfresh : tasks s !! "R" = None)
    by (vm_compute in E; injection E as <-; reflexivity).
  assert (Htask : ∃ task, tasks s !! "A" = Some task ∧ status task = completed
                          ∧ redoHistory task = [] ∧ description task = "a task").
  { vm_compute in E. injection E as <-. eexists. split; [vm_compute; reflexivity|].
    repeat split. }
  clear E. destruct Htask as (task & Etask & Est & Erh & Ede).
  pose proof (bg_task_redo_spec oneAtATime noPreview (fun r => r) "R" "A" "too short" s
                Hreach Hfresh) as H.
  cbv zeta in H. rewrite Etask in H. rewrite bool_decide_eq_true_2 in H by exact Est.
  destruct H as (_ & _ & _ & t & Ht & H1 & _ & _ & _ & _ & _ & H2 & _).
  exists t. split; [exact Ht|]. rewrite H1, H2, Erh, Ede. split; reflexivity.
Defined.

(** X16: A retry carries the redo history over and leaves the record of the
    original as it is: the feedback of earlier redos is not lost when a
    redone task fails and is retried. *)
Theorem retry_keeps_the_redo_history
    (cfg : BgTaskConfig) (sandboxPreviewUrl : option string -> option string)
    (newId taskId : string) (modifiedPrompt : option string)
    (s : Runner) (task : BgTask) :
  reachable cfg sandboxPreviewUrl s ->
  tasks s !! newId = None ->
  tasks s !! taskId = Some task ->
  status task = failed ∨ status task = cancelled ->
  let s' := (bg_task_retry cfg newId taskId modifiedPrompt s).2 in
  tasks s' !! taskId = Some task
  ∧ ∃ t, tasks s' !! newId = Some t ∧ redoHistory t = redoHistory task.
Proof.
  intros Hreach Hfresh Etask Hst s'. subst s'. unfold bg_task_retry.
  rewrite Etask.
  assert (negb (bool_decide (status task = failed))
          && negb (bool_decide (status task = cancelled)) = false) as ->.
  { destruct Hst as [-> | ->]; by cbn. }
  cbn [snd].
  match goal with |- context [start _ ?a ?b ?c ?d ?e _] =>
    destruct (start_creates cfg sandboxPreviewUrl a b c d e s)
      as (_ & _ & t & Ht & Hstatic & _);
    pose proof (start_keeps cfg sandboxPreviewUrl a b c d e s taskId task
                  Hreach Hfresh Etask) as Hkeep
  end.
  split; [apply Hkeep; destruct Hst; congruence|].
  exists t. split; [done|].
  unfold static in Hstatic. cbn in Hstatic. by injection Hstatic as _ _ _ _ _ _ _ ? _.
Qed.

Lemma retry_keeps_the_redo_history_witness :
  match run oneAtATime noPreview
          [Start "A" "executor" "do it" "a task"
             (Some (mkOpts None None None None (Some ["too short"])));
           Cancel "A" None] init with
  | Some s =>
      ∃ t, tasks (bg_task_retry oneAtATime "R" "A" None s).2 !! "R" = Some t
         ∧ redoHistory t = ["too short"]
  | None => False
  end.
Proof.
  destruct (run oneAtATime noPreview _ init) as [s|] eqn:E;
    [|vm_compute in E; discriminate E].
  assert (Hreach : reachable oneAtATime noPreview s) by (eexists; exact E).
  assert (Hfresh : tasks s !! "R" = None)
    by (vm_compute in E; injection E as <-; reflexivity).
  assert (Htask : ∃ task, tasks s !! "A" = Some task ∧ status task = cancelled
                          ∧ redoHistory task = ["too short"]).
  { vm_compute in E. injection E as <-. eexists. split; [vm_compute; reflexivity|].
    repeat split. }
  clear E. destruct Htask as (task & Etask & Est & Erh).
  destruct (retry_keeps_the_redo_history oneAtATime noPreview "R" "A" None s task
              Hreach Hfresh Etask (or_intror Est)) as (_ & t & Ht & H1).
  exists t. split; [exact Ht|]. by rewrite H1, Erh.
Defined.

(** ** The step limit *)

Import StepsSpec.

Ltac live_cases :=
  repeat match goal with
         | H : bool_decide _ = true |- _ => apply bool_decide_eq_true_1 in H
         end;
  let H := fresh in
  intros H;
  first [ tauto
        | destruct H as [H|[H|H]];
          first [ discriminate | congruence | tauto | (left; congruence)
                | (right; left; congruence) | (right; right; congruence) ] ].

Ltac exfalso_unless_settle l H :=
  destruct l as [| | | | | | | | | |pid o];
  [by destruct H | by destruct H | exfalso | by destruct H
  | by destruct H | exfalso | exfalso | exfalso | exfalso | exfalso | ].

Section Steps.

Variable cfg : BgTaskConfig.
Variable sandboxPreviewUrl : option string -> option string.

Abbreviation effect := (effect cfg sandboxPreviewUrl).
Abbreviation coreTasks := (coreTasks cfg sandboxPreviewUrl).
Abbreviation coreQueue := (coreQueue cfg sandboxPreviewUrl).
Abbreviation coreProcs := (coreProcs sandboxPreviewUrl).
Abbreviation step := (step cfg sandboxPreviewUrl).
Abbreviation run := (run cfg sandboxPreviewUrl).
Abbreviation reachable := (reachable cfg sandboxPreviewUrl).

Lemma preRun_busy p k : preRun p = Some k -> busyProc p = Some k.
Proof. by destruct p. Qed.

Lemma preRun_run p k : preRun p = Some k -> runProc p = Some k.
Proof. by destruct p. Qed.

Lemma chatting_busy p k : chatting p = Some k -> busyProc p = Some k.
Proof. by destruct p. Qed.

Lemma preRun_settleProc p o s k :
  preRun (settleProc sandboxPreviewUrl p o s) = Some k -> preRun p = Some k.
Proof. unfold settleProc, runNext. repeat case_match; simplify_eq; cbn; congruence. Qed.

Lemma chatting_settleProc p o s k :
  chatting (settleProc sandboxPreviewUrl p o s) = Some k ->
  settleProc sandboxPreviewUrl p o s = p.
Proof. unfold settleProc, runNext. repeat case_match; simplify_eq; cbn; congruence. Qed.

Lemma steps_static t t' :
  static t' = static t -> maxSteps (resourceLimits t') = maxSteps (resourceLimits t).
Proof. by intros [= _ _ _ _ _ _ _ _ ->]. Qed.

(** The listeners of a chat turn do not count steps, and no listener but
    the one of the run touches the status. *)
Lemma monitorT_no_run p i ev t :
  (∀ input, p ≠ PComplete i input) ->
  steps (resourceUsage (monitorT p i ev t)) = steps (resourceUsage t)
  ∧ status (monitorT p i ev t) = status t.
Proof.
  intros Hp. unfold monitorT, chatMonitorT.
  destruct p; try done.
  - destruct (String.eqb_spec taskId i) as [->|]; [by destruct (Hp currentInput)|done].
  - case_match; [|done]. by destruct ev.
  - case_match; [|done]. by destruct ev.
  - case_match; [|done]. by destruct ev.
  - case_match; [|done]. by destruct ev.
Qed.

Lemma monitors_no_run ps i ev t :
  (∀ p, p ∈ ps -> ∀ input, p ≠ PComplete i input) ->
  let t' := foldl (fun a p => monitorT p i ev a) t ps in
  steps (resourceUsage t') = steps (resourceUsage t) ∧ status t' = status t.
Proof.
  revert t. induction ps as [|p ps IH]; intros t Hps; [done|].
  cbn. destruct (IH (monitorT p i ev t)) as [H1 H2].
  { intros q Hq. apply Hps. by right. }
  destruct (monitorT_no_run p i ev t) as [H3 H4]; [apply Hps; by left|].
  cbv zeta in H1, H2. by rewrite H1, H2, H3, H4.
Qed.

(** The listener of a run keeps a running task below its step limit. *)
Lemma monitorT_steps p i ev t lim :
  maxSteps (resourceLimits t) = Some lim -> 0 < lim ->
  (status t = running -> steps (resourceUsage t) < lim) ->
  status (monitorT p i ev t) = running ->
  steps (resourceUsage (monitorT p i ev t)) < lim.
Proof.
  intros Hm Hpos Ht.
  destruct p; try done; cbn; try (case_match; [|done]).
  - destruct ev; cbn; [| |done].
    + unfold reached, failRunning. cbn. repeat case_match; cbn; try congruence; auto.
    + unfold reached, failRunning. cbn. rewrite Hm. cbn.
      destruct (lim =? 0) eqn:E0; [lia|]. cbn.
      destruct (lim <=? steps (resourceUsage t) + 1) eqn:E1.
      * case_bool_decide; cbn; congruence.
      * cbn. lia.
  - by destruct ev.
  - by destruct ev.
  - by destruct ev.
  - by destruct ev.
Qed.

Lemma monitors_steps ps i ev t lim :
  maxSteps (resourceLimits t) = Some lim -> 0 < lim ->
  (status t = running -> steps (resourceUsage t) < lim) ->
  let t' := foldl (fun a p => monitorT p i ev a) t ps in
  status t' = running -> steps (resourceUsage t') < lim.
Proof.
  revert t. induction ps as [|p ps IH]; intros t Hm Hpos Ht; [done|].
  cbn. apply IH.
  - by rewrite (steps_static _ _ (monitorT_static p i ev t)).
  - done.
  - by apply monitorT_steps.
Qed.

Lemma run_or_not (ps : list Proc) i :
  (∃ p input, p ∈ ps ∧ p = PComplete i input)
  ∨ (∀ p, p ∈ ps -> ∀ input, p ≠ PComplete i input).
Proof.
  induction ps as [|p ps [(q & input & Hq & ->)|IH]].
  - right. intros p Hp. by inversion Hp.
  - left. exists (PComplete i input), input. split; [by right|done].
  - destruct p; try (right; intros q [->|Hq]%elem_of_cons; [done|by apply IH]).
    destruct (decide (taskId = i)) as [->|Hne].
    + left. eexists _, _. split; [by left|done].
    + right. intros q [->|Hq]%elem_of_cons; [congruence|by apply IH].
Qed.

(** What makes a task live. *)
Lemma effect_live l s k t :
  target l s = Some k ->
  (∀ i ev, l ≠ AgentEmits i ev) ->
  live (effect l s t) ->
  live t ∨ status t = queued
  ∨ ∃ pid o p0, l = Settle pid o ∧ procs s !! pid = Some p0 ∧ chatting p0 = Some k.
Proof.
  unfold live. intros Htg Hl Hlive.
  destruct l as [| | | | | | | | |i ev|pid o]; try (left; exact Hlive).
  - left. revert Hlive. cbn. unfold cancelT. repeat case_match; cbn; live_cases.
  - left. revert Hlive. cbn. case_match; cbn; live_cases.
  - left. revert Hlive. cbn. unfold chatT. repeat case_match; cbn; live_cases.
  - left. revert Hlive. cbn. unfold chatT. repeat case_match; cbn; live_cases.
  - left. revert Hlive. cbn. unfold failRunning. case_bool_decide; cbn; live_cases.
  - by destruct (Hl i ev).
  - cbn in Htg. revert Hlive. unfold RunnerSpec.effect.
    destruct (procs s !! pid) as [p0|] eqn:Ep; [|tauto]. cbn in Htg.
    destruct (status t) eqn:Est; try tauto.
    all: destruct p0, o; cbn in Htg; simplify_eq; try tauto;
      try (intros _; right; right; exists pid; eauto 10; fail).
    all: unfold pausedT, finallyT, afterLoopT, catchT, chatDoneT; rewrite ?Est; cbn;
      repeat case_match; cbn; rewrite ?Est; cbn; rewrite ?andb_false_r;
      try tauto; live_cases.
Qed.

(** What completes a task or gives it an agent to chat with: the return
    of [complete], in its run or in a chat turn. *)
Lemma effect_completes l s k t :
  target l s = Some k -> tasks s !! k = Some t ->
  status t ≠ completed -> agentAlive t ≠ Some true ->
  status (effect l s t) = completed ∨ agentAlive (effect l s t) = Some true ->
  ∃ pid o p0, l = Settle pid o ∧ procs s !! pid = Some p0
    ∧ (chatting p0 = Some k
       ∨ (runProc p0 = Some k ∧ preRun (settleProc sandboxPreviewUrl p0 o s) = None)).
Proof.
  intros Htg Hk Hst Hag Hdone. exfalso_unless_settle l Hdone.
  - revert Hdone. cbn. unfold cancelT. repeat case_match; cbn; intros [?|?]; congruence.
  - revert Hdone. cbn. case_match; cbn; intros [?|?]; congruence.
  - revert Hdone. cbn. unfold chatT. case_bool_decide; [done|]. intros [?|?]; congruence.
  - revert Hdone. cbn. unfold chatT. case_bool_decide; [done|]. intros [?|?]; congruence.
  - revert Hdone. cbn. unfold failRunning. case_bool_decide; cbn; intros [?|?]; congruence.
  - revert Hdone. cbn. rewrite monitors_agentAlive.
    destruct (monitors_status (procs s) taskId ev t) as [-> | [_ ->]];
      intros [?|?]; congruence.
  - cbn in Htg. revert Hdone. unfold RunnerSpec.effect.
    destruct (procs s !! pid) as [p0|] eqn:Ep; [|intros [?|?]; congruence].
    cbn in Htg. intros Hdone. exists pid, o, p0. split; [done|]. split; [done|].
    destruct (status t) eqn:Est; [| |done| |].
    all: destruct p0, o; cbn in Htg; simplify_eq; cbn;
      try (by left); try (destruct Hdone; congruence);
      try (cbn in Hdone; rewrite ?Est in Hdone; destruct Hdone; congruence).
    all: right; split; [done|].
    all: revert Hdone; unfold settleProc, runNext, pausedT, finallyT, afterLoopT, catchT;
      rewrite Hk; cbn; rewrite ?Est; cbn; repeat case_match; cbn; rewrite ?Est; cbn;
      rewrite ?andb_false_r; try done; intros [?|?]; simplify_eq; try done.
Qed.

Lemma emits_or_not (l : Label) :
  (∃ i ev, l = AgentEmits i ev) ∨ (∀ i ev, l ≠ AgentEmits i ev).
Proof. destruct l; eauto; right; intros; discriminate. Qed.

(** A task after the assignments of a step. *)
Lemma core_task l s s' k t0 :
  step l s = Some s' ->
  coreTasks l s !! k = Some t0 ->
  (∃ t, tasks s !! k = Some t ∧ (t0 = t ∨ (target l s = Some k ∧ t0 = effect l s t)))
  ∨ (∃ templateId prompt description opts,
       l = Start k templateId prompt description opts
       ∧ tasks s !! k = None
       ∧ t0 = newTask cfg k templateId prompt description opts).
Proof.
  intros Hstep Hcore.
  destruct (decide (target l s = Some k)) as [Htg|Htg].
  - rewrite lookup_coreTasks_target in Hcore by done.
    destruct l; try (destruct (tasks s !! k) as [t|]; [|done]; cbn in Hcore;
                     simplify_eq; left; eauto).
    cbn in Htg. simplify_eq. right. cbn in Hstep.
    destruct (tasks s !! k) eqn:E; [done|]. eauto 10.
  - rewrite lookup_coreTasks_other in Hcore by done. left. eauto.
Qed.

Lemma core_preRun l s p k :
  p ∈ coreProcs l s -> preRun p = Some k ->
  ∃ p0, p0 ∈ procs s ∧ preRun p0 = Some k.
Proof.
  intros Hp Hk.
  apply coreProcs_elem in Hp
    as [Hp | [(j & r & _ & -> & _) | [(j & _ & ->) | [(j & m & t & [[_ ->]|[_ ->]] & _)
        | (pid & o & p0 & _ & Hp0 & ->)]]]]; try done; [eauto|].
  exists p0. split; [by eapply list_elem_of_lookup_2 | by eapply preRun_settleProc].
Qed.

Lemma core_chatting l s p k :
  p ∈ coreProcs l s -> chatting p = Some k ->
  p ∈ procs s
  ∨ ((∃ message, l = ChatAsync k message ∨ l = Chat k message)
     ∧ ∃ t, tasks s !! k = Some t ∧ agentAlive t = Some true).
Proof.
  intros Hp Hk.
  apply coreProcs_elem in Hp
    as [Hp | [(j & r & _ & -> & _) | [(j & _ & ->) | [(j & m & t & Hl & Ht & Ha & _)
        | (pid & o & p0 & _ & Hp0 & ->)]]]]; try done; [by left| |].
  - right. destruct Hl as [[-> ->]|[-> ->]]; cbn in Hk; simplify_eq; eauto 10.
  - left. rewrite (chatting_settleProc _ _ _ _ Hk). by eapply list_elem_of_lookup_2.
Qed.

(** The listeners on the step counter of a task. *)
Lemma monitors_count s k ev t lim :
  queueOk s -> stepsInv (tasks s) (procs s) ->
  tasks s !! k = Some t ->
  maxSteps (resourceLimits t) = Some lim -> 0 < lim ->
  let t' := foldl (fun a p => monitorT p k ev a) t (procs s) in
  (status t = queued -> steps (resourceUsage t') = 0)
  ∧ (live t' -> steps (resourceUsage t') < lim)
  ∧ ((∃ p, p ∈ procs s ∧ chatting p = Some k) ->
     steps (resourceUsage t') = steps (resourceUsage t)).
Proof.
  intros Hq [Hf Hlv Hpre Hap Hch] Hk Hm Hpos. cbv zeta.
  destruct (run_or_not (procs s) k) as [(p & input & Hp & ->)|Hno].
  - destruct (Hpre _ k t Hp eq_refl Hk) as [Hnc Hna].
    destruct (ok_running s Hq _ k Hp eq_refl) as (t1 & Ht1 & Hnq).
    assert (t1 = t) as -> by congruence.
    split; [done|]. split.
    + unfold live. rewrite monitors_agentAlive.
      intros Hlive.
      assert (status (foldl (fun a p => monitorT p k ev a) t (procs s)) = running) as Hr.
      { destruct (monitors_status (procs s) k ev t) as [E | [_ E]];
          rewrite E in Hlive |- *; destruct Hlive as [?|[?|?]]; congruence. }
      apply monitors_steps; [done|done| |done].
      intros Hs. apply (Hlv k t lim Hk Hm Hpos). by left.
    + intros (p & Hp' & Hc). destruct (Hap _ p k Hp Hp' eq_refl Hc).
  - destruct (monitors_no_run (procs s) k ev t Hno) as [H1 H2]. cbv zeta in H1, H2.
    split; [|split].
    + intros Hs. rewrite H1. by apply (Hf k t Hk).
    + unfold live. rewrite monitors_agentAlive, H1, H2.
      apply (Hlv k t lim Hk Hm Hpos).
    + done.
Qed.

Lemma stepsInv_core l s s' :
  tasksOk s -> queueOk s -> procsOk s ->
  stepsInv (tasks s) (procs s) ->
  step l s = Some s' ->
  stepsInv (coreTasks l s) (coreProcs l s).
Proof.
  intros Hok Hq Hpr Hinv Hstep.
  pose proof Hinv as [Hf Hlv Hpre Hap Hch].
  assert (∀ k t, tasks s !! k = Some t -> target l s = Some k ->
            steps (resourceUsage (effect l s t)) ≠ steps (resourceUsage t) ->
            ∃ ev, l = AgentEmits k ev) as Hsame.
  { intros k t Hk Htg Hne. destruct (emits_or_not l) as [(i & ev & ->)|Hl].
    - cbn in Htg. simplify_eq. eauto.
    - destruct Hne. by rewrite effect_usage. }
  split.
  - intros k t0 Hk Hs.
    destruct (core_task l s s' k t0 Hstep Hk)
      as [(t & Ht & [-> | [Htg ->]]) | (? & ? & ? & ? & -> & _ & ->)];
      [by eapply Hf| |done].
    assert (status t = queued) as Hst
      by (eapply effect_queued; [apply (ok_chat_previous s Hok)|done]).
    destruct (Hf k t Ht Hst) as [Hna H0]. split.
    + intros Ha. apply effect_agentAlive in Ha as [Ha|Ha]; congruence.
    + destruct (emits_or_not l) as [(i & ev & ->)|Hl].
      * cbn in Htg. simplify_eq. cbn.
        destruct (ok_limits s Hok k t Ht) as [_ [lim Hlim]].
        destruct (decide (0 < lim)) as [Hpos|Hpos].
        -- by apply (monitors_count s k ev t lim Hq Hinv Ht Hlim Hpos).
        -- destruct (monitors_no_run (procs s) k ev t) as [H1 _]; [|by rewrite H1].
           intros p Hp input ->.
           destruct (ok_running s Hq _ k Hp eq_refl) as (t1 & Ht1 & Hnq). congruence.
      * by rewrite effect_usage.
  - intros k t0 lim Hk Hm Hpos Hlive.
    destruct (core_task l s s' k t0 Hstep Hk)
      as [(t & Ht & [-> | [Htg ->]]) | (? & ? & ? & ? & -> & _ & ->)];
      [by eapply Hlv| |by destruct Hlive as [?|[?|?]]].
    rewrite (steps_static _ _ (effect_static cfg sandboxPreviewUrl l s t)) in Hm.
    destruct (emits_or_not l) as [(i & ev & ->)|Hl].
    + cbn in Htg. simplify_eq.
      by apply (monitors_count s k ev t lim Hq Hinv Ht Hm Hpos).
    + rewrite effect_usage by done.
      destruct (effect_live l s k t Htg Hl Hlive)
        as [H | [H | (pid & o & p0 & -> & Hp0 & Hc)]].
      * by eapply Hlv.
      * destruct (Hf k t Ht H) as [_ ->]. done.
      * eapply Hch; [by eapply list_elem_of_lookup_2|done..].
  - intros p k t0 Hp Hpk Hk.
    destruct (core_preRun l s p k Hp Hpk) as (p0 & Hp0 & Hpk0).
    destruct (ok_running s Hq p0 k Hp0 (preRun_busy _ _ Hpk0)) as (t & Ht & Hnq).
    destruct (Hpre p0 k t Hp0 Hpk0 Ht) as [Hnc Hna].
    destruct (core_task l s s' k t0 Hstep Hk)
      as [(t1 & Ht1 & [-> | [Htg ->]]) | (? & ? & ? & ? & -> & Hnone & ->)];
      [by simplify_eq| |congruence].
    assert (t1 = t) as -> by congruence.
    cut (¬ (status (effect l s t) = completed ∨ agentAlive (effect l s t) = Some true));
      [tauto|].
    intros Hdone.
    destruct (effect_completes l s k t Htg Ht Hnc Hna Hdone)
      as (pid & o & p1 & -> & Hp1 & [Hc | [Hr Hnone]]).
    + eapply Hap; [exact Hp0|by eapply list_elem_of_lookup_2|done..].
    + apply list_elem_of_lookup in Hp as [j Hj].
      destruct (coreProcs_run sandboxPreviewUrl _ s j p k Hj (preRun_run _ _ Hpk))
        as (p2 & Hp2 & Hr2).
      assert (j = pid) as -> by (by eapply (run_unique s Hpr)).
      unfold RunnerSpec.coreProcs in Hj. rewrite Hp1 in Hj.
      rewrite list_lookup_insert_eq in Hj by (by eapply lookup_lt_Some).
      congruence.
  - intros p1 p2 k H1 H2 Hp1 Hp2.
    destruct (core_preRun l s p1 k H1 Hp1) as (p0 & Hp0 & Hpk0).
    destruct (core_chatting l s p2 k H2 Hp2) as [Hin | [_ (t & Ht & Ha)]].
    + exact (Hap p0 p2 k Hp0 Hin Hpk0 Hp2).
    + by destruct (Hpre p0 k t Hp0 Hpk0 Ht).
  - intros p k t0 lim Hp Hpk Hk Hm Hpos.
    assert (∃ t, tasks s !! k = Some t ∧ steps (resourceUsage t) < lim
                 ∧ ((∀ p0, p0 ∈ procs s -> chatting p0 ≠ Some k) ->
                    ∃ ev, l = ChatAsync k ev ∨ l = Chat k ev)) as (t & Ht & Hlt & Hnew).
    { destruct (core_chatting l s p k Hp Hpk) as [Hin | [(message & Hl) (t & Ht & Ha)]].
      - destruct (ok_running s Hq p k Hin (chatting_busy _ _ Hpk)) as (t & Ht & _).
        exists t. split; [done|]. split.
        + eapply Hch; [done..| |done].
          destruct (core_task l s s' k t0 Hstep Hk)
            as [(t1 & Ht1 & [-> | [Htg ->]]) | (? & ? & ? & ? & -> & Hnone & ->)];
            [congruence| |congruence].
          assert (t1 = t) as -> by congruence.
          by rewrite (steps_static _ _ (effect_static cfg sandboxPreviewUrl l s t)) in Hm.
        + intros Hno. by destruct (Hno p Hin).
      - exists t. split; [done|]. split; [|eauto].
        eapply Hlv; [done| |done|by right; right].
        destruct (core_task l s s' k t0 Hstep Hk)
          as [(t1 & Ht1 & [-> | [Htg ->]]) | (? & ? & ? & ? & -> & Hnone & ->)];
          [congruence| |congruence].
        assert (t1 = t) as -> by congruence.
        by rewrite (steps_static _ _ (effect_static cfg sandboxPreviewUrl l s t)) in Hm. }
    destruct (core_task l s s' k t0 Hstep Hk)
      as [(t1 & Ht1 & [-> | [Htg ->]]) | (? & ? & ? & ? & -> & Hnone & ->)];
      [congruence| |congruence].
    assert (t1 = t) as -> by congruence.
    destruct (decide (steps (resourceUsage (effect l s t)) = steps (resourceUsage t)))
      as [->|Hne]; [done|].
    destruct (Hsame k t Ht Htg Hne) as [ev ->].
    rewrite (steps_static _ _ (effect_static cfg sandboxPreviewUrl _ s t)) in Hm.
    destruct (monitors_count s k ev t lim Hq Hinv Ht Hm Hpos) as (_ & _ & Hkeep).
    destruct Hne. apply Hkeep.
    destruct (core_chatting _ s p k Hp Hpk) as [Hin | [(message & [?|?]) _]];
      [eauto|done|done].
Qed.

(** ... and after [drainQueue]. *)
Lemma stepsInv_drain (m : gmap string BgTask) (ps : list Proc) popped :
  stepsInv m ps ->
  (∀ q, q ∈ popped -> ∃ t0, m !! qtask q = Some t0 ∧ status t0 = queued) ->
  (∀ p i, p ∈ ps -> busyProc p = Some i -> ∃ t0, m !! i = Some t0 ∧ status t0 ≠ queued) ->
  stepsInv (startAll popped m) (ps ++ map spawnOf popped).
Proof.
  intros [Hf Hlv Hpre Hap Hch] Hpop Hbusy.
  assert (∀ k t', startAll popped m !! k = Some t' ->
            (m !! k = Some t' ∧ k ∉ map qtask popped)
            ∨ (∃ t0, m !! k = Some t0 ∧ status t0 = queued
                     ∧ t' = set_status running t0)) as Hcases.
  { intros k t' Hk. destruct (decide (k ∈ map qtask popped)) as [Hin|Hin].
    - right. rewrite lookup_startAll_in in Hk by done.
      apply list_elem_of_fmap in Hin as (q & -> & Hq).
      destruct (Hpop q Hq) as (t0 & Ht0 & Hs0). rewrite Ht0 in Hk. cbn in Hk.
      simplify_eq. eauto.
    - left. by rewrite lookup_startAll_notin in Hk. }
  assert (∀ p k, p ∈ ps -> busyProc p = Some k -> k ∉ map qtask popped) as Hnot.
  { intros p k Hp Hb (q & -> & Hq)%list_elem_of_fmap.
    destruct (Hbusy p _ Hp Hb) as (t0 & Ht0 & Hne).
    destruct (Hpop q Hq) as (t1 & Ht1 & Hs1). congruence. }
  assert (∀ p, p ∈ ps ++ map spawnOf popped -> chatting p ≠ None -> p ∈ ps) as Hchat.
  { intros p [Hp|(q & -> & _)%list_elem_of_fmap]%elem_of_app; done. }
  split.
  - intros k t' Hk Hs. destruct (Hcases k t' Hk) as [[Ht _] | (t0 & _ & _ & ->)];
      [by eapply Hf|done].
  - intros k t' lim Hk Hm Hpos Hlive.
    destruct (Hcases k t' Hk) as [[Ht _] | (t0 & Ht0 & Hs0 & ->)]; [by eapply Hlv|].
    cbn. destruct (Hf k t0 Ht0 Hs0) as [_ ->]. done.
  - intros p k t' Hp Hpk Hk.
    apply elem_of_app in Hp as [Hp|(q & -> & Hq)%list_elem_of_fmap].
    + destruct (Hcases k t' Hk) as [[Ht _] | (t0 & Ht0 & Hs0 & ->)]; [by eapply Hpre|].
      destruct (Hbusy p k Hp (preRun_busy _ _ Hpk)) as (t1 & Ht1 & Hne). congruence.
    + cbn in Hpk. simplify_eq.
      destruct (Hcases _ t' Hk) as [[_ Hnin] | (t0 & Ht0 & Hs0 & ->)].
      * destruct Hnin. by apply list_elem_of_fmap_2.
      * cbn. split; [done|]. by apply (Hf _ t0 Ht0).
  - intros p1 p2 k H1 H2 Hp1 Hp2.
    assert (p2 ∈ ps) as H2' by (apply Hchat; [done|congruence]).
    apply elem_of_app in H1 as [H1|(q & -> & Hq)%list_elem_of_fmap];
      [exact (Hap p1 p2 k H1 H2' Hp1 Hp2)|].
    cbn in Hp1. simplify_eq.
    apply (Hnot p2 _ H2' (chatting_busy _ _ Hp2)). by apply list_elem_of_fmap_2.
  - intros p k t' lim Hp Hpk Hk Hm Hpos.
    assert (p ∈ ps) as Hp' by (apply Hchat; [done|congruence]).
    destruct (Hcases k t' Hk) as [[Ht _] | (t0 & Ht0 & Hs0 & ->)]; [by eapply Hch|].
    destruct (Hbusy p k Hp' (chatting_busy _ _ Hpk)) as (t1 & Ht1 & Hne). congruence.
Qed.

Lemma stepsInv_step l s s' :
  tasksOk s -> queueOk s -> procsOk s ->
  stepsInv (tasks s) (procs s) ->
  step l s = Some s' ->
  stepsInv (tasks s') (procs s').
Proof.
  intros Hok Hq Hpr Hinv Hstep.
  destruct (coreOk_step cfg sandboxPreviewUrl l s s' Hok Hq Hstep)
    as [_ Hpend _ _ Hrun].
  destruct (step_shape cfg sandboxPreviewUrl l s s' Hstep)
    as [(popped & rest & Hcq & _ & _ & Ht & Hp & _) _].
  rewrite Ht, Hp. apply stepsInv_drain.
  - by eapply stepsInv_core.
  - intros q Hin. apply Hpend. rewrite Hcq. apply elem_of_app. by left.
  - exact Hrun.
Qed.

Lemma reachable_stepsInv s : reachable s -> stepsInv (tasks s) (procs s).
Proof.
  intros Hr.
  cut (tasksOk s ∧ queueOk s ∧ procsOk s ∧ stepsInv (tasks s) (procs s));
    [by intros (_ & _ & _ & ?)|].
  revert s Hr. apply reachable_ind.
  - split; [apply tasksOk_init|]. split; [apply queueOk_init|].
    split; [apply procsOk_init|].
    split; cbn; intros; try done; by inversion H.
  - intros l s s' _ (Hok & Hq & Hpr & Hinv) Hstep.
    split; [by eapply tasksOk_step|]. split; [by eapply queueOk_step|].
    split; [by eapply procsOk_step|]. by eapply stepsInv_step.
Qed.

End Steps.

(** X17: The step limit holds in every execution, chat turns included: a task
    with a positive limit [maxSteps = m] has counted no step while it is
    queued, and fewer than [m] steps while it is running or completed.  (The
    listeners of a chat turn count tool calls and tokens, not steps.) *)
Theorem steps_stay_below_the_limit
    (cfg : BgTaskConfig) (sandboxPreviewUrl : option string -> option string)
    (s : Runner) (k : string) (t : BgTask) (m : Z) :
  reachable cfg sandboxPreviewUrl s ->
  tasks s !! k = Some t ->
  maxSteps (resourceLimits t) = Some m ->
  0 < m ->
  (status t = queued -> steps (resourceUsage t) = 0)
  ∧ (status t = running ∨ status t = completed -> steps (resourceUsage t) < m).
Proof.
  intros Hreach Hk Hm Hpos.
  destruct (reachable_stepsInv cfg sandboxPreviewUrl s Hreach) as [Hf Hlv _ _ _].
  split.
  - intros Hs. by apply (Hf k t Hk).
  - intros Hs. apply (Hlv k t m Hk Hm Hpos). unfold live. tauto.
Qed.

Lemma steps_stay_below_the_limit_witness :
  match run oneAtATime noPreview oneStep init with
  | Some s =>
      ∃ t, tasks s !! "A" = Some t ∧ status t = running ∧ steps (resourceUsage t) < 2
  | None => False
  end.
Proof.
  destruct (run oneAtATime noPreview _ init) as [s|] eqn:E;
    [|vm_compute in E; discriminate E].
  assert (Hreach : reachable oneAtATime noPreview s) by (eexists; exact E).
  assert (Hs : ∃ t, tasks s !! "A" = Some t ∧ status t = running
                 ∧ maxSteps (resourceLimits t) = Some 2).
  { vm_compute in E. injection E as <-. eexists. split; [vm_compute; reflexivity|].
    split; reflexivity. }
  clear E. destruct Hs as (t & Ht & Hst & Hm).
  destruct (steps_stay_below_the_limit oneAtATime noPreview s "A" t 2 Hreach Ht Hm)
    as [_ Hlt]; [lia|].
  exists t. split; [exact Ht|]. split; [exact Hst|]. apply Hlt. by left.
Defined.

(** X18: A chat turn is accepted only for a task whose run has returned from
    [complete] as completed: when [chatAsync] or [chat] goes ahead, the
    task has its agent, it is not queued, and no call of its run is still on
    the way to or inside [complete]. *)
Theorem chat_only_after_the_run
    (cfg : BgTaskConfig) (sandboxPreviewUrl : option string -> option string)
    (s : Runner) (k message : string) :
  reachable cfg sandboxPreviewUrl s ->
  (chatAsync k message s).1 = None ∨ (chat k message s).1 = None ->
  ∃ t, tasks s !! k = Some t
    ∧ agentAlive t = Some true
    ∧ hasAgent s k = true
    ∧ status t ≠ queued
    ∧ ∀ p, p ∈ procs s -> preRun p ≠ Some k.
Proof.
  intros Hreach Hgo.
  destruct (reachable_stepsInv cfg sandboxPreviewUrl s Hreach) as [Hf _ Hpre _ _].
  assert (∃ t, tasks s !! k = Some t ∧ agentAlive t = Some true ∧ hasAgent s k = true)
    as (t & Ht & Ha & Hg).
  { revert Hgo. unfold chatAsync, chat, chatGuard.
    destruct (tasks s !! k) as [t|]; [|by intros [?|?]].
    case_bool_decide as Ha; cbn [negb]; [|by intros [?|?]].
    destruct (hasAgent s k); cbn [negb]; [eauto|by intros [?|?]]. }
  exists t. split; [done|]. split; [done|]. split; [done|]. split.
  - intros Hq. by destruct (Hf k t Ht Hq).
  - intros p Hp Hk. by destruct (Hpre p k t Hp Hk Ht).
Qed.

Lemma chat_only_after_the_run_witness :
  match run oneAtATime noPreview (runToCompletion "A" 0 None) init with
  | Some s => ∃ t, tasks s !! "A" = Some t ∧ agentAlive t = Some true
  | None => False
  end.
Proof.
  destruct (run oneAtATime noPreview _ init) as [s|] eqn:E;
    [|vm_compute in E; discriminate E].
  assert (Hreach : reachable oneAtATime noPreview s) by (eexists; exact E).
  assert (Hgo : (chatAsync "A" "one more thing" s).1 = None)
    by (vm_compute in E; injection E as <-; vm_compute; reflexivity).
  clear E.
  destruct (chat_only_after_the_run oneAtATime noPreview s "A" "one more thing"
              Hreach (or_introl Hgo)) as (t & Ht & Ha & _).
  exists t. split; [exact Ht|exact Ha].
Defined.

(** ** The idle timer *)

Section Timers.

Variable cfg : BgTaskConfig.
Variable sandboxPreviewUrl : option string -> option string.

Abbreviation coreProcs := (coreProcs sandboxPreviewUrl).
Abbreviation step := (step cfg sandboxPreviewUrl).
Abbreviation reachable := (reachable cfg sandboxPreviewUrl).

Lemma timers_dispatchAll popped s :
  idleTimers (dispatchAll popped s) = idleTimers s.
Proof.
  revert s. induction popped as [|q popped IH]; intros s; [done|].
  rewrite dispatchAll_cons, IH. unfold dispatch. by rsimpl.
Qed.

Lemma timers_drainQueue s : idleTimers (drainQueue cfg s) = idleTimers s.
Proof.
  destruct (drainQueue_spec cfg s) as (popped & rest & _ & ->).
  rsimpl. apply timers_dispatchAll.
Qed.

Lemma timers_handleResourceLimit i limitType s :
  idleTimers (handleResourceLimit i limitType s) = idleTimers s.
Proof. unfold handleResourceLimit. repeat case_match; by rsimpl. Qed.

(** Only the listeners of a run arm the timer. *)
Lemma timers_monitorOf p i ev s k :
  k ∈ idleTimers (monitorOf p i ev s) ->
  k ∈ idleTimers s ∨ (k = i ∧ ∃ input, p = PComplete i input).
Proof.
  unfold monitorOf, runMonitor, chatMonitor.
  destruct p; auto.
  - destruct (String.eqb_spec taskId i) as [->|]; [|auto].
    destruct ev; rsimpl; repeat case_match; rewrite ?timers_handleResourceLimit; rsimpl;
      (intros [->%elem_of_singleton|?]%elem_of_union; [right; eauto | by left]).
  - case_match; [|auto]. destruct ev; rsimpl; auto.
  - case_match; [|auto]. destruct ev; rsimpl; auto.
  - case_match; [|auto]. destruct ev; rsimpl; auto.
  - case_match; [|auto]. destruct ev; rsimpl; auto.
Qed.

Lemma timers_monitors ps i ev s k :
  k ∈ idleTimers (foldl (fun a p => monitorOf p i ev a) s ps) ->
  k ∈ idleTimers s ∨ (k = i ∧ ∃ input, PComplete i input ∈ ps).
Proof.
  revert s. induction ps as [|p ps IH]; intros s; [by left|].
  cbn [foldl]. intros [H|(-> & input & Hin)]%IH.
  - apply timers_monitorOf in H as [H|(-> & input & ->)]; [by left|].
    right. split; [done|]. exists input. by left.
  - right. split; [done|]. exists input. by right.
Qed.

Lemma timers_finallyBlock pid i subAgent s k :
  k ∈ idleTimers (finallyBlock cfg pid i subAgent s) -> k ∈ idleTimers s ∧ (k ≠ i).
Proof.
  unfold finallyBlock, announce. rsimpl.
  repeat case_match; rsimpl; rewrite ?timers_drainQueue; rsimpl;
    by intros [? ?%not_elem_of_singleton]%elem_of_difference.
Qed.

Lemma timers_afterLoop i text s k :
  k ∈ idleTimers (afterLoop sandboxPreviewUrl i text s) -> k ∈ idleTimers s.
Proof.
  unfold afterLoop. rsimpl. repeat case_match; rsimpl;
    by intros [? _]%elem_of_difference.
Qed.

Lemma timers_catchBlock i err s : idleTimers (catchBlock i err s) = idleTimers s.
Proof. unfold catchBlock. repeat case_match; by rsimpl. Qed.

(** The timers after a suspended call continues: the one of a run is armed
    when the agent is created and stays while the pause-loop goes on. *)
Lemma timers_settle pid o p0 s s' k :
  settle cfg sandboxPreviewUrl pid o s = Some s' ->
  procs s !! pid = Some p0 ->
  k ∈ idleTimers s' ->
  (k ∈ idleTimers s ∧ ∀ input, p0 ≠ PComplete k input)
  ∨ (∃ input, settleProc sandboxPreviewUrl p0 o s = PComplete k input).
Proof.
  unfold settle. intros Hs Hp0. rewrite Hp0 in Hs.
  destruct p0, o; simplify_eq; rsimpl.
  all: try (unfold announce, inject, cancelInject, chatAsyncDone, chatAsyncFailed,
              chatInject, chatDone, chatFailed, sandboxDisposed;
            repeat case_match; rsimpl; rewrite ?timers_drainQueue; rsimpl;
            intros Hk; left; split; done).
  all: try match goal with
       | |- _ ∈ idleTimers (finallyBlock _ _ _ _ (catchBlock _ _ _)) -> _ =>
           intros [Hk Hne]%timers_finallyBlock; rewrite timers_catchBlock in Hk;
           left; split; [done|]; intros input' E;
           first [discriminate E | injection E; congruence]
       | |- _ ∈ idleTimers (finallyBlock _ _ _ _ (afterLoop _ _ _ _)) -> _ =>
           intros [Hk%timers_afterLoop Hne]%timers_finallyBlock;
           left; split; [done|]; intros input' E;
           first [discriminate E | injection E; congruence]
       end.
  - unfold agentCreated. rsimpl.
    intros [->%elem_of_singleton|Hk]%elem_of_union; [right; by eexists|by left].
  - unfold paused. destruct (tasks s !! taskId) as [task|] eqn:Et.
    + destruct (settled (status task)) eqn:Est.
      * intros [Hk%timers_afterLoop Hne]%timers_finallyBlock.
        left. split; [done|congruence].
      * destruct (pendingMessages s !! taskId) as [instruction|] eqn:Epm.
        -- rsimpl. intros Hk. destruct (decide (k = taskId)) as [->|Hne].
           ++ right. exists instruction. unfold settleProc. by rewrite Et, Est, Epm.
           ++ left. split; [done|congruence].
        -- intros [Hk%timers_afterLoop Hne]%timers_finallyBlock.
           left. split; [done|congruence].
    + intros Hk. destruct (decide (k = taskId)) as [->|Hne].
      * right. exists currentInput. unfold settleProc. by rewrite Et.
      * left. split; [done|congruence].
Qed.

(** An armed timer belongs to a run that is suspended in [complete]. *)
Lemma timers_step l s s' :
  (∀ k, k ∈ idleTimers s -> ∃ input, PComplete k input ∈ procs s) ->
  step l s = Some s' ->
  ∀ k, k ∈ idleTimers s' -> ∃ input, PComplete k input ∈ procs s'.
Proof.
  intros Hinv Hstep k Hk.
  destruct (step_shape cfg sandboxPreviewUrl l s s' Hstep)
    as [(popped & rest & _ & _ & _ & _ & Hp & _) _].
  assert (∀ p, p ∈ coreProcs l s -> p ∈ procs s') as Hcore.
  { intros p Hin. rewrite Hp. apply elem_of_app. by left. }
  assert ((∀ pid o, l ≠ Settle pid o) -> ∀ p, p ∈ procs s -> p ∈ procs s') as Hkeep.
  { intros Hl p Hin. apply Hcore. unfold RunnerSpec.coreProcs.
    destruct l; try done; try (apply elem_of_app; by left). by destruct (Hl pid o). }
  destruct l; cbn [BgTaskRunner.step] in Hstep; simplify_eq.
  - destruct (Hinv k Hk) as [input Hin]. exists input. by apply Hkeep.
  - destruct (tasks s !! newId); [done|]. simplify_eq.
    unfold start in Hk. rewrite timers_drainQueue in Hk. revert Hk. rsimpl. intros Hk.
    destruct (Hinv k Hk) as [input Hin]. exists input. by apply Hkeep.
  - assert (k ∈ idleTimers s) as Hk'.
    { revert Hk. unfold cancel. repeat case_match; by rsimpl. }
    destruct (Hinv k Hk') as [input Hin]. exists input. by apply Hkeep.
  - assert (k ∈ idleTimers s) as Hk'.
    { revert Hk. unfold sendMessage. repeat case_match; by rsimpl. }
    destruct (Hinv k Hk') as [input Hin]. exists input. by apply Hkeep.
  - assert (k ∈ idleTimers s) as Hk'.
    { revert Hk. unfold disposeSandbox. repeat case_match; by rsimpl. }
    destruct (Hinv k Hk') as [input Hin]. exists input. by apply Hkeep.
  - assert (k ∈ idleTimers s) as Hk'.
    { revert Hk. unfold disposeAgent. repeat case_match; by rsimpl. }
    destruct (Hinv k Hk') as [input Hin]. exists input. by apply Hkeep.
  - assert (k ∈ idleTimers s) as Hk'.
    { revert Hk. unfold chatAsync, chatGuard, chatEnter.
      repeat case_match; simplify_eq; by rsimpl. }
    destruct (Hinv k Hk') as [input Hin]. exists input. by apply Hkeep.
  - assert (k ∈ idleTimers s) as Hk'.
    { revert Hk. unfold chat, chatGuard, chatEnter.
      repeat case_match; simplify_eq; by rsimpl. }
    destruct (Hinv k Hk') as [input Hin]. exists input. by apply Hkeep.
  - case_bool_decide; [|done]. simplify_eq.
    assert (k ∈ idleTimers s) as Hk'.
    { revert Hk. unfold handleIdleTimeout. repeat case_match; rsimpl;
        by intros [? _]%elem_of_difference. }
    destruct (Hinv k Hk') as [input Hin]. exists input. by apply Hkeep.
  - unfold agentEmits in Hk. apply timers_monitors in Hk as [Hk|(-> & input & Hin)].
    + destruct (Hinv k Hk) as [input Hin]. exists input. by apply Hkeep.
    + exists input. by apply Hkeep.
  - destruct (procs s !! pid) as [p0|] eqn:Ep0;
      [|unfold settle in Hstep; by rewrite Ep0 in Hstep].
    assert (settleProc sandboxPreviewUrl p0 o s ∈ procs s') as Hnew.
    { apply Hcore. unfold RunnerSpec.coreProcs. rewrite Ep0.
      apply list_elem_of_lookup. exists pid.
      apply list_lookup_insert_eq. by eapply lookup_lt_Some. }
    destruct (timers_settle pid o p0 s s' k Hstep Ep0 Hk) as [[Hk' Hne]|[input E]].
    + destruct (Hinv k Hk') as [input Hin]. exists input. apply Hcore.
      unfold RunnerSpec.coreProcs. rewrite Ep0.
      apply list_elem_of_lookup in Hin as [j Hj]. apply list_elem_of_lookup. exists j.
      rewrite list_lookup_insert_ne; [done|]. intros <-. rewrite Ep0 in Hj.
      injection Hj as ->. by destruct (Hne input).
    + exists input. by rewrite <- E.
Qed.

Lemma reachable_timers s k :
  reachable s -> k ∈ idleTimers s -> ∃ input, PComplete k input ∈ procs s.
Proof.
  intros Hr. revert k. revert s Hr.
  apply (reachable_ind cfg sandboxPreviewUrl
           (fun s => ∀ k, k ∈ idleTimers s -> ∃ input, PComplete k input ∈ procs s)).
  - intros k Hk. cbn in Hk. by apply not_elem_of_empty in Hk.
  - intros l s s' _ IH Hstep. by eapply timers_step.
Qed.

End Timers.

(** X19: No stale idle timer: a timer that is armed belongs to a run that is
    suspended in [complete].  So when it fires, the task is neither queued
    nor completed, and no chat turn with it is under way: the idle timeout
    never hits a task after its run has ended. *)
Theorem idle_timer_only_during_the_run
    (cfg : BgTaskConfig) (sandboxPreviewUrl : option string -> option string)
    (s : Runner) (k : string) :
  reachable cfg sandboxPreviewUrl s ->
  k ∈ idleTimers s ->
  (∃ input, PComplete k input ∈ procs s)
  ∧ (∃ t, tasks s !! k = Some t ∧ status t ≠ queued ∧ status t ≠ completed)
  ∧ (∀ p, p ∈ procs s -> chatting p ≠ Some k).
Proof.
  intros Hreach Hk.
  destruct (reachable_timers cfg sandboxPreviewUrl s k Hreach Hk) as [input Hin].
  destruct (reachable_queueOk cfg sandboxPreviewUrl s Hreach) as [_ Hq].
  destruct (reachable_stepsInv cfg sandboxPreviewUrl s Hreach) as [_ _ Hpre Hap _].
  destruct (ok_running s Hq _ k Hin eq_refl) as (t & Ht & Hnq).
  destruct (Hpre _ k t Hin eq_refl Ht) as [Hnc _].
  split; [eauto|]. split; [eauto|].
  intros p Hp Hc. exact (Hap _ p k Hin Hp eq_refl Hc).
Qed.

Lemma idle_timer_only_during_the_run_witness :
  match run oneAtATime noPreview oneStep init with
  | Some s => "A" ∈ idleTimers s ∧ ∃ input, PComplete "A" input ∈ procs s
  | None => False
  end.
Proof.
  destruct (run oneAtATime noPreview _ init) as [s|] eqn:E;
    [|vm_compute in E; discriminate E].
  assert (Hreach : reachable oneAtATime noPreview s) by (eexists; exact E).
  assert (Hk : "A" ∈ idleTimers s).
  { vm_compute in E. injection E as <-. apply (bool_decide_unpack _). by vm_compute. }
  clear E. split; [exact Hk|].
  exact (proj1 (idle_timer_only_during_the_run oneAtATime noPreview s "A" Hreach Hk)).
Defined.
End BgTaskRunnerProps.

(* ===================================================================== *)
(** * Properties of InjectionQueue *)
(* ===================================================================== *)

Module InjectionQueueProps.
Import InjectionQueue QueueSpec.

Lemma startsOf_app ms1 ms2 : startsOf (ms1 ++ ms2) = startsOf ms1 ++ startsOf ms2.
Proof. apply omap_app. Qed.

Lemma enqueuedOf_app ls1 ls2 : enqueuedOf (ls1 ++ ls2) = enqueuedOf ls1 ++ enqueuedOf ls2.
Proof. apply omap_app. Qed.

Lemma accounted_init : accounted [] init.
Proof. split; [by exists []|done|done]. Qed.

Lemma accounted_loop items s :
  (∃ done, items = done ++ queue s
     ∧ chatStreamCalls s = map BgTaskRunner.message done
     ∧ startsOf (sent s) = map metadata done) ->
  processing s = true ->
  accounted items (loop s).
Proof.
  intros (done & Hi & Hc & Hs) Hp. unfold loop.
  destruct (queue s) as [|item rest] eqn:Eq.
  - split; cbn; [by exists done|done|done].
  - split; cbn.
    + exists done. by destruct (ChatLock.locked (chatLock s)).
    + rewrite Hp. by destruct (ChatLock.locked (chatLock s)).
    + by destruct (ChatLock.locked (chatLock s)).
Qed.

Lemma accounted_step items l s s' :
  accounted items s -> step l s = Some s' ->
  accounted (items ++ enqueuedOf [l]) s'.
Proof.
  intros [(done & Hi & Hc & Hs) Hp Hidle] Hstep.
  destruct l as [item|c| | | |ev|err]; cbn in Hstep; cbn [enqueuedOf omap];
    rewrite ?app_nil_r.
  - injection Hstep as <-. unfold enqueue, processNext. cbn [processing queue].
    destruct (processing s) eqn:Ep; cbn [orb].
    + split; cbn; [|done|].
      * exists done. by rewrite Hi, <- !app_assoc.
      * intros Hw. by rewrite Hw in Hp.
    + assert (worker s = WIdle) as Hw by (by destruct (worker s)).
      rewrite (Hidle Hw). rewrite Hw, (Hidle Hw) in Hi. cbn in Hi.
      rewrite app_nil_r in Hi. cbn [app].
      rewrite bool_decide_eq_false_2 by done.
      apply accounted_loop; [|done]. exists done. cbn. by rewrite Hi.
  - destruct (Nat.eqb c workerId); [done|]. injection Hstep as <-.
    split; cbn; [by exists done|done|done].
  - injection Hstep as <-. split; cbn; [by exists done|done|done].
  - injection Hstep as <-. unfold lockResume. split; cbn.
    + exists done. split; [|done]. rewrite Hi.
      destruct (ChatLock.woken (chatLock s)), (worker s); try done.
      by destruct (_ && _).
    + rewrite Hp.
      destruct (ChatLock.woken (chatLock s)), (worker s); try done.
      by destruct (_ && _).
    + intros Hw. apply Hidle.
      destruct (ChatLock.woken (chatLock s)), (worker s); try done.
      by destruct (_ && _).
  - destruct (worker s) as [|item|item|item text] eqn:Ew; try done.
    injection Hstep as <-. unfold injectAndStream. split; cbn; [|by rewrite Hp|done].
    exists (done ++ [item]). cbn in Hi.
    rewrite Hi, Hc, startsOf_app, Hs, !map_app, <- !app_assoc. done.
  - destruct (worker s) as [|item|item|item text] eqn:Ew; try done.
    injection Hstep as <-.
    destruct ev; (split; cbn; rewrite ?Ew;
      [exists done; rewrite ?startsOf_app, ?app_nil_r; cbn; rewrite ?app_nil_r; done
      |cbn; by rewrite Hp|done]).
  - destruct (worker s) as [|item|item|item text] eqn:Ew; try done.
    injection Hstep as <-. unfold afterStream.
    apply accounted_loop; [|by destruct err; cbn; rewrite Hp].
    exists done. by destruct err; cbn.
Qed.

Lemma accounted_run ls : ∀ items s s',
  accounted items s -> run ls s = Some s' ->
  accounted (items ++ enqueuedOf ls) s'.
Proof.
  induction ls as [|l ls IH]; intros items s s' Hacc Hrun; cbn in Hrun.
  - injection Hrun as <-. by rewrite app_nil_r.
  - destruct (step l s) as [s1|] eqn:E; [|done].
    change (l :: ls) with ([l] ++ ls). rewrite enqueuedOf_app, app_assoc.
    eapply IH; [|done]. by eapply accounted_step.
Qed.

(** X20: The items are delivered once each and in the order of their arrival:
    at any moment the calls of [chatStream] made so far, the item in hand
    and the queue are exactly the enqueued items, in order, and one
    [orchestrator_start] with the task and the type of the item was sent for
    each call.  [processing] is set exactly while [processNext] runs, and
    when it does not run nothing is left in the queue: every item was
    handed to [chatStream]. *)
Theorem injections_are_delivered_in_order (ls : list Label) (s : t) :
  run ls init = Some s ->
  (∃ done,
     enqueuedOf ls = done ++ current (worker s) ++ queue s
     ∧ chatStreamCalls s = map BgTaskRunner.message done
     ∧ startsOf (sent s) = map metadata done)
  ∧ (processing s = false ↔ worker s = WIdle)
  ∧ (processing s = false ->
     queue s = [] ∧ chatStreamCalls s = map BgTaskRunner.message (enqueuedOf ls)).
Proof.
  intros Hrun.
  destruct (accounted_run ls [] init s accounted_init Hrun) as [Hd Hp Hidle].
  cbn in Hd. split; [done|].
  assert (processing s = false ↔ worker s = WIdle) as Hiff.
  { rewrite Hp. by destruct (worker s). }
  split; [done|]. intros Hw%Hiff. split; [auto|].
  destruct Hd as (done & Hi & Hc & _). rewrite Hw, (Hidle Hw) in Hi.
  cbn in Hi. rewrite app_nil_r in Hi. by rewrite Hi.
Qed.

Lemma injections_are_delivered_in_order_witness :
  let a := BgTaskRunner.mkItem (BgTaskRunner.buildChatMessage
             (BgTaskRunner.newTask (BgTaskRunner.mkConfig 1 1 1 1) "A" "executor" "p" "d" None)
             (Some "hello") None) "A" BgTaskRunner.chat_result in
  let b := BgTaskRunner.mkItem (BgTaskRunner.buildChatMessage
             (BgTaskRunner.newTask (BgTaskRunner.mkConfig 1 1 1 1) "B" "executor" "p" "d" None)
             None (Some "boom")) "B" BgTaskRunner.chat_failed in
  match run [Enqueue a; Enqueue b; Continue; Emits (text_chunk "ok"); StreamEnds None;
             Continue; StreamEnds (Some "lost")] init with
  | Some s =>
      processing s = false
      ∧ chatStreamCalls s = [BgTaskRunner.message a; BgTaskRunner.message b]
  | None => False
  end.
Proof.
  intros a b.
  destruct (run _ init) as [s|] eqn:E; [|vm_compute in E; discriminate E].
  assert (processing s = false) as Hp
    by (vm_compute in E; injection E as <-; reflexivity).
  destruct (injections_are_delivered_in_order _ s E) as (_ & _ & H).
  split; [exact Hp|]. exact (proj2 (H Hp)).
Defined.

Lemma exclusive_init : exclusive false init.
Proof. by split. Qed.

Lemma parked_release l :
  length (filter (fun c => c = workerId)
            (ChatLock.waiters (ChatLock.release l) ++ ChatLock.woken (ChatLock.release l)))
  = length (filter (fun c => c = workerId) (ChatLock.waiters l ++ ChatLock.woken l)).
Proof.
  unfold ChatLock.release. destruct (ChatLock.waiters l) as [|w ws]; cbn [ChatLock.waiters ChatLock.woken]; [done|].
  rewrite !filter_app, !length_app, (filter_cons _ w ws), (filter_cons _ w []).
  destruct (decide (w = workerId)); cbn; lia.
Qed.

Lemma locked_release l : ChatLock.locked (ChatLock.release l) = false.
Proof. unfold ChatLock.release. by destruct (ChatLock.waiters l). Qed.

Lemma exclusive_loop s :
  processing s = true ->
  ChatLock.locked (chatLock s) = false ->
  length (filter (fun c => c = workerId)
            (ChatLock.waiters (chatLock s) ++ ChatLock.woken (chatLock s))) = 0%nat ->
  exclusive false (loop s).
Proof.
  intros Hp Hl Hn. unfold loop. destruct (queue s) as [|item rest].
  - by split.
  - rewrite Hl. unfold ChatLock.acquire, ChatLock.enter. rewrite Hl.
    split; cbn; done.
Qed.

Lemma exclusive_step l s s' held :
  exclusive held s ->
  step l s = Some s' ->
  (l = Release -> held = true) ->
  exclusive (match l with Release => false | _ => held || otherTakes l s end) s'.
Proof.
  intros [Hp Hl H1 Hn] Hstep Hrel.
  destruct l as [item|c| | | |ev|err]; cbn in Hstep; cbn [otherTakes];
    rewrite ?orb_false_r.
  - injection Hstep as <-.
    unfold enqueue, processNext. cbn [processing queue].
    destruct (processing s) eqn:Ep; cbn [orb]; [by split|].
    rewrite bool_decide_eq_false_2 by (by destruct (queue s)).
    assert (worker s = WIdle) as Hw by (by destruct (worker s)).
    rewrite Hw in Hl, Hn, H1. cbn in Hl, Hn. unfold loop. cbn [queue chatLock processing].
    destruct (queue s ++ [item]) as [|item' rest] eqn:Eq;
      [by destruct (queue s)|].
    unfold ChatLock.acquire, ChatLock.enter. rewrite Hl.
    destruct held; split; cbn; try done.
    rewrite <- app_assoc, (Permutation_app_comm [workerId]), app_assoc, filter_app, length_app.
    rewrite Hn. done.
  - destruct (Nat.eqb_spec c workerId) as [|Hc]; [done|]. injection Hstep as <-.
    unfold setLock, ChatLock.acquire, ChatLock.enter.
    destruct (ChatLock.locked (chatLock s)) eqn:El; split; cbn; rewrite ?El; try done.
    + rewrite Hl. by rewrite orb_false_r.
    + by rewrite orb_false_r.
    + rewrite <- Hn, <- app_assoc, !filter_app, !length_app.
      rewrite (filter_cons_False _ c) by done. cbn. lia.
    + symmetry in Hl. apply orb_false_iff in Hl as [-> ->]. done.
    + symmetry in Hl. apply orb_false_iff in Hl as [-> ->]. done.
  - injection Hstep as <-. rewrite (Hrel eq_refl) in H1.
    rewrite andb_true_r in H1.
    split; unfold setLock; cbn [processing worker chatLock];
      rewrite ?locked_release, ?parked_release, ?H1; done.
  - injection Hstep as <-. unfold lockResume, ChatLock.resume.
    destruct (ChatLock.woken (chatLock s)) as [|c rest] eqn:Ew.
    { rewrite orb_false_r. split; cbn; rewrite ?Ew; done. }
    unfold ChatLock.enter. cbn [ChatLock.locked ChatLock.waiters ChatLock.woken ChatLock.acquired].
    rewrite filter_app, length_app, filter_cons in Hn.
    destruct (ChatLock.locked (chatLock s)) eqn:El.
    + rewrite !andb_false_r, orb_false_r.
      split; cbn [processing worker chatLock ChatLock.locked ChatLock.waiters
                  ChatLock.woken].
      * rewrite Hp. by destruct (worker s).
      * rewrite Hl. by destruct (worker s).
      * rewrite <- H1. by destruct (worker s).
      * rewrite <- app_assoc, !filter_app, !length_app, (filter_cons _ c []).
        destruct (decide (c = workerId)), (worker s); cbn in *; lia.
    + symmetry in Hl. apply orb_false_iff in Hl as [Hh ->].
      rewrite !andb_true_r. cbn [orb].
      destruct (Nat.eqb_spec c workerId) as [->|Hc].
      * rewrite decide_True in Hn by done. cbn [length] in Hn.
        destruct (worker s) as [|item|item|item text] eqn:Ewk; try lia.
        split; cbn; try done.
        rewrite filter_app, length_app. lia.
      * rewrite decide_False in Hn by done.
        split; cbn [processing worker chatLock ChatLock.locked ChatLock.waiters
                    ChatLock.woken negb].
        -- rewrite Hp. by destruct (worker s).
        -- destruct (worker s); cbn in *; done.
        -- destruct (worker s); cbn in *; done.
        -- rewrite filter_app, length_app. rewrite Hn. by destruct (worker s).
  - destruct (worker s) as [|item|item|item text] eqn:Ew; try done.
    injection Hstep as <-. split; cbn; rewrite ?Hl; done.
  - destruct (worker s) as [|item|item|item text] eqn:Ew; try done.
    injection Hstep as <-.
    destruct ev; split; cbn; rewrite ?Ew, ?Hl; done.
  - destruct (worker s) as [|item|item|item text] eqn:Ew; try done.
    injection Hstep as <-. cbn in H1. rewrite H1. unfold afterStream.
    apply exclusive_loop.
    + destruct err; cbn; by rewrite Hp.
    + destruct err; cbn; apply locked_release.
    + destruct err; cbn [chatLock]; by rewrite parked_release.
Qed.

Lemma exclusive_run ls : ∀ s s' held h,
  exclusive held s -> run ls s = Some s' -> others held ls s = Some h ->
  exclusive h s'.
Proof.
  induction ls as [|l ls IH]; intros s s' held h Hex Hrun Ho; cbn in Hrun, Ho.
  - by simplify_eq.
  - destruct (step l s) as [s1|] eqn:E; [|done].
    assert (l = Release -> held = true) as Hrel.
    { intros ->. by destruct held. }
    pose proof (exclusive_step l s s1 held Hex E Hrel) as Hex1.
    destruct l; try (eapply IH; [exact Hex1|done|done]).
    destruct held; [|done]. eapply IH; [exact Hex1|done|done].
Qed.

(** X21: Mutual exclusion between the queue and the other users of the lock, as
    long as these call [release()] only while they hold it: the lock is
    locked exactly while [processNext] or another user holds it, and while
    [processNext] holds it (from the return of its [acquire()] to its
    [release()], so during every [chatStream]) no other user does. *)
Theorem lock_is_exclusive (ls : list Label) (s : t) (held : bool) :
  run ls init = Some s ->
  others false ls init = Some held ->
  ChatLock.locked (chatLock s) = holds (worker s) || held
  ∧ (holds (worker s) = true -> held = false).
Proof.
  intros Hrun Ho.
  destruct (exclusive_run ls init s false held exclusive_init Hrun Ho) as [_ Hl H1 _].
  split; [done|]. intros Hh. rewrite Hh in H1. by destruct held.
Qed.

Lemma lock_is_exclusive_witness :
  let a := BgTaskRunner.mkItem (BgTaskRunner.buildChatMessage
             (BgTaskRunner.newTask (BgTaskRunner.mkConfig 1 1 1 1) "A" "executor" "p" "d" None)
             (Some "hello") None) "A" BgTaskRunner.chat_result in
  match run [Acquire 1; Enqueue a; Acquire 2; Release; Resume; Resume; Continue]%nat init with
  | Some s => ChatLock.locked (chatLock s) = true ∧ worker s = WStream a ""
  | None => False
  end.
Proof.
  intros a.
  destruct (run _ init) as [s|] eqn:E; [|vm_compute in E; discriminate E].
  assert (worker s = WStream a "") as Hw
    by (vm_compute in E; injection E as <-; reflexivity).
  destruct (lock_is_exclusive _ s false E) as [Hl _]; [reflexivity|].
  rewrite Hw in Hl. split; [exact Hl|exact Hw].
Defined.

(** X22: The next injection overtakes whoever waits for the lock: when a stream
    ends with an item left in the queue, [processNext] releases the lock and
    takes it again in the same turn, so the waiter that [release()] has woken
    finds the lock taken and parks again, behind the others. *)
Theorem next_injection_overtakes_the_waiters
    (s : t) (item next : InjectionItem) (fullText : string) (rest : list InjectionItem)
    (w : ChatLock.Caller) (ws : list ChatLock.Caller) (err : option string) :
  worker s = WStream item fullText ->
  queue s = next :: rest ->
  ChatLock.waiters (chatLock s) = w :: ws ->
  ChatLock.woken (chatLock s) = [] ->
  ∃ s', run [StreamEnds err; Resume] s = Some s'
    ∧ worker s' = WAcquired next
    ∧ queue s' = rest
    ∧ ChatLock.locked (chatLock s') = true
    ∧ ChatLock.waiters (chatLock s') = ws ++ [w]
    ∧ ChatLock.woken (chatLock s') = []
    ∧ ChatLock.acquired (chatLock s') = ChatLock.acquired (chatLock s) ++ [workerId].
Proof.
  intros Hw Hq Hwait Hwoken. eexists. split.
  - cbn. rewrite Hw. reflexivity.
  - unfold lockResume, afterStream, loop, ChatLock.release, ChatLock.resume,
      ChatLock.acquire, ChatLock.enter.
    destruct err; cbn; rewrite Hq, Hwait, Hwoken; cbn; done.
Qed.

Lemma next_injection_overtakes_the_waiters_witness :
  let a := BgTaskRunner.mkItem (BgTaskRunner.buildChatMessage
             (BgTaskRunner.newTask (BgTaskRunner.mkConfig 1 1 1 1) "A" "executor" "p" "d" None)
             (Some "hello") None) "A" BgTaskRunner.chat_result in
  match run [Enqueue a; Enqueue a; Continue; Acquire 7%nat] init with
  | Some s =>
      ∃ s', run [StreamEnds None; Resume] s = Some s'
        ∧ worker s' = WAcquired a
        ∧ ChatLock.waiters (chatLock s') = [7%nat]
  | None => False
  end.
Proof.
  intros a.
  destruct (run _ init) as [s|] eqn:E; [|vm_compute in E; discriminate E].
  assert (worker s = WStream a "" ∧ queue s = [a]
          ∧ ChatLock.waiters (chatLock s) = [7%nat]
          ∧ ChatLock.woken (chatLock s) = []) as (H1 & H2 & H3 & H4)
    by (vm_compute in E; injection E as <-; repeat split).
  clear E.
  destruct (next_injection_overtakes_the_waiters s a a "" [] 7%nat [] None H1 H2 H3 H4)
    as (s' & Hrun & Hw & _ & _ & Hwait & _).
  exists s'. split; [exact Hrun|]. split; [exact Hw|exact Hwait].
Defined.

End InjectionQueueProps.
